(** * go-scraper: a shallow embedding of the site crawler

    The development follows the Go sources file by file:
    - [resolve_and_clean_url.go]: [ResolveAndCleanURL], [cleanPath];
    - [robots_checker.go]: [RobotsChecker], [LoadRobots], [IsAllowed],
      [NewRobotsChecker];
    - [sitemap.go], [extract_links.go], [page_fetcher.go]: the stateless
      collaborators;
    - [site_crawler.go]: [SiteCrawler] and its methods.

    Pure functions are Rocq functions.  Code that touches the crawler's
    shared objects (the [sync.Map] ledger, the two channels, the two
    [sync.WaitGroup]s, the [context.Context]) or the outside world (HTTP,
    post-processors) is a program of the monad [Prog], whose operations are
    the atomic steps of the Go runtime; goroutines are threads of a pool that
    a schedule interleaves one operation at a time. *)

From Stdlib Require Import ZArith Ascii String List Bool Lia.
From stdpp Require Import base gmap sets list strings.

Open Scope Z_scope.
Open Scope string_scope.

(** ** Go values *)

(** A Go [error] value; [nil] is the absence of one. *)
Definition error := string.

(** A Go result pair [(T, error)]. *)
Inductive result (A : Type) : Type :=
| Ok (a : A)
| Err (e : error).
Arguments Ok {A} a.
Arguments Err {A} e.

Definition is_ok {A} (r : result A) : bool :=
  match r with Ok _ => true | Err _ => false end.

(** [net/url.URL], with the fields the crawler reads or writes. *)
Record URL := mkURL {
  Scheme : string;
  Opaque : string;
  Host : string;
  Path : string;
  RawQuery : string;
  Fragment : string
}.

(** [u.IsAbs()] *)
Definition IsAbs (u : URL) : bool := negb (String.eqb (Scheme u) "").

Definition with_Fragment (u : URL) (f : string) : URL :=
  mkURL (Scheme u) (Opaque u) (Host u) (Path u) (RawQuery u) f.

Definition with_Path (u : URL) (p : string) : URL :=
  mkURL (Scheme u) (Opaque u) (Host u) p (RawQuery u) (Fragment u).

(** [golang.org/x/net/html.Node], as the link extractor walks it. *)
Inductive NodeType := ErrorNode | TextNode | DocumentNode | ElementNode
                    | CommentNode | DoctypeNode.

Record Attribute := mkAttr { Key : string; Val : string }.

#[warnings="-register-all"]
Inductive Node := mkNode {
  Type_ : NodeType;
  Data : string;
  Attr : list Attribute;
  Children : list Node
}.

(** [github.com/temoto/robotstxt]: the parsed policy.  A rule is a literal
    path prefix with its verdict; rules compiled to a regular expression
    (paths with [*] or [$]) are not part of this model. *)
Record rule := mkRule { path : string; allow : bool }.
Record Group := mkGroup { rules : list rule }.
Record RobotsData := mkRobotsData {
  groups : gmap string Group;
  allowAll : bool;
  disallowAll : bool
}.

(** The sitemap document of [sitemap.go]. *)
Record UrlEntry := mkUrlEntry { Loc : string }.
Record UrlSet := mkUrlSet { URLs : list UrlEntry }.

(** ** The libraries the crawler is linked against

    The parsers and printers of the Go standard library and of the two
    third-party packages are not part of the repository; the crawler's code is
    embedded over any implementation of them. *)
Class GoLib := {
  (** [url.Parse] *)
  url_Parse : string -> result URL;
  (** [URL.String] *)
  url_String : URL -> string;
  (** [URL.ResolveReference] *)
  url_ResolveReference : URL -> URL -> URL;
  (** [html.Parse] on a [strings.Reader] *)
  html_Parse : string -> result Node;
  (** [xml.Unmarshal] into a [UrlSet] *)
  xml_Unmarshal : string -> result UrlSet;
  (** [robotstxt.FromString] *)
  robotstxt_FromString : string -> result RobotsData
}.

(** ** Strings as byte sequences *)

Definition bytes := list ascii.

Definition slash : ascii := "/"%char.
Definition dot : ascii := "."%char.

Definition is_slash (c : ascii) : bool := Ascii.eqb c slash.
Definition is_dot (c : ascii) : bool := Ascii.eqb c dot.

(** [strings.HasPrefix(s, prefix)] *)
Fixpoint HasPrefix_bytes (s prefix : bytes) : bool :=
  match prefix, s with
  | [], _ => true
  | _ :: _, [] => false
  | p :: prefix', c :: s' => Ascii.eqb c p && HasPrefix_bytes s' prefix'
  end.

Definition HasPrefix (s prefix : string) : bool :=
  HasPrefix_bytes (list_ascii_of_string s) (list_ascii_of_string prefix).

(** [strings.ReplaceAll(s, old, new)] for a non-empty [old]: the matches are
    taken left to right and do not overlap.  [skip] counts the bytes of the
    match that are still to be passed over. *)
Fixpoint ReplaceAll_from (skip : nat) (s old new : bytes) : bytes :=
  match s with
  | [] => []
  | c :: s' =>
      match skip with
      | S k => ReplaceAll_from k s' old new
      | O =>
          if HasPrefix_bytes s old
          then (new ++ ReplaceAll_from (Nat.pred (List.length old)) s' old new)%list
          else c :: ReplaceAll_from O s' old new
      end
  end.

Definition ReplaceAll (s old new : bytes) : bytes := ReplaceAll_from O s old new.

(** ** [path.Clean]

    The loop of [path.Clean] reads the path from index [r] and writes to a
    buffer of [w] bytes; [dotdot] is the index in the buffer where [..] must
    stop.  Here [p] is the unread part [path[r:]] and [rout] is the buffer in
    reverse, so that [w] is its length. *)

(** The inner loop of the [..] case, after the first [out.w--]: [last] is the
    byte at index [out.w]. *)
Fixpoint Clean_backtrack (rout : bytes) (last : ascii) (dotdot : nat) : bytes :=
  match rout with
  | [] => []
  | c :: rout' =>
      if (dotdot <? List.length rout)%nat && negb (is_slash last)
      then Clean_backtrack rout' c dotdot
      else rout
  end.

(** [for ; r < n && path[r] != '/'; r++ { out.append(path[r]) }] *)
Fixpoint Clean_copy (p rout : bytes) : bytes * bytes :=
  match p with
  | [] => ([], rout)
  | c :: p' => if is_slash c then (p, rout) else Clean_copy p' (c :: rout)
  end.

(** [r+1 == n || path[r+1] == '/'], on the part after index [r] *)
Definition ends_element (p : bytes) : bool :=
  match p with
  | [] => true
  | c :: _ => is_slash c
  end.

Fixpoint Clean_loop (fuel : nat) (rooted : bool) (p rout : bytes) (dotdot : nat)
  : bytes :=
  match fuel with
  | O => rout
  | S fuel' =>
      match p with
      | [] => rout
      | c :: p1 =>
          if is_slash c then
            (* empty path element *)
            Clean_loop fuel' rooted p1 rout dotdot
          else if is_dot c && ends_element p1 then
            (* . element *)
            Clean_loop fuel' rooted p1 rout dotdot
          else if is_dot c
                  && match p1 with
                     | d :: p2 => is_dot d && ends_element p2
                     | [] => false
                     end then
            (* .. element: remove to last / *)
            let p2 := List.tl p1 in
            if (dotdot <? List.length rout)%nat then
              match rout with
              | last :: rout' =>
                  Clean_loop fuel' rooted p2 (Clean_backtrack rout' last dotdot) dotdot
              | [] => Clean_loop fuel' rooted p2 rout dotdot
              end
            else if negb rooted then
              let rout1 := match rout with [] => rout | _ => slash :: rout end in
              let rout2 := dot :: dot :: rout1 in
              Clean_loop fuel' rooted p2 rout2 (List.length rout2)
            else Clean_loop fuel' rooted p2 rout dotdot
          else
            (* real path element: add slash if needed, copy element *)
            let w := List.length rout in
            let rout1 :=
              if (rooted && negb (w =? 1)%nat) || (negb rooted && negb (w =? 0)%nat)
              then slash :: rout else rout in
            let '(p', rout2) := Clean_copy p rout1 in
            Clean_loop fuel' rooted p' rout2 dotdot
      end
  end.

Definition Clean_bytes (p : bytes) : bytes :=
  match p with
  | [] => [dot]
  | c :: p1 =>
      let rooted := is_slash c in
      let out :=
        if rooted
        then Clean_loop (List.length p) true p1 [slash] 1
        else Clean_loop (List.length p) false p [] 0 in
      match out with
      | [] => [dot]
      | _ => rev out
      end
  end.

(** [path.Clean(path)] *)
Definition Clean (p : string) : string :=
  string_of_list_ascii (Clean_bytes (list_ascii_of_string p)).

(** ** [resolve_and_clean_url.go] *)

(** [cleanPath] collapses repeated slashes and uses [path.Clean] for dot
    segments. *)
Definition cleanPath (p : string) : string :=
  let collapsed :=
    string_of_list_ascii
      (ReplaceAll (list_ascii_of_string p) [slash; slash] [slash]) in
  Clean collapsed.

Section ResolveAndClean.
Context `{GoLib}.

(** [ResolveAndCleanURL] resolves [href] against [base] and sanitizes it. *)
Definition ResolveAndCleanURL (base : URL) (href : string) : result URL :=
  match url_Parse href with
  | Err e => Err e
  | Ok parsedHref =>
      (* Resolve relative to base if needed *)
      let resolved :=
        if IsAbs parsedHref then parsedHref
        else url_ResolveReference base parsedHref in
      (* Strip fragment *)
      let resolved := with_Fragment resolved "" in
      (* Normalize path: remove duplicate slashes *)
      let resolved := with_Path resolved (cleanPath (Path resolved)) in
      Ok resolved
  end.
End ResolveAndClean.


(** ** [github.com/temoto/robotstxt]: answering a query

    The query side of the library, for literal rules: [RobotsData.TestAgent],
    [RobotsData.FindGroup], [Group.Test] and [Group.findRule]. *)
Module robotstxt.

(** ASCII part of [strings.ToLower]. *)
Definition lower_byte (c : ascii) : ascii :=
  let n := nat_of_ascii c in
  if ((65 <=? n) && (n <=? 90))%nat then ascii_of_nat (n + 32) else c.

Definition ToLower (s : string) : string :=
  string_of_list_ascii (List.map lower_byte (list_ascii_of_string s)).

(** One turn of the loop of [findRule] over [g.rules]; the accumulator is
    [(prefixLen, ret)]. *)
Definition findRule_step (path0 : string) (acc : nat * option rule) (r : rule)
  : nat * option rule :=
  let '(prefixLen, ret) := acc in
  if String.eqb (path r) "/" && (prefixLen =? 0)%nat then
    (* Weakest match possible *)
    (1%nat, Some r)
  else if HasPrefix path0 (path r) then
    let l := String.length (path r) in
    if (prefixLen <? l)%nat then (l, Some r) else (prefixLen, ret)
  else (prefixLen, ret).

Definition findRule (g : Group) (path0 : string) : option rule :=
  snd (fold_left (findRule_step path0) (rules g) (0%nat, None)).

(** [Group.Test]: by default, there are no restrictions. *)
Definition Test (g : Group) (path0 : string) : bool :=
  match findRule g path0 with
  | Some r => allow r
  | None => true
  end.

Definition emptyGroup : Group := mkGroup [].

Definition FindGroup_step (agent : string) (a : string) (g : Group)
  (acc : nat * option Group) : nat * option Group :=
  let '(prefixLen, ret) := acc in
  if negb (String.eqb a "*") && HasPrefix agent a then
    let l := String.length a in
    if (prefixLen <? l)%nat then (l, Some g) else (prefixLen, ret)
  else (prefixLen, ret).

Definition FindGroup (r : RobotsData) (agent : string) : Group :=
  let agent := ToLower agent in
  let init :=
    match groups r !! "*" with
    | Some g => (1%nat, Some g)
    | None => (0%nat, None)
    end in
  match snd (map_fold (FindGroup_step agent) init (groups r)) with
  | Some g => g
  | None => emptyGroup
  end.

Definition TestAgent (r : RobotsData) (path0 agent : string) : bool :=
  if allowAll r then true
  else if disallowAll r then false
  else Test (FindGroup r agent) path0.

(** The library's [allowAll] value, returned for an empty body. *)
Definition allowAllData : RobotsData := mkRobotsData ∅ true false.

End robotstxt.

(** ** [robots_checker.go] *)

(** [RobotsChecker] checks if a path is allowed by robots.txt rules. *)
Record RobotsChecker := mkRobotsChecker { robotsData : RobotsData }.

(** [IsAllowed] checks if a given path is allowed for a specific user agent. *)
Definition IsAllowed (rc : RobotsChecker) (path0 userAgent : string) : bool :=
  robotstxt.TestAgent (robotsData rc) path0 userAgent.

Section RobotsChecker.
Context `{GoLib}.

(** [LoadRobots] loads the robots.txt content into the checker; the checker
    it returns is the receiver after the assignment. *)
Definition LoadRobots (pageContent : string) : result RobotsChecker :=
  match robotstxt_FromString pageContent with
  | Err e => Err e
  | Ok robots => Ok (mkRobotsChecker robots)
  end.

(** [NewRobotsChecker] creates a checker and loads the robots.txt content. *)
Definition NewRobotsChecker (robotsTxt : string) : result RobotsChecker :=
  match LoadRobots robotsTxt with
  | Err e => Err e
  | Ok rc => Ok rc
  end.
End RobotsChecker.

(** ** [sitemap.go] and [extract_links.go] *)

Section Collaborators.
Context `{GoLib}.

(** [ParseSitemapForUrls] extracts all URLs from a sitemap. *)
Definition ParseSitemapForUrls (sitemap : string) : result (list string) :=
  match xml_Unmarshal sitemap with
  | Err e => Err e
  | Ok urlSet =>
      Ok (fold_left
            (fun acc entry =>
               if negb (String.eqb (Loc entry) "")
               then (acc ++ [Loc entry])%list else acc)
            (URLs urlSet) [])
  end.

(** The closure [f] of [ExtractLinks]: appends the [href]s of an [a]
    element, then visits the children in order. *)
Fixpoint ExtractLinks_walk (n : Node) (links : list string) : list string :=
  match n with
  | mkNode ty data attrs children =>
      let links :=
        match ty with
        | ElementNode =>
            if String.eqb data "a" then
              fold_left
                (fun ls attr =>
                   if String.eqb (Key attr) "href"
                   then (ls ++ [Val attr])%list else ls)
                attrs links
            else links
        | _ => links
        end in
      fold_left (fun ls c => ExtractLinks_walk c ls) children links
  end.

(** [ExtractLinks] returns the [href] attributes of the [a] tags. *)
Definition ExtractLinks (htmlContent : string) : result (list string) :=
  match html_Parse htmlContent with
  | Err e => Err e
  | Ok doc => Ok (ExtractLinks_walk doc [])
  end.
End Collaborators.

(** ** The operations of the runtime *)

(** A [context.Context]: the background context, a cancellable one (named by
    the number of its [cancel] function), or one derived with a timeout. *)
Inductive Context :=
| Background
| WithCancel (id : nat)
| WithTimeout (parent : Context) (d : Z).

(** A registered [PostProcessor], named by a number. *)
Definition PostProcessor := nat.

(** The two channels and the two wait groups of a [SiteCrawler]. *)
Inductive Queue := CrawlQueue | PostProcessQueue.
Inductive WaitGroup := crawlWg | postProcessWg.

(** The closures sent over the channels.  [CrawlTask ctx url] is the closure
    built by [AddURLToCrawlQueue]; [ProcessTask ctx processor pageURL
    pageContent] is the one built by [AddURLToPostProcessQueue], with the
    variables it captures. *)
Inductive Task :=
| CrawlTask (ctx : Context) (url : URL)
| ProcessTask (ctx : Context) (processor : PostProcessor) (pageURL : URL)
    (pageContent : string).

(** The two [go func() { for { select ... } }()] of the crawler. *)
Inductive Goroutine :=
| CrawlWorker (ctx : Context)
| PostProcessWorker (ctx : Context).

(** An [http.Response]: the status and what [io.ReadAll(resp.Body)] gives. *)
Record Response := mkResponse { StatusCode : Z; Body : result string }.

(** What a two-way [select] on [ctx.Done()] and a channel receive took. *)
Inductive Selected :=
| SelDone
| SelRecv (task : option Task).

Inductive op : Type -> Type :=
| LoadOrStore (key : string) : op bool
    (** [_, loaded := crawledPages.LoadOrStore(key, struct{}{})] *)
| WgAdd (wg : WaitGroup) (delta : Z) : op unit
| WgWait (wg : WaitGroup) : op unit
| ChanSend (q : Queue) (t : Task) : op unit
| ChanClose (q : Queue) : op unit
| Select (ctx : Context) (q : Queue) : op Selected
    (** [select { case <-ctx.Done(): ; case task, ok := <-q: }] *)
| CtxDone (ctx : Context) : op bool
    (** [select { case <-ctx.Done(): ; default: }] *)
| ClientDo (ctx : Context) (rawurl : string) : op (result Response)
    (** [client.Do(req)] for a GET request of [rawurl] under [ctx] *)
| Process (p : PostProcessor) (ctx : Context) (pageURL : URL)
    (pageContent : string) : op (option error)
| Go (g : Goroutine) : op unit.

Inductive Prog (A : Type) : Type :=
| Ret (a : A)
| Op {X : Type} (o : op X) (k : X -> Prog A).
Arguments Ret {A} a.
Arguments Op {A X} o k.

Fixpoint bind {A B : Type} (p : Prog A) (f : A -> Prog B) : Prog B :=
  match p with
  | Ret a => f a
  | Op o k => Op o (fun x => bind (k x) f)
  end.

Definition call {X : Type} (o : op X) : Prog X := Op o Ret.

Declare Scope prog_scope.
Delimit Scope prog_scope with prog.
Bind Scope prog_scope with Prog.
Notation "x <- p ;; q" := (bind p (fun x => q))
  (at level 100, p at next level, right associativity) : prog_scope.
Notation "p ;; q" := (bind p (fun _ => q))
  (at level 100, right associativity) : prog_scope.
Open Scope prog_scope.

(** [wg.Done()] *)
Definition WgDone (wg : WaitGroup) : Prog unit := call (WgAdd wg (-1)).

(** [for _, x := range xs { body x }] *)
Fixpoint forRange {A : Type} (xs : list A) (body : A -> Prog unit) : Prog unit :=
  match xs with
  | [] => Ret tt
  | x :: xs' => body x ;; forRange xs' body
  end.

(** [for i := 0; i < n; i++ { body }] *)
Fixpoint forCount (n : nat) (body : Prog unit) : Prog unit :=
  match n with
  | O => Ret tt
  | S n' => body ;; forCount n' body
  end.

(** ** [page_fetcher.go] *)

Section PageFetcher.
Context `{GoLib}.

(** [httpError{StatusCode, URL}.Error()], without the status text. *)
Definition httpError (status : Z) (rawurl : string) : error :=
  "HTTP error from " ++ rawurl.

(** [FetchPage] fetches the content of a page.  It expects a 2XX response.
    [http.NewRequestWithContext] parses the URL string again and reports
    a string it cannot parse. *)
Definition FetchPage (ctx : Context) (url : URL) : Prog (result string) :=
  match url_Parse (url_String url) with
  | Err e => Ret (Err e)
  | Ok _ =>
      r <- call (ClientDo ctx (url_String url)) ;;
      match r with
      | Err e => Ret (Err e)
      | Ok resp =>
          if (StatusCode resp <? 200)%Z || (StatusCode resp >=? 300)%Z
          then Ret (Err (httpError (StatusCode resp) (url_String url)))
          else
            match Body resp with
            | Err e => Ret (Err e)
            | Ok body => Ret (Ok body)
            end
      end
  end.
End PageFetcher.

(** ** [site_crawler.go] *)

(** The configuration of a [SiteCrawler].  Its channels, wait groups and
    [crawledPages] map are shared objects and live in the [State]. *)
Record SiteCrawler := mkSiteCrawler {
  RobotsChecker_ : RobotsChecker;
  BaseURL : URL;
  TimeoutMilliseconds : Z;
  UserAgent : string;
  WorkerPoolSize : Z;
  postProcessors : list PostProcessor
}.

Section SiteCrawler.
Context `{GoLib}.

(** [AddURLToPostProcessQueue] adds one task per processor to the
    post-processing queue.  Each closure captures the [processor] of its own
    iteration. *)
Definition AddURLToPostProcessQueue (sc : SiteCrawler) (ctx : Context)
  (pageURL : URL) (pageContent : string) : Prog unit :=
  forRange (postProcessors sc) (fun processor =>
    call (WgAdd postProcessWg 1) ;;
    call (ChanSend PostProcessQueue
            (ProcessTask ctx processor pageURL pageContent))).

(** [AddURLToCrawlQueue] adds a URL to the crawl queue if it is allowed by
    robots.txt and matches the base URL host. *)
Definition AddURLToCrawlQueue (sc : SiteCrawler) (ctx : Context) (url : URL)
  : Prog unit :=
  if negb (IsAllowed (RobotsChecker_ sc) (url_String url) (UserAgent sc)) then
    Ret tt
  else if negb (String.eqb (Host url) (Host (BaseURL sc))) then
    Ret tt
  else
    loaded <- call (LoadOrStore (url_String url)) ;;
    if loaded : bool then Ret tt
    else
      call (WgAdd crawlWg 1) ;;
      call (ChanSend CrawlQueue (CrawlTask ctx url)).

(** [CrawlPage] fetches a page, extracts links, and adds them to the crawl
    queue.  It also adds the page to the post-processing queue. *)
Definition CrawlPage (sc : SiteCrawler) (ctx : Context) (pageURL : URL)
  : Prog unit :=
  done <- call (CtxDone ctx) ;;
  if done : bool then Ret tt
  else
    let timeoutCtx := WithTimeout ctx (TimeoutMilliseconds sc) in
    r <- FetchPage timeoutCtx pageURL ;;
    match r with
    | Err _ => Ret tt
    | Ok page =>
        match ExtractLinks page with
        | Err _ => Ret tt
        | Ok links =>
            forRange links (fun link =>
              match ResolveAndCleanURL (BaseURL sc) link with
              | Err _ => Ret tt
              | Ok parsedLink => AddURLToCrawlQueue sc ctx parsedLink
              end) ;;
            AddURLToPostProcessQueue sc ctx pageURL page
        end
    end.

(** [sc.BaseURL.Parse(ref)]: [url.Parse] then [ResolveReference]. *)
Definition URL_Parse (u : URL) (ref : string) : result URL :=
  match url_Parse ref with
  | Err e => Err e
  | Ok refURL => Ok (url_ResolveReference u refURL)
  end.

(** [CrawlFromSiteMap] fetches the sitemap, extracts URLs, and adds them to
    the crawl queue. *)
Definition CrawlFromSiteMap (sc : SiteCrawler) (ctx : Context)
  : Prog (option error) :=
  match URL_Parse (BaseURL sc) "/sitemap.xml" with
  | Err e => Ret (Some e)
  | Ok siteMapUrl =>
      r <- FetchPage ctx siteMapUrl ;;
      match r with
      | Err _ => Ret None
      | Ok siteMap =>
          match ParseSitemapForUrls siteMap with
          | Err _ => Ret None
          | Ok siteMapUrls =>
              forRange siteMapUrls (fun raw =>
                match ResolveAndCleanURL (BaseURL sc) raw with
                | Err _ => Ret tt
                | Ok parsed =>
                    let fullURL := url_ResolveReference (BaseURL sc) parsed in
                    AddURLToCrawlQueue sc ctx fullURL
                end) ;;
              Ret None
          end
      end
  end.

(** [startCrawlWorkers] starts a pool of workers on the crawl queue. *)
Definition startCrawlWorkers (sc : SiteCrawler) (ctx : Context) : Prog unit :=
  forCount (Z.to_nat (WorkerPoolSize sc)) (call (Go (CrawlWorker ctx))).

(** [startPostProcessingWorkers] starts a pool of workers on the
    post-processing queue. *)
Definition startPostProcessingWorkers (sc : SiteCrawler) (ctx : Context)
  : Prog unit :=
  forCount (Z.to_nat (WorkerPoolSize sc)) (call (Go (PostProcessWorker ctx))).

(** [Crawl] starts the crawling process for the site. *)
Definition Crawl (sc : SiteCrawler) (ctx : Context) : Prog (option error) :=
  startCrawlWorkers sc ctx ;;
  startPostProcessingWorkers sc ctx ;;
  err <- CrawlFromSiteMap sc ctx ;;
  match err with
  | Some e => Ret (Some e)
  | None =>
      AddURLToCrawlQueue sc ctx (BaseURL sc) ;;
      call (WgWait crawlWg) ;;
      call (ChanClose CrawlQueue) ;;
      call (ChanClose PostProcessQueue) ;;
      call (WgWait postProcessWg) ;;
      Ret None
  end.

(** What calling a closure taken from a channel runs.  The deferred
    [Done] runs when the closure returns. *)
Definition runTask (sc : SiteCrawler) (t : Task) : Prog unit :=
  match t with
  | CrawlTask ctx url =>
      CrawlPage sc ctx url ;;
      WgDone crawlWg
  | ProcessTask ctx processor pageURL pageContent =>
      call (Process processor ctx pageURL pageContent) ;;
      WgDone postProcessWg
  end.

(** One turn of the [for { select { ... } }] of a worker on queue [q]:
    [false] when the goroutine returns. *)
Definition workerTurn (sc : SiteCrawler) (ctx : Context) (q : Queue)
  : Prog bool :=
  s <- call (Select ctx q) ;;
  match s with
  | SelDone => Ret false
  | SelRecv None => Ret false
  | SelRecv (Some task) => runTask sc task ;; Ret true
  end.

Definition goroutineTurn (sc : SiteCrawler) (g : Goroutine) : Prog bool :=
  match g with
  | CrawlWorker ctx => workerTurn sc ctx CrawlQueue
  | PostProcessWorker ctx => workerTurn sc ctx PostProcessQueue
  end.

(** [NewSiteCrawler] creates a new crawler with the provided
    configuration.  The error of [FetchPage] is overwritten unread; on a
    failed fetch [robots] is the empty string. *)
Definition NewSiteCrawler (ctx : Context) (baseURL : URL)
  (pageLoadTimeoutMilliseconds : Z) (userAgent : string)
  (workerPoolSize : Z) (processors : list PostProcessor)
  : Prog (result SiteCrawler) :=
  match URL_Parse baseURL "/robots.txt" with
  | Err e => Ret (Err e)
  | Ok robotsUrl =>
      let timeoutCtx := WithTimeout ctx pageLoadTimeoutMilliseconds in
      r <- FetchPage timeoutCtx robotsUrl ;;
      let robots := match r with Ok body => body | Err _ => "" end in
      match NewRobotsChecker robots with
      | Err e => Ret (Err e)
      | Ok robotsChecker =>
          Ret (Ok (mkSiteCrawler robotsChecker baseURL
                     pageLoadTimeoutMilliseconds userAgent workerPoolSize
                     processors))
      end
  end.
End SiteCrawler.

(** ** The shared objects of one crawler and the runtime that acts on them *)

(** A buffered [chan func()]. *)
Record Chan := mkChan { buf : list Task; closed : bool }.

(** What an execution leaves behind, most recent first. *)
Inductive Event :=
| EvRequest (rawurl : string)      (** an HTTP GET left the client *)
| EvEnqueue (q : Queue) (t : Task) (** a closure was sent on a channel *)
| EvProcess (p : PostProcessor) (pageURL : URL) (pageContent : string)
                                   (** a processor was invoked *)
| EvClose (q : Queue).             (** a channel was closed *)

Record State := mkState {
  crawledPages : gset string;   (** the keys of the [sync.Map] *)
  crawlQueue : Chan;
  postProcessQueue : Chan;
  crawlWgCount : Z;
  postProcessWgCount : Z;
  cancelled : gset nat;         (** the [cancel] functions already called *)
  trace : list Event
}.

Definition emptyChan : Chan := mkChan [] false.

(** The objects as [NewSiteCrawler] makes them. *)
Definition initialState : State := mkState ∅ emptyChan emptyChan 0 0 ∅ [].

(** [make(chan func(), 100000)] and [make(chan func(), 24)] *)
Definition capacity (q : Queue) : Z :=
  match q with
  | CrawlQueue => 100000
  | PostProcessQueue => 24
  end.

Definition chan (st : State) (q : Queue) : Chan :=
  match q with
  | CrawlQueue => crawlQueue st
  | PostProcessQueue => postProcessQueue st
  end.

Definition set_chan (st : State) (q : Queue) (ch : Chan) : State :=
  match q with
  | CrawlQueue =>
      mkState (crawledPages st) ch (postProcessQueue st) (crawlWgCount st)
        (postProcessWgCount st) (cancelled st) (trace st)
  | PostProcessQueue =>
      mkState (crawledPages st) (crawlQueue st) ch (crawlWgCount st)
        (postProcessWgCount st) (cancelled st) (trace st)
  end.

Definition counter (st : State) (wg : WaitGroup) : Z :=
  match wg with
  | crawlWg => crawlWgCount st
  | postProcessWg => postProcessWgCount st
  end.

Definition set_counter (st : State) (wg : WaitGroup) (n : Z) : State :=
  match wg with
  | crawlWg =>
      mkState (crawledPages st) (crawlQueue st) (postProcessQueue st) n
        (postProcessWgCount st) (cancelled st) (trace st)
  | postProcessWg =>
      mkState (crawledPages st) (crawlQueue st) (postProcessQueue st)
        (crawlWgCount st) n (cancelled st) (trace st)
  end.

Definition set_crawledPages (st : State) (m : gset string) : State :=
  mkState m (crawlQueue st) (postProcessQueue st) (crawlWgCount st)
    (postProcessWgCount st) (cancelled st) (trace st).

Definition set_cancelled (st : State) (c : gset nat) : State :=
  mkState (crawledPages st) (crawlQueue st) (postProcessQueue st)
    (crawlWgCount st) (postProcessWgCount st) c (trace st).

Definition record (st : State) (e : Event) : State :=
  mkState (crawledPages st) (crawlQueue st) (postProcessQueue st)
    (crawlWgCount st) (postProcessWgCount st) (cancelled st) (e :: trace st).

(** Whether [ctx.Done()] is closed.  The expiry of a timeout is not a state
    of this model: it shows as a failed request. *)
Fixpoint ctx_done (st : State) (ctx : Context) : bool :=
  match ctx with
  | Background => false
  | WithCancel id => bool_decide (id ∈ cancelled st)
  | WithTimeout parent _ => ctx_done st parent
  end.

(** What the scheduler and the outside world decide at a step: which ready
    case a [select] takes, what the server answers, what a processor
    returns. *)
Record Choice := mkChoice {
  pick_done : bool;
  response : result Response;
  process_error : option error
}.

Inductive outcome (X : Type) : Type :=
| Stepped (x : X) (st : State)
| Blocked
| Panics.
Arguments Stepped {X} x st.
Arguments Blocked {X}.
Arguments Panics {X}.

(** One operation, run atomically. *)
Definition exec {X : Type} (o : op X) (c : Choice) (st : State) : outcome X :=
  match o in op X return outcome X with
  | LoadOrStore key =>
      if bool_decide (key ∈ crawledPages st) then Stepped true st
      else Stepped false (set_crawledPages st ({[key]} ∪ crawledPages st))
  | WgAdd wg delta =>
      let n := (counter st wg + delta)%Z in
      (* sync: negative WaitGroup counter *)
      if (n <? 0)%Z then Panics else Stepped tt (set_counter st wg n)
  | WgWait wg =>
      if (counter st wg =? 0)%Z then Stepped tt st else Blocked
  | ChanSend q t =>
      let ch := chan st q in
      (* send on closed channel *)
      if closed ch then Panics
      else if (Z.of_nat (List.length (buf ch)) <? capacity q)%Z then
        Stepped tt
          (record (set_chan st q (mkChan (buf ch ++ [t])%list false))
             (EvEnqueue q t))
      else Blocked
  | ChanClose q =>
      let ch := chan st q in
      (* close of closed channel *)
      if closed ch then Panics
      else Stepped tt (record (set_chan st q (mkChan (buf ch) true)) (EvClose q))
  | Select ctx q =>
      let ch := chan st q in
      let done := ctx_done st ctx in
      match buf ch with
      | t :: rest =>
          if done && pick_done c then Stepped SelDone st
          else Stepped (SelRecv (Some t)) (set_chan st q (mkChan rest (closed ch)))
      | [] =>
          if closed ch then
            if done && pick_done c then Stepped SelDone st
            else Stepped (SelRecv None) st
          else if done then Stepped SelDone st
          else Blocked
      end
  | CtxDone ctx => Stepped (ctx_done st ctx) st
  | ClientDo ctx rawurl =>
      if ctx_done st ctx then Stepped (Err "context canceled") st
      else Stepped (response c) (record st (EvRequest rawurl))
  | Process p ctx pageURL pageContent =>
      Stepped (process_error c) (record st (EvProcess p pageURL pageContent))
  | Go g => Stepped tt st
  end.

(** The goroutine a [go] statement starts. *)
Definition spawned {X : Type} (o : op X) : list Goroutine :=
  match o with
  | Go g => [g]
  | _ => []
  end.

(** ** Goroutines and schedules *)

(** A goroutine is either running straight-line code ([Run]: the caller of
    [Crawl], or of any other method) or a worker in its [for] loop ([Loop]),
    with what is left of the current turn. *)
Inductive Thread :=
| Run (p : Prog (option error))
| Loop (g : Goroutine) (cur : Prog bool).

Record Config := mkConfig {
  threads : list Thread;
  shared : State;
  crashed : bool
}.

(** A schedule is a list of actions: goroutine [tid] takes its next step, or
    somebody calls the [cancel] function number [id]. *)
Inductive Action :=
| Step (tid : nat) (c : Choice)
| Cancel (id : nat).

Inductive stepped (A : Type) : Type :=
| Next (p : Prog A) (st : State) (gs : list Goroutine)
| Stuck
| Crash.
Arguments Next {A} p st gs.
Arguments Stuck {A}.
Arguments Crash {A}.

Definition step_prog {A : Type} (p : Prog A) (c : Choice) (st : State)
  : stepped A :=
  match p with
  | Ret _ => Stuck
  | Op o k =>
      match exec o c st with
      | Stepped x st' => Next (k x) st' (spawned o)
      | Blocked => Stuck
      | Panics => Crash
      end
  end.

Section Scheduler.
Context `{GoLib}.
Variable sc : SiteCrawler.

Definition start (g : Goroutine) : Thread := Loop g (goroutineTurn sc g).

Definition step_thread (t : Thread) (c : Choice) (st : State)
  : option (option (Thread * State * list Goroutine)) :=
  match t with
  | Run p =>
      match step_prog p c st with
      | Next p' st' gs => Some (Some (Run p', st', gs))
      | Stuck => None
      | Crash => Some None
      end
  | Loop g (Ret true) => Some (Some (start g, st, []))
  | Loop g cur =>
      match step_prog cur c st with
      | Next cur' st' gs => Some (Some (Loop g cur', st', gs))
      | Stuck => None
      | Crash => Some None
      end
  end.

(** One action of a schedule; [None] when the action is not possible (the
    goroutine is blocked, has returned or does not exist, or the program
    has crashed). *)
Definition step (a : Action) (cfg : Config) : option Config :=
  if crashed cfg then None
  else
    match a with
    | Cancel id =>
        Some (mkConfig (threads cfg)
                (set_cancelled (shared cfg) ({[id]} ∪ cancelled (shared cfg)))
                false)
    | Step tid c =>
        match threads cfg !! tid with
        | None => None
        | Some t =>
            match step_thread t c (shared cfg) with
            | None => None
            | Some None => Some (mkConfig (threads cfg) (shared cfg) true)
            | Some (Some (t', st', gs)) =>
                Some (mkConfig (<[tid := t']> (threads cfg) ++ List.map start gs)%list
                        st' false)
            end
        end
    end.

Fixpoint run (sched : list Action) (cfg : Config) : option Config :=
  match sched with
  | [] => Some cfg
  | a :: sched' =>
      match step a cfg with
      | None => None
      | Some cfg' => run sched' cfg'
      end
  end.
End Scheduler.

(** ** What one call does, whatever the other goroutines do

    [runs p obs a]: the call [p] performs the operations [obs], each with the
    answer it got, and returns [a]. *)
Inductive Observed :=
| Obs {X : Type} (o : op X) (x : X).

Inductive runs {A : Type} : Prog A -> list Observed -> A -> Prop :=
| runs_Ret a : runs (Ret a) [] a
| runs_Op X (o : op X) (x : X) k obs a :
    runs (k x) obs a -> runs (Op o k) (Obs o x :: obs) a.

(** The tasks a call sent on queue [q], in order. *)
Definition sent_on (q : Queue) (ob : Observed) : list Task :=
  match ob with
  | Obs o _ =>
      match o with
      | ChanSend q' t =>
          match q, q' with
          | CrawlQueue, CrawlQueue | PostProcessQueue, PostProcessQueue => [t]
          | _, _ => []
          end
      | _ => []
      end
  end.

Definition sends (q : Queue) (obs : list Observed) : list Task :=
  List.concat (List.map (sent_on q) obs).

(** The URLs a call requested, in order. *)
Definition requested (ob : Observed) : list string :=
  match ob with
  | Obs o _ =>
      match o with
      | ClientDo _ rawurl => [rawurl]
      | _ => []
      end
  end.

Definition requests (obs : list Observed) : list string :=
  List.concat (List.map requested obs).

(** The ledger keys a call tried to store, in order. *)
Definition stored (ob : Observed) : list string :=
  match ob with
  | Obs o _ =>
      match o with
      | LoadOrStore key => [key]
      | _ => []
      end
  end.

Definition ledger_calls (obs : list Observed) : list string :=
  List.concat (List.map stored obs).

(** The processor invocations of a call, in order. *)
Definition invoked (ob : Observed) : list (PostProcessor * URL * string) :=
  match ob with
  | Obs o _ =>
      match o with
      | Process p _ pageURL pageContent => [(p, pageURL, pageContent)]
      | _ => []
      end
  end.

Definition invocations (obs : list Observed) : list (PostProcessor * URL * string) :=
  List.concat (List.map invoked obs).

(** ** Reading a call's observations *)

(** What [FetchPage] returns for the answer [r] of [client.Do]. *)
Definition FetchPage_answer `{GoLib} (url : URL) (r : result Response)
  : result string :=
  match r with
  | Err e => Err e
  | Ok resp =>
      if (StatusCode resp <? 200)%Z || (StatusCode resp >=? 300)%Z
      then Err (httpError (StatusCode resp) (url_String url))
      else Body resp
  end.

(** The answers [client.Do] gave during a call, in order. *)
Definition answered (ob : Observed) : list (result Response) :=
  match ob with
  | Obs o x =>
      match o in op X return X -> list (result Response) with
      | ClientDo _ _ => fun r => [r]
      | _ => fun _ => []
      end x
  end.

Definition answers (obs : list Observed) : list (result Response) :=
  List.concat (List.map answered obs).

(** The page a call fetched: the body of the first answer, when that answer
    is a 2XX response whose body could be read. *)
Definition fetched `{GoLib} (url : URL) (obs : list Observed) : option string :=
  match answers obs with
  | r :: _ =>
      match FetchPage_answer url r with
      | Ok body => Some body
      | Err _ => None
      end
  | [] => None
  end.

(** The crawl tasks recorded in a trace whose URL prints as [key]. *)
Definition enqueues_key `{GoLib} (key : string) (e : Event) : bool :=
  match e with
  | EvEnqueue CrawlQueue (CrawlTask _ url) => String.eqb (url_String url) key
  | _ => false
  end.

Definition enqueued `{GoLib} (key : string) (tr : list Event) : nat :=
  List.length (List.filter (enqueues_key key) tr).

(** The requests recorded in a trace. *)
Definition request_of (e : Event) : list string :=
  match e with
  | EvRequest rawurl => [rawurl]
  | _ => []
  end.

Definition requests_made (tr : list Event) : list string :=
  List.concat (List.map request_of tr).

(** The spec's words for a path "slash-collapsed": every run of separators
    is one separator, and nothing else changes. *)
Fixpoint collapse_slashes_bytes (p : bytes) : bytes :=
  match p with
  | [] => []
  | c :: p' =>
      if is_slash c && match p' with d :: _ => is_slash d | [] => false end
      then collapse_slashes_bytes p'
      else c :: collapse_slashes_bytes p'
  end.

Definition collapse_slashes (p : string) : string :=
  string_of_list_ascii (collapse_slashes_bytes (list_ascii_of_string p)).

(** Two separators in a row. *)
Fixpoint has_double_slash (p : bytes) : bool :=
  match p with
  | [] => false
  | c :: p' =>
      (is_slash c && match p' with d :: _ => is_slash d | [] => false end)
      || has_double_slash p'
  end.

(** ** A small site, for examples

    [exampleLib] tabulates the library functions at the strings the examples
    use: each entry is the value the Go function has there; every other
    string is outside the table. *)
Module Example.

Definition nl : string := String (ascii_of_nat 10) "".

Definition base : URL := mkURL "https" "" "example.com" "" "" "".
Definition at_path (p : string) : URL := mkURL "https" "" "example.com" p "" "".
Definition ref_path (p : string) : URL := mkURL "" "" "" p "" "".

Definition robots_private : string :=
  "User-agent: *" ++ nl ++ "Disallow: /private".

Definition policy_private : RobotsData :=
  mkRobotsData {[ "*" := mkGroup [mkRule "/private" false] ]} false false.

Definition sitemap_about : string :=
  "<urlset><url><loc>/about</loc></url></urlset>".

Definition page_text (text : string) : Node :=
  mkNode DocumentNode "" []
    [mkNode ElementNode "html" []
       [mkNode ElementNode "head" [] [];
        mkNode ElementNode "body" [] [mkNode TextNode text [] []]]].

Definition page_link (href text : string) : Node :=
  mkNode DocumentNode "" []
    [mkNode ElementNode "html" []
       [mkNode ElementNode "head" [] [];
        mkNode ElementNode "body" []
          [mkNode ElementNode "a" [mkAttr "href" href]
             [mkNode TextNode text [] []]]]].

Definition quot : string := String (ascii_of_nat 34) "".
Definition html_link : string :=
  "<a href=" ++ quot ++ "/about" ++ quot ++ ">About</a>".

Definition outside : error := "outside the table".

Definition parse (s : string) : result URL :=
  if String.eqb s "/robots.txt" then Ok (ref_path "/robots.txt")
  else if String.eqb s "/sitemap.xml" then Ok (ref_path "/sitemap.xml")
  else if String.eqb s "/about" then Ok (ref_path "/about")
  else if String.eqb s "https://example.com" then Ok base
  else if String.eqb s "https://example.com/robots.txt" then Ok (at_path "/robots.txt")
  else if String.eqb s "https://example.com/sitemap.xml" then Ok (at_path "/sitemap.xml")
  else if String.eqb s "https://example.com/about" then Ok (at_path "/about")
  else if String.eqb s "https://example.com/a/" then Ok (at_path "/a/")
  else if String.eqb s "https://example.com/a/../b" then Ok (at_path "/a/../b")
  else if String.eqb s "https://example.com/private/data" then Ok (at_path "/private/data")
  else if String.eqb s "https://other.org/page" then Ok (mkURL "https" "" "other.org" "/page" "" "")
  else Err outside.

(** [String] of a URL with a scheme, a host, no query and no fragment, and
    a path that needs no escaping. *)
Definition print (u : URL) : string :=
  Scheme u ++ "://" ++ Host u ++ Path u.

(** [ResolveReference] at an absolute reference, and at a reference that
    is only a rooted path without dot segments. *)
Definition resolve (b ref : URL) : URL :=
  if IsAbs ref then ref
  else mkURL (Scheme b) "" (Host b) (Path ref) (RawQuery ref) (Fragment ref).

(** [html.Parse] never fails on a string.  The page with the link is
    tabulated; any other string is read as text, which is what the parser
    makes of a string without markup. *)
Definition parse_html (s : string) : result Node :=
  if String.eqb s html_link then Ok (page_link "/about" "About")
  else Ok (page_text s).

Definition unmarshal (s : string) : result UrlSet :=
  if String.eqb s sitemap_about then Ok (mkUrlSet [mkUrlEntry "/about"])
  else Err outside.

(** The library answers an empty body with its allow-all value, and
    reports a rule line that comes before any [User-agent] line. *)
Definition fromString (s : string) : result RobotsData :=
  if String.eqb s "" then Ok robotstxt.allowAllData
  else if String.eqb s robots_private then Ok policy_private
  else if String.eqb s "Disallow: /" then Err "Disallow before User-agent"
  else Err outside.

Definition exampleLib : GoLib :=
  Build_GoLib parse print resolve parse_html unmarshal fromString.

Definition ctx : Context := WithCancel 0.

(** The crawler [NewSiteCrawler] builds for [base] when [/robots.txt] is
    [robots_private], with one worker per stage. *)
Definition crawler (processors : list PostProcessor) : SiteCrawler :=
  mkSiteCrawler (mkRobotsChecker policy_private) base 1000 "Crawler" 1
    processors.

Definition ok200 (body : string) : Choice :=
  mkChoice false (Ok (mkResponse 200 (Ok body))) None.
Definition notFound : Choice :=
  mkChoice false (Ok (mkResponse 404 (Ok "Not found"))) None.
Definition quiet : Choice := mkChoice false (Err "unused") None.

End Example.

(** ** Invariants used in the proofs *)

(** [no_ds l]: no two neighbours of [l] are both separators. *)
Definition no_ds (l : bytes) : Prop := has_double_slash l = false.

(** The buffer of [path.Clean] ends with a separator only when it is the
    root alone. *)
Definition tail_ok (rooted : bool) (rout : bytes) : Prop :=
  match rout with
  | c :: r => is_slash c = true -> r = [] /\ rooted = true
  | [] => True
  end.

(** The invariant of the loop of [path.Clean] on its buffer. *)
Record Clean_inv (rooted : bool) (rout : bytes) (dotdot : nat) : Prop := {
  inv_no_ds : no_ds rout;
  inv_tail : tail_ok rooted rout;
  inv_root : rooted = true -> dotdot = 1%nat /\ exists r, rout = (r ++ [slash])%list;
  inv_dotdot : (dotdot <= List.length rout)%nat;
  inv_base : tail_ok rooted (skipn (List.length rout - dotdot) rout)
}.


Section Observations.
Context `{GoLib}.
Variable sc : SiteCrawler.

(** What a call of [AddURLToCrawlQueue] can be seen doing. *)
Record admission_only (ctx : Context) (url : URL) (obs : list Observed) : Prop := {
  adm_answers : answers obs = [];
  adm_invocations : invocations obs = [];
  adm_post : sends PostProcessQueue obs = [];
  adm_ledger : forall key, List.In key (ledger_calls obs) -> key = url_String url;
  adm_sends : forall t, List.In t (sends CrawlQueue obs) -> t = CrawlTask ctx url;
  adm_checked : sends CrawlQueue obs <> [] ->
                IsAllowed (RobotsChecker_ sc) (url_String url) (UserAgent sc) = true
                /\ Host url = Host (BaseURL sc)
}.

(** A call that touches neither the server, nor a processor, nor the
    post-processing queue. *)
Definition admissions (obs : list Observed) : Prop :=
  answers obs = [] /\ invocations obs = [] /\ sends PostProcessQueue obs = [].

End Observations.

(** A call that submits no URL other than [url] for admission. *)
Definition seeds_only `{GoLib} (ctx : Context) (url : URL) (obs : list Observed)
  : Prop :=
  (forall key, List.In key (ledger_calls obs) -> key = url_String url)
  /\ (forall t, List.In t (sends CrawlQueue obs) -> t = CrawlTask ctx url).

(** ** Monitors

    A monitor follows one goroutine with a ghost value [g]: it says which
    operations the goroutine may perform in [g] ([mon_ok]), which answers it
    can get there ([mon_poss]; a global invariant has to guarantee them), and
    how the ghost moves ([mon_next]).  [wp M p g Q] says that the program [p],
    started in [g], performs only permitted operations whatever the possible
    answers are, and ends in a ghost that satisfies [Q]. *)
Record Monitor (G : Type) := mkMonitor {
  mon_ok : G -> forall X, op X -> Prop;
  mon_poss : G -> forall X, op X -> X -> Prop;
  mon_next : G -> forall X, op X -> X -> G;
  mon_idle : G;          (** a goroutine just started, a worker between turns *)
  mon_done : G -> Prop   (** a straight-line goroutine that has returned *)
}.
Arguments mon_ok {G} _ _ {X} _.
Arguments mon_poss {G} _ _ {X} _ _.
Arguments mon_next {G} _ _ {X} _ _.
Arguments mon_idle {G} _.
Arguments mon_done {G} _ _.

Fixpoint wp {G A : Type} (M : Monitor G) (p : Prog A) (g : G)
  (Q : A -> G -> Prop) : Prop :=
  match p with
  | Ret a => Q a g
  | Op o k =>
      mon_ok M g o /\
      forall x, mon_poss M g o x -> wp M (k x) (mon_next M g o x) Q
  end.

(** A goroutine that the monitor accepts in ghost [g]. *)
Definition accepts {G : Type} (M : Monitor G) (t : Thread) (g : G) : Prop :=
  match t with
  | Run p => wp M p g (fun _ g' => mon_done M g')
  | Loop _ cur => wp M cur g (fun _ g' => g' = mon_idle M)
  end.

(** A configuration whose goroutines the monitor accepts, in ghosts that
    satisfy the invariant [Inv] together with the shared state. *)
Definition Monitored {G : Type} (M : Monitor G) (Inv : list G -> State -> Prop)
  (cfg : Config) : Prop :=
  exists gs, Forall2 (accepts M) (threads cfg) gs /\ Inv gs (shared cfg).

(** The goroutines of a program that uses the crawler through its exported
    methods: a call of [Crawl], a call of [AddURLToCrawlQueue] on any URL, a
    call of [CrawlPage] on any URL, and the workers. *)
Inductive CrawlerThread `{GoLib} (sc : SiteCrawler) : Thread -> Prop :=
| thread_Crawl ctx : CrawlerThread sc (Run (Crawl sc ctx))
| thread_Admit ctx url :
    CrawlerThread sc (Run (AddURLToCrawlQueue sc ctx url ;; Ret None))
| thread_CrawlPage ctx url :
    CrawlerThread sc (Run (CrawlPage sc ctx url ;; Ret None))
| thread_Worker g : CrawlerThread sc (start sc g).

(** The same without direct calls of [CrawlPage], which checks neither the
    robots policy nor the host. *)
Inductive AdmittingThread `{GoLib} (sc : SiteCrawler) : Thread -> Prop :=
| admitting_Crawl ctx : AdmittingThread sc (Run (Crawl sc ctx))
| admitting_Admit ctx url :
    AdmittingThread sc (Run (AddURLToCrawlQueue sc ctx url ;; Ret None))
| admitting_Worker g : AdmittingThread sc (start sc g).

(** *** The dedup monitor

    The ghost of a goroutine is the ledger key it has stored and whose task
    it has not sent yet. *)
Section Dedup.
Context `{GoLib}.

Definition dedup_ok (g : option string) {X} (o : op X) : Prop :=
  match o with
  | LoadOrStore _ => g = None
  | ChanSend CrawlQueue t =>
      match t with
      | CrawlTask _ url => g = Some (url_String url)
      | ProcessTask _ _ _ _ => False
      end
  | _ => True
  end.

Definition dedup_next (g : option string) {X} (o : op X) : X -> option string :=
  match o in op X return X -> option string with
  | LoadOrStore key => fun loaded => if loaded then None else Some key
  | ChanSend CrawlQueue _ => fun _ => None
  | _ => fun _ => g
  end.

Definition dedup : Monitor (option string) :=
  mkMonitor (option string) (@dedup_ok) (fun _ _ _ _ => True) (@dedup_next)
    None (fun g => g = None).

(** Goroutine [i] holds [key]. *)
Definition holds (gs : list (option string)) (i : nat) (key : string) : Prop :=
  gs !! i = Some (Some key).

(** The invariant of the ledger: a key has at most one holder; a held key
    is in the ledger and has no task yet; a key has at most one task, and
    then it is in the ledger; and a key of the ledger is held or has its
    task. *)
Record dedup_inv (gs : list (option string)) (st : State) : Prop := {
  held_once : forall i j key, holds gs i key -> holds gs j key -> i = j;
  held_fresh : forall i key,
      holds gs i key ->
      enqueued key (trace st) = 0%nat /\ key ∈ crawledPages st;
  sent_once : forall key, (enqueued key (trace st) <= 1)%nat;
  sent_stored : forall key,
      enqueued key (trace st) = 1%nat -> key ∈ crawledPages st;
  stored_owned : forall key,
      key ∈ crawledPages st ->
      (exists i, holds gs i key) \/ enqueued key (trace st) = 1%nat
}.
End Dedup.

(** [st'] comes after [st]: the ledger and the cancellations of [st] are
    still there, and the trace was extended. *)
Definition grows (st st' : State) : Prop :=
  crawledPages st ⊆ crawledPages st'
  /\ (forall id, id ∈ cancelled st -> id ∈ cancelled st')
  /\ exists evs, trace st' = (evs ++ trace st)%list.

(** Whether a schedule can be played from [cfg0] to its end, and where it
    leads. *)
Definition completes `{GoLib} (sc : SiteCrawler) (sched : list Action)
  (cfg0 : Config) : bool :=
  match run sc sched cfg0 with Some _ => true | None => false end.

Definition ends `{GoLib} (sc : SiteCrawler) (sched : list Action)
  (cfg0 : Config) : Config :=
  match run sc sched cfg0 with Some cfg => cfg | None => cfg0 end.

(** A straight-line goroutine that has returned. *)
Definition returned (t : Thread) : bool :=
  match t with
  | Run (Ret _) => true
  | _ => false
  end.

(** What [LoadOrStore] answered during a call: each key with [loaded]. *)
Definition ledger_answer (ob : Observed) : list (string * bool) :=
  match ob with
  | Obs o x =>
      match o in op X return X -> list (string * bool) with
      | LoadOrStore key => fun loaded => [(key, loaded)]
      | _ => fun _ => []
      end x
  end.

Definition ledger_answers (obs : list Observed) : list (string * bool) :=
  List.concat (List.map ledger_answer obs).

(** A goroutine at rest: it has returned, or it is a worker between two
    turns of its loop. *)
Definition quiescent `{GoLib} (sc : SiteCrawler) (t : Thread) : Prop :=
  match t with
  | Run (Ret _) => True
  | Run (Op _ _) => False
  | Loop g cur => cur = Ret false \/ cur = Ret true \/ cur = goroutineTurn sc g
  end.

(** *** Tasks and queues *)

(** The closure built by [AddURLToCrawlQueue] goes on the crawl queue, the
    one built by [AddURLToPostProcessQueue] on the post-processing queue. *)
Definition belongs (q : Queue) (t : Task) : Prop :=
  match q, t with
  | CrawlQueue, CrawlTask _ _ => True
  | PostProcessQueue, ProcessTask _ _ _ _ => True
  | _, _ => False
  end.

(** *** The host monitor

    The ghost of a goroutine is the URL of the crawl task it is running, if
    it runs one: the only URL whose request the goroutine may hand to the
    client, apart from the sitemap. *)
Section Host.
Context `{GoLib}.
Variable sc : SiteCrawler.

(** A task that may travel on [q]: a crawl task for a URL of the base
    host, or a post-processing task. *)
Definition fits (q : Queue) (t : Task) : Prop :=
  match q, t with
  | CrawlQueue, CrawlTask _ url => Host url = Host (BaseURL sc)
  | PostProcessQueue, ProcessTask _ _ _ _ => True
  | _, _ => False
  end.

(** The request of [CrawlFromSiteMap]: the string of the URL that
    [BaseURL.Parse] makes of the sitemap reference. *)
Definition sitemap_string (rawurl : string) : Prop :=
  exists siteMapUrl,
    URL_Parse (BaseURL sc) "/sitemap.xml" = Ok siteMapUrl
    /\ rawurl = url_String siteMapUrl.

(** The request of a crawl task sent before: [tr] holds the send of a task
    for a URL of the base host whose string is [rawurl]. *)
Definition task_request (tr : list Event) (rawurl : string) : Prop :=
  exists ctx url,
    List.In (EvEnqueue CrawlQueue (CrawlTask ctx url)) tr
    /\ Host url = Host (BaseURL sc)
    /\ rawurl = url_String url.

Definition host_ok (g : option URL) {X} (o : op X) : Prop :=
  match o with
  | ChanSend q t => fits q t
  | ClientDo _ rawurl =>
      sitemap_string rawurl \/ exists url, g = Some url /\ rawurl = url_String url
  | _ => True
  end.

Definition host_poss (g : option URL) {X} (o : op X) : X -> Prop :=
  match o in op X return X -> Prop with
  | Select _ q =>
      fun s => match s with SelRecv (Some t) => fits q t | _ => True end
  | _ => fun _ => True
  end.

Definition host_next (g : option URL) {X} (o : op X) : X -> option URL :=
  match o in op X return X -> option URL with
  | Select _ _ =>
      fun s =>
        match s with
        | SelRecv (Some (CrawlTask _ url)) => Some url
        | _ => g
        end
  | WgAdd _ delta => fun _ => if (delta <? 0)%Z then None else g
  | _ => fun _ => g
  end.

Definition host : Monitor (option URL) :=
  mkMonitor (option URL) (@host_ok) (@host_poss) (@host_next) None (fun _ => True).

(** A task on [q] that fits and whose send is recorded in [tr]. *)
Definition sent_fit (tr : list Event) (q : Queue) (t : Task) : Prop :=
  fits q t /\ List.In (EvEnqueue q t) tr.

Record host_inv (gs : list (option URL)) (st : State) : Prop := {
  queued_fit : forall q, Forall (sent_fit (trace st) q) (buf (chan st q));
  enqueued_fit : forall q t, List.In (EvEnqueue q t) (trace st) -> fits q t;
  held_enqueued : forall i url,
      gs !! i = Some (Some url) ->
      exists ctx, List.In (EvEnqueue CrawlQueue (CrawlTask ctx url)) (trace st);
  requests_traced : forall tr1 rawurl tr2,
      trace st = (tr1 ++ EvRequest rawurl :: tr2)%list ->
      sitemap_string rawurl \/ task_request tr2 rawurl
}.
End Host.

(** *** The shutdown monitor

    The ghost of a goroutine is its role and the number of units of
    [crawlWg] it answers for: a unit is taken by [Add(1)] or by receiving a
    crawl task, and given away by sending a crawl task or by [Done].  The
    caller of [Crawl] goes from [Seeding] to [Drained] when [crawlWg.Wait]
    returns, to [CrawlClosed] when it closes the crawl queue and to
    [BothClosed] when it closes the post-processing queue. *)
Inductive Role := Worker | Seeding | Drained | CrawlClosed | BothClosed.

Definition past_wait (r : Role) : Prop :=
  r = Drained \/ r = CrawlClosed \/ r = BothClosed.

Definition past_close (r : Role) : Prop :=
  r = CrawlClosed \/ r = BothClosed.

Definition shutdown_ok (g : Role * Z) {X} (o : op X) : Prop :=
  match o with
  | WgAdd crawlWg delta =>
      (delta = 1 /\ (fst g = Seeding \/ (fst g = Worker /\ 1 <= snd g)))
      \/ (delta = -1 /\ fst g = Worker /\ 1 <= snd g)
  | ChanSend q t =>
      belongs q t /\
      match q with
      | CrawlQueue => 1 <= snd g /\ (fst g = Seeding \/ fst g = Worker)
      | PostProcessQueue => True
      end
  | Select _ CrawlQueue => g = (Worker, 0)
  | WgWait crawlWg => g = (Seeding, 0)
  | ChanClose CrawlQueue => fst g = Drained
  | ChanClose PostProcessQueue => fst g = CrawlClosed
  | _ => True
  end.

Definition shutdown_poss (g : Role * Z) {X} (o : op X) : X -> Prop :=
  match o in op X return X -> Prop with
  | Select _ q =>
      fun s => match s with SelRecv (Some t) => belongs q t | _ => True end
  | _ => fun _ => True
  end.

Definition shutdown_next (g : Role * Z) {X} (o : op X) : X -> Role * Z :=
  match o in op X return X -> Role * Z with
  | WgAdd crawlWg delta => fun _ => (fst g, snd g + delta)
  | ChanSend CrawlQueue _ => fun _ => (fst g, snd g - 1)
  | Select _ CrawlQueue =>
      fun s => match s with SelRecv (Some _) => (fst g, snd g + 1) | _ => g end
  | WgWait crawlWg => fun _ => (Drained, snd g)
  | ChanClose CrawlQueue => fun _ => (CrawlClosed, snd g)
  | ChanClose PostProcessQueue => fun _ => (BothClosed, snd g)
  | _ => fun _ => g
  end.

Definition shutdown : Monitor (Role * Z) :=
  mkMonitor (Role * Z) (@shutdown_ok) (@shutdown_poss) (@shutdown_next)
    (Worker, 0) (fun _ => True).

(** The ghosts in which a goroutine may admit a URL: the caller of [Crawl]
    while it seeds, and a worker that answers for the task it runs. *)
Definition may_admit (g : Role * Z) : Prop :=
  (fst g = Seeding /\ 0 <= snd g) \/ (fst g = Worker /\ 1 <= snd g).

(** The units all goroutines answer for. *)
Definition units (gs : list (Role * Z)) : Z :=
  List.fold_right (fun g acc => snd g + acc) 0 gs.

Record shutdown_inv (gs : list (Role * Z)) (st : State) : Prop := {
  counter_accounted :
    crawlWgCount st = Z.of_nat (List.length (buf (crawlQueue st))) + units gs;
  units_nonneg : forall i g, gs !! i = Some g -> 0 <= snd g;
  one_caller : forall i j gi gj,
      gs !! i = Some gi -> gs !! j = Some gj ->
      fst gi <> Worker -> fst gj <> Worker -> i = j;
  drained_zero : forall i g,
      gs !! i = Some g -> past_wait (fst g) -> crawlWgCount st = 0;
  closed_after_wait :
    closed (crawlQueue st) = true <->
    exists i g, gs !! i = Some g /\ past_close (fst g);
  post_closed_after_crawl :
    closed (postProcessQueue st) = true ->
    exists i g, gs !! i = Some g /\ fst g = BothClosed;
  queued_belong : forall q, Forall (belongs q) (buf (chan st q))
}.

(** *** The cancellation monitor

    [D] holds the [cancel] functions called so far.  The monitor permits a
    request only under a context that [D] has stopped, and a crawl task only
    with such a context. *)
Section Halt.
Variable D : gset nat.

Fixpoint stopped (ctx : Context) : bool :=
  match ctx with
  | Background => false
  | WithCancel id => bool_decide (id ∈ D)
  | WithTimeout parent _ => stopped parent
  end.

Definition halted (q : Queue) (t : Task) : Prop :=
  match q, t with
  | CrawlQueue, CrawlTask ctx _ => stopped ctx = true
  | PostProcessQueue, ProcessTask _ _ _ _ => True
  | _, _ => False
  end.

Definition halt_ok (g : unit) {X} (o : op X) : Prop :=
  match o with
  | ChanSend q t => halted q t
  | ClientDo ctx _ => stopped ctx = true
  | _ => True
  end.

Definition halt_poss (g : unit) {X} (o : op X) : X -> Prop :=
  match o in op X return X -> Prop with
  | Select _ q =>
      fun s => match s with SelRecv (Some t) => halted q t | _ => True end
  | CtxDone ctx => fun done => stopped ctx = true -> done = true
  | _ => fun _ => True
  end.

Definition halt : Monitor unit :=
  mkMonitor unit (@halt_ok) (@halt_poss) (fun _ _ _ _ => tt) tt (fun _ => True).

Record halt_inv (requests0 : list string) (gs : list unit) (st : State) : Prop := {
  still_cancelled : D ⊆ cancelled st;
  queued_halted : forall q, Forall (halted q) (buf (chan st q));
  no_new_request : requests_made (trace st) = requests0
}.
End Halt.

(** The goroutines of work submitted under the context [ctx]: calls of
    [Crawl], [AddURLToCrawlQueue] and [CrawlPage] with it, and workers. *)
Inductive SubmittedUnder `{GoLib} (sc : SiteCrawler) (ctx : Context)
  : Thread -> Prop :=
| under_Crawl : SubmittedUnder sc ctx (Run (Crawl sc ctx))
| under_Admit url :
    SubmittedUnder sc ctx (Run (AddURLToCrawlQueue sc ctx url ;; Ret None))
| under_CrawlPage url :
    SubmittedUnder sc ctx (Run (CrawlPage sc ctx url ;; Ret None))
| under_Worker g : SubmittedUnder sc ctx (start sc g).

(** ** A whole crawl of a one-page site

    [Crawl] on the example site with one processor and one worker per stage;
    the sitemap request is answered 404 and the base page 200.  Goroutine 0
    is the caller of [Crawl], 1 the crawl worker, 2 the post-processing
    worker. *)
Module OnePage.

Definition sc : SiteCrawler := Example.crawler [0%nat].

Definition cfg0 : Config :=
mkConfig [Run (Crawl (H := Example.exampleLib) sc Example.ctx)] initialState false.

(** Up to the two [close] calls of [Crawl]. *)
Definition until_closed : list Action :=
[ (* startCrawlWorkers, startPostProcessingWorkers *)
  Step 0 Example.quiet; Step 0 Example.quiet;
  (* CrawlFromSiteMap: the sitemap is not there *)
  Step 0 Example.notFound;
  (* AddURLToCrawlQueue(ctx, &sc.BaseURL): LoadOrStore, Add, send *)
  Step 0 Example.quiet; Step 0 Example.quiet; Step 0 Example.quiet;
  (* the crawl worker receives the task: ctx check, request, then one
     post-process task (Add, send) and the deferred Done *)
  Step 1 Example.quiet; Step 1 Example.quiet; Step 1 (Example.ok200 "hello");
  Step 1 Example.quiet; Step 1 Example.quiet; Step 1 Example.quiet;
  (* crawlWg.Wait(), close(sc.CrawlQueue), close(sc.PostProcessQueue) *)
  Step 0 Example.quiet; Step 0 Example.quiet; Step 0 Example.quiet ].

(** The post-processing worker drains the closed queue, and [Crawl]
  returns. *)
Definition to_the_end : list Action :=
[ Step 2 Example.quiet; Step 2 Example.quiet; Step 2 Example.quiet;
  Step 0 Example.quiet ].

Definition at_close : Config := ends (H := Example.exampleLib) sc until_closed cfg0.

Definition at_end : Config :=
ends (H := Example.exampleLib) sc (until_closed ++ to_the_end) cfg0.

End OnePage.

(** ** Documents *)

(** [reaches n n']: [n'] is [n] or one of its descendants. *)
Inductive reaches : Node -> Node -> Prop :=
| reaches_self n : reaches n n
| reaches_child n c n' :
    List.In c (Children n) -> reaches c n' -> reaches n n'.

(** [n] is an [a] element with an [href] attribute of value [l]. *)
Definition anchor_href (n : Node) (l : string) : Prop :=
  Type_ n = ElementNode /\ Data n = "a"
  /\ exists attr, List.In attr (Attr n) /\ Key attr = "href" /\ Val attr = l.

(** The last byte of a string, if any. *)
Definition last_byte (s : string) : option ascii :=
  List.last (List.map Some (list_ascii_of_string s)) None.

(** The first byte of a string, if any. *)
Definition first_byte (s : string) : option ascii :=
  match s with
  | EmptyString => None
  | String c _ => Some c
  end.

(** *** The drain monitor

    It follows one call of [Crawl] and the workers it starts to the end.
    The ghost of a goroutine holds the stage of the call (a worker is always
    [Working]), the units of [crawlWg] and of [postProcessWg] that the
    goroutine answers for, and whether it has taken a post-processing task
    that it has not run yet. *)
Inductive Stage :=
| Working      (** a worker *)
| Seeding_     (** the caller of [Crawl], before [crawlWg.Wait] returns *)
| Waited       (** ... after [crawlWg.Wait] *)
| ClosedCrawl  (** ... after [close(sc.CrawlQueue)] *)
| ClosedBoth   (** ... after [close(sc.PostProcessQueue)] *)
| Finished.    (** ... after [postProcessWg.Wait] *)

Record Ghost := mkGhost {
  stage : Stage;
  crawl_units : Z;
  post_units : Z;
  pending : Z
}.

Definition idle : Ghost := mkGhost Working 0 0 0.

Definition may_seed (g : Ghost) : Prop :=
  (stage g = Seeding_ /\ 0 <= crawl_units g)
  \/ (stage g = Working /\ 1 <= crawl_units g).

Definition drain_ok (g : Ghost) {X} (o : op X) : Prop :=
  match o with
  | WgAdd crawlWg delta =>
      (delta = 1 /\ may_seed g)
      \/ (delta = -1 /\ stage g = Working /\ 1 <= crawl_units g)
  | WgAdd postProcessWg delta =>
      (delta = 1 /\ stage g = Working /\ 1 <= crawl_units g)
      \/ (delta = -1 /\ pending g + 1 <= post_units g)
  | WgWait crawlWg => stage g = Seeding_
  | WgWait postProcessWg => stage g = ClosedBoth
  | ChanSend CrawlQueue t =>
      belongs CrawlQueue t /\ 1 <= crawl_units g
      /\ (stage g = Seeding_ \/ stage g = Working)
  | ChanSend PostProcessQueue t =>
      belongs PostProcessQueue t /\ pending g + 1 <= post_units g
      /\ stage g = Working /\ 1 <= crawl_units g
  | ChanClose CrawlQueue => stage g = Waited
  | ChanClose PostProcessQueue => stage g = ClosedCrawl
  | Select _ _ => g = idle
  | Process _ _ _ _ => 1 <= pending g
  | _ => True
  end.

Definition drain_poss (g : Ghost) {X} (o : op X) : X -> Prop :=
  match o in op X return X -> Prop with
  | Select _ q =>
      fun s => match s with SelRecv (Some t) => belongs q t | _ => True end
  | _ => fun _ => True
  end.

Definition with_stage (g : Ghost) (s : Stage) : Ghost :=
  mkGhost s (crawl_units g) (post_units g) (pending g).

Definition drain_next (g : Ghost) {X} (o : op X) : X -> Ghost :=
  match o in op X return X -> Ghost with
  | WgAdd crawlWg delta =>
      fun _ => mkGhost (stage g) (crawl_units g + delta) (post_units g) (pending g)
  | WgAdd postProcessWg delta =>
      fun _ => mkGhost (stage g) (crawl_units g) (post_units g + delta) (pending g)
  | WgWait crawlWg => fun _ => with_stage g Waited
  | WgWait postProcessWg => fun _ => with_stage g Finished
  | ChanSend CrawlQueue _ =>
      fun _ => mkGhost (stage g) (crawl_units g - 1) (post_units g) (pending g)
  | ChanSend PostProcessQueue _ =>
      fun _ => mkGhost (stage g) (crawl_units g) (post_units g - 1) (pending g)
  | ChanClose CrawlQueue => fun _ => with_stage g ClosedCrawl
  | ChanClose PostProcessQueue => fun _ => with_stage g ClosedBoth
  | Select _ CrawlQueue =>
      fun s =>
        match s with
        | SelRecv (Some _) =>
            mkGhost (stage g) (crawl_units g + 1) (post_units g) (pending g)
        | _ => g
        end
  | Select _ PostProcessQueue =>
      fun s =>
        match s with
        | SelRecv (Some _) =>
            mkGhost (stage g) (crawl_units g) (post_units g + 1) (pending g + 1)
        | _ => g
        end
  | Process _ _ _ _ =>
      fun _ => mkGhost (stage g) (crawl_units g) (post_units g) (pending g - 1)
  | _ => fun _ => g
  end.

Section Drain.
Context `{GoLib}.
Variable sc : SiteCrawler.

(** A call of [Crawl] that has returned has gone through the whole
    shutdown, unless it returned the error of [BaseURL.Parse]. *)
Definition drain_done (g : Ghost) : Prop :=
  stage g = Finished
  \/ (stage g = Seeding_ /\ is_ok (URL_Parse (BaseURL sc) "/sitemap.xml") = false).

Definition drain : Monitor Ghost :=
  mkMonitor Ghost (@drain_ok) (@drain_poss) (@drain_next) idle drain_done.
End Drain.

(** The sum of a component of the ghosts. *)
Definition total (f : Ghost -> Z) (gs : list Ghost) : Z :=
  List.fold_right (fun g acc => f g + acc) 0 gs.

(** The post-processing tasks handed over, and the processor invocations,
    recorded in a trace. *)
Definition is_handed (e : Event) : bool :=
  match e with
  | EvEnqueue PostProcessQueue _ => true
  | _ => false
  end.

Definition is_processed (e : Event) : bool :=
  match e with
  | EvProcess _ _ _ => true
  | _ => false
  end.

Definition handed (tr : list Event) : Z :=
  Z.of_nat (List.length (List.filter is_handed tr)).

Definition processed (tr : list Event) : Z :=
  Z.of_nat (List.length (List.filter is_processed tr)).

(** What the shared objects look like at each stage of the call. *)
Definition stage_ok (s : Stage) (st : State) : Prop :=
  match s with
  | Working => True
  | Seeding_ =>
      closed (crawlQueue st) = false /\ closed (postProcessQueue st) = false
  | Waited =>
      crawlWgCount st = 0
      /\ closed (crawlQueue st) = false /\ closed (postProcessQueue st) = false
  | ClosedCrawl =>
      crawlWgCount st = 0
      /\ closed (crawlQueue st) = true /\ closed (postProcessQueue st) = false
  | ClosedBoth =>
      crawlWgCount st = 0
      /\ closed (crawlQueue st) = true /\ closed (postProcessQueue st) = true
  | Finished =>
      crawlWgCount st = 0
      /\ closed (crawlQueue st) = true /\ closed (postProcessQueue st) = true
      /\ postProcessWgCount st = 0
  end.

Record drain_inv (gs : list Ghost) (st : State) : Prop := {
  crawl_accounted :
    crawlWgCount st
    = Z.of_nat (List.length (buf (crawlQueue st))) + total crawl_units gs;
  post_accounted :
    postProcessWgCount st
    = Z.of_nat (List.length (buf (postProcessQueue st))) + total post_units gs;
  handed_accounted :
    handed (trace st)
    = processed (trace st)
      + Z.of_nat (List.length (buf (postProcessQueue st))) + total pending gs;
  ghost_bounds : forall i g,
      gs !! i = Some g -> 0 <= crawl_units g /\ 0 <= pending g <= post_units g;
  the_caller : exists i g,
      gs !! i = Some g /\ stage g <> Working /\ stage_ok (stage g) st
      /\ forall j g', gs !! j = Some g' -> j <> i -> stage g' = Working;
  drain_belong : forall q, Forall (belongs q) (buf (chan st q))
}.

(** *** The monitor of a crawler whose crawl queue is closed

    It permits everything; what it knows is that [close(sc.CrawlQueue)]
    cannot succeed once more. *)
Section Sealed.
Context `{GoLib}.
Variable sc : SiteCrawler.

Definition sealed_poss (g : unit) {X} (o : op X) : X -> Prop :=
  match o in op X return X -> Prop with
  | ChanClose CrawlQueue => fun _ => False
  | _ => fun _ => True
  end.

(** A call of [Crawl] returns only with the error of [BaseURL.Parse]. *)
Definition sealed : Monitor unit :=
  mkMonitor unit (fun _ _ _ => True) (@sealed_poss) (fun _ _ _ _ => tt) tt
    (fun _ => is_ok (URL_Parse (BaseURL sc) "/sitemap.xml") = false).

Definition sealed_inv (gs : list unit) (st : State) : Prop :=
  closed (crawlQueue st) = true.

(** Calls of [Crawl] and workers. *)
Inductive CrawlCall : Thread -> Prop :=
| call_Crawl ctx : CrawlCall (Run (Crawl sc ctx))
| call_Worker g : CrawlCall (start sc g).
End Sealed.

(** *** The provenance monitor

    The ghost of a goroutine lists the URL strings it has fetched or, for a
    post-processing worker, the URL string of the page it was handed. *)
Section Provenance.
Context `{GoLib}.
Variable sc : SiteCrawler.

(** A task on [q] whose processor is registered and whose page is among
    [known]. *)
Definition vouched (known : string -> Prop) (q : Queue) (t : Task) : Prop :=
  match q, t with
  | CrawlQueue, CrawlTask _ _ => True
  | PostProcessQueue, ProcessTask _ p u _ =>
      List.In p (postProcessors sc) /\ known (url_String u)
  | _, _ => False
  end.

Definition prov_ok (g : list string) {X} (o : op X) : Prop :=
  match o with
  | ChanSend q t => vouched (fun s => List.In s g) q t
  | Process p _ u _ => List.In p (postProcessors sc) /\ List.In (url_String u) g
  | _ => True
  end.

Definition prov_poss (g : list string) {X} (o : op X) : X -> Prop :=
  match o in op X return X -> Prop with
  | Select _ q =>
      fun s =>
        match s with
        | SelRecv (Some t) => vouched (fun _ => True) q t
        | _ => True
        end
  | _ => fun _ => True
  end.

Definition prov_next (g : list string) {X} (o : op X) : X -> list string :=
  match o in op X return X -> list string with
  | ClientDo _ rawurl =>
      fun r => match r with Ok _ => rawurl :: g | Err _ => g end
  | Select _ _ =>
      fun s =>
        match s with
        | SelRecv (Some (ProcessTask _ _ u _)) => [url_String u]
        | _ => g
        end
  | WgAdd _ delta => fun _ => if (delta <? 0)%Z then [] else g
  | _ => fun _ => g
  end.

Definition prov : Monitor (list string) :=
  mkMonitor (list string) (@prov_ok) (@prov_poss) (@prov_next) [] (fun _ => True).

Definition requested_in (tr : list Event) (s : string) : Prop :=
  List.In (EvRequest s) tr.

Record prov_inv (gs : list (list string)) (st : State) : Prop := {
  held_requested : forall i g s,
      gs !! i = Some g -> List.In s g -> requested_in (trace st) s;
  queued_requested : forall q,
      Forall (vouched (requested_in (trace st)) q) (buf (chan st q));
  processed_requested : forall tr1 p u c tr2,
      trace st = (tr1 ++ EvProcess p u c :: tr2)%list ->
      List.In p (postProcessors sc) /\ requested_in tr2 (url_String u)
}.
End Provenance.

(** *** The fetch monitor

    The ghost of a goroutine is the one request it may still make: the caller
    of [Crawl] may ask for the sitemap, a crawl worker for the URL of the
    task it received. *)
Section Fetch.
Context `{GoLib}.
Variable sc : SiteCrawler.

(** The request of [CrawlFromSiteMap]. *)
Definition sitemap_request : option string :=
  match URL_Parse (BaseURL sc) "/sitemap.xml" with
  | Ok siteMapUrl => Some (url_String siteMapUrl)
  | Err _ => None
  end.

(** A crawl task on the crawl queue, a post-processing task on the other. *)
Definition shaped (q : Queue) (t : Task) : Prop :=
  match q, t with
  | CrawlQueue, CrawlTask _ _ => True
  | PostProcessQueue, ProcessTask _ _ _ _ => True
  | _, _ => False
  end.

Definition fetch_ok (g : option string) {X} (o : op X) : Prop :=
  match o with
  | ClientDo _ rawurl => g = Some rawurl
  | ChanSend q t => shaped q t
  | _ => True
  end.

Definition fetch_poss (g : option string) {X} (o : op X) : X -> Prop :=
  match o in op X return X -> Prop with
  | Select _ q =>
      fun s =>
        match s with
        | SelRecv (Some t) => shaped q t
        | _ => True
        end
  | _ => fun _ => True
  end.

Definition fetch_next (g : option string) {X} (o : op X) : X -> option string :=
  match o in op X return X -> option string with
  | ClientDo _ _ => fun _ => None
  | Select _ _ =>
      fun s =>
        match s with
        | SelRecv (Some (CrawlTask _ u)) => Some (url_String u)
        | _ => g
        end
  | WgAdd _ delta => fun _ => if (delta <? 0)%Z then None else g
  | _ => fun _ => g
  end.

Definition fetch : Monitor (option string) :=
  mkMonitor (option string) (@fetch_ok) (@fetch_poss) (@fetch_next) None
    (fun _ => True).

(** The requests of [s] recorded in a trace. *)
Definition asks (s : string) (e : Event) : bool :=
  match e with
  | EvRequest rawurl => String.eqb rawurl s
  | _ => false
  end.

Definition times_requested (s : string) (tr : list Event) : nat :=
  List.length (List.filter (asks s) tr).

(** The crawl tasks for [s] in a buffer. *)
Definition carries (s : string) (t : Task) : bool :=
  match t with
  | CrawlTask _ url => String.eqb (url_String url) s
  | ProcessTask _ _ _ _ => false
  end.

Definition waiting (s : string) (ts : list Task) : nat :=
  List.length (List.filter (carries s) ts).

(** The goroutines that may still ask for [s]. *)
Definition may_ask (s : string) (g : option string) : bool :=
  match g with
  | Some r => String.eqb r s
  | None => false
  end.

Definition holders (s : string) (gs : list (option string)) : nat :=
  List.length (List.filter (may_ask s) gs).

(** Every request made, waiting in the crawl queue or held by a goroutine
    is paid for by an admission, or is the request of the sitemap. *)
Record fetch_inv (gs : list (option string)) (st : State) : Prop := {
  fetch_budget : forall s,
      (times_requested s (trace st) + waiting s (buf (crawlQueue st)) + holders s gs
       <= enqueued s (trace st) + Nat.b2n (may_ask s sitemap_request))%nat;
  fetch_shaped : forall q, Forall (shaped q) (buf (chan st q))
}.
End Fetch.

(** ** The processor of [main]

    [URLLoggingWithLinksPostProcessor] keeps a [sync.Map] from the URL string
    of a page to the links found on it, and two [atomic.Int64] counters.  The
    post-processing workers call [Process] on the one processor concurrently:
    a call is a sequence of atomic operations on it. *)
Module URLLogging.

Record URLLoggingWithLinksPostProcessor := mkProcessor {
URLsCrawled : gmap string (list string);
PagesProcessed : Z;
LinksFound : Z
}.

(** The value of an [int64] after an addition that overflows. *)
Definition int64 (n : Z) : Z := (n + 2 ^ 63) mod 2 ^ 64 - 2 ^ 63.

(** [&URLLoggingWithLinksPostProcessor{}] *)
Definition zero : URLLoggingWithLinksPostProcessor := mkProcessor ∅ 0 0.

Inductive Atomic :=
| URLsCrawled_Store (key : string) (value : list string)
| PagesProcessed_Add (delta : Z)
| LinksFound_Add (delta : Z).

Definition atomically (s : URLLoggingWithLinksPostProcessor) (o : Atomic)
: URLLoggingWithLinksPostProcessor :=
match o with
| URLsCrawled_Store key value =>
    mkProcessor (<[key := value]> (URLsCrawled s)) (PagesProcessed s) (LinksFound s)
| PagesProcessed_Add delta =>
    mkProcessor (URLsCrawled s) (int64 (PagesProcessed s + delta)) (LinksFound s)
| LinksFound_Add delta =>
    mkProcessor (URLsCrawled s) (PagesProcessed s) (int64 (LinksFound s + delta))
end.

Section Process.
Context `{GoLib}.

(** The atomic operations of a call of [Process], in program order, and the
  error it returns.  The line of [log.Printf] touches nothing of the
  processor and is left out; [ctx] is not used. *)
Definition Process (pageURL : URL) (pageContent : string)
: list Atomic * option error :=
match ExtractLinks pageContent with
| Err err => ([], Some err)
| Ok urls =>
    ([ URLsCrawled_Store (url_String pageURL) urls;
       PagesProcessed_Add 1;
       LinksFound_Add (Z.of_nat (List.length urls)) ],
     None)
end.

(** The operations of the calls of [Process] on the pages [calls]. *)
Definition calls_ops (calls : list (URL * string)) : list (list Atomic) :=
List.map (fun call => fst (Process (fst call) (snd call))) calls.

(** The links a call stores. *)
Definition links_of (call : URL * string) : list string :=
match ExtractLinks (snd call) with
| Ok urls => urls
| Err _ => []
end.

Definition parses (call : URL * string) : bool := is_ok (ExtractLinks (snd call)).
End Process.

(** The operations of concurrent calls, each in its program order, in one of
  the orders the goroutines may run them. *)
Inductive interleaves : list (list Atomic) -> list Atomic -> Prop :=
| interleaves_done pending :
  Forall (fun ops => ops = []) pending -> interleaves pending []
| interleaves_next pending i o rest ops :
  pending !! i = Some (o :: rest) ->
  interleaves (<[i := rest]> pending) ops ->
  interleaves pending (o :: ops).

Definition run (ops : list Atomic) (s : URLLoggingWithLinksPostProcessor)
: URLLoggingWithLinksPostProcessor :=
List.fold_left atomically ops s.

(** The sum of the amounts added to a counter. *)
Definition pages_added (ops : list Atomic) : Z :=
List.fold_right
  (fun o acc => match o with PagesProcessed_Add d => d + acc | _ => acc end) 0 ops.

Definition links_added (ops : list Atomic) : Z :=
List.fold_right
  (fun o acc => match o with LinksFound_Add d => d + acc | _ => acc end) 0 ops.

End URLLogging.

(** *** The monitor of a crawl without workers

    With [WorkerPoolSize <= 0] the loops of [startCrawlWorkers] and
    [startPostProcessingWorkers] start nothing, and the caller of [Crawl] is
    the only goroutine.  Its ghost says what it knows of the crawl counter. *)
Inductive Lone :=
| Unseeded   (** nothing was admitted: the ledger is empty *)
| Storing    (** a key was stored, [crawlWg.Add(1)] comes next *)
| Seeded     (** [crawlWg] counts at least one task *)
| Spawned.   (** a worker: there is none *)

(** The caller between two admissions. *)
Definition calm (g : Lone) : Prop := g = Unseeded \/ g = Seeded.

Section Starved.
Context `{GoLib}.
Variable sc : SiteCrawler.

Definition starved_ok (g : Lone) {X} (o : op X) : Prop :=
  match o with
  | WgAdd crawlWg delta => g = Spawned \/ 1 <= delta
  | Go _ => g = Spawned
  | _ => True
  end.

Definition starved_poss (g : Lone) {X} (o : op X) : X -> Prop :=
  match o in op X return X -> Prop with
  | LoadOrStore _ => fun loaded => g = Unseeded -> loaded = false
  | WgWait crawlWg => fun _ => g <> Seeded
  | _ => fun _ => True
  end.

Definition starved_next (g : Lone) {X} (o : op X) : X -> Lone :=
  match o in op X return X -> Lone with
  | LoadOrStore _ =>
      fun loaded =>
        match g with
        | Spawned => Spawned
        | _ => if loaded : bool then g else Storing
        end
  | WgAdd crawlWg _ =>
      fun _ => match g with Spawned => Spawned | _ => Seeded end
  | _ => fun _ => g
  end.

(** The caller returns only with the error of [BaseURL.Parse]. *)
Definition starved : Monitor Lone :=
  mkMonitor Lone (@starved_ok) (@starved_poss) (@starved_next) Spawned
    (fun _ => is_ok (URL_Parse (BaseURL sc) "/sitemap.xml") = false).

Definition starved_inv (gs : list Lone) (st : State) : Prop :=
  exists g,
    gs = [g] /\ g <> Spawned /\ 0 <= crawlWgCount st
    /\ (g = Unseeded -> crawledPages st = ∅)
    /\ (g = Seeded -> 1 <= crawlWgCount st).
End Starved.

(** ** The paths [path.Clean] returns *)

(** [strings.Join(es, "/")] on bytes. *)
Fixpoint Join_bytes (es : list bytes) : bytes :=
  match es with
  | [] => []
  | e :: es' =>
      match es' with
      | [] => e
      | _ => (e ++ slash :: Join_bytes es')%list
      end
  end.

(** A path element with a name: not empty, without separator, and neither
    [.] nor [..]. *)
Definition named (e : bytes) : Prop :=
  e <> [] /\ Forall (fun c => is_slash c = false) e /\ e <> [dot] /\ e <> [dot; dot].

(** A cleaned path: [.], or a rooted path of named elements, or a relative
    path of [..] elements followed by named elements. *)
Definition cleaned (out : bytes) : Prop :=
  out = [dot]
  \/ (exists es, Forall named es /\ out = slash :: Join_bytes es)
  \/ (exists k es,
        Forall named es /\ (0 < k + List.length es)%nat
        /\ out = Join_bytes (replicate k [dot; dot] ++ es)%list).

(** The buffer of [path.Clean], in reverse: the named elements written
    after [k] leading [..] elements, after the root. *)
Definition Clean_form (rooted : bool) (rout : bytes) (dotdot : nat) : Prop :=
  exists es k,
    Forall named es
    /\ rout = (Join_bytes (es ++ replicate k [dot; dot])
               ++ if rooted then [slash] else [])%list
    /\ dotdot = List.length (Join_bytes (replicate k [dot; dot])
                             ++ if rooted then [slash] else [])%list
    /\ (rooted = true -> k = 0%nat).

(** *** The discovery monitor

    What a crawl started with [Crawl(ctx0)] sends on its queues. *)
Section Discovery.
Context `{GoLib}.
Variable sc : SiteCrawler.
Variable ctx0 : Context.

(** A URL that [ResolveAndCleanURL] returned: it has no fragment and its
    path is cleaned. *)
Definition normalized (u : URL) : Prop :=
  (exists href, ResolveAndCleanURL (BaseURL sc) href = Ok u)
  /\ Fragment u = "" /\ cleaned (list_ascii_of_string (Path u)).

(** The URLs a crawl submits: the base URL, the normalized links of a page,
    and the normalized entries of the sitemap, resolved against the base
    URL once more. *)
Definition discovered (u : URL) : Prop :=
  u = BaseURL sc
  \/ normalized u
  \/ exists parsed, normalized parsed /\ u = url_ResolveReference (BaseURL sc) parsed.

Definition lawful (q : Queue) (t : Task) : Prop :=
  match q, t with
  | CrawlQueue, CrawlTask ctx url => ctx = ctx0 /\ discovered url
  | PostProcessQueue, ProcessTask ctx _ _ _ => ctx = ctx0
  | _, _ => False
  end.

Definition found_ok (g : unit) {X} (o : op X) : Prop :=
  match o with
  | ChanSend q t => lawful q t
  | _ => True
  end.

Definition found_poss (g : unit) {X} (o : op X) : X -> Prop :=
  match o in op X return X -> Prop with
  | Select _ q =>
      fun s =>
        match s with
        | SelRecv (Some t) => lawful q t
        | _ => True
        end
  | _ => fun _ => True
  end.

Definition found : Monitor unit :=
  mkMonitor unit (@found_ok) (@found_poss) (fun _ _ _ _ => tt) tt (fun _ => True).

Definition found_inv (gs : list unit) (st : State) : Prop :=
  (forall q, Forall (lawful q) (buf (chan st q)))
  /\ (forall q t, List.In (EvEnqueue q t) (trace st) -> lawful q t).
End Discovery.

(** *** Two monitors side by side *)
Definition both {G1 G2 : Type} (M1 : Monitor G1) (M2 : Monitor G2)
  : Monitor (G1 * G2) :=
  mkMonitor (G1 * G2)
    (fun g X o => mon_ok M1 (fst g) o /\ mon_ok M2 (snd g) o)
    (fun g X o x => mon_poss M1 (fst g) o x /\ mon_poss M2 (snd g) o x)
    (fun g X o x => (mon_next M1 (fst g) o x, mon_next M2 (snd g) o x))
    (mon_idle M1, mon_idle M2)
    (fun g => mon_done M1 (fst g) /\ mon_done M2 (snd g)).

(** *** The phase monitor

    The caller of [Crawl] starts its workers before it admits anything: once
    it has called [crawlWg.Add] it starts no goroutine. *)
Inductive Phase :=
| Hired      (** a worker *)
| Starting   (** the caller, before its first [crawlWg.Add] *)
| AfterAdd.    (** the caller, after it *)

Section Phases.
Context `{GoLib}.
Variable sc : SiteCrawler.

Definition phase_ok (g : Phase) {X} (o : op X) : Prop :=
  match o with
  | Go _ => g <> AfterAdd
  | _ => True
  end.

Definition phase_next (g : Phase) {X} (o : op X) : X -> Phase :=
  match o in op X return X -> Phase with
  | WgAdd crawlWg _ => fun _ => match g with Hired => Hired | _ => AfterAdd end
  | _ => fun _ => g
  end.

(** A caller that returns the error of [BaseURL.Parse] has admitted
    nothing. *)
Definition phase : Monitor Phase :=
  mkMonitor Phase (@phase_ok) (fun _ _ _ _ => True) (@phase_next) Hired
    (fun g => is_ok (URL_Parse (BaseURL sc) "/sitemap.xml") = false -> g = Starting).

(** Goroutine 0 is the caller, and the crawl counter is at zero until it
    has admitted a URL. *)
Definition stranded_inv (gs : list (Ghost * Phase)) (st : State) : Prop :=
  drain_inv (fst <$> gs) st
  /\ exists g0,
       gs !! 0%nat = Some g0 /\ stage (fst g0) <> Working /\ snd g0 <> Hired
       /\ (snd g0 = Starting -> crawlWgCount st = 0).
End Phases.

(** A worker that has returned. *)
Definition gone (t : Thread) : Prop := exists g, t = Loop g (Ret false).

(** The goroutines other than the caller have all returned. *)
Definition workers_gone (cfg : Config) : Prop :=
  forall i t, threads cfg !! S i = Some t -> gone t.

(** *** The quota monitor

    The ghost of a goroutine is the URL string of the page it works on and
    the number of hand-overs or processor calls it may still make for it: a
    crawl worker that took the task of a page may hand it over once per
    registered processor, a post-processing worker that took a task may call
    its processor once. *)
Section Quota.
Context `{GoLib}.
Variable sc : SiteCrawler.

Definition fanout : nat := List.length (postProcessors sc).

Definition quota_ok (g : string * nat) {X} (o : op X) : Prop :=
  match o with
  | ChanSend CrawlQueue t => shaped CrawlQueue t
  | ChanSend PostProcessQueue t =>
      match t with
      | ProcessTask _ _ u _ => fst g = url_String u /\ (1 <= snd g)%nat
      | CrawlTask _ _ => False
      end
  | Process _ _ u _ => fst g = url_String u /\ (1 <= snd g)%nat
  | _ => True
  end.

Definition quota_poss (g : string * nat) {X} (o : op X) : X -> Prop :=
  match o in op X return X -> Prop with
  | Select _ q =>
      fun s =>
        match s with
        | SelRecv (Some t) => shaped q t
        | _ => True
        end
  | _ => fun _ => True
  end.

Definition quota_next (g : string * nat) {X} (o : op X) : X -> string * nat :=
  match o in op X return X -> string * nat with
  | ChanSend PostProcessQueue _ => fun _ => (fst g, Nat.pred (snd g))
  | Process _ _ _ _ => fun _ => (fst g, Nat.pred (snd g))
  | Select _ _ =>
      fun s =>
        match s with
        | SelRecv (Some (CrawlTask _ u)) => (url_String u, fanout)
        | SelRecv (Some (ProcessTask _ _ u _)) => (url_String u, 1%nat)
        | _ => g
        end
  | WgAdd _ delta => fun _ => if (delta <? 0)%Z then ("", 0%nat) else g
  | _ => fun _ => g
  end.

Definition quota : Monitor (string * nat) :=
  mkMonitor (string * nat) (@quota_ok) (@quota_poss) (@quota_next) ("", 0%nat)
    (fun _ => True).

(** The processor calls on pages of URL string [s] recorded in a trace. *)
Definition processes (s : string) (e : Event) : bool :=
  match e with
  | EvProcess _ u _ => String.eqb (url_String u) s
  | _ => false
  end.

Definition times_processed (s : string) (tr : list Event) : nat :=
  List.length (List.filter (processes s) tr).

(** The post-processing tasks for [s] in a buffer. *)
Definition hands (s : string) (t : Task) : bool :=
  match t with
  | ProcessTask _ _ u _ => String.eqb (url_String u) s
  | CrawlTask _ _ => false
  end.

Definition handed_over (s : string) (ts : list Task) : nat :=
  List.length (List.filter (hands s) ts).

(** What the goroutines may still do for [s]. *)
Definition share (s : string) (g : string * nat) : nat :=
  if String.eqb (fst g) s then snd g else 0%nat.

Definition shares (s : string) (gs : list (string * nat)) : nat :=
  List.fold_right (fun g acc => (share s g + acc)%nat) 0%nat gs.

(** Every processor call made, every task waiting for a processor, every
    quota held and every crawl task waiting is paid for by an admission:
    [fanout] for each crawl task enqueued. *)
Record quota_inv (gs : list (string * nat)) (st : State) : Prop := {
  quota_budget : forall s,
      (times_processed s (trace st) + handed_over s (buf (postProcessQueue st))
       + shares s gs + fanout * waiting s (buf (crawlQueue st))
       <= fanout * enqueued s (trace st))%nat;
  quota_shaped : forall q, Forall (shaped q) (buf (chan st q))
}.
End Quota.

(** *** The hand-over monitor

    The ghost of a goroutine is the post-processing task it has received and
    whose processor it has not called yet: the processor, the URL of the page
    and its content.  A goroutine that holds one may do nothing but call the
    processor with that URL and that content. *)
Definition Due : Type := PostProcessor * URL * string.

Definition owed_ok (g : option Due) {X} (o : op X) : Prop :=
  match g with
  | Some d =>
      match o with
      | Process p _ u page => d = (p, u, page)
      | _ => False
      end
  | None =>
      match o with
      | Process _ _ _ _ => False
      | ChanSend q t => shaped q t
      | _ => True
      end
  end.

Definition owed_poss (g : option Due) {X} (o : op X) : X -> Prop :=
  match o in op X return X -> Prop with
  | Select _ q =>
      fun s =>
        match s with
        | SelRecv (Some t) => shaped q t
        | _ => True
        end
  | _ => fun _ => True
  end.

Definition owed_next (g : option Due) {X} (o : op X) : X -> option Due :=
  match o in op X return X -> option Due with
  | Select _ _ =>
      fun s =>
        match s with
        | SelRecv (Some (ProcessTask _ p u page)) => Some (p, u, page)
        | _ => g
        end
  | Process _ _ _ _ => fun _ => None
  | _ => fun _ => g
  end.

Definition owed : Monitor (option Due) :=
  mkMonitor (option Due) (@owed_ok) (@owed_poss) (@owed_next) None
    (fun g => g = None).

(** A kind of processor calls: which processors, on which pages, with which
    contents. *)
Definition Kind : Type := PostProcessor -> URL -> string -> bool.

Definition any_kind : Kind := fun _ _ _ => true.

(** The processor calls of a kind recorded in a trace. *)
Definition is_call (kind : Kind) (e : Event) : bool :=
  match e with
  | EvProcess p u page => kind p u page
  | _ => false
  end.

Definition calls_of (kind : Kind) (tr : list Event) : nat :=
  List.length (List.filter (is_call kind) tr).

(** The post-processing tasks of a kind sent on the post-processing queue,
    as recorded in a trace. *)
Definition is_handover (kind : Kind) (e : Event) : bool :=
  match e with
  | EvEnqueue PostProcessQueue (ProcessTask _ p u page) => kind p u page
  | _ => false
  end.

Definition handovers_of (kind : Kind) (tr : list Event) : nat :=
  List.length (List.filter (is_handover kind) tr).

(** The tasks of a kind in a buffer. *)
Definition is_queued (kind : Kind) (t : Task) : bool :=
  match t with
  | ProcessTask _ p u page => kind p u page
  | CrawlTask _ _ => false
  end.

Definition queued_of (kind : Kind) (ts : list Task) : nat :=
  List.length (List.filter (is_queued kind) ts).

(** The tasks of a kind that goroutines have received and not run yet. *)
Definition owes (kind : Kind) (g : option Due) : bool :=
  match g with
  | Some (p, u, page) => kind p u page
  | None => false
  end.

Definition owing (kind : Kind) (gs : list (option Due)) : nat :=
  List.length (List.filter (owes kind) gs).

(** Every task handed over has been run, waits in the queue, or is held by
    the goroutine that received it. *)
Record owed_inv (gs : list (option Due)) (st : State) : Prop := {
  owed_balance : forall kind,
      (calls_of kind (trace st) + queued_of kind (buf (postProcessQueue st))
       + owing kind gs
       = handovers_of kind (trace st))%nat;
  owed_shaped : forall q, Forall (shaped q) (buf (chan st q))
}.

(** *** Where the goroutines of a call of [Crawl] are *)
Section Places.
Context `{GoLib}.
Variable sc : SiteCrawler.

(** A post-processing worker started under [c], between two operations:
    at its [select], about to start the next turn, returned, about to call
    the closure it received, or about to run the deferred [Done]. *)
Inductive PostShape (c : Context) : Prog bool -> Prop :=
| at_select : PostShape c (workerTurn sc c PostProcessQueue)
| at_turn : PostShape c (Ret true)
| at_exit : PostShape c (Ret false)
| at_call c' p u page :
    PostShape c (runTask sc (ProcessTask c' p u page) ;; Ret true)
| at_done : PostShape c (WgDone postProcessWg ;; Ret true).

(** The reason a post-processing worker has to return: its context is
    done, or the queue is closed and empty. *)
Definition may_leave (c : Context) (st : State) : Prop :=
  ctx_done st c = true
  \/ (closed (postProcessQueue st) = true /\ buf (postProcessQueue st) = []).

(** The post-processing workers are where [PostShape] says, and one that
    has returned had its reason. *)
Definition post_workers_placed (cfg : Config) : Prop :=
  forall i c cur,
    threads cfg !! i = Some (Loop (PostProcessWorker c) cur) ->
    PostShape c cur /\ (cur = Ret false -> may_leave c (shared cfg)).

(** Nothing was sent and nothing was closed. *)
Definition untouched (st : State) : Prop :=
  buf (crawlQueue st) = [] /\ buf (postProcessQueue st) = []
  /\ closed (crawlQueue st) = false /\ closed (postProcessQueue st) = false.

Variable ctx : Context.

(** [Crawl] is still starting its crawl workers, or about to start the
    first post-processing worker: the other goroutines are crawl workers
    that have found nothing to do. *)
Definition hiring (cfg : Config) : Prop :=
  untouched (shared cfg)
  /\ (exists n K,
        threads cfg !! 0%nat
        = Some (Run (forCount n (call (Go (CrawlWorker ctx))) ;;
                     startPostProcessingWorkers sc ctx ;; K)))
  /\ forall i t,
       threads cfg !! S i = Some t ->
       exists cur,
         t = Loop (CrawlWorker ctx) cur
         /\ (cur = workerTurn sc ctx CrawlQueue \/ cur = Ret true
             \/ cur = Ret false).

(** A post-processing worker has been started. *)
Definition staffed (cfg : Config) : Prop :=
  exists i cur, threads cfg !! i = Some (Loop (PostProcessWorker ctx) cur).

Definition placed (cfg : Config) : Prop :=
  post_workers_placed cfg /\ (hiring cfg \/ staffed cfg).
End Places.

(** Every task handed over so far has been run or waits in the queue: no
    goroutine holds one. *)
Definition settled (st : State) : Prop :=
  (handovers_of any_kind (trace st)
   = calls_of any_kind (trace st)
     + queued_of any_kind (buf (postProcessQueue st)))%nat.

(** A state that came from [st] by processor calls and bookkeeping only:
    nobody was cancelled and nothing more was handed over. *)
Definition only_calls (st st' : State) : Prop :=
  cancelled st' = cancelled st
  /\ forall kind, handovers_of kind (trace st') = handovers_of kind (trace st).

(** The choice of a scheduler that lets a [select] take the task when there
    is one. *)
Definition take_task : Choice := mkChoice false (Err "not asked") None.

Section Reached.
Context `{GoLib}.
Variable sc : SiteCrawler.
Variable ctx : Context.

(** The configurations of a call of [Crawl] on a fresh crawler. *)
Definition reached (cfg : Config) : Prop :=
  exists sched,
    run sc sched (mkConfig [Run (Crawl sc ctx)] initialState false) = Some cfg.

(** [cfg'] comes from [cfg] by a schedule that only lets processors be
    called. *)
Definition proceeds (cfg cfg' : Config) : Prop :=
  (exists sched, run sc sched cfg = Some cfg')
  /\ reached cfg'
  /\ only_calls (shared cfg) (shared cfg').
End Reached.

(** The drain monitor and the hand-over monitor side by side: a goroutine
    that holds a task in the second has a pending task in the first. *)
Definition tallied_inv (gs : list (Ghost * option Due)) (st : State) : Prop :=
  drain_inv (fst <$> gs) st
  /\ owed_inv (snd <$> gs) st
  /\ forall i g, gs !! i = Some g -> snd g <> None -> 1 <= pending (fst g).

(** *** A crawl cancelled after its page was fetched

    The crawl of the one-page site with one processor.  The crawl worker
    fetches the base page and hands it over; then the context is cancelled,
    the post-processing worker takes [ctx.Done()] and returns with the task
    still in the queue, the crawl worker returns, and [Crawl] goes on to
    [postProcessWg.Wait()]. *)
Module Cancelled.

Definition done_first : Choice := mkChoice true (Err "unused") None.

Definition sched : list Action :=
[ (* startCrawlWorkers, startPostProcessingWorkers *)
Step 0 Example.quiet; Step 0 Example.quiet;
(* CrawlFromSiteMap: the sitemap is not there *)
Step 0 Example.notFound;
(* AddURLToCrawlQueue(ctx, &sc.BaseURL): LoadOrStore, Add, send *)
Step 0 Example.quiet; Step 0 Example.quiet; Step 0 Example.quiet;
(* the crawl worker receives the task: ctx check, request answered 200,
   then one post-process task (Add, send) and the deferred Done *)
Step 1 Example.quiet; Step 1 Example.quiet; Step 1 (Example.ok200 "hello");
Step 1 Example.quiet; Step 1 Example.quiet; Step 1 Example.quiet;
(* cancel(); the post-processing worker takes ctx.Done() and returns *)
Cancel 0; Step 2 done_first;
(* the crawl worker starts its next turn, takes ctx.Done() and returns *)
Step 1 Example.quiet; Step 1 Example.quiet;
(* crawlWg.Wait(), close(sc.CrawlQueue), close(sc.PostProcessQueue) *)
Step 0 Example.quiet; Step 0 Example.quiet; Step 0 Example.quiet ].

Definition at_rest : Config :=
ends (H := Example.exampleLib) OnePage.sc sched OnePage.cfg0.

End Cancelled.

(** * Properties *)

(** ** Bytes and paths *)

Lemma is_slash_true c : is_slash c = true <-> c = slash.
Proof. unfold is_slash. apply Ascii.eqb_eq. Qed.

Lemma is_slash_dot : is_slash dot = false.
Proof. reflexivity. Qed.

Lemma string_bytes_inv (l : bytes) :
  list_ascii_of_string (string_of_list_ascii l) = l.
Proof. apply list_ascii_of_string_of_list_ascii. Qed.

Lemma no_ds_cons c l :
  no_ds (c :: l) <->
  (is_slash c = true -> match l with d :: _ => is_slash d = false | [] => True end)
  /\ no_ds l.
Proof.
  unfold no_ds. cbn [has_double_slash].
  rewrite orb_false_iff, andb_false_iff.
  destruct (is_slash c); destruct l as [|d l']; try destruct (is_slash d);
    intuition congruence.
Qed.

Lemma no_ds_app_single l c :
  no_ds l ->
  (is_slash c = true -> match rev l with d :: _ => is_slash d = false | [] => True end) ->
  no_ds (l ++ [c])%list.
Proof.
  induction l as [|a l IH]; intros Hl Hc.
  - cbn. unfold no_ds. cbn. now rewrite andb_false_r.
  - apply no_ds_cons in Hl as [Ha Hl].
    change ((a :: l) ++ [c])%list with (a :: (l ++ [c]))%list.
    apply no_ds_cons. split.
    + intros Hs. destruct l as [|b l']; cbn.
      * destruct (is_slash c) eqn:E; [|reflexivity].
        specialize (Hc eq_refl). cbn in Hc. congruence.
      * now apply Ha.
    + apply IH; [exact Hl|].
      intros Hs. specialize (Hc Hs). cbn [rev] in Hc.
      destruct l as [|b l']; [exact I|].
      destruct (rev (b :: l')) as [|d r] eqn:E.
      * apply (f_equal (@List.length _)) in E. rewrite length_rev in E. discriminate.
      * cbn in Hc. exact Hc.
Qed.

Lemma no_ds_rev l : no_ds l -> no_ds (rev l).
Proof.
  induction l as [|a l IH]; intros Hl; [exact Hl|].
  apply no_ds_cons in Hl as [Ha Hl]. cbn [rev].
  apply no_ds_app_single; [now apply IH|].
  rewrite rev_involutive. exact Ha.
Qed.

Lemma no_ds_tl c l : no_ds (c :: l) -> no_ds l.
Proof. intros Hl. now apply no_ds_cons in Hl. Qed.

Lemma Clean_backtrack_inv rooted dotdot :
  forall rout last,
    no_ds (last :: rout) ->
    (dotdot <= List.length rout)%nat ->
    (rooted = true -> dotdot = 1%nat /\ exists r, last :: rout = (r ++ [slash])%list) ->
    tail_ok rooted (skipn (List.length rout - dotdot) rout) ->
    Clean_inv rooted (Clean_backtrack rout last dotdot) dotdot.
Proof.
  induction rout as [|c rout IH]; intros last Hds Hle Hroot Hbase.
  - cbn in Hle. assert (dotdot = 0%nat) by lia. subst dotdot. cbn.
    split; cbn; try easy.
    intros Hr. destruct (Hroot Hr) as [? _]. discriminate.
  - cbn [Clean_backtrack].
    destruct ((dotdot <? List.length (c :: rout))%nat && negb (is_slash last)) eqn:E.
    + apply andb_true_iff in E as [Hlt _]. apply Nat.ltb_lt in Hlt. cbn in Hlt.
      apply IH.
      * now apply no_ds_tl in Hds.
      * lia.
      * intros Hr. destruct (Hroot Hr) as [Hd [r Hr']]. split; [exact Hd|].
        destruct r as [|x r]; [cbn in Hr'; discriminate|].
        cbn in Hr'. inversion Hr'; subst. eauto.
      * cbn [List.length] in Hbase.
        replace (S (List.length rout) - dotdot)%nat
          with (S (List.length rout - dotdot))%nat in Hbase by lia.
        exact Hbase.
    + apply no_ds_tl in Hds as Hds'.
      split; try assumption.
      * apply andb_false_iff in E as [E|E].
        -- apply Nat.ltb_ge in E. assert (List.length (c :: rout) = dotdot) by lia.
           rewrite H, Nat.sub_diag in Hbase. exact Hbase.
        -- apply negb_false_iff in E. apply no_ds_cons in Hds as [Hl _].
           specialize (Hl E). cbn. intros Hc. cbn in Hl. congruence.
      * intros Hr. destruct (Hroot Hr) as [Hd [r Hr']]. split; [exact Hd|].
        destruct r as [|x r]; [cbn in Hr'; discriminate|].
        cbn in Hr'. inversion Hr'; subst. eauto.
Qed.

Lemma Clean_copy_spec :
  forall p rout p' rout',
    Clean_copy p rout = (p', rout') ->
    exists elem, rout' = (rev elem ++ rout)%list /\ p = (elem ++ p')%list
                 /\ Forall (fun c => is_slash c = false) elem
                 /\ (List.length p' <= List.length p)%nat.
Proof.
  induction p as [|c p IH]; intros rout p' rout' Hc; cbn in Hc.
  - inversion Hc; subst. exists []. cbn. auto.
  - destruct (is_slash c) eqn:E.
    + inversion Hc; subst. exists []. cbn. auto.
    + apply IH in Hc as (elem & -> & -> & Hall & Hlen).
      exists (c :: elem). cbn. rewrite <- app_assoc. cbn.
      repeat split; auto; lia.
Qed.

Lemma no_ds_push_elem elem :
  Forall (fun c => is_slash c = false) elem ->
  forall rout, no_ds rout -> no_ds (rev elem ++ rout)%list.
Proof.
  induction 1 as [|c elem Hc _ IH]; intros rout Hr; [exact Hr|].
  cbn [rev]. rewrite <- app_assoc. cbn. apply IH.
  apply no_ds_cons. split; [congruence|exact Hr].
Qed.

Lemma tail_ok_push_elem rooted elem rout :
  Forall (fun c => is_slash c = false) elem -> elem <> [] ->
  tail_ok rooted (rev elem ++ rout)%list.
Proof.
  intros Hall Hne.
  destruct (rev elem) as [|d r] eqn:E.
  - apply (f_equal (@List.length _)) in E. rewrite length_rev in E.
    destruct elem; [congruence|discriminate].
  - cbn. intros Hd. exfalso.
    assert (Hin : List.In d elem).
    { apply in_rev. rewrite E. now left. }
    rewrite List.Forall_forall in Hall. specialize (Hall d Hin). congruence.
Qed.

Lemma skipn_app_keep {A} (pre l : list A) n :
  (n <= List.length l)%nat ->
  skipn (List.length (pre ++ l) - n) (pre ++ l)%list = skipn (List.length l - n) l.
Proof.
  intros Hn. rewrite length_app.
  replace (List.length pre + List.length l - n)%nat
    with (List.length pre + (List.length l - n))%nat by lia.
  rewrite skipn_app.
  rewrite skipn_all2 by lia. cbn.
  f_equal. lia.
Qed.

Lemma tail_ok_not_rooted c r : tail_ok false (c :: r) -> is_slash c = false.
Proof.
  cbn. intros Hc. destruct (is_slash c); [|reflexivity].
  destruct (Hc eq_refl) as [_ ?]. discriminate.
Qed.

Lemma Clean_copy_nonempty c p1 rout p' rout' :
  is_slash c = false ->
  Clean_copy (c :: p1) rout = (p', rout') ->
  exists elem, elem <> [] /\ rout' = (rev elem ++ rout)%list
               /\ Forall (fun c => is_slash c = false) elem.
Proof.
  intros Hc Hcopy. cbn in Hcopy. rewrite Hc in Hcopy.
  apply Clean_copy_spec in Hcopy as (elem & -> & _ & Hall & _).
  exists (c :: elem). split; [discriminate|]. split.
  - cbn. now rewrite <- app_assoc.
  - now constructor.
Qed.

Lemma Clean_loop_inv fuel rooted :
  forall p rout dotdot,
    Clean_inv rooted rout dotdot ->
    exists dotdot', Clean_inv rooted (Clean_loop fuel rooted p rout dotdot) dotdot'.
Proof.
  induction fuel as [|fuel IH]; intros p rout dotdot Hinv; [cbn; eauto|].
  destruct p as [|c p1]; [cbn; eauto|].
  cbn [Clean_loop].
  destruct (is_slash c) eqn:Hslash; [now apply IH|].
  destruct (is_dot c && ends_element p1); [now apply IH|].
  destruct (is_dot c && _) eqn:Hdd.
  - (* .. element *)
    destruct Hinv as [Hds Htail Hroot Hle Hbase].
    destruct (dotdot <? List.length rout)%nat eqn:Hlt.
    + apply Nat.ltb_lt in Hlt.
      destruct rout as [|last rout']; [cbn in Hlt; lia|].
      cbn in Hlt. apply IH. apply Clean_backtrack_inv; auto; [lia|].
      cbn [List.length] in Hbase.
      replace (S (List.length rout') - dotdot)%nat
        with (S (List.length rout' - dotdot))%nat in Hbase by lia.
      exact Hbase.
    + apply Nat.ltb_ge in Hlt.
      destruct rooted; cbn [negb]; [apply IH; now split|].
      apply IH. split.
      * apply no_ds_cons. split; [rewrite is_slash_dot; discriminate|].
        apply no_ds_cons. split; [rewrite is_slash_dot; discriminate|].
        destruct rout as [|a r]; [exact Hds|].
        apply no_ds_cons. split; [|exact Hds].
        intros _. now apply tail_ok_not_rooted in Htail.
      * intros Hd. vm_compute in Hd. discriminate.
      * discriminate.
      * lia.
      * rewrite Nat.sub_diag. intros Hd. vm_compute in Hd. discriminate.
  - (* real path element *)
    destruct Hinv as [Hds Htail Hroot Hle Hbase].
    set (rout1 := if (rooted && negb (List.length rout =? 1)%nat)
                     || (negb rooted && negb (List.length rout =? 0)%nat)
                  then slash :: rout else rout).
    assert (Hds1 : no_ds rout1).
    { subst rout1. destruct (_ || _) eqn:Hc; [|exact Hds].
      apply no_ds_cons. split; [|exact Hds].
      intros _. destruct rout as [|a r]; [exact I|].
      destruct (is_slash a) eqn:Ha; [|reflexivity].
      destruct (Htail Ha) as [-> ->]. cbn in Hc. discriminate. }
    assert (Hpre : exists pre, rout1 = (pre ++ rout)%list).
    { subst rout1. destruct (_ || _); [exists [slash]|exists []]; reflexivity. }
    destruct Hpre as [pre Hpre].
    destruct (Clean_copy (c :: p1) rout1) as [p' rout2] eqn:Hcopy.
    apply Clean_copy_nonempty in Hcopy as (elem & Hne & -> & Hall); [|exact Hslash].
    apply IH. rewrite Hpre, app_assoc. split.
    + rewrite <- app_assoc, <- Hpre. now apply no_ds_push_elem.
    + rewrite <- app_assoc. now apply tail_ok_push_elem.
    + intros Hr. destruct (Hroot Hr) as [Hd [r ->]]. split; [exact Hd|].
      exists ((rev elem ++ pre) ++ r)%list. now rewrite !app_assoc.
    + rewrite length_app. lia.
    + rewrite skipn_app_keep by exact Hle. exact Hbase.
Qed.

Lemma Clean_bytes_no_ds p : no_ds (Clean_bytes p).
Proof.
  unfold Clean_bytes. destruct p as [|c p1]; [reflexivity|].
  set (out := if is_slash c then _ else _).
  assert (Hout : no_ds out).
  { subst out. destruct (is_slash c).
    - destruct (Clean_loop_inv (List.length (c :: p1)) true p1 [slash] 1) as [d [H _ _ _ _]];
        [|exact H].
      split; cbn; auto; try reflexivity. intros _. split; [reflexivity|]. now exists [].
    - destruct (Clean_loop_inv (List.length (c :: p1)) false (c :: p1) [] 0) as [d [H _ _ _ _]];
        [|exact H].
      split; cbn; auto; try reflexivity. discriminate. }
  destruct out as [|a r]; [reflexivity|]. now apply no_ds_rev.
Qed.

(** [path.Clean] never returns two separators in a row. *)
Lemma Clean_no_double_slash p :
  has_double_slash (list_ascii_of_string (Clean p)) = false.
Proof. unfold Clean. rewrite string_bytes_inv. apply Clean_bytes_no_ds. Qed.

Lemma cleanPath_no_double_slash p :
  has_double_slash (list_ascii_of_string (cleanPath p)) = false.
Proof. unfold cleanPath. apply Clean_no_double_slash. Qed.

(** The cases of the repository's [TestResolveAndCleanURL], on the path the
    URL has after [ResolveReference]. *)
Example cleanPath_absolute : cleanPath "/foo//bar" = "/foo/bar".
Proof. reflexivity. Qed.
Example cleanPath_relative : cleanPath "/base/foo//bar" = "/base/foo/bar".
Proof. reflexivity. Qed.
Example cleanPath_just_fragment : cleanPath "/base/path/" = "/base/path".
Proof. reflexivity. Qed.
Example cleanPath_double_slashes : cleanPath "/base/path/foo////bar" = "/base/path/foo/bar".
Proof. reflexivity. Qed.
Example cleanPath_dot_segments : cleanPath "a/../../b/../c/./d" = "../c/d".
Proof. reflexivity. Qed.
Example cleanPath_empty : cleanPath "" = ".".
Proof. reflexivity. Qed.

(** ** Calls and their observations *)

Lemma runs_inv {A} (p : Prog A) obs a :
  runs p obs a ->
  match p with
  | Ret a' => obs = [] /\ a = a'
  | Op o k => exists x obs', obs = Obs o x :: obs' /\ runs (k x) obs' a
  end.
Proof. destruct 1; cbn; eauto. Qed.

Lemma runs_Ret_inv {A} (a' : A) obs a : runs (Ret a') obs a -> obs = [] /\ a = a'.
Proof. apply (runs_inv (Ret a')). Qed.

Lemma runs_Op_inv {A X} (o : op X) (k : X -> Prog A) obs a :
  runs (Op o k) obs a -> exists x obs', obs = Obs o x :: obs' /\ runs (k x) obs' a.
Proof. apply (runs_inv (Op o k)). Qed.

Lemma runs_bind_inv {A B} (p : Prog A) (f : A -> Prog B) obs b :
  runs (bind p f) obs b ->
  exists obs1 a obs2, runs p obs1 a /\ runs (f a) obs2 b /\ obs = (obs1 ++ obs2)%list.
Proof.
  revert obs. induction p as [a|X o k IH]; intros obs Hr; cbn in Hr.
  - exists [], a, obs. split; [constructor|]. split; [exact Hr|reflexivity].
  - apply runs_Op_inv in Hr as (x & obs' & -> & Hr).
    apply IH in Hr as (obs1 & a & obs2 & H1 & H2 & ->).
    exists (Obs o x :: obs1), a, obs2. split; [now constructor|]. split; [exact H2|reflexivity].
Qed.

Lemma runs_bind {A B} (p : Prog A) (f : A -> Prog B) obs1 a obs2 b :
  runs p obs1 a -> runs (f a) obs2 b -> runs (bind p f) (obs1 ++ obs2)%list b.
Proof.
  induction 1 as [a|X o x k obs a _ IH]; intros H2; cbn; [exact H2|].
  constructor. now apply IH.
Qed.

Lemma runs_call_inv {X} (o : op X) obs x :
  runs (call o) obs x -> obs = [Obs o x].
Proof.
  unfold call. intros Hr. apply runs_Op_inv in Hr as (x' & obs' & -> & Hr).
  apply runs_Ret_inv in Hr as [-> ->]. reflexivity.
Qed.

(** Every program has a complete run for every way of answering its
    operations: a call that is never blocked returns. *)
Lemma runs_total {A} (p : Prog A) (answer : forall X, op X -> X) :
  exists obs a, runs p obs a.
Proof.
  induction p as [a|X o k IH]; [exists [], a; constructor|].
  destruct (IH (answer X o)) as (obs & a & Hr).
  exists (Obs o (answer X o) :: obs), a. now constructor.
Qed.

Lemma answers_app obs1 obs2 :
  answers (obs1 ++ obs2) = (answers obs1 ++ answers obs2)%list.
Proof. unfold answers. now rewrite List.map_app, List.concat_app. Qed.

Lemma sends_app q obs1 obs2 :
  sends q (obs1 ++ obs2) = (sends q obs1 ++ sends q obs2)%list.
Proof. unfold sends. now rewrite List.map_app, List.concat_app. Qed.

Lemma ledger_calls_app obs1 obs2 :
  ledger_calls (obs1 ++ obs2) = (ledger_calls obs1 ++ ledger_calls obs2)%list.
Proof. unfold ledger_calls. now rewrite List.map_app, List.concat_app. Qed.

Lemma invocations_app obs1 obs2 :
  invocations (obs1 ++ obs2) = (invocations obs1 ++ invocations obs2)%list.
Proof. unfold invocations. now rewrite List.map_app, List.concat_app. Qed.

Lemma requests_app obs1 obs2 :
  requests (obs1 ++ obs2) = (requests obs1 ++ requests obs2)%list.
Proof. unfold requests. now rewrite List.map_app, List.concat_app. Qed.

Section Calls.
Context `{GoLib}.

(** [FetchPage] asks the server at most once, and returns what
    [FetchPage_answer] makes of the answer. *)
Lemma runs_FetchPage ctx url obs r :
  runs (FetchPage ctx url) obs r ->
  (exists e, url_Parse (url_String url) = Err e /\ obs = [] /\ r = Err e)
  \/ (exists ans, obs = [Obs (ClientDo ctx (url_String url)) ans]
                  /\ r = FetchPage_answer url ans).
Proof.
  unfold FetchPage. destruct (url_Parse (url_String url)) as [u|e].
  - intros Hr. right. apply runs_bind_inv in Hr as (obs1 & ans & obs2 & H1 & H2 & ->).
    apply runs_call_inv in H1 as ->. exists ans.
    unfold FetchPage_answer.
    destruct ans as [resp|e]; [|apply runs_Ret_inv in H2 as [-> ->]; auto].
    destruct (_ || _); [apply runs_Ret_inv in H2 as [-> ->]; auto|].
    destruct (Body resp); apply runs_Ret_inv in H2 as [-> ->]; auto.
  - intros Hr. apply runs_Ret_inv in Hr as [-> ->]. left. eauto.
Qed.

Lemma runs_FetchPage_fetched ctx url obs r :
  runs (FetchPage ctx url) obs r ->
  fetched url obs = match r with Ok body => Some body | Err _ => None end
  /\ sends CrawlQueue obs = [] /\ sends PostProcessQueue obs = []
  /\ ledger_calls obs = [] /\ invocations obs = []
  /\ (List.length (answers obs) <= 1)%nat.
Proof.
  intros Hr. apply runs_FetchPage in Hr as [(e & _ & -> & ->)|(ans & -> & ->)].
  - cbn. repeat split; auto.
  - unfold fetched. cbn. repeat split; auto.
Qed.
End Calls.

(** ** C5: construction and the robots file *)

Section Construction.
Context `{GoLib}.

(** C5, as the code has it.  [NewSiteCrawler] returns whatever the fetch of
    [/robots.txt] did: a failed fetch (transport failure, non-2XX status,
    unreadable body) only makes the parser read the empty string.  It fails
    when [BaseURL.Parse] fails and when the robots parser reports an error
    for the body it is given, and in no other case; the checker of the
    crawler it returns holds what the parser returned.  When the parser
    answers the empty string with its allow-all value, as the library does,
    a failed fetch gives a checker that allows every path to every agent. *)
Theorem NewSiteCrawler_result ctx baseURL timeout userAgent size processors obs res :
  runs (NewSiteCrawler ctx baseURL timeout userAgent size processors) obs res ->
  match URL_Parse baseURL "/robots.txt" with
  | Err e => res = Err e
  | Ok robotsUrl =>
      let robots :=
        match fetched robotsUrl obs with Some body => body | None => "" end in
      match robotstxt_FromString robots with
      | Err e => res = Err e
      | Ok data =>
          res = Ok (mkSiteCrawler (mkRobotsChecker data) baseURL timeout
                      userAgent size processors)
          /\ (fetched robotsUrl obs = None ->
              robotstxt_FromString "" = Ok robotstxt.allowAllData ->
              forall path0 agent, IsAllowed (mkRobotsChecker data) path0 agent = true)
      end
  end.
Proof.
  unfold NewSiteCrawler. destruct (URL_Parse baseURL "/robots.txt") as [robotsUrl|e].
  - intros Hr. apply runs_bind_inv in Hr as (obs1 & r & obs2 & H1 & H2 & ->).
    apply runs_FetchPage_fetched in H1 as Hf. destruct Hf as (Hf & _).
    assert (Hobs2 : obs2 = [] /\
              res = match NewRobotsChecker match r with Ok body => body | Err _ => "" end with
                    | Err e => Err e
                    | Ok rc => Ok (mkSiteCrawler rc baseURL timeout userAgent size processors)
                    end).
    { destruct (NewRobotsChecker _); apply runs_Ret_inv in H2 as [-> ->]; auto. }
    destruct Hobs2 as [-> ->]. rewrite app_nil_r, Hf. cbn zeta.
    unfold NewRobotsChecker, LoadRobots.
    destruct r as [body|e]; cbn.
    + destruct (robotstxt_FromString body); [|reflexivity].
      split; [reflexivity|discriminate].
    + destruct (robotstxt_FromString "") as [data|e'] eqn:E; [|reflexivity].
      split; [reflexivity|]. intros _ [= ->]. reflexivity.
  - intros Hr. now apply runs_Ret_inv in Hr as [_ ->].
Qed.
End Construction.

(** A construction whose fetch of [/robots.txt] was answered 404, for
    [NewSiteCrawler_result]: the crawler is built and allows everything. *)
Lemma NewSiteCrawler_result_witness :
  let res := Ok (mkSiteCrawler (mkRobotsChecker robotstxt.allowAllData)
                   Example.base 1000 "Crawler" 1 [0%nat]) in
  res = Ok (mkSiteCrawler (mkRobotsChecker robotstxt.allowAllData)
              Example.base 1000 "Crawler" 1 [0%nat])
  /\ forall path0 agent,
       IsAllowed (mkRobotsChecker robotstxt.allowAllData) path0 agent = true.
Proof.
  intros res.
  pose proof (@NewSiteCrawler_result Example.exampleLib Example.ctx Example.base
                1000 "Crawler" 1 [0%nat]
                [Obs (ClientDo (WithTimeout Example.ctx 1000) "https://example.com/robots.txt")
                   (Ok (mkResponse 404 (Ok "Not found")))]
                res) as Hres.
  cbn in Hres. destruct Hres as [Hres Hallow].
  - subst res. unfold NewSiteCrawler. cbn.
    apply (runs_Op _ (ClientDo _ _) (Ok (mkResponse 404 (Ok "Not found")))).
    cbn. constructor.
  - split; [exact Hres|]. intros p a. now apply Hallow.
Defined.

(** C5 as the spec words it fails: a robots file served with status 200 that
    the parser rejects makes the construction fail. *)
Lemma NewSiteCrawler_fails_on_rejected_body :
  runs (@NewSiteCrawler Example.exampleLib Example.ctx Example.base 1000 "Crawler" 1
          [0%nat])
    [Obs (ClientDo (WithTimeout Example.ctx 1000) "https://example.com/robots.txt")
       (Ok (mkResponse 200 (Ok "Disallow: /")))]
    (Err "Disallow before User-agent").
Proof.
  unfold NewSiteCrawler. cbn.
  apply (runs_Op _ (ClientDo _ _) (Ok (mkResponse 200 (Ok "Disallow: /")))).
  cbn. constructor.
Qed.

(** ** C2: the robots check *)

(** The checker itself works on paths, as [robots_checker_test.go] uses it. *)
Example IsAllowed_private :
  IsAllowed (mkRobotsChecker Example.policy_private) "/private" "TestBot" = false
  /\ IsAllowed (mkRobotsChecker Example.policy_private) "/private/forbidden" "TestBot" = false
  /\ IsAllowed (mkRobotsChecker Example.policy_private) "/public" "TestBot" = true.
Proof. vm_compute. auto. Qed.

(** C2 fails on the code.  The policy disallows [/private]; the path of
    [https://example.com/private/data] is under it and [IsAllowed] rejects
    that path; but [AddURLToCrawlQueue] asks [IsAllowed] about the whole URL
    string, which no path prefix matches, so the URL is admitted, enqueued,
    and requested by the worker that takes the task. *)
Theorem AddURLToCrawlQueue_admits_disallowed_path :
  let sc := Example.crawler [0%nat] in
  let url := Example.at_path "/private/data" in
  IsAllowed (RobotsChecker_ sc) (Path url) (UserAgent sc) = false
  /\ IsAllowed (RobotsChecker_ sc) (Example.print url) (UserAgent sc) = true
  /\ exists cfg,
       run (H := Example.exampleLib) sc
         [Step 0 Example.quiet; Step 0 Example.quiet; Step 0 Example.quiet;
          Step 1 Example.quiet; Step 1 Example.quiet; Step 1 Example.notFound]
         (mkConfig
            [Run (bind (AddURLToCrawlQueue (H := Example.exampleLib) sc Example.ctx url)
                    (fun _ => Ret None));
             start (H := Example.exampleLib) sc (CrawlWorker Example.ctx)]
            initialState false)
       = Some cfg
       /\ trace (shared cfg)
          = [EvRequest "https://example.com/private/data";
             EvEnqueue CrawlQueue (CrawlTask Example.ctx url)].
Proof.
  cbv zeta. split; [vm_compute; reflexivity|]. split; [vm_compute; reflexivity|].
  eexists. split; [vm_compute; reflexivity|]. vm_compute. reflexivity.
Qed.

(** ** What the calls of [site_crawler.go] do *)

Ltac runs_step :=
  match goal with
  | H : runs (Ret _) _ _ |- _ => apply runs_Ret_inv in H as [-> ?]
  | H : runs (call _) _ _ |- _ => apply runs_call_inv in H as ->
  | H : runs (WgDone _) _ _ |- _ => apply runs_call_inv in H as ->
  | H : runs (bind _ _) _ _ |- _ =>
      let o1 := fresh "obs" in let o2 := fresh "obs" in let a := fresh "a" in
      let H1 := fresh "Hr" in let H2 := fresh "Hr" in
      apply runs_bind_inv in H as (o1 & a & o2 & H1 & H2 & ->)
  | H : runs (Op _ _) _ _ |- _ =>
      let x := fresh "x" in let o := fresh "obs" in
      apply runs_Op_inv in H as (x & o & -> & H)
  end.

Ltac runs_steps :=
  repeat (runs_step; subst);
  repeat match goal with u : unit |- _ => destruct u end.

Section CallsOfCrawler.
Context `{GoLib}.
Variable sc : SiteCrawler.

Lemma runs_AddURLToCrawlQueue ctx url obs :
  runs (AddURLToCrawlQueue sc ctx url) obs tt -> admission_only sc ctx url obs.
Proof.
  unfold AddURLToCrawlQueue.
  destruct (IsAllowed _ _ _) eqn:Hrobots; cbn [negb].
  2:{ intros Hr. runs_steps. split; cbn; try easy. }
  destruct (String.eqb (Host url) (Host (BaseURL sc))) eqn:Hhost; cbn [negb].
  2:{ intros Hr. runs_steps. split; cbn; try easy. }
  apply String.eqb_eq in Hhost.
  intros Hr. runs_steps. destruct a; runs_steps; split; cbn; try easy.
  - intros key [<-|[]]. reflexivity.
  - intros key [<-|[]]. reflexivity.
  - intros t [<-|[]]. reflexivity.
Qed.

(** [AddURLToPostProcessQueue] sends one task per registered processor, in
    the order of registration, each with the same page. *)
Lemma runs_AddURLToPostProcessQueue ctx pageURL page obs :
  runs (AddURLToPostProcessQueue sc ctx pageURL page) obs tt ->
  sends PostProcessQueue obs
  = List.map (fun p => ProcessTask ctx p pageURL page) (postProcessors sc)
  /\ sends CrawlQueue obs = [] /\ ledger_calls obs = []
  /\ invocations obs = [] /\ answers obs = [].
Proof.
  unfold AddURLToPostProcessQueue. revert obs.
  induction (postProcessors sc) as [|p ps IH]; intros obs Hr; cbn in Hr.
  - runs_steps. cbn. auto.
  - runs_steps. apply IH in Hr as (E1 & E2 & E3 & E4 & E5).
    unfold sends, ledger_calls, invocations, answers in *.
    cbn. rewrite E1, E2, E3, E4, E5. auto.
Qed.

(** A property of observations that holds of each turn of a [range] loop
    holds of the loop. *)
Lemma runs_forRange {A} (P : list Observed -> Prop) (body : A -> Prog unit) :
  P [] ->
  (forall o1 o2, P o1 -> P o2 -> P (o1 ++ o2)%list) ->
  forall xs,
    (forall x o, List.In x xs -> runs (body x) o tt -> P o) ->
    forall obs, runs (forRange xs body) obs tt -> P obs.
Proof.
  intros Hnil Happ. induction xs as [|x xs IH]; intros Hbody obs Hr; cbn in Hr.
  - runs_steps. exact Hnil.
  - runs_steps. apply Happ.
    + eapply Hbody; [now left|eassumption].
    + apply IH; [|assumption]. intros y o Hy. apply Hbody. now right.
Qed.

Lemma admissions_forRange {A} (body : A -> Prog unit) xs obs :
  (forall x o, runs (body x) o tt -> admissions o) ->
  runs (forRange xs body) obs tt -> admissions obs.
Proof.
  intros Hbody. apply runs_forRange.
  - repeat split.
  - intros o1 o2 (A1 & I1 & S1) (A2 & I2 & S2). unfold admissions.
    now rewrite answers_app, invocations_app, sends_app, A1, A2, I1, I2, S1, S2.
  - intros x o _. apply Hbody.
Qed.

Lemma admissions_link ctx link o :
  runs match ResolveAndCleanURL (BaseURL sc) link with
       | Err _ => Ret tt
       | Ok parsedLink => AddURLToCrawlQueue sc ctx parsedLink
       end o tt ->
  admissions o.
Proof.
  destruct (ResolveAndCleanURL _ _); intros Hr.
  - apply runs_AddURLToCrawlQueue in Hr as [? ? ? _ _ _]. now repeat split.
  - runs_steps. now repeat split.
Qed.
End CallsOfCrawler.

Lemma fetched_answers `{GoLib} url obs1 obs2 :
  answers obs1 = answers obs2 -> fetched url obs1 = fetched url obs2.
Proof. unfold fetched. now intros ->. Qed.

(** ** C4: what a call of [CrawlPage] hands over *)

Section Dispatch.
Context `{GoLib}.
Variable sc : SiteCrawler.

(** [html.Parse] does not fail on a string held in memory.  Then, for
    every call of [CrawlPage]: the call itself invokes no processor; when
    no page was fetched (the context was done, the request failed, the
    status was not 2XX or the body could not be read) it sends nothing on
    either queue and does not touch the ledger; when a page was fetched it
    sends on the post-processing queue exactly one task per registered
    processor, in order, each with the page's URL and content. *)
Lemma CrawlPage_hands_over ctx pageURL obs :
  (forall s, is_ok (html_Parse s) = true) ->
  runs (CrawlPage sc ctx pageURL) obs tt ->
  invocations obs = [] /\
  match fetched pageURL obs with
  | None =>
      sends PostProcessQueue obs = [] /\ sends CrawlQueue obs = []
      /\ ledger_calls obs = []
  | Some page =>
      sends PostProcessQueue obs
      = List.map (fun p => ProcessTask ctx p pageURL page) (postProcessors sc)
  end.
Proof.
  intros Hhtml. unfold CrawlPage. intros Hr. runs_steps.
  destruct a as [|]; [runs_steps; cbn; auto|].
  runs_steps.
  apply runs_FetchPage_fetched in Hr as (Hf & Hc & Hp & Hl & Hi & _).
  destruct a as [page|e].
  - unfold ExtractLinks in *. specialize (Hhtml page).
    destruct (html_Parse page) as [doc|e]; [|discriminate].
    runs_steps.
    match goal with
    | Hx : runs (forRange _ _) _ _ |- _ =>
        apply admissions_forRange in Hx as (A1 & I1 & S1);
        [|intros x o'; apply admissions_link]
    end.
    match goal with
    | Hx : runs (AddURLToPostProcessQueue _ _ _ _) _ _ |- _ =>
        apply runs_AddURLToPostProcessQueue in Hx as (E1 & E2 & E3 & E4 & E5)
    end.
    match goal with
    | Hx : fetched _ ?o = _ |- _ => rewrite (fetched_answers pageURL _ o)
    end.
    2:{ rewrite !answers_app, A1, E5. cbn. now rewrite !app_nil_r. }
    rewrite Hf, !invocations_app, !sends_app, Hi, I1, E4, Hp, S1, E1. cbn.
    split; reflexivity.
  - runs_steps.
    match goal with
    | Hx : fetched _ ?o = _ |- _ => rewrite (fetched_answers pageURL _ o)
    end.
    2:{ rewrite !answers_app. cbn. now rewrite !app_nil_r. }
    rewrite Hf, !invocations_app, !sends_app, !ledger_calls_app, Hi, Hp, Hc, Hl.
    cbn. auto.
Qed.
End Dispatch.

Lemma Example_parse_html_total s : is_ok (Example.parse_html s) = true.
Proof.
  unfold Example.parse_html. destruct (String.eqb s Example.html_link); reflexivity.
Qed.

Ltac runs_build := cbn; repeat (first [apply runs_Ret | apply runs_Op]; cbn).

(** ** C6: the error [Crawl] returns *)

Section ErrorSurface.
Context `{GoLib}.
Variable sc : SiteCrawler.

Lemma runs_forCount_Go n g obs :
  runs (forCount n (call (Go g))) obs tt ->
  answers obs = [] /\ ledger_calls obs = [] /\ sends CrawlQueue obs = [].
Proof.
  revert obs. induction n as [|n IH]; intros obs Hr; cbn in Hr; runs_steps.
  - now repeat split.
  - apply IH in Hr as (A & L & S).
    unfold answers, ledger_calls, sends in *. cbn. auto.
Qed.

Lemma seeds_only_app ctx url obs1 obs2 :
  seeds_only ctx url obs1 -> seeds_only ctx url obs2 ->
  seeds_only ctx url (obs1 ++ obs2).
Proof.
  intros [L1 S1] [L2 S2]. split.
  - intros key. rewrite ledger_calls_app, List.in_app_iff. intros [?|?]; auto.
  - intros t. rewrite sends_app, List.in_app_iff. intros [?|?]; auto.
Qed.

Lemma seeds_only_nil ctx url obs :
  ledger_calls obs = [] -> sends CrawlQueue obs = [] -> seeds_only ctx url obs.
Proof. intros L S. split; intros x; rewrite ?L, ?S; intros []. Qed.

(** What [CrawlFromSiteMap] returns, and what it admits when the sitemap
    was not fetched or could not be parsed. *)
Lemma runs_CrawlFromSiteMap ctx obs err :
  runs (CrawlFromSiteMap sc ctx) obs err ->
  match URL_Parse (BaseURL sc) "/sitemap.xml" with
  | Err e => err = Some e /\ obs = []
  | Ok siteMapUrl =>
      err = None /\
      (match fetched siteMapUrl obs with
       | None => True
       | Some siteMap => is_ok (ParseSitemapForUrls siteMap) = false
       end ->
       ledger_calls obs = [] /\ sends CrawlQueue obs = [])
  end.
Proof.
  unfold CrawlFromSiteMap.
  destruct (URL_Parse (BaseURL sc) "/sitemap.xml") as [siteMapUrl|e].
  2:{ intros Hr. runs_steps. auto. }
  intros Hr. runs_steps.
  match goal with
  | Hx : runs (FetchPage _ _) _ ?r |- _ =>
      apply runs_FetchPage_fetched in Hx as (Hf & Hc & Hp & Hl & Hi & _);
      destruct r as [siteMap|e]
  end.
  - destruct (ParseSitemapForUrls siteMap) as [urls|e] eqn:Hparse.
    + runs_steps. split; [reflexivity|].
      match goal with
      | Hx : runs (forRange _ _) ?o1 _ |- _ =>
          assert (Hadm : admissions o1)
      end.
      { eapply admissions_forRange; [|eassumption].
        intros x o. cbv beta.
        destruct (ResolveAndCleanURL (BaseURL sc) x); intros Hx.
        - apply runs_AddURLToCrawlQueue in Hx as [? ? ? _ _ _]. now repeat split.
        - runs_steps. now repeat split. }
      destruct Hadm as (A1 & _ & _).
      match goal with
      | Hx : fetched _ ?o = _ |- _ => rewrite (fetched_answers siteMapUrl _ o)
      end.
      2:{ rewrite !answers_app, A1. cbn. now rewrite !app_nil_r. }
      rewrite Hf, Hparse. cbn. discriminate.
    + runs_steps. split; [reflexivity|]. intros _.
      rewrite ledger_calls_app, sends_app, Hl, Hc. auto.
  - runs_steps. split; [reflexivity|]. intros _.
    rewrite ledger_calls_app, sends_app, Hl, Hc. auto.
Qed.

(** C6.  [Crawl] returns an error exactly when [BaseURL.Parse] fails on the
    sitemap reference, and then that error.  Otherwise every return of
    [Crawl] is [nil]; and when the sitemap was not fetched (request failed,
    status not 2XX, unreadable body) or its XML could not be parsed, the
    only URL [Crawl] itself submits for admission is the base URL. *)
Theorem Crawl_error_surface ctx obs res :
  runs (Crawl sc ctx) obs res ->
  match URL_Parse (BaseURL sc) "/sitemap.xml" with
  | Err e => res = Some e
  | Ok siteMapUrl =>
      res = None /\
      (match fetched siteMapUrl obs with
       | None => True
       | Some siteMap => is_ok (ParseSitemapForUrls siteMap) = false
       end ->
       seeds_only ctx (BaseURL sc) obs)
  end.
Proof.
  unfold Crawl, startCrawlWorkers, startPostProcessingWorkers.
  intros Hr. runs_steps.
  match goal with
  | Hx : runs (forCount _ _) _ _ |- _ => apply runs_forCount_Go in Hx as (A1 & L1 & S1)
  end.
  match goal with
  | Hx : runs (forCount _ _) _ _ |- _ => apply runs_forCount_Go in Hx as (A2 & L2 & S2)
  end.
  match goal with
  | Hx : runs (CrawlFromSiteMap _ _) _ _ |- _ =>
      apply runs_CrawlFromSiteMap in Hx; rename Hx into Hmap
  end.
  destruct (URL_Parse (BaseURL sc) "/sitemap.xml") as [siteMapUrl|e].
  - destruct Hmap as [-> Hseed]. runs_steps. split; [reflexivity|].
    match goal with
    | Hx : runs (AddURLToCrawlQueue _ _ _) _ _ |- _ =>
        apply runs_AddURLToCrawlQueue in Hx as [Ab _ _ Lb Sb _]
    end.
    intros Hfail.
    repeat apply seeds_only_app; try (apply seeds_only_nil; assumption);
      try (apply seeds_only_nil; reflexivity).
    + apply seeds_only_nil; apply Hseed; revert Hfail;
        match goal with
        | |- context [fetched _ ?big] =>
            match goal with
            | Hs : context [fetched _ ?small] |- _ =>
                rewrite (fetched_answers siteMapUrl big small); [exact id|]
            end
        end;
        rewrite !answers_app, A1, A2, Ab; cbn; now rewrite !app_nil_r.
    + now split.
  - destruct Hmap as [-> ->]. now runs_steps.
Qed.
End ErrorSurface.

(** A crawl whose sitemap request is answered 404, for
    [Crawl_error_surface]: [Crawl] returns [nil] and admits the base URL
    only. *)
Lemma Crawl_error_surface_witness :
  let sc := Example.crawler [0%nat] in
  let obs := [Obs (Go (CrawlWorker Example.ctx)) tt;
              Obs (Go (PostProcessWorker Example.ctx)) tt;
              Obs (ClientDo Example.ctx "https://example.com/sitemap.xml")
                (Ok (mkResponse 404 (Ok "not found")));
              Obs (LoadOrStore "https://example.com") false;
              Obs (WgAdd crawlWg 1) tt;
              Obs (ChanSend CrawlQueue (CrawlTask Example.ctx Example.base)) tt;
              Obs (WgWait crawlWg) tt;
              Obs (ChanClose CrawlQueue) tt;
              Obs (ChanClose PostProcessQueue) tt;
              Obs (WgWait postProcessWg) tt] in
  runs (Crawl (H := Example.exampleLib) sc Example.ctx) obs None
  /\ seeds_only (H := Example.exampleLib) Example.ctx Example.base obs.
Proof.
  intros sc obs.
  assert (Hr : runs (Crawl (H := Example.exampleLib) sc Example.ctx) obs None).
  { subst obs sc. unfold Crawl, startCrawlWorkers, startPostProcessingWorkers.
    runs_build. }
  split; [exact Hr|].
  pose proof (@Crawl_error_surface Example.exampleLib sc Example.ctx obs None Hr) as Hc.
  cbn in Hc. destruct Hc as [_ Hseed]. apply Hseed. exact I.
Defined.

(** ** Soundness of monitors *)

Section WP.
Context {G : Type} (M : Monitor G).

Lemma wp_mono {A} (p : Prog A) g (Q Q' : A -> G -> Prop) :
  (forall a g', Q a g' -> Q' a g') -> wp M p g Q -> wp M p g Q'.
Proof.
  intros HQ. revert g. induction p as [a|X o k IH]; intros g; cbn.
  - apply HQ.
  - intros [Hok Hk]. split; [exact Hok|]. intros x Hx. apply IH, Hk, Hx.
Qed.

Lemma wp_bind {A B} (p : Prog A) (f : A -> Prog B) g (Q : B -> G -> Prop) :
  wp M p g (fun a g' => wp M (f a) g' Q) -> wp M (bind p f) g Q.
Proof.
  revert g. induction p as [a|X o k IH]; intros g; cbn; [trivial|].
  intros [Hok Hk]. split; [exact Hok|]. intros x Hx. apply IH, Hk, Hx.
Qed.

(** A loop whose turns keep the ghost [g] keeps it. *)
Lemma wp_forRange {A} (xs : list A) (body : A -> Prog unit) g :
  (forall x, wp M (body x) g (fun _ g' => g' = g)) ->
  wp M (forRange xs body) g (fun _ g' => g' = g).
Proof.
  intros Hbody. induction xs as [|x xs IH]; cbn; [reflexivity|].
  apply wp_bind. eapply wp_mono; [|apply Hbody].
  intros _ g' ->. exact IH.
Qed.

Lemma wp_forCount n (body : Prog unit) g :
  wp M body g (fun _ g' => g' = g) ->
  wp M (forCount n body) g (fun _ g' => g' = g).
Proof.
  intros Hbody. induction n as [|n IH]; cbn; [reflexivity|].
  apply wp_bind. eapply wp_mono; [|apply Hbody].
  intros _ g' ->. exact IH.
Qed.
End WP.

Section Soundness.
Context `{GoLib} (sc : SiteCrawler).
Context {G : Type} (M : Monitor G) (Inv : list G -> State -> Prop).

(** What a monitor and its invariant owe: the workers are accepted; an
    operation the monitor permits, once executed, got a possible answer
    and leaves the invariant true of the new ghosts; and cancelling
    preserves the invariant. *)
Hypothesis worker_accepted :
  forall g, wp M (goroutineTurn sc g) (mon_idle M) (fun _ g' => g' = mon_idle M).
Hypothesis exec_sound :
  forall gs tid g X (o : op X) c st x st',
    Inv gs st -> gs !! tid = Some g -> mon_ok M g o ->
    exec o c st = Stepped x st' ->
    mon_poss M g o x
    /\ Inv (<[tid := mon_next M g o x]> gs
            ++ replicate (List.length (spawned o)) (mon_idle M))%list st'.
Hypothesis cancel_sound :
  forall gs st id,
    Inv gs st -> Inv gs (set_cancelled st ({[id]} ∪ cancelled st)).

Lemma accepts_started gs' :
  Forall2 (accepts M) (List.map (start sc) gs')
    (replicate (List.length gs') (mon_idle M)).
Proof.
  induction gs' as [|g gs' IH]; cbn; constructor; [|exact IH].
  apply worker_accepted.
Qed.

Lemma step_prog_sound {A} (p : Prog A) (Q : A -> G -> Prop) gs tid g c st p' st' ws :
  Inv gs st -> gs !! tid = Some g -> wp M p g Q ->
  step_prog p c st = Next p' st' ws ->
  exists g', wp M p' g' Q
             /\ Inv (<[tid := g']> gs ++ replicate (List.length ws) (mon_idle M))%list st'.
Proof.
  intros HI Hg Hwp Hstep. destruct p as [a|X o k]; cbn in Hstep; [discriminate|].
  destruct (exec o c st) as [x st1| |] eqn:Hexec; try discriminate.
  injection Hstep as <- <- <-. cbn in Hwp. destruct Hwp as [Hok Hk].
  destruct (exec_sound gs tid g X o c st x st1 HI Hg Hok Hexec) as [Hposs HI'].
  exists (mon_next M g o x). split; [apply Hk, Hposs|exact HI'].
Qed.

Lemma step_monitored a cfg cfg' :
  Monitored M Inv cfg -> step sc a cfg = Some cfg' -> Monitored M Inv cfg'.
Proof.
  intros (gs & Hacc & HI). unfold step.
  destruct (crashed cfg); [discriminate|].
  destruct a as [tid c|id].
  2:{ intros [= <-]. exists gs. cbn. split; [exact Hacc|now apply cancel_sound]. }
  destruct (threads cfg !! tid) as [t|] eqn:Ht; [|discriminate].
  destruct (Forall2_lookup_l _ _ _ _ _ Hacc Ht) as (g & Hg & Hat).
  destruct (step_thread sc t c (shared cfg)) as [[[[t' st'] ws]|]|] eqn:Hst;
    [| |discriminate].
  2:{ intros [= <-]. exists gs. cbn. split; assumption. }
  intros [= <-]. cbn.
  assert (Hnext : exists g', accepts M t' g'
            /\ Inv (<[tid := g']> gs ++ replicate (List.length ws) (mon_idle M))%list st').
  { destruct t as [p|w cur]; cbn in Hst.
    - destruct (step_prog p c (shared cfg)) as [p' st1 ws1| |] eqn:Hp; try discriminate.
      injection Hst as <- <- <-.
      eapply step_prog_sound in Hp as (g' & Hwp & HI'); eauto.
    - assert (Hop : forall X (o : op X) k, cur = Op o k ->
                match step_prog cur c (shared cfg) with
                | Next cur' st1 ws1 => Some (Some (Loop w cur', st1, ws1))
                | Stuck => None
                | Crash => Some None
                end = Some (Some (t', st', ws)) ->
                exists g', accepts M t' g'
                  /\ Inv (<[tid := g']> gs
                          ++ replicate (List.length ws) (mon_idle M))%list st').
      { intros X o k -> Hs.
        destruct (step_prog (Op o k) c (shared cfg)) as [p' st1 ws1| |] eqn:Hp;
          try discriminate.
        injection Hs as <- <- <-.
        eapply step_prog_sound in Hp as (g' & Hwp & HI'); eauto. }
      destruct cur as [b|X o k]; [|now apply (Hop X o k)].
      destruct b; [|cbn in Hst; discriminate].
      injection Hst as <- <- <-. cbn in Hat. subst g.
      exists (mon_idle M). split; [apply worker_accepted|].
      cbn. rewrite app_nil_r, list_insert_id by exact Hg. exact HI. }
  destruct Hnext as (g' & Hacc' & HI').
  exists (<[tid := g']> gs ++ replicate (List.length ws) (mon_idle M))%list.
  split; [|exact HI'].
  apply Forall2_app; [now apply Forall2_insert|apply accepts_started].
Qed.

(** Every configuration a schedule leads to from a monitored one is
    monitored. *)
Theorem run_monitored sched : forall cfg cfg',
  Monitored M Inv cfg -> run sc sched cfg = Some cfg' -> Monitored M Inv cfg'.
Proof.
  induction sched as [|a sched IH]; intros cfg cfg' Hm; cbn.
  - now intros [= <-].
  - destruct (step sc a cfg) as [cfg1|] eqn:Hs; [|discriminate].
    apply IH. eapply step_monitored; eauto.
Qed.
End Soundness.

(** ** The crawler's code under the dedup monitor *)

(** Splits the goal [wp M p g Q] along the operations and branches of [p]. *)
Ltac wp_split :=
  repeat first
    [ progress cbn
    | match goal with
      | |- wp _ (bind _ _) _ _ => apply wp_bind
      | |- wp _ (if ?b then _ else _) _ _ => destruct b eqn:?
      | |- wp _ (match ?x with _ => _ end) _ _ => destruct x eqn:?
      | |- _ /\ _ => split
      | |- forall _, _ => intro
      | |- True => exact I
      | |- ?x = ?x => reflexivity
      end ].

Section DedupCode.
Context `{GoLib}.
Variable sc : SiteCrawler.

Lemma dedup_AddURLToCrawlQueue ctx url :
  wp dedup (AddURLToCrawlQueue sc ctx url) None (fun _ g => g = None).
Proof. unfold AddURLToCrawlQueue. wp_split. Qed.

Lemma dedup_AddURLToPostProcessQueue ctx pageURL page :
  wp dedup (AddURLToPostProcessQueue sc ctx pageURL page) None (fun _ g => g = None).
Proof. unfold AddURLToPostProcessQueue. apply wp_forRange. intros p. wp_split. Qed.

Lemma dedup_FetchPage {A} ctx url (k : result string -> Prog A) Q :
  (forall r, wp dedup (k r) None Q) ->
  wp dedup (bind (FetchPage ctx url) k) None Q.
Proof.
  intros Hk. unfold FetchPage. destruct (url_Parse (url_String url)); cbn; [|apply Hk].
  split; [exact I|]. intros r _. destruct r as [resp|e]; cbn; [|apply Hk].
  destruct (_ || _); cbn; [apply Hk|]. destruct (Body resp); cbn; apply Hk.
Qed.

Lemma dedup_links ctx (f : URL -> URL) links :
  wp dedup
    (forRange links (fun link =>
       match ResolveAndCleanURL (BaseURL sc) link with
       | Err _ => Ret tt
       | Ok parsed => AddURLToCrawlQueue sc ctx (f parsed)
       end)) None (fun _ g => g = None).
Proof.
  apply wp_forRange. intros link.
  destruct (ResolveAndCleanURL (BaseURL sc) link); [|reflexivity].
  apply dedup_AddURLToCrawlQueue.
Qed.

Lemma dedup_CrawlPage ctx url :
  wp dedup (CrawlPage sc ctx url) None (fun _ g => g = None).
Proof.
  unfold CrawlPage. cbn. split; [exact I|]. intros done _.
  destruct done; [reflexivity|]. apply dedup_FetchPage. intros [page|e]; [|reflexivity].
  destruct (ExtractLinks page) as [links|e]; [|reflexivity].
  apply wp_bind. eapply wp_mono; [|apply (dedup_links ctx (fun u => u))].
  intros _ g ->. apply dedup_AddURLToPostProcessQueue.
Qed.

Lemma dedup_CrawlFromSiteMap ctx :
  wp dedup (CrawlFromSiteMap sc ctx) None (fun _ g => g = None).
Proof.
  unfold CrawlFromSiteMap. destruct (URL_Parse _ _); [|reflexivity].
  apply dedup_FetchPage. intros [siteMap|e]; [|reflexivity].
  destruct (ParseSitemapForUrls siteMap); [|reflexivity].
  apply wp_bind.
  eapply wp_mono; [|apply (dedup_links ctx (url_ResolveReference (BaseURL sc)))].
  intros _ g ->. reflexivity.
Qed.

Lemma dedup_Crawl ctx :
  wp dedup (Crawl sc ctx) None (fun _ g => g = None).
Proof.
  unfold Crawl, startCrawlWorkers, startPostProcessingWorkers.
  apply wp_bind. eapply wp_mono; [|apply wp_forCount; wp_split].
  intros _ g ->. apply wp_bind. eapply wp_mono; [|apply wp_forCount; wp_split].
  intros _ g ->. apply wp_bind. eapply wp_mono; [|apply dedup_CrawlFromSiteMap].
  intros [e|] g ->; [reflexivity|].
  apply wp_bind. eapply wp_mono; [|apply dedup_AddURLToCrawlQueue].
  intros _ g ->. wp_split.
Qed.

Lemma dedup_runTask t :
  wp dedup (runTask sc t) None (fun _ g => g = None).
Proof.
  destruct t as [ctx url|ctx p pageURL page]; cbn [runTask].
  - apply wp_bind. eapply wp_mono; [|apply dedup_CrawlPage].
    intros _ g ->. wp_split.
  - wp_split.
Qed.

Lemma dedup_worker g :
  wp dedup (goroutineTurn sc g) None (fun _ g' => g' = None).
Proof.
  destruct g as [ctx|ctx]; cbn; (split; [exact I|]); intros [|[t|]] _; cbn;
    try reflexivity;
    (apply wp_bind; eapply wp_mono; [|apply dedup_runTask]; intros _ g ->; reflexivity).
Qed.

(** Every goroutine of a client of the crawler is accepted, holding
    nothing. *)
Lemma dedup_accepts t : CrawlerThread sc t -> accepts dedup t None.
Proof.
  destruct 1 as [ctx|ctx url|ctx url|g]; cbn [accepts start].
  - apply dedup_Crawl.
  - apply wp_bind. eapply wp_mono; [|apply dedup_AddURLToCrawlQueue].
    intros _ g ->. reflexivity.
  - apply wp_bind. eapply wp_mono; [|apply dedup_CrawlPage].
    intros _ g ->. reflexivity.
  - apply dedup_worker.
Qed.

Lemma dedup_accepts_pool ts :
  Forall (CrawlerThread sc) ts ->
  Forall2 (accepts dedup) ts (replicate (List.length ts) None).
Proof.
  induction 1 as [|t ts Ht _ IH]; cbn; constructor; [now apply dedup_accepts|exact IH].
Qed.
End DedupCode.

(** ** The ledger invariant *)

(** Splits what [exec] did into its cases. *)
Ltac exec_cases Hexec :=
  cbn in Hexec;
  repeat match type of Hexec with
         | context [if ?b then _ else _] => destruct b eqn:?
         | context [match ?l with [] => _ | _ :: _ => _ end] => destruct l eqn:?
         end;
  try discriminate;
  injection Hexec as <- <-.

Lemma holds_update (gs : list (option string)) tid g g' n i key :
  gs !! tid = Some g ->
  holds (<[tid := g']> gs ++ replicate n None)%list i key
  <-> (i = tid /\ g' = Some key) \/ (i <> tid /\ holds gs i key).
Proof.
  intros Hg. unfold holds.
  assert (Hlt : (tid < List.length gs)%nat) by (eapply lookup_lt_Some; eauto).
  destruct (decide (i < List.length gs)%nat) as [Hi|Hi].
  - rewrite lookup_app_l by (rewrite length_insert; exact Hi).
    destruct (decide (i = tid)) as [->|Hne].
    + rewrite list_lookup_insert_eq by exact Hlt. split.
      * intros [= ->]. now left.
      * intros [[_ ->]|[Hne _]]; [reflexivity|congruence].
    + rewrite list_lookup_insert_ne by congruence. split.
      * intros Hh. now right.
      * intros [[-> _]|[_ Hh]]; [congruence|exact Hh].
  - rewrite lookup_app_r by (rewrite length_insert; lia).
    split.
    + intros Hh. apply lookup_replicate in Hh as [Hh _]. discriminate.
    + intros [[-> _]|[_ Hh]]; [lia|].
      apply lookup_lt_Some in Hh. lia.
Qed.

Lemma holds_same (gs : list (option string)) tid g n i key :
  gs !! tid = Some g ->
  holds (<[tid := g]> gs ++ replicate n None)%list i key <-> holds gs i key.
Proof.
  intros Hg. rewrite (holds_update gs tid g g n i key Hg). split.
  - intros [[-> ->]|[_ Hh]]; [exact Hg|exact Hh].
  - intros Hh. destruct (decide (i = tid)) as [->|Hne]; [left|right; auto].
    split; [reflexivity|]. unfold holds in Hh. congruence.
Qed.

Section Ledger.
Context `{GoLib}.

Lemma enqueued_cons key e tr :
  enqueued key (e :: tr)
  = ((if enqueues_key key e then 1 else 0) + enqueued key tr)%nat.
Proof. unfold enqueued. cbn. destruct (enqueues_key key e); reflexivity. Qed.

(** A step that keeps the ledger, the number of tasks of every key and
    the ghost of the goroutine keeps the invariant. *)
Lemma dedup_inv_frame gs tid g n st st' :
  dedup_inv gs st -> gs !! tid = Some g ->
  crawledPages st' = crawledPages st ->
  (forall key, enqueued key (trace st') = enqueued key (trace st)) ->
  dedup_inv (<[tid := g]> gs ++ replicate n None)%list st'.
Proof.
  intros [H1 H2 H3 H4 H5] Hg Hl He. split.
  - intros i j key Hi Hj. rewrite holds_same in Hi, Hj by exact Hg. eauto.
  - intros i key Hi. rewrite holds_same in Hi by exact Hg.
    rewrite He, Hl. eauto.
  - intros key. rewrite He. apply H3.
  - intros key. rewrite He, Hl. apply H4.
  - intros key. rewrite He, Hl. intros Hk.
    destruct (H5 key Hk) as [[i Hi]|Hs]; [left|now right].
    exists i. now rewrite holds_same by exact Hg.
Qed.

Lemma dedup_exec_sound gs tid g X (o : op X) c st x st' :
  dedup_inv gs st -> gs !! tid = Some g -> mon_ok dedup g o ->
  exec o c st = Stepped x st' ->
  mon_poss dedup g o x
  /\ dedup_inv (<[tid := mon_next dedup g o x]> gs
                ++ replicate (List.length (spawned o)) (mon_idle dedup))%list st'.
Proof.
  intros HI Hg Hok Hexec. split; [exact I|].
  generalize (List.length (spawned o)). intros n.
  destruct o; cbn [mon_next mon_idle dedup dedup_next];
    try (exec_cases Hexec; eapply dedup_inv_frame; eauto; intros;
         try (destruct wg); try (destruct q); cbn; rewrite ?enqueued_cons;
         reflexivity).
  - (* LoadOrStore *)
    cbn in Hok. subst g. exec_cases Hexec.
    + eapply dedup_inv_frame; eauto.
    + rename Heqb into Hnew. apply bool_decide_eq_false in Hnew.
      destruct HI as [H1 H2 H3 H4 H5]. split; cbn.
      * intros i j k Hi Hj.
        apply (holds_update _ _ _ _ _ _ _ Hg) in Hi, Hj.
        destruct Hi as [[Hi Hik]|[Hi Hhi]], Hj as [[Hj Hjk]|[Hj Hhj]];
          simplify_eq; eauto.
        -- destruct (H2 j k Hhj) as [_ Hin]. contradiction.
        -- destruct (H2 i k Hhi) as [_ Hin]. contradiction.
      * intros i k Hi. apply (holds_update _ _ _ _ _ _ _ Hg) in Hi.
        destruct Hi as [[Hi Hik]|[Hi Hhi]]; simplify_eq.
        -- split; [|set_solver].
           assert (E0 : enqueued k (trace st) = 0%nat); [|exact E0].
           pose proof (H3 k) as Hle.
           destruct (enqueued k (trace st)) as [|[|m]] eqn:E; [reflexivity| |lia].
           specialize (H4 k E). contradiction.
        -- destruct (H2 i k Hhi). split; [assumption|set_solver].
      * apply H3.
      * intros k Hk. specialize (H4 k Hk). set_solver.
      * intros k Hk. destruct (decide (k = key)) as [->|Hne].
        -- left. exists tid. apply (holds_update _ _ _ _ _ _ _ Hg). now left.
        -- assert (Hin : k ∈ crawledPages st) by set_solver.
           destruct (H5 k Hin) as [[i Hi]|Hs]; [left|now right].
           exists i. apply (holds_update _ _ _ _ _ _ _ Hg). right. split; [|exact Hi].
           intros ->. unfold holds in Hi. congruence.
  - (* ChanSend *)
    destruct q.
    + destruct t as [ctx url|]; cbn in Hok; [subst g|contradiction].
      exec_cases Hexec. destruct HI as [H1 H2 H3 H4 H5].
      destruct (H2 tid (url_String url) Hg) as [Hzero Hin].
      assert (Hcount : forall k,
                enqueued k (EvEnqueue CrawlQueue (CrawlTask ctx url) :: trace st)
                = if String.eqb (url_String url) k then 1%nat
                  else enqueued k (trace st)).
      { intros k. rewrite enqueued_cons. cbn.
        destruct (String.eqb (url_String url) k) eqn:E; [|reflexivity].
        apply String.eqb_eq in E. subst k. now rewrite Hzero. }
      split; cbn [trace record set_chan crawledPages].
      * intros i j k Hi Hj.
        apply (holds_update _ _ _ _ _ _ _ Hg) in Hi, Hj.
        destruct Hi as [[_ [=]]|[_ Hhi]], Hj as [[_ [=]]|[_ Hhj]]. eauto.
      * intros i k Hi. apply (holds_update _ _ _ _ _ _ _ Hg) in Hi.
        destruct Hi as [[_ [=]]|[Hne Hhi]].
        rewrite Hcount. destruct (String.eqb (url_String url) k) eqn:E.
        -- apply String.eqb_eq in E. subst k. exfalso. apply Hne. eauto.
        -- apply (H2 i k Hhi).
      * intros k. rewrite Hcount. destruct (String.eqb _ k); [lia|apply H3].
      * intros k. rewrite Hcount. destruct (String.eqb _ k) eqn:E; [|apply H4].
        apply String.eqb_eq in E. now subst k.
      * intros k Hk. rewrite Hcount. destruct (String.eqb _ k) eqn:E; [now right|].
        destruct (H5 k Hk) as [[i Hi]|Hs]; [left|now right].
        exists i. apply (holds_update _ _ _ _ _ _ _ Hg). right. split; [|exact Hi].
        intros ->. unfold holds in Hi. rewrite Hg in Hi. injection Hi as Hi.
        apply String.eqb_neq in E. congruence.
    + exec_cases Hexec.
      eapply dedup_inv_frame; eauto; intros; cbn; rewrite ?enqueued_cons;
        reflexivity.
Qed.

Lemma dedup_cancel_sound gs st id :
  dedup_inv gs st -> dedup_inv gs (set_cancelled st ({[id]} ∪ cancelled st)).
Proof. intros [H1 H2 H3 H4 H5]. split; assumption. Qed.

(** The invariant holds of the ledger as [NewSiteCrawler] makes it. *)
Lemma dedup_inv_initial n : dedup_inv (replicate n None) initialState.
Proof.
  split; cbn.
  - intros i j key Hi. apply lookup_replicate in Hi as [Hi _]. discriminate.
  - intros i key Hi. apply lookup_replicate in Hi as [Hi _]. discriminate.
  - intros key. unfold enqueued. cbn. lia.
  - intros key. unfold enqueued. cbn. discriminate.
  - intros key Hk. set_solver.
Qed.
End Ledger.

(** ** Executions only add to the ledger and to the trace *)

Section Growth.
Context `{GoLib}.
Variable sc : SiteCrawler.

Lemma run_app s1 s2 cfg :
  run sc (s1 ++ s2) cfg
  = match run sc s1 cfg with
    | Some cfg1 => run sc s2 cfg1
    | None => None
    end.
Proof.
  revert cfg. induction s1 as [|a s1 IH]; intros cfg; cbn; [reflexivity|].
  destruct (step sc a cfg); [apply IH|reflexivity].
Qed.

Lemma grows_refl st : grows st st.
Proof. split; [set_solver|]. split; [auto|]. now exists []. Qed.

Lemma grows_trans st1 st2 st3 : grows st1 st2 -> grows st2 st3 -> grows st1 st3.
Proof.
  intros (L1 & C1 & evs1 & T1) (L2 & C2 & evs2 & T2). split; [set_solver|].
  split; [auto|]. exists (evs2 ++ evs1)%list. now rewrite T2, T1, app_assoc.
Qed.

Lemma exec_grows {X} (o : op X) c st x st' :
  exec o c st = Stepped x st' -> grows st st'.
Proof.
  intros Hexec. destruct o; exec_cases Hexec;
    try apply grows_refl;
    try (destruct wg); try (destruct q);
    (split; [cbn; set_solver|]); (split; [cbn; auto|]); cbn;
    first [now exists [] | eexists [_]; reflexivity].
Qed.

Lemma step_grows a cfg cfg' :
  step sc a cfg = Some cfg' -> grows (shared cfg) (shared cfg').
Proof.
  unfold step. destruct (crashed cfg); [discriminate|].
  destruct a as [tid c|id].
  2:{ intros [= <-]. cbn. split; [set_solver|]. split; [set_solver|]. now exists []. }
  destruct (threads cfg !! tid) as [t|]; [|discriminate].
  destruct (step_thread sc t c (shared cfg)) as [[[[t' st'] ws]|]|] eqn:Hst;
    [| |discriminate]; intros [= <-]; cbn; [|apply grows_refl].
  assert (Hp : forall A (p : Prog A) p' st1 ws1,
             step_prog p c (shared cfg) = Next p' st1 ws1 -> grows (shared cfg) st1).
  { intros A p p' st1 ws1 Hp. destruct p as [a|X o k]; cbn in Hp; [discriminate|].
    destruct (exec o c (shared cfg)) eqn:E; try discriminate.
    injection Hp as <- <- <-. eapply exec_grows; eauto. }
  destruct t as [p|g cur]; cbn in Hst.
  - destruct (step_prog p c (shared cfg)) eqn:E; try discriminate.
    injection Hst as <- <- <-. eapply Hp; eauto.
  - destruct cur as [[|]|X o k].
    + injection Hst as <- <- <-. apply grows_refl.
    + cbn in Hst. discriminate.
    + destruct (step_prog (Op o k) c (shared cfg)) eqn:E; try discriminate.
      injection Hst as <- <- <-. eapply Hp; eauto.
Qed.

Lemma run_grows sched : forall cfg cfg',
  run sc sched cfg = Some cfg' -> grows (shared cfg) (shared cfg').
Proof.
  induction sched as [|a sched IH]; intros cfg cfg'; cbn.
  - intros [= <-]. apply grows_refl.
  - destruct (step sc a cfg) as [cfg1|] eqn:Hs; [|discriminate].
    intros Hr. eapply grows_trans; [eapply step_grows; eauto|now apply IH].
Qed.

Lemma enqueued_app key tr1 tr2 :
  enqueued key (tr1 ++ tr2) = (enqueued key tr1 + enqueued key tr2)%nat.
Proof. unfold enqueued. now rewrite List.filter_app, length_app. Qed.

Lemma grows_enqueued key st st' :
  grows st st' -> (enqueued key (trace st) <= enqueued key (trace st'))%nat.
Proof. intros (_ & _ & evs & ->). rewrite enqueued_app. lia. Qed.
End Growth.

(** ** C1: at-most-once admission *)

Section AtMostOnce.
Context `{GoLib}.
Variable sc : SiteCrawler.

Lemma ledger_monitored ts sched cfg :
  Forall (CrawlerThread sc) ts ->
  run sc sched (mkConfig ts initialState false) = Some cfg ->
  Monitored dedup dedup_inv cfg.
Proof.
  intros Hts Hrun.
  eapply (run_monitored sc dedup dedup_inv); [| | |..|exact Hrun].
  - apply dedup_worker.
  - intros. eapply dedup_exec_sound; eauto.
  - intros. now apply dedup_cancel_sound.
  - exists (replicate (List.length ts) None). cbn. split.
    + now apply (dedup_accepts_pool sc).
    + apply dedup_inv_initial.
Qed.

(** A goroutine at rest holds nothing. *)
Lemma quiescent_holds_nothing t g :
  quiescent sc t -> accepts dedup t g -> g = None.
Proof.
  destruct t as [[r|X o k]|w cur]; cbn; [auto|contradiction|].
  intros [-> | [-> | ->]]; cbn; auto.
  destruct w; cbn; intros [_ Hk]; now apply (Hk SelDone).
Qed.

(** Once the call of an admissible URL has taken its first step, the key
    of that URL is in the ledger. *)
Lemma first_step_stores ctx url sched : forall cfg cfg',
  IsAllowed (RobotsChecker_ sc) (url_String url) (UserAgent sc) = true ->
  Host url = Host (BaseURL sc) ->
  threads cfg !! 0%nat = Some (Run (AddURLToCrawlQueue sc ctx url ;; Ret None))
  \/ url_String url ∈ crawledPages (shared cfg) ->
  run sc sched cfg = Some cfg' ->
  threads cfg' !! 0%nat = Some (Run (AddURLToCrawlQueue sc ctx url ;; Ret None))
  \/ url_String url ∈ crawledPages (shared cfg').
Proof.
  intros cfg cfg' Hrobots Hhost. revert cfg.
  induction sched as [|a sched IH]; intros cfg Hcfg; cbn.
  - now intros [= <-].
  - destruct (step sc a cfg) as [cfg1|] eqn:Hs; [|discriminate].
    apply IH. destruct Hcfg as [H0|Hin].
    2:{ right. apply step_grows in Hs as (Hsub & _). set_solver. }
    unfold step in Hs. destruct (crashed cfg); [discriminate|].
    destruct a as [tid c|id]; [|injection Hs as <-; now left].
    destruct (threads cfg !! tid) as [t|] eqn:Ht; [|discriminate].
    destruct (step_thread sc t c (shared cfg)) as [[[[t' st'] ws]|]|] eqn:Hst;
      [| |discriminate]; injection Hs as <-; cbn; [|now left].
    destruct tid as [|tid].
    + right. rewrite H0 in Ht. injection Ht as <-.
      unfold AddURLToCrawlQueue in Hst. rewrite Hrobots, Hhost, String.eqb_refl in Hst.
      cbn in Hst. destruct (bool_decide _) eqn:E; injection Hst as <- <- <-.
      * now apply bool_decide_eq_true in E.
      * cbn. set_solver.
    + left. rewrite lookup_app_l.
      * rewrite list_lookup_insert_ne by lia. exact H0.
      * rewrite length_insert. eapply lookup_lt_Some; eauto.
Qed.

(** C1.  Take any goroutines that use the crawler (calls of [Crawl], of
    [AddURLToCrawlQueue] and of [CrawlPage] on any URLs, workers), started
    on a fresh crawler, and any schedule.  Then no ledger key ever has more
    than one crawl task enqueued.  And if one of the goroutines is a call of
    [AddURLToCrawlQueue] for a URL that passes the robots and host checks,
    then once every goroutine is at rest exactly one crawl task has been
    enqueued for the key of that URL, however many other calls and
    discoveries of the same key there were. *)
Theorem at_most_once_admission ts sched cfg :
  Forall (CrawlerThread sc) ts ->
  run sc sched (mkConfig ts initialState false) = Some cfg ->
  (forall key, (enqueued key (trace (shared cfg)) <= 1)%nat)
  /\ (forall ctx url,
        ts !! 0%nat = Some (Run (AddURLToCrawlQueue sc ctx url ;; Ret None)) ->
        IsAllowed (RobotsChecker_ sc) (url_String url) (UserAgent sc) = true ->
        Host url = Host (BaseURL sc) ->
        Forall (quiescent sc) (threads cfg) ->
        enqueued (url_String url) (trace (shared cfg)) = 1%nat).
Proof.
  intros Hts Hrun.
  destruct (ledger_monitored ts sched cfg Hts Hrun) as (gs & Hacc & HI).
  split; [apply (sent_once _ _ HI)|].
  intros ctx url H0 Hrobots Hhost Hrest.
  assert (Hin : url_String url ∈ crawledPages (shared cfg)).
  { destruct (first_step_stores ctx url sched (mkConfig ts initialState false) cfg
                Hrobots Hhost (or_introl H0) Hrun)
      as [H0'|Hin]; [|exact Hin].
    exfalso. rewrite List.Forall_forall in Hrest.
    apply list_elem_of_lookup_2, list_elem_of_In, Hrest in H0'.
    unfold AddURLToCrawlQueue in H0'.
    rewrite Hrobots, Hhost, String.eqb_refl in H0'. exact H0'. }
  destruct (stored_owned _ _ HI _ Hin) as [[i Hi]|Hone]; [|exact Hone].
  exfalso. unfold holds in Hi.
  destruct (Forall2_lookup_r _ _ _ _ _ Hacc Hi) as (t & Ht & Hat).
  rewrite List.Forall_forall in Hrest.
  apply list_elem_of_lookup_2, list_elem_of_In, Hrest in Ht.
  now apply (quiescent_holds_nothing t _ Ht) in Hat.
Qed.
End AtMostOnce.

Lemma run_ends `{GoLib} sc sched cfg0 :
  completes sc sched cfg0 = true -> run sc sched cfg0 = Some (ends sc sched cfg0).
Proof. unfold completes, ends. destruct (run sc sched cfg0); [reflexivity|discriminate]. Qed.

Lemma returned_quiescent `{GoLib} sc ts :
  forallb returned ts = true -> Forall (quiescent sc) ts.
Proof.
  rewrite forallb_forall, List.Forall_forall. intros Hall t Ht.
  specialize (Hall t Ht). destruct t as [[r|X o k]|g cur]; cbn in *; auto; discriminate.
Qed.

(** Three concurrent calls for the same URL, for [at_most_once_admission]:
    the second and third find the key stored before the first has sent its
    task; one task is enqueued. *)
Lemma at_most_once_admission_witness :
  let sc := Example.crawler [0%nat] in
  let call :=
    Run (bind (AddURLToCrawlQueue (H := Example.exampleLib) sc Example.ctx
                 (Example.at_path "/about")) (fun _ => Ret None)) in
  let sched := [Step 0 Example.quiet; Step 1 Example.quiet; Step 2 Example.quiet;
                Step 0 Example.quiet; Step 0 Example.quiet] in
  let cfg0 := mkConfig [call; call; call] initialState false in
  completes (H := Example.exampleLib) sc sched cfg0 = true
  /\ enqueued (H := Example.exampleLib) "https://example.com/about"
       (trace (shared (ends (H := Example.exampleLib) sc sched cfg0)))
     = 1%nat.
Proof.
  intros sc call sched cfg0. split; [vm_compute; reflexivity|].
  destruct (@at_most_once_admission Example.exampleLib sc [call; call; call] sched
              (ends (H := Example.exampleLib) sc sched cfg0)) as [_ Hone].
  - repeat constructor.
  - apply (run_ends (H := Example.exampleLib)). vm_compute. reflexivity.
  - apply (Hone Example.ctx (Example.at_path "/about")); try reflexivity.
    apply (returned_quiescent (H := Example.exampleLib)). vm_compute. reflexivity.
Defined.

(** ** C10: admission is permanent *)

Section Permanent.
Context `{GoLib}.
Variable sc : SiteCrawler.

(** A call of [AddURLToCrawlQueue] that finds its key in the ledger does
    nothing else; and no call of it asks the server anything. *)
Lemma runs_AddURLToCrawlQueue_loaded ctx url obs :
  runs (AddURLToCrawlQueue sc ctx url) obs tt ->
  answers obs = []
  /\ (ledger_answers obs = [(url_String url, true)] -> sends CrawlQueue obs = []).
Proof.
  unfold AddURLToCrawlQueue.
  destruct (IsAllowed _ _ _); cbn [negb]; [|intros Hr; runs_steps; now split].
  destruct (String.eqb _ _); cbn [negb]; [|intros Hr; runs_steps; now split].
  intros Hr. runs_steps.
  match goal with b : bool |- _ => destruct b end; runs_steps; cbn; split; auto.
  discriminate.
Qed.

(** C10.  On a fresh crawler used by any goroutines under any schedule: a
    key that has a crawl task enqueued is in the ledger; whatever happens
    afterwards (failed fetches, tasks skipped after a cancellation, further
    admissions), the ledger only grows, a key that has its task keeps
    exactly that one task, and no key ever has two.  A call of
    [AddURLToCrawlQueue] asks the server nothing, and when it finds its key
    in the ledger it enqueues nothing. *)
Theorem admission_is_permanent ts sched cfg :
  Forall (CrawlerThread sc) ts ->
  run sc sched (mkConfig ts initialState false) = Some cfg ->
  (forall key,
      (0 < enqueued key (trace (shared cfg)))%nat ->
      key ∈ crawledPages (shared cfg))
  /\ (forall sched' cfg',
        run sc sched' cfg = Some cfg' ->
        crawledPages (shared cfg) ⊆ crawledPages (shared cfg')
        /\ forall key,
             (enqueued key (trace (shared cfg')) <= 1)%nat
             /\ ((0 < enqueued key (trace (shared cfg)))%nat ->
                 enqueued key (trace (shared cfg'))
                 = enqueued key (trace (shared cfg))))
  /\ (forall ctx url obs,
        runs (AddURLToCrawlQueue sc ctx url) obs tt ->
        answers obs = []
        /\ (ledger_answers obs = [(url_String url, true)] ->
            sends CrawlQueue obs = [])).
Proof.
  intros Hts Hrun.
  destruct (ledger_monitored sc ts sched cfg Hts Hrun) as (gs & Hacc & HI).
  split; [|split].
  - intros key Hpos. apply (sent_stored _ _ HI).
    pose proof (sent_once _ _ HI key). lia.
  - intros sched' cfg' Hrun'.
    pose proof (run_grows sc sched' cfg cfg' Hrun') as Hgrow.
    split; [apply Hgrow|]. intros key.
    assert (Hall : run sc (sched ++ sched') (mkConfig ts initialState false) = Some cfg').
    { now rewrite run_app, Hrun. }
    destruct (ledger_monitored sc ts _ cfg' Hts Hall) as (gs' & _ & HI').
    pose proof (sent_once _ _ HI' key) as Hle.
    split; [exact Hle|]. intros Hpos.
    pose proof (grows_enqueued key _ _ Hgrow). lia.
  - apply runs_AddURLToCrawlQueue_loaded.
Qed.
End Permanent.

(** A crawl of one page whose fetch is answered 404, then a second
    admission of the same URL, for [admission_is_permanent]: the key stays
    in the ledger and still has its one task. *)
Lemma admission_is_permanent_witness :
  let sc := Example.crawler [0%nat] in
  let url := Example.at_path "/about" in
  let call :=
    Run (bind (AddURLToCrawlQueue (H := Example.exampleLib) sc Example.ctx url)
           (fun _ => Ret None)) in
  let ts := [call; call; start (H := Example.exampleLib) sc (CrawlWorker Example.ctx)] in
  let sched := [Step 0 Example.quiet; Step 0 Example.quiet; Step 0 Example.quiet;
                Step 2 Example.quiet; Step 2 Example.quiet; Step 2 Example.notFound;
                Step 2 Example.quiet] in
  let cfg := ends (H := Example.exampleLib) sc sched (mkConfig ts initialState false) in
  let cfg' := ends (H := Example.exampleLib) sc [Step 1 Example.quiet] cfg in
  "https://example.com/about" ∈ crawledPages (shared cfg)
  /\ enqueued (H := Example.exampleLib) "https://example.com/about" (trace (shared cfg'))
     = enqueued (H := Example.exampleLib) "https://example.com/about" (trace (shared cfg)).
Proof.
  intros sc url call ts sched cfg cfg'.
  destruct (@admission_is_permanent Example.exampleLib sc ts sched cfg) as (Hin & Hlater & _).
  - repeat constructor.
  - apply (run_ends (H := Example.exampleLib)). vm_compute. reflexivity.
  - split.
    + apply Hin. vm_compute. lia.
    + destruct (Hlater [Step 1 Example.quiet] cfg') as (_ & Hkeep).
      * apply (run_ends (H := Example.exampleLib)). vm_compute. reflexivity.
      * apply Hkeep. vm_compute. lia.
Defined.

(** ** A whole crawl of a one-page site *)


Example OnePage_runs :
  completes (H := Example.exampleLib) OnePage.sc
    (OnePage.until_closed ++ OnePage.to_the_end) OnePage.cfg0 = true.
Proof. vm_compute. reflexivity. Qed.

(** [Crawl] returns [nil]; the page was requested once and processed once. *)
Example OnePage_result :
  threads OnePage.at_end !! 0%nat = Some (Run (Ret None))
  /\ trace (shared OnePage.at_end)
     = [EvProcess 0%nat Example.base "hello";
        EvClose PostProcessQueue;
        EvClose CrawlQueue;
        EvEnqueue PostProcessQueue (ProcessTask Example.ctx 0%nat Example.base "hello");
        EvRequest "https://example.com";
        EvEnqueue CrawlQueue (CrawlTask Example.ctx Example.base);
        EvRequest "https://example.com/sitemap.xml"]
  /\ postProcessWgCount (shared OnePage.at_end) = 0.
Proof. vm_compute. auto. Qed.

(** C3 as the spec words it fails for the post-processing queue: [Crawl]
    closes it right after the crawl queue, while the task of the page just
    crawled is still in it and its counter is 1. *)
Lemma post_process_queue_closed_before_its_counter_is_zero :
  run (H := Example.exampleLib) OnePage.sc OnePage.until_closed OnePage.cfg0
  = Some OnePage.at_close
  /\ closed (postProcessQueue (shared OnePage.at_close)) = true
  /\ postProcessWgCount (shared OnePage.at_close) = 1
  /\ buf (postProcessQueue (shared OnePage.at_close))
     = [ProcessTask Example.ctx 0%nat Example.base "hello"].
Proof.
  split; [apply (run_ends (H := Example.exampleLib)); vm_compute; reflexivity|].
  vm_compute. auto.
Qed.

(** ** C3: the order of the shutdown *)

Section ShutdownCode.
Context `{GoLib}.
Variable sc : SiteCrawler.

Lemma shutdown_AddURLToCrawlQueue ctx url g :
  may_admit g ->
  wp shutdown (AddURLToCrawlQueue sc ctx url) g (fun _ g' => g' = g).
Proof.
  intros Hg. unfold AddURLToCrawlQueue.
  destruct (IsAllowed _ _ _); cbn [negb]; [|reflexivity].
  destruct (String.eqb _ _); cbn [negb]; [|reflexivity].
  destruct g as [r n]. unfold may_admit in Hg. cbn in Hg.
  cbn. split; [exact I|]. intros [] _; [reflexivity|]. cbn.
  split; [left; split; [reflexivity|tauto]|]. intros _ _.
  split.
  { split; [exact I|]. destruct Hg as [[Hg Hn]|[Hg Hn]]; split; auto; lia. }
  intros _ _. f_equal. lia.
Qed.

Lemma shutdown_AddURLToPostProcessQueue ctx pageURL page g :
  wp shutdown (AddURLToPostProcessQueue sc ctx pageURL page) g (fun _ g' => g' = g).
Proof. unfold AddURLToPostProcessQueue. apply wp_forRange. intros p. wp_split. Qed.

Lemma shutdown_FetchPage {A} ctx url (k : result string -> Prog A) g Q :
  (forall r, wp shutdown (k r) g Q) ->
  wp shutdown (bind (FetchPage ctx url) k) g Q.
Proof.
  intros Hk. unfold FetchPage. destruct (url_Parse (url_String url)); cbn; [|apply Hk].
  split; [exact I|]. intros r _. destruct r as [resp|e]; cbn; [|apply Hk].
  destruct (_ || _); cbn; [apply Hk|]. destruct (Body resp); cbn; apply Hk.
Qed.

Lemma shutdown_links ctx (f : URL -> URL) links g :
  may_admit g ->
  wp shutdown
    (forRange links (fun link =>
       match ResolveAndCleanURL (BaseURL sc) link with
       | Err _ => Ret tt
       | Ok parsed => AddURLToCrawlQueue sc ctx (f parsed)
       end)) g (fun _ g' => g' = g).
Proof.
  intros Hg. apply wp_forRange. intros link.
  destruct (ResolveAndCleanURL (BaseURL sc) link); [|reflexivity].
  now apply shutdown_AddURLToCrawlQueue.
Qed.

Lemma shutdown_CrawlPage ctx url g :
  may_admit g ->
  wp shutdown (CrawlPage sc ctx url) g (fun _ g' => g' = g).
Proof.
  intros Hg. unfold CrawlPage. cbn. split; [exact I|]. intros done _.
  destruct done; [reflexivity|]. apply shutdown_FetchPage.
  intros [page|e]; [|reflexivity].
  destruct (ExtractLinks page) as [links|e]; [|reflexivity].
  apply wp_bind. eapply wp_mono; [|now apply (shutdown_links ctx (fun u => u))].
  intros _ g' ->. apply shutdown_AddURLToPostProcessQueue.
Qed.

Lemma shutdown_CrawlFromSiteMap ctx g :
  may_admit g ->
  wp shutdown (CrawlFromSiteMap sc ctx) g (fun _ g' => g' = g).
Proof.
  intros Hg. unfold CrawlFromSiteMap. destruct (URL_Parse _ _); [|reflexivity].
  apply shutdown_FetchPage. intros [siteMap|e]; [|reflexivity].
  destruct (ParseSitemapForUrls siteMap); [|reflexivity].
  apply wp_bind.
  eapply wp_mono;
    [|now apply (shutdown_links ctx (url_ResolveReference (BaseURL sc)))].
  intros _ g' ->. reflexivity.
Qed.

(** [Crawl], called by a goroutine that answers for nothing yet, waits,
    then closes the crawl queue, then the post-processing queue. *)
Lemma shutdown_Crawl ctx :
  wp shutdown (Crawl sc ctx) (Seeding, 0) (fun _ _ => True).
Proof.
  assert (Hseed : may_admit (Seeding, 0)) by (left; cbn; split; [reflexivity|lia]).
  unfold Crawl, startCrawlWorkers, startPostProcessingWorkers.
  apply wp_bind. eapply wp_mono; [|apply wp_forCount; wp_split].
  intros _ g ->. apply wp_bind. eapply wp_mono; [|apply wp_forCount; wp_split].
  intros _ g ->. apply wp_bind.
  eapply wp_mono; [|now apply shutdown_CrawlFromSiteMap].
  intros [e|] g ->; [exact I|].
  apply wp_bind. eapply wp_mono; [|now apply shutdown_AddURLToCrawlQueue].
  intros _ g ->. wp_split.
Qed.

(** A worker that has taken a crawl task answers for one unit, and gives
    it back with the deferred [Done]. *)
Lemma shutdown_runTask q t :
  belongs q t ->
  wp shutdown (runTask sc t)
    (Worker, match q with CrawlQueue => 1 | PostProcessQueue => 0 end)
    (fun _ g' => g' = (Worker, 0)).
Proof.
  destruct q, t as [ctx url|ctx p pageURL page]; cbn [belongs runTask];
    try contradiction; intros _.
  - apply wp_bind. eapply wp_mono; [|apply shutdown_CrawlPage; right; cbn; split; [reflexivity|lia]].
    intros _ g ->. cbn. split; [right; repeat split; lia|]. intros _ _. reflexivity.
  - wp_split.
Qed.

Lemma shutdown_worker g :
  wp shutdown (goroutineTurn sc g) (Worker, 0) (fun _ g' => g' = (Worker, 0)).
Proof.
  destruct g as [ctx|ctx]; cbn; (split; [try exact I; reflexivity|]);
    intros [|[t|]] Hfit; cbn; try reflexivity.
  - apply wp_bind. eapply wp_mono; [|apply (shutdown_runTask CrawlQueue t Hfit)].
    intros _ g ->. reflexivity.
  - apply wp_bind.
    eapply wp_mono; [|apply (shutdown_runTask PostProcessQueue t Hfit)].
    intros _ g ->. reflexivity.
Qed.
End ShutdownCode.

(** *** The units of a list of ghosts *)

Lemma units_app gs gs' : units (gs ++ gs') = units gs + units gs'.
Proof.
  unfold units. induction gs as [|x gs IH]; cbn; [reflexivity|]. rewrite IH. lia.
Qed.

Lemma units_replicate n : units (replicate n (Worker, 0)) = 0.
Proof. unfold units. induction n as [|n IH]; cbn; [reflexivity|]. rewrite IH. lia. Qed.

Lemma units_insert gs : forall tid g g',
  gs !! tid = Some g -> units (<[tid := g']> gs) = units gs - snd g + snd g'.
Proof.
  induction gs as [|x gs IH]; intros [|tid] g g' Hg; cbn in Hg; try discriminate.
  - injection Hg as ->. unfold units. cbn. lia.
  - change (snd x + units (<[tid := g']> gs) = snd x + units gs - snd g + snd g').
    rewrite (IH tid g g' Hg). lia.
Qed.

Lemma units_bounds gs :
  (forall i x, gs !! i = Some x -> 0 <= snd x) ->
  0 <= units gs /\ forall tid g, gs !! tid = Some g -> snd g <= units gs.
Proof.
  unfold units. induction gs as [|x gs IH]; intros Hpos; cbn.
  - split; [lia|]. intros tid g Hg. destruct tid; discriminate.
  - destruct IH as [IH0 IH1].
    { intros i y Hy. apply (Hpos (S i) y Hy). }
    pose proof (Hpos 0%nat x eq_refl) as Hx.
    split; [lia|]. intros [|tid] g Hg; cbn in Hg.
    + injection Hg as ->. lia.
    + specialize (IH1 tid g Hg). lia.
Qed.

(** *** Where the caller of [Crawl] is *)

Section Roles.
Variable P : Role -> Prop.
Hypothesis not_worker : ~ P Worker.

Lemma exists_same_role (gs : list (Role * Z)) tid g g' :
  gs !! tid = Some g -> fst g' = fst g ->
  (exists i x, <[tid := g']> gs !! i = Some x /\ P (fst x))
  <-> (exists i x, gs !! i = Some x /\ P (fst x)).
Proof.
  intros Hg Hrole.
  assert (Hlt : (tid < List.length gs)%nat) by (eapply lookup_lt_Some; eauto).
  split; intros (i & x & Hi & Hp).
  - destruct (decide (i = tid)) as [->|Hne].
    + rewrite list_lookup_insert_eq in Hi by exact Hlt. injection Hi as <-.
      exists tid, g. split; [exact Hg|congruence].
    + rewrite list_lookup_insert_ne in Hi by congruence. eauto.
  - destruct (decide (i = tid)) as [->|Hne].
    + exists tid, g'. rewrite list_lookup_insert_eq by exact Hlt.
      split; [reflexivity|]. rewrite Hg in Hi. injection Hi as <-. congruence.
    + exists i, x. rewrite list_lookup_insert_ne by congruence. auto.
Qed.

Lemma exists_moved_caller gs st tid g g' :
  shutdown_inv gs st -> gs !! tid = Some g -> fst g <> Worker ->
  (exists i x, <[tid := g']> gs !! i = Some x /\ P (fst x)) <-> P (fst g').
Proof.
  intros HI Hg Hcaller.
  assert (Hlt : (tid < List.length gs)%nat) by (eapply lookup_lt_Some; eauto).
  split.
  - intros (i & x & Hi & Hp). destruct (decide (i = tid)) as [->|Hne].
    + rewrite list_lookup_insert_eq in Hi by exact Hlt. now injection Hi as <-.
    + rewrite list_lookup_insert_ne in Hi by congruence.
      exfalso. apply Hne. apply (one_caller _ _ HI i tid x g Hi Hg); [|exact Hcaller].
      intros Hw. apply not_worker. now rewrite <- Hw.
  - intros Hp. exists tid, g'. now rewrite list_lookup_insert_eq by exact Hlt.
Qed.

Lemma exists_caller gs st tid g :
  shutdown_inv gs st -> gs !! tid = Some g -> fst g <> Worker ->
  (exists i x, gs !! i = Some x /\ P (fst x)) <-> P (fst g).
Proof.
  intros HI Hg Hcaller.
  rewrite <- (exists_moved_caller gs st tid g g HI Hg Hcaller).
  now rewrite list_insert_id by exact Hg.
Qed.

Lemma exists_spawned (gs : list (Role * Z)) n :
  (exists i x, (gs ++ replicate n (Worker, 0))%list !! i = Some x /\ P (fst x))
  <-> (exists i x, gs !! i = Some x /\ P (fst x)).
Proof.
  split; intros (i & x & Hi & Hp).
  - apply lookup_app_Some in Hi as [Hi|[_ Hi]]; [eauto|].
    apply lookup_replicate in Hi as [-> _]. contradiction.
  - exists i, x. split; [|exact Hp]. apply lookup_app_Some. now left.
Qed.
End Roles.

Lemma past_wait_caller : ~ past_wait Worker.
Proof. intros [Hw|[Hw|Hw]]; discriminate. Qed.

Lemma past_close_caller : ~ past_close Worker.
Proof. intros [Hw|Hw]; discriminate. Qed.

Lemma both_closed_caller : ~ (fun r => r = BothClosed) Worker.
Proof. discriminate. Qed.

(** *** Steps that keep the invariant of the shutdown *)

(** Goroutines just started are workers that answer for nothing. *)
Lemma shutdown_inv_spawn gs n st :
  shutdown_inv gs st -> shutdown_inv (gs ++ replicate n (Worker, 0))%list st.
Proof.
  intros [H1 H2 H3 H4 H5 H6 H7].
  assert (Hin : forall i x, (gs ++ replicate n (Worker, 0))%list !! i = Some x ->
                  gs !! i = Some x \/ x = (Worker, 0)).
  { intros i x Hi. apply lookup_app_Some in Hi as [Hi|[_ Hi]]; [now left|].
    apply lookup_replicate in Hi as [-> _]. now right. }
  split.
  - rewrite units_app, units_replicate. lia.
  - intros i x Hi. apply Hin in Hi as [Hi| ->]; [eauto|cbn; lia].
  - intros i j gi gj Hi Hj Hni Hnj.
    apply Hin in Hi as [Hi| ->]; [|now destruct Hni].
    apply Hin in Hj as [Hj| ->]; [|now destruct Hnj]. eauto.
  - intros i x Hi Hp. apply Hin in Hi as [Hi| ->]; [eauto|].
    now destruct past_wait_caller.
  - rewrite (exists_spawned (fun r => past_close r) past_close_caller). exact H5.
  - rewrite (exists_spawned (fun r => r = BothClosed) both_closed_caller). exact H6.
  - exact H7.
Qed.

(** A step that touches neither [crawlWg] nor the crawl queue, and does not
    close the post-processing queue. *)
Lemma shutdown_inv_frame gs tid g n st st' :
  shutdown_inv gs st -> gs !! tid = Some g ->
  crawlWgCount st' = crawlWgCount st ->
  crawlQueue st' = crawlQueue st ->
  closed (postProcessQueue st') = closed (postProcessQueue st) ->
  Forall (belongs PostProcessQueue) (buf (postProcessQueue st')) ->
  shutdown_inv (<[tid := g]> gs ++ replicate n (Worker, 0))%list st'.
Proof.
  intros HI Hg Hc Hq Hp Hb. rewrite list_insert_id by exact Hg.
  apply shutdown_inv_spawn. destruct HI as [H1 H2 H3 H4 H5 H6 H7]. split.
  - now rewrite Hc, Hq.
  - exact H2.
  - exact H3.
  - intros i x Hi Hw. rewrite Hc. eauto.
  - now rewrite Hq.
  - now rewrite Hp.
  - intros [|]; cbn; [rewrite Hq; apply (H7 CrawlQueue)|exact Hb].
Qed.

(** A step of goroutine [tid] that moves its ghost from [g] to [g']. *)
Lemma shutdown_inv_move gs tid g g' st st' :
  shutdown_inv gs st -> gs !! tid = Some g ->
  0 <= snd g' ->
  (fst g = Worker <-> fst g' = Worker) ->
  crawlWgCount st' - Z.of_nat (List.length (buf (crawlQueue st'))) - snd g'
  = crawlWgCount st - Z.of_nat (List.length (buf (crawlQueue st))) - snd g ->
  ((exists i x, <[tid := g']> gs !! i = Some x /\ past_wait (fst x)) ->
   crawlWgCount st' = 0) ->
  (closed (crawlQueue st') = true
   <-> exists i x, <[tid := g']> gs !! i = Some x /\ past_close (fst x)) ->
  (closed (postProcessQueue st') = true ->
   exists i x, <[tid := g']> gs !! i = Some x /\ fst x = BothClosed) ->
  (forall q, Forall (belongs q) (buf (chan st' q))) ->
  shutdown_inv (<[tid := g']> gs ++ replicate 0 (Worker, 0))%list st'.
Proof.
  intros HI Hg Hpos Hrole Hcount Hwait Hclose Hpost Hbel.
  cbn [replicate]. rewrite app_nil_r.
  destruct HI as [H1 H2 H3 H4 H5 H6 H7].
  assert (Hlt : (tid < List.length gs)%nat) by (eapply lookup_lt_Some; eauto).
  assert (Hin : forall i x, <[tid := g']> gs !! i = Some x ->
                  (i = tid /\ x = g') \/ (i <> tid /\ gs !! i = Some x)).
  { intros i x Hi. destruct (decide (i = tid)) as [->|Hne].
    - rewrite list_lookup_insert_eq in Hi by exact Hlt. injection Hi as <-. now left.
    - rewrite list_lookup_insert_ne in Hi by congruence. now right. }
  split.
  - rewrite (units_insert gs tid g g' Hg). lia.
  - intros i x Hi. apply Hin in Hi as [[_ ->]|[_ Hi]]; eauto.
  - intros i j gi gj Hi Hj Hni Hnj.
    apply Hin in Hi as [[-> ->]|[Hi' Hi]], Hj as [[-> ->]|[Hj' Hj]].
    + reflexivity.
    + symmetry. apply (H3 j tid gj g Hj Hg Hnj). tauto.
    + apply (H3 i tid gi g Hi Hg Hni). tauto.
    + eauto.
  - intros i x Hi Hp. apply Hwait. eauto.
  - exact Hclose.
  - exact Hpost.
  - exact Hbel.
Qed.

Lemma shutdown_cancel_sound gs st id :
  shutdown_inv gs st -> shutdown_inv gs (set_cancelled st ({[id]} ∪ cancelled st)).
Proof. intros [H1 H2 H3 H4 H5 H6 H7]. split; assumption. Qed.

(** The invariant holds when [Crawl] is called on the objects as
    [NewSiteCrawler] makes them. *)
Lemma shutdown_inv_initial : shutdown_inv [(Seeding, 0)] initialState.
Proof.
  assert (Hone : forall i (x : Role * Z), [(Seeding, 0)] !! i = Some x ->
                   i = 0%nat /\ x = (Seeding, 0)).
  { intros [|i] x Hi; cbn in Hi; [now injection Hi as <-|destruct i; discriminate]. }
  split; cbn.
  - reflexivity.
  - intros i x Hi. apply Hone in Hi as [_ ->]. cbn. lia.
  - intros i j gi gj Hi Hj _ _. apply Hone in Hi as [-> _], Hj as [-> _]. reflexivity.
  - reflexivity.
  - split; [discriminate|]. intros (i & x & Hi & Hp).
    apply Hone in Hi as [_ ->]. destruct Hp; discriminate.
  - discriminate.
  - intros [|]; constructor.
Qed.

Ltac shutdown_frame HI Hg :=
  eapply shutdown_inv_frame;
  [ exact HI | exact Hg | reflexivity | reflexivity | reflexivity
  | apply (queued_belong _ _ HI PostProcessQueue) ].

Lemma shutdown_exec_sound gs tid g X (o : op X) c st x st' :
  shutdown_inv gs st -> gs !! tid = Some g -> mon_ok shutdown g o ->
  exec o c st = Stepped x st' ->
  mon_poss shutdown g o x
  /\ shutdown_inv (<[tid := mon_next shutdown g o x]> gs
                   ++ replicate (List.length (spawned o)) (mon_idle shutdown))%list st'.
Proof.
  intros HI Hg Hok Hexec.
  pose proof (units_nonneg _ _ HI tid g Hg) as Hpos.
  pose proof (counter_accounted _ _ HI) as Hcount.
  destruct (units_bounds gs (units_nonneg _ _ HI)) as [Hunits Hshare].
  specialize (Hshare tid g Hg).
  destruct o as [key|wg delta|wg|q t|q|ctx q|ctx|ctx rawurl|p ctx u page|w].
  - (* LoadOrStore *)
    split; [exact I|]. exec_cases Hexec; shutdown_frame HI Hg.
  - (* Add, Done *)
    split; [exact I|]. destruct wg; exec_cases Hexec; [|shutdown_frame HI Hg].
    cbn in Hok. apply (shutdown_inv_move gs tid g _ st _ HI Hg); cbn.
    + destruct Hok as [[-> _]|[-> [_ Hn]]]; lia.
    + tauto.
    + lia.
    + rewrite (exists_same_role _ gs tid g (fst g, _) Hg eq_refl).
      intros (j & y & Hj & Hw). exfalso.
      pose proof (drained_zero _ _ HI j y Hj Hw) as Hzero.
      destruct Hok as [[_ [Hs|[_ Hn]]]|[_ [_ Hn]]]; [|lia|lia].
      assert (j = tid).
      { apply (one_caller _ _ HI j tid y g Hj Hg); [|congruence].
        intros E. rewrite E in Hw. now apply past_wait_caller. }
      subst j. rewrite Hg in Hj. injection Hj as <-. rewrite Hs in Hw.
      destruct Hw as [Hw|[Hw|Hw]]; discriminate.
    + rewrite (exists_same_role _ gs tid g (fst g, _) Hg eq_refl).
      apply (closed_after_wait _ _ HI).
    + rewrite (exists_same_role (fun r => r = BothClosed) gs tid g (fst g, _) Hg eq_refl).
      apply (post_closed_after_crawl _ _ HI).
    + intros [|]; apply (queued_belong _ _ HI).
  - (* Wait *)
    split; [exact I|]. destruct wg; exec_cases Hexec; [|shutdown_frame HI Hg].
    cbn in Hok. subst g.
    assert (Hcaller : fst (Seeding, 0) <> Worker) by discriminate.
    apply (shutdown_inv_move gs tid (Seeding, 0) _ st _ HI Hg); cbn.
    + lia.
    + split; discriminate.
    + lia.
    + intros _. now apply Z.eqb_eq.
    + rewrite (exists_moved_caller _ past_close_caller gs st tid _ _ HI Hg Hcaller).
      rewrite (closed_after_wait _ _ HI).
      rewrite (exists_caller _ past_close_caller gs st tid _ HI Hg Hcaller).
      cbn. split; intros [Hw|Hw]; discriminate.
    + intros Hc. apply (post_closed_after_crawl _ _ HI) in Hc.
      apply (exists_caller (fun r => r = BothClosed) both_closed_caller
               gs st tid _ HI Hg Hcaller) in Hc.
      discriminate.
    + intros [|]; apply (queued_belong _ _ HI).
  - (* send *)
    split; [exact I|]. destruct q; exec_cases Hexec; cbn in Hok.
    + destruct Hok as (Hbel & Hone & Hrole).
      apply (shutdown_inv_move gs tid g _ st _ HI Hg); cbn.
      * lia.
      * tauto.
      * rewrite length_app. cbn. lia.
      * rewrite (exists_same_role _ gs tid g (fst g, _) Hg eq_refl).
        intros (j & y & Hj & Hw). apply (drained_zero _ _ HI j y Hj Hw).
      * rewrite (exists_same_role _ gs tid g (fst g, _) Hg eq_refl).
        rewrite <- (closed_after_wait _ _ HI). cbn in Heqb. rewrite Heqb. tauto.
      * rewrite (exists_same_role (fun r => r = BothClosed) gs tid g (fst g, _) Hg eq_refl).
        apply (post_closed_after_crawl _ _ HI).
      * intros [|]; cbn; [|apply (queued_belong _ _ HI PostProcessQueue)].
        apply Forall_app. split; [apply (queued_belong _ _ HI CrawlQueue)|].
        repeat constructor. exact Hbel.
    + eapply shutdown_inv_frame; [exact HI|exact Hg|reflexivity|reflexivity| |].
      * cbn in *. congruence.
      * cbn. apply Forall_app. split; [apply (queued_belong _ _ HI PostProcessQueue)|].
        repeat constructor. apply Hok.
  - (* close *)
    split; [exact I|]. destruct q; exec_cases Hexec; cbn in Hok.
    + assert (Hcaller : fst g <> Worker) by congruence.
      apply (shutdown_inv_move gs tid g _ st _ HI Hg); cbn.
      * lia.
      * split; [congruence|discriminate].
      * lia.
      * intros _. apply (drained_zero _ _ HI tid g Hg). now left.
      * rewrite (exists_moved_caller _ past_close_caller gs st tid _ _ HI Hg Hcaller).
        cbn. split; [now left|reflexivity].
      * intros Hc. apply (post_closed_after_crawl _ _ HI) in Hc.
        apply (exists_caller (fun r => r = BothClosed) both_closed_caller
                 gs st tid _ HI Hg Hcaller) in Hc.
        congruence.
      * intros [|]; apply (queued_belong _ _ HI).
    + assert (Hcaller : fst g <> Worker) by congruence.
      assert (Hclosed : closed (crawlQueue st) = true).
      { apply (closed_after_wait _ _ HI). exists tid, g. split; [exact Hg|now left]. }
      apply (shutdown_inv_move gs tid g _ st _ HI Hg); cbn.
      * lia.
      * split; [congruence|discriminate].
      * lia.
      * intros _. apply (drained_zero _ _ HI tid g Hg). right. now left.
      * rewrite (exists_moved_caller _ past_close_caller gs st tid _ _ HI Hg Hcaller).
        cbn. split; [now right|intros _; exact Hclosed].
      * intros _.
        apply (exists_moved_caller (fun r => r = BothClosed) both_closed_caller
                 gs st tid _ _ HI Hg Hcaller).
        reflexivity.
      * intros [|]; apply (queued_belong _ _ HI).
  - (* select *)
    pose proof (queued_belong _ _ HI q) as Hq.
    destruct q; exec_cases Hexec; cbn in Hok; cbn in Hq;
      try (split; [exact I|]; shutdown_frame HI Hg).
    all: match goal with
         | E : buf _ = _ :: _ |- _ =>
             cbn in E; rewrite E in Hq; try rewrite E in Hcount
         end.
    all: apply Forall_cons in Hq as [Hhead Htail]; (split; [exact Hhead|]).
    all: first
      [ subst g;
        apply (shutdown_inv_move gs tid (Worker, 0) _ st _ HI Hg); cbn;
        [ lia
        | tauto
        | match goal with E : buf _ = _ :: _ |- _ => rewrite E end;
          cbn [List.length]; lia
        | rewrite (exists_same_role _ gs tid (Worker, 0) (Worker, 1) Hg eq_refl);
          intros (j & y & Hj & Hw); apply (drained_zero _ _ HI j y Hj Hw)
        | rewrite (exists_same_role _ gs tid (Worker, 0) (Worker, 1) Hg eq_refl);
          rewrite <- (closed_after_wait _ _ HI);
          match goal with E : closed _ = _ |- _ => rewrite E end; tauto
        | rewrite (exists_same_role (fun r => r = BothClosed) gs tid (Worker, 0)
                     (Worker, 1) Hg eq_refl);
          apply (post_closed_after_crawl _ _ HI)
        | intros [|]; cbn; [exact Htail|apply (queued_belong _ _ HI PostProcessQueue)] ]
      | eapply shutdown_inv_frame;
        [exact HI|exact Hg|reflexivity|reflexivity|cbn in *; congruence|exact Htail] ].
  - (* ctx.Done *)
    split; [exact I|]. exec_cases Hexec; shutdown_frame HI Hg.
  - (* client.Do *)
    split; [exact I|]. exec_cases Hexec; shutdown_frame HI Hg.
  - (* a processor *)
    split; [exact I|]. exec_cases Hexec; shutdown_frame HI Hg.
  - (* go *)
    split; [exact I|]. exec_cases Hexec; shutdown_frame HI Hg.
Qed.

Section ShutdownOrder.
Context `{GoLib}.
Variable sc : SiteCrawler.

(** C3, as the code has it.  During a call of [Crawl] on a fresh crawler,
    under any schedule and at every moment: the crawl queue is closed only
    once [crawlWg] is at zero, and it stays at zero from then on; the
    post-processing queue is closed only once the crawl queue is closed.
    Nothing is said of [postProcessWg], which [Crawl] waits for after the
    post-processing queue is closed. *)
Theorem shutdown_order ctx sched cfg :
  run sc sched (mkConfig [Run (Crawl sc ctx)] initialState false) = Some cfg ->
  (closed (crawlQueue (shared cfg)) = true -> crawlWgCount (shared cfg) = 0)
  /\ (closed (postProcessQueue (shared cfg)) = true ->
      closed (crawlQueue (shared cfg)) = true /\ crawlWgCount (shared cfg) = 0).
Proof.
  intros Hrun.
  assert (Hm : Monitored shutdown shutdown_inv cfg).
  { eapply (run_monitored sc shutdown shutdown_inv); [| | |..|exact Hrun].
    - apply shutdown_worker.
    - intros. eapply shutdown_exec_sound; eauto.
    - apply shutdown_cancel_sound.
    - exists [(Seeding, 0)]. cbn. split.
      + repeat constructor. apply shutdown_Crawl.
      + apply shutdown_inv_initial. }
  destruct Hm as (gs & _ & HI).
  assert (Hzero : closed (crawlQueue (shared cfg)) = true ->
                  crawlWgCount (shared cfg) = 0).
  { intros Hc. apply (closed_after_wait _ _ HI) in Hc as (i & x & Hi & Hp).
    apply (drained_zero _ _ HI i x Hi). right. exact Hp. }
  split; [exact Hzero|]. intros Hc.
  apply (post_closed_after_crawl _ _ HI) in Hc as (i & x & Hi & Hb).
  assert (Hcq : closed (crawlQueue (shared cfg)) = true).
  { apply (closed_after_wait _ _ HI). exists i, x. split; [exact Hi|now right]. }
  split; [exact Hcq|exact (Hzero Hcq)].
Qed.
End ShutdownOrder.

(** The crawl of the one-page site up to the two [close] calls, for
    [shutdown_order]: both queues are closed and [crawlWg] is at zero. *)
Lemma shutdown_order_witness :
  closed (postProcessQueue (shared OnePage.at_close)) = true
  /\ closed (crawlQueue (shared OnePage.at_close)) = true
  /\ crawlWgCount (shared OnePage.at_close) = 0.
Proof.
  destruct (@shutdown_order Example.exampleLib OnePage.sc Example.ctx
              OnePage.until_closed OnePage.at_close) as [_ Hpost].
  - apply (run_ends (H := Example.exampleLib)). vm_compute. reflexivity.
  - assert (Hc : closed (postProcessQueue (shared OnePage.at_close)) = true)
      by (vm_compute; reflexivity).
    split; [exact Hc|exact (Hpost Hc)].
Defined.

(** ** C7: cancellation *)

Section HaltCode.
Context `{GoLib}.
Variable sc : SiteCrawler.
Variable D : gset nat.

Lemma halt_AddURLToCrawlQueue ctx url :
  stopped D ctx = true ->
  wp (halt D) (AddURLToCrawlQueue sc ctx url) tt (fun _ g => g = tt).
Proof. intros Hs. unfold AddURLToCrawlQueue. wp_split. exact Hs. Qed.

Lemma halt_AddURLToPostProcessQueue ctx pageURL page :
  wp (halt D) (AddURLToPostProcessQueue sc ctx pageURL page) tt (fun _ g => g = tt).
Proof. unfold AddURLToPostProcessQueue. apply wp_forRange. intros p. wp_split. Qed.

Lemma halt_FetchPage {A} ctx url (k : result string -> Prog A) Q :
  stopped D ctx = true ->
  (forall r, wp (halt D) (k r) tt Q) ->
  wp (halt D) (bind (FetchPage ctx url) k) tt Q.
Proof.
  intros Hs Hk. unfold FetchPage.
  destruct (url_Parse (url_String url)); cbn; [|apply Hk].
  split; [exact Hs|]. intros r _. destruct r as [resp|e]; cbn; [|apply Hk].
  destruct (_ || _); cbn; [apply Hk|]. destruct (Body resp); cbn; apply Hk.
Qed.

Lemma halt_links ctx (f : URL -> URL) links :
  stopped D ctx = true ->
  wp (halt D)
    (forRange links (fun link =>
       match ResolveAndCleanURL (BaseURL sc) link with
       | Err _ => Ret tt
       | Ok parsed => AddURLToCrawlQueue sc ctx (f parsed)
       end)) tt (fun _ g => g = tt).
Proof.
  intros Hs. apply wp_forRange. intros link.
  destruct (ResolveAndCleanURL (BaseURL sc) link); [|reflexivity].
  now apply halt_AddURLToCrawlQueue.
Qed.

(** Under a stopped context [CrawlPage] is over after its check. *)
Lemma halt_CrawlPage ctx url :
  stopped D ctx = true ->
  wp (halt D) (CrawlPage sc ctx url) tt (fun _ g => g = tt).
Proof.
  intros Hs. unfold CrawlPage. cbn. split; [exact I|]. intros done Hd.
  rewrite (Hd Hs). reflexivity.
Qed.

Lemma halt_CrawlFromSiteMap ctx :
  stopped D ctx = true ->
  wp (halt D) (CrawlFromSiteMap sc ctx) tt (fun _ g => g = tt).
Proof.
  intros Hs. unfold CrawlFromSiteMap. destruct (URL_Parse _ _); [|reflexivity].
  apply halt_FetchPage; [exact Hs|]. intros [siteMap|e]; [|reflexivity].
  destruct (ParseSitemapForUrls siteMap); [|reflexivity].
  apply wp_bind.
  eapply wp_mono; [|now apply (halt_links ctx (url_ResolveReference (BaseURL sc)))].
  intros _ g ->. reflexivity.
Qed.

Lemma halt_Crawl ctx :
  stopped D ctx = true -> wp (halt D) (Crawl sc ctx) tt (fun _ _ => True).
Proof.
  intros Hs. unfold Crawl, startCrawlWorkers, startPostProcessingWorkers.
  apply wp_bind. eapply wp_mono; [|apply wp_forCount; wp_split].
  intros _ g ->. apply wp_bind. eapply wp_mono; [|apply wp_forCount; wp_split].
  intros _ g ->. apply wp_bind. eapply wp_mono; [|now apply halt_CrawlFromSiteMap].
  intros [e|] g ->; [exact I|].
  apply wp_bind. eapply wp_mono; [|now apply halt_AddURLToCrawlQueue].
  intros _ g ->. wp_split.
Qed.

Lemma halt_runTask q t :
  halted D q t -> wp (halt D) (runTask sc t) tt (fun _ g => g = tt).
Proof.
  destruct q, t as [ctx url|ctx p pageURL page]; cbn [halted runTask];
    try contradiction; intros Hh.
  - apply wp_bind. eapply wp_mono; [|now apply halt_CrawlPage].
    intros _ g ->. wp_split.
  - wp_split.
Qed.

Lemma halt_worker g :
  wp (halt D) (goroutineTurn sc g) tt (fun _ g' => g' = tt).
Proof.
  destruct g as [ctx|ctx]; cbn; (split; [exact I|]); intros [|[t|]] Hh; cbn;
    try reflexivity.
  - apply wp_bind. eapply wp_mono; [|apply (halt_runTask CrawlQueue t Hh)].
    intros _ g ->. reflexivity.
  - apply wp_bind. eapply wp_mono; [|apply (halt_runTask PostProcessQueue t Hh)].
    intros _ g ->. reflexivity.
Qed.

Lemma halt_accepts ctx t :
  stopped D ctx = true -> SubmittedUnder sc ctx t -> accepts (halt D) t tt.
Proof.
  intros Hs. destruct 1 as [|url|url|g]; cbn [accepts start].
  - now apply halt_Crawl.
  - apply wp_bind. eapply wp_mono; [|now apply halt_AddURLToCrawlQueue].
    intros _ g ->. exact I.
  - apply wp_bind. eapply wp_mono; [|now apply halt_CrawlPage].
    intros _ g ->. exact I.
  - apply halt_worker.
Qed.

Lemma halt_accepts_pool ctx ts :
  stopped D ctx = true -> Forall (SubmittedUnder sc ctx) ts ->
  Forall2 (accepts (halt D)) ts (replicate (List.length ts) tt).
Proof.
  intros Hs. induction 1 as [|t ts Ht _ IH]; cbn; constructor;
    [now apply (halt_accepts ctx)|exact IH].
Qed.
End HaltCode.

Section HaltSound.
Variable D : gset nat.

(** A context that [D] has stopped is done in every state whose
    cancellations include [D]. *)
Lemma stopped_done st ctx :
  D ⊆ cancelled st -> stopped D ctx = true -> ctx_done st ctx = true.
Proof.
  intros HD. induction ctx as [|id|parent IH d]; cbn; [discriminate| |exact IH].
  rewrite !bool_decide_eq_true. set_solver.
Qed.

Lemma halt_inv_keep reqs gs gs' st st' :
  halt_inv D reqs gs st ->
  cancelled st' = cancelled st ->
  (forall q, Forall (halted D q) (buf (chan st' q))) ->
  requests_made (trace st') = requests_made (trace st) ->
  halt_inv D reqs gs' st'.
Proof.
  intros [H1 H2 H3] Hc Hq Hr. split; [now rewrite Hc|exact Hq|now rewrite Hr].
Qed.

Lemma halt_exec_sound reqs gs tid g X (o : op X) c st x st' :
  halt_inv D reqs gs st -> gs !! tid = Some g -> mon_ok (halt D) g o ->
  exec o c st = Stepped x st' ->
  mon_poss (halt D) g o x
  /\ halt_inv D reqs (<[tid := mon_next (halt D) g o x]> gs
                ++ replicate (List.length (spawned o)) (mon_idle (halt D)))%list st'.
Proof.
  intros HI _ Hok Hexec.
  generalize (<[tid := mon_next (halt D) g o x]> gs
              ++ replicate (List.length (spawned o)) (mon_idle (halt D)))%list.
  intros gs'. pose proof (queued_halted _ _ _ _ HI) as Hq.
  destruct o as [key|wg delta|wg|q t|q|ctx q|ctx|ctx rawurl|p ctx u page|w];
    cbn in Hok.
  - exec_cases Hexec; (split; [exact I|]);
      (eapply halt_inv_keep; [exact HI|reflexivity|exact Hq|reflexivity]).
  - destruct wg; exec_cases Hexec; (split; [exact I|]);
      (eapply halt_inv_keep; [exact HI|reflexivity|exact Hq|reflexivity]).
  - destruct wg; exec_cases Hexec; (split; [exact I|]);
      (eapply halt_inv_keep; [exact HI|reflexivity|exact Hq|reflexivity]).
  - destruct q; exec_cases Hexec; (split; [exact I|]);
      (eapply halt_inv_keep; [exact HI|reflexivity| |reflexivity]);
      intros [|]; cbn;
      first [ apply (Hq CrawlQueue) | apply (Hq PostProcessQueue)
            | apply Forall_app; split;
              [ first [apply (Hq CrawlQueue)|apply (Hq PostProcessQueue)]
              | repeat constructor; exact Hok ] ].
  - destruct q; exec_cases Hexec; (split; [exact I|]);
      (eapply halt_inv_keep; [exact HI|reflexivity| |reflexivity]);
      intros [|]; cbn; first [apply (Hq CrawlQueue)|apply (Hq PostProcessQueue)].
  - pose proof (Hq q) as Hbuf.
    destruct q; exec_cases Hexec; cbn in Hbuf;
      try (split; [exact I|];
           eapply halt_inv_keep; [exact HI|reflexivity|exact Hq|reflexivity]).
    all: match goal with
         | E : buf _ = _ :: _ |- _ => cbn in E; rewrite E in Hbuf
         end.
    all: apply Forall_cons in Hbuf as [Hhead Htail]; (split; [exact Hhead|]).
    all: (eapply halt_inv_keep; [exact HI|reflexivity| |reflexivity]);
      intros [|]; cbn;
      first [exact Htail|apply (Hq CrawlQueue)|apply (Hq PostProcessQueue)].
  - exec_cases Hexec. split.
    + cbn. intros Hs. apply stopped_done; [apply (still_cancelled _ _ _ _ HI)|exact Hs].
    + eapply halt_inv_keep; [exact HI|reflexivity|exact Hq|reflexivity].
  - assert (Hdone : ctx_done st ctx = true)
      by (apply stopped_done; [apply (still_cancelled _ _ _ _ HI)|exact Hok]).
    cbn in Hexec. rewrite Hdone in Hexec. injection Hexec as <- <-.
    split; [exact I|].
    eapply halt_inv_keep; [exact HI|reflexivity|exact Hq|reflexivity].
  - exec_cases Hexec; (split; [exact I|]);
      (eapply halt_inv_keep; [exact HI|reflexivity|exact Hq|reflexivity]).
  - exec_cases Hexec; (split; [exact I|]);
      (eapply halt_inv_keep; [exact HI|reflexivity|exact Hq|reflexivity]).
Qed.

Lemma halt_cancel_sound reqs gs st id :
  halt_inv D reqs gs st ->
  halt_inv D reqs gs (set_cancelled st ({[id]} ∪ cancelled st)).
Proof. intros [H1 H2 H3]. split; [cbn; set_solver|exact H2|exact H3]. Qed.
End HaltSound.

Lemma ctx_done_stopped st ctx : ctx_done st ctx = stopped (cancelled st) ctx.
Proof. induction ctx as [|id|parent IH d]; cbn; auto. Qed.

Section Cancellation.
Context `{GoLib}.
Variable sc : SiteCrawler.

(** C7.  Take a moment at which the context [ctx] of the crawl is
    cancelled and the tasks still queued are tasks of cancelled contexts.
    Whatever is submitted under [ctx] from then on (calls of [Crawl], of
    [AddURLToCrawlQueue] and of [CrawlPage], and workers taking the queued
    tasks), under any schedule: no request leaves the client any more, and
    the context stays cancelled.  At every later moment a call of
    [CrawlPage] under [ctx] is over after its check of the context, which
    changes nothing, and a worker whose [select] takes the [Done] case
    returns.  Requests made before that moment are not concerned. *)
Theorem cancellation_stops_fetching ctx st0 ts sched cfg :
  ctx_done st0 ctx = true ->
  (forall q, Forall (halted (cancelled st0) q) (buf (chan st0 q))) ->
  Forall (SubmittedUnder sc ctx) ts ->
  run sc sched (mkConfig ts st0 false) = Some cfg ->
  requests_made (trace (shared cfg)) = requests_made (trace st0)
  /\ ctx_done (shared cfg) ctx = true
  /\ (forall A url (k : unit -> Prog A) c,
        step_prog (bind (CrawlPage sc ctx url) k) c (shared cfg)
        = Next (k tt) (shared cfg) [])
  /\ (forall q c,
        pick_done c = true ->
        step_prog (workerTurn sc ctx q) c (shared cfg)
        = Next (Ret false) (shared cfg) []).
Proof.
  intros Hdone0 Hqueued Hts Hrun.
  assert (Hs : stopped (cancelled st0) ctx = true)
    by now rewrite <- ctx_done_stopped.
  assert (Hm : Monitored (halt (cancelled st0))
                 (halt_inv (cancelled st0) (requests_made (trace st0))) cfg).
  { eapply (run_monitored sc (halt (cancelled st0))
              (halt_inv (cancelled st0) (requests_made (trace st0))));
      [| | |..|exact Hrun].
    - apply halt_worker.
    - intros. eapply halt_exec_sound; eauto.
    - apply halt_cancel_sound.
    - exists (replicate (List.length ts) tt). cbn. split.
      + now apply (halt_accepts_pool sc (cancelled st0) ctx).
      + split; [reflexivity|exact Hqueued|reflexivity]. }
  destruct Hm as (gs & _ & [H1 H2 H3]).
  assert (Hdone : ctx_done (shared cfg) ctx = true) by now apply (stopped_done _ _ _ H1).
  split; [exact H3|]. split; [exact Hdone|]. split.
  - intros A url k c. cbn. now rewrite Hdone.
  - intros q c Hpick. unfold workerTurn. cbn. rewrite Hdone, Hpick. cbn.
    destruct (buf (chan (shared cfg) q)); [|reflexivity].
    destruct (closed (chan (shared cfg) q)); reflexivity.
Qed.
End Cancellation.

(** A URL admitted after the cancellation, for
    [cancellation_stops_fetching]: its task is enqueued, a worker takes it,
    and the page is not requested. *)
Lemma cancellation_stops_fetching_witness :
  let sc := Example.crawler [0%nat] in
  let st0 := set_cancelled initialState {[0%nat]} in
  let ts :=
    [Run (bind (AddURLToCrawlQueue (H := Example.exampleLib) sc Example.ctx
                  (Example.at_path "/about")) (fun _ => Ret None));
     start (H := Example.exampleLib) sc (CrawlWorker Example.ctx)] in
  let sched := [Step 0 Example.quiet; Step 0 Example.quiet; Step 0 Example.quiet;
                Step 1 Example.quiet; Step 1 Example.quiet; Step 1 Example.quiet] in
  let cfg := ends (H := Example.exampleLib) sc sched (mkConfig ts st0 false) in
  enqueued (H := Example.exampleLib) "https://example.com/about" (trace (shared cfg))
  = 1%nat
  /\ buf (crawlQueue (shared cfg)) = []
  /\ crawlWgCount (shared cfg) = 0
  /\ requests_made (trace (shared cfg)) = [].
Proof.
  intros sc st0 ts sched cfg.
  destruct (@cancellation_stops_fetching Example.exampleLib sc Example.ctx st0 ts
              sched cfg) as (Hreq & _).
  - vm_compute. reflexivity.
  - intros []; constructor.
  - repeat constructor.
  - apply (run_ends (H := Example.exampleLib)). vm_compute. reflexivity.
  - split; [vm_compute; reflexivity|]. split; [vm_compute; reflexivity|].
    split; [vm_compute; reflexivity|]. rewrite Hreq. reflexivity.
Defined.

(** * More of the code

    ** [sitemap.go] and [extract_links.go] *)

Lemma fold_left_keep_nonempty (locs acc : list string) :
  fold_left
    (fun acc l => if negb (String.eqb l "") then (acc ++ [l])%list else acc)
    locs acc
  = (acc ++ List.filter (fun l => negb (String.eqb l "")) locs)%list.
Proof.
  revert acc. induction locs as [|l locs IH]; intros acc; cbn.
  - now rewrite app_nil_r.
  - rewrite IH. destruct (String.eqb l ""); cbn; [reflexivity|].
    now rewrite <- app_assoc.
Qed.

Lemma fold_left_entries (entries : list UrlEntry) (acc : list string) :
  fold_left
    (fun acc entry =>
       if negb (String.eqb (Loc entry) "") then (acc ++ [Loc entry])%list else acc)
    entries acc
  = fold_left
      (fun acc l => if negb (String.eqb l "") then (acc ++ [l])%list else acc)
      (List.map Loc entries) acc.
Proof.
  revert acc. induction entries as [|e entries IH]; intros acc; cbn; [reflexivity|].
  apply IH.
Qed.

Section Sitemap.
Context `{GoLib}.

(** [ParseSitemapForUrls] fails exactly when [xml.Unmarshal] does, with its
    error; otherwise it returns the [<loc>] values that are not empty, in
    the order of the document, duplicates included.  So the empty string
    is never among the URLs it returns, and it returns at most one URL per
    [<url>] entry. *)
Theorem ParseSitemapForUrls_nonempty_locs sitemap :
  match xml_Unmarshal sitemap with
  | Err e => ParseSitemapForUrls sitemap = Err e
  | Ok urlSet =>
      exists urls,
        ParseSitemapForUrls sitemap = Ok urls
        /\ urls = List.filter (fun l => negb (String.eqb l ""))
                    (List.map Loc (URLs urlSet))
        /\ ~ List.In "" urls
        /\ (List.length urls <= List.length (URLs urlSet))%nat
  end.
Proof.
  unfold ParseSitemapForUrls. destruct (xml_Unmarshal sitemap) as [urlSet|e];
    [|reflexivity].
  eexists. split; [reflexivity|].
  rewrite fold_left_entries, fold_left_keep_nonempty. cbn [app].
  split; [reflexivity|]. split.
  - intros Hin. apply List.filter_In in Hin as [_ Hne]. discriminate.
  - etransitivity; [apply List.filter_length_le|]. now rewrite List.length_map.
Qed.
End Sitemap.

(** Induction on documents: a property that holds of a node whenever it
    holds of its children holds of every node. *)
Lemma Node_children_ind (P : Node -> Prop) :
  (forall ty data attrs children,
      Forall P children -> P (mkNode ty data attrs children)) ->
  forall n, P n.
Proof.
  intros Hnode. fix IH 1. intros [ty data attrs children]. apply Hnode.
  induction children as [|c children IHc]; constructor; [apply IH|exact IHc].
Qed.

Section Links.
Context `{GoLib}.

(** The [href]s of the attributes [attrs], in order. *)
Lemma fold_left_hrefs attrs (links : list string) :
  fold_left
    (fun ls attr =>
       if String.eqb (Key attr) "href" then (ls ++ [Val attr])%list else ls)
    attrs links
  = (links
     ++ List.map Val (List.filter (fun attr => String.eqb (Key attr) "href") attrs))%list.
Proof.
  revert links. induction attrs as [|a attrs IH]; intros links; cbn.
  - now rewrite app_nil_r.
  - rewrite IH. destruct (String.eqb (Key a) "href"); cbn; [|reflexivity].
    now rewrite <- app_assoc.
Qed.

Lemma fold_left_walk_app children :
  Forall (fun c => forall links,
              ExtractLinks_walk c links = (links ++ ExtractLinks_walk c [])%list)
    children ->
  forall links,
    fold_left (fun ls c => ExtractLinks_walk c ls) children links
    = (links ++ List.concat (List.map (fun c => ExtractLinks_walk c []) children))%list.
Proof.
  induction 1 as [|c children Hc _ IH]; intros links; cbn.
  - now rewrite app_nil_r.
  - rewrite IH, Hc. now rewrite <- app_assoc.
Qed.

Lemma ExtractLinks_walk_app n : forall links,
  ExtractLinks_walk n links = (links ++ ExtractLinks_walk n [])%list.
Proof.
  induction n as [ty data attrs children IH] using Node_children_ind.
  intros links. cbn [ExtractLinks_walk].
  rewrite !(fold_left_walk_app children IH).
  destruct ty; cbn [app]; try reflexivity.
  destruct (String.eqb data "a"); cbn [app]; [|reflexivity].
  rewrite !fold_left_hrefs. cbn [app]. now rewrite app_assoc.
Qed.

Lemma ExtractLinks_walk_node ty data attrs children links :
  ExtractLinks_walk (mkNode ty data attrs children) links
  = (links
     ++ (match ty with
         | ElementNode =>
             if String.eqb data "a"
             then List.map Val
                    (List.filter (fun attr => String.eqb (Key attr) "href") attrs)
             else []
         | _ => []
         end)
     ++ List.concat (List.map (fun c => ExtractLinks_walk c []) children))%list.
Proof.
  cbn [ExtractLinks_walk].
  rewrite (fold_left_walk_app children).
  2:{ apply List.Forall_forall. intros c _. apply ExtractLinks_walk_app. }
  destruct ty; cbn [app]; try reflexivity.
  destruct (String.eqb data "a"); cbn [app]; [|reflexivity].
  rewrite fold_left_hrefs. now rewrite app_assoc.
Qed.

(** The walk of [ExtractLinks] keeps the links found so far and appends
    to them; and the links of a node are the [href] values of its own
    attributes when it is an [a] element, in the order of the attributes,
    followed by the links of each of its children, in the order of the
    children. *)
Theorem ExtractLinks_walk_document_order ty data attrs children links :
  ExtractLinks_walk (mkNode ty data attrs children) links
  = (links ++ ExtractLinks_walk (mkNode ty data attrs children) [])%list
  /\ ExtractLinks_walk (mkNode ty data attrs children) []
     = ((match ty with
         | ElementNode =>
             if String.eqb data "a"
             then List.map Val
                    (List.filter (fun attr => String.eqb (Key attr) "href") attrs)
             else []
         | _ => []
         end)
        ++ List.concat (List.map (fun c => ExtractLinks_walk c []) children))%list.
Proof.
  split; [apply ExtractLinks_walk_app|]. now rewrite ExtractLinks_walk_node.
Qed.

Lemma ExtractLinks_walk_In n : forall l,
  List.In l (ExtractLinks_walk n [])
  <-> exists n', reaches n n' /\ anchor_href n' l.
Proof.
  induction n as [ty data attrs children IH] using Node_children_ind.
  intros l. rewrite ExtractLinks_walk_node. cbn [app].
  rewrite List.in_app_iff, List.in_concat. split.
  - intros [Hown|(ls & Hls & Hl)].
    + exists (mkNode ty data attrs children). split; [constructor|].
      destruct ty; try contradiction.
      destruct (String.eqb data "a") eqn:Ha; [|contradiction].
      apply String.eqb_eq in Ha. apply List.in_map_iff in Hown as (attr & Hv & Hin).
      apply List.filter_In in Hin as [Hin Hk]. apply String.eqb_eq in Hk.
      repeat split; auto. exists attr. auto.
    + apply List.in_map_iff in Hls as (c & <- & Hc).
      rewrite List.Forall_forall in IH. apply (IH c Hc) in Hl as (n' & Hr & Ha).
      exists n'. split; [|exact Ha]. now apply (reaches_child _ c).
  - intros (n' & Hr & Ha). inversion Hr as [|n0 c n1 Hc Hr']; subst.
    + left. destruct Ha as (Hty & Hd & attr & Hin & Hk & Hv). cbn in Hty, Hd, Hin.
      subst ty data. cbn. apply List.in_map_iff. exists attr. split; [exact Hv|].
      apply List.filter_In. split; [exact Hin|]. now apply String.eqb_eq.
    + right. cbn in Hc. exists (ExtractLinks_walk c []). split.
      * apply List.in_map_iff. eauto.
      * rewrite List.Forall_forall in IH. apply (IH c Hc). eauto.
Qed.

(** [ExtractLinks] fails exactly when [html.Parse] does; otherwise a
    string is among the links it returns exactly when it is the value of
    an [href] attribute of an [a] element somewhere in the document.
    Other elements, other attributes of [a] elements, and text
    contribute nothing. *)
Theorem ExtractLinks_anchors htmlContent :
  match html_Parse htmlContent with
  | Err e => ExtractLinks htmlContent = Err e
  | Ok doc =>
      exists links,
        ExtractLinks htmlContent = Ok links
        /\ forall l, List.In l links
                     <-> exists n, reaches doc n /\ anchor_href n l
  end.
Proof.
  unfold ExtractLinks. destruct (html_Parse htmlContent) as [doc|e]; [|reflexivity].
  eexists. split; [reflexivity|]. apply ExtractLinks_walk_In.
Qed.
End Links.

(** ** The shape of a cleaned path *)

Lemma hd_rev_last {A} (l : list A) d : List.hd d (rev l) = List.last l d.
Proof.
  destruct l as [|a l] using rev_ind; [reflexivity|].
  rewrite rev_app_distr, List.last_last. reflexivity.
Qed.

Lemma last_rev_hd {A} (l : list A) d : List.last (rev l) d = List.hd d l.
Proof. rewrite <- (rev_involutive l) at 2. now rewrite hd_rev_last. Qed.

Lemma last_app_nonempty {A} (l1 l2 : list A) d :
  l2 <> [] -> List.last (l1 ++ l2) d = List.last l2 d.
Proof.
  intros Hne. destruct l2 as [|a l2] using rev_ind; [congruence|].
  now rewrite app_assoc, !List.last_last.
Qed.

(** What the [..] case leaves is the end of the buffer it found. *)
Lemma Clean_backtrack_suffix dotdot : forall rout last,
  exists pre, rout = (pre ++ Clean_backtrack rout last dotdot)%list.
Proof.
  induction rout as [|c rout IH]; intros last; cbn; [now exists []|].
  destruct (_ && _); [|now exists []].
  destruct (IH c) as [pre Hpre]. exists (c :: pre). cbn. now f_equal.
Qed.

(** The first byte written for a path that is not rooted is not a
    separator. *)
Lemma Clean_loop_relative fuel : forall p rout dotdot,
  is_slash (List.last rout dot) = false ->
  is_slash (List.last (Clean_loop fuel false p rout dotdot) dot) = false.
Proof.
  induction fuel as [|fuel IH]; intros p rout dotdot Hfirst; [exact Hfirst|].
  destruct p as [|c p1]; [exact Hfirst|].
  cbn [Clean_loop].
  destruct (is_slash c) eqn:Hslash; [now apply IH|].
  destruct (is_dot c && ends_element p1); [now apply IH|].
  destruct (is_dot c && _) eqn:Hdd.
  - (* .. element *)
    destruct (dotdot <? List.length rout)%nat eqn:Hlt.
    + destruct rout as [|last rout']; [now apply IH|].
      apply IH.
      destruct (Clean_backtrack_suffix dotdot rout' last) as [pre Hpre].
      destruct (Clean_backtrack rout' last dotdot) as [|b back] eqn:Hback;
        [apply is_slash_dot|].
      rewrite <- Hfirst. rewrite Hpre.
      f_equal. symmetry.
      apply (last_app_nonempty (last :: pre) (b :: back)). discriminate.
    + cbn [negb]. apply IH.
      destruct rout as [|a r]; [apply is_slash_dot|].
      rewrite <- Hfirst. reflexivity.
  - (* real path element *)
    cbn [andb negb orb].
    destruct (Clean_copy (c :: p1) _) as [p' rout2] eqn:Hcopy.
    apply IH.
    apply Clean_copy_nonempty in Hcopy as (elem & Hne & -> & Hall); [|exact Hslash].
    destruct rout as [|a r]; cbn [List.length Nat.eqb negb].
    + rewrite app_nil_r, last_rev_hd.
      destruct elem as [|e elem]; [congruence|]. cbn. now inversion Hall.
    + rewrite <- Hfirst. f_equal.
      etransitivity;
        [apply (last_app_nonempty (rev elem) (slash :: a :: r)); discriminate
        |reflexivity].
Qed.

Lemma Clean_inv_start_rooted : Clean_inv true [slash] 1.
Proof.
  split; cbn; auto; try reflexivity. intros _. split; [reflexivity|]. now exists [].
Qed.

Lemma Clean_inv_start_relative : Clean_inv false [] 0.
Proof. split; cbn; auto; try reflexivity. discriminate. Qed.

Lemma Clean_bytes_shape p :
  Clean_bytes p <> []
  /\ is_slash (List.hd dot (Clean_bytes p)) = is_slash (List.hd dot p)
  /\ (is_slash (List.last (Clean_bytes p) dot) = true -> Clean_bytes p = [slash]).
Proof.
  unfold Clean_bytes. destruct p as [|c p1].
  { repeat split; [discriminate|]. intros Hd. vm_compute in Hd. discriminate. }
  cbn [List.hd]. destruct (is_slash c) eqn:Hc.
  - destruct (Clean_loop_inv (List.length (c :: p1)) true p1 [slash] 1
                Clean_inv_start_rooted) as [d [_ Htail Hroot _ _]].
    destruct (Hroot eq_refl) as [_ [r Hout]].
    destruct (Clean_loop _ true p1 [slash] 1) as [|a out] eqn:Hloop.
    { destruct r; discriminate. }
    split; [intros E; apply (f_equal (@List.length _)) in E;
            rewrite length_rev in E; discriminate|].
    split.
    + rewrite hd_rev_last, Hout, List.last_last. reflexivity.
    + rewrite last_rev_hd. cbn [List.hd]. intros Ha.
      destruct (Htail Ha) as [-> _]. apply is_slash_true in Ha. now subst a.
  - pose proof (Clean_loop_relative (List.length (c :: p1)) (c :: p1) [] 0
                  is_slash_dot) as Hfirst.
    destruct (Clean_loop_inv (List.length (c :: p1)) false (c :: p1) [] 0
                Clean_inv_start_relative) as [d [_ Htail _ _ _]].
    destruct (Clean_loop _ false (c :: p1) [] 0) as [|a out] eqn:Hloop.
    + repeat split; [discriminate|].
      intros Hd. vm_compute in Hd. discriminate.
    + split; [intros E; apply (f_equal (@List.length _)) in E;
              rewrite length_rev in E; discriminate|].
      split.
      * rewrite hd_rev_last. exact Hfirst.
      * rewrite last_rev_hd. cbn [List.hd]. intros Ha.
        destruct (Htail Ha) as [_ Hr]. discriminate.
Qed.

Lemma ReplaceAll_slashes_hd p :
  is_slash (List.hd dot (ReplaceAll p [slash; slash] [slash]))
  = is_slash (List.hd dot p).
Proof.
  destruct p as [|c p]; [reflexivity|]. unfold ReplaceAll. cbn [ReplaceAll_from].
  destruct (HasPrefix_bytes (c :: p) [slash; slash]) eqn:Hp; [|reflexivity].
  cbn in Hp. apply andb_true_iff in Hp as [Hc _].
  change (is_slash c = true) in Hc. cbn [app List.hd]. rewrite Hc. reflexivity.
Qed.

Lemma first_byte_slash (s : string) :
  first_byte s = Some slash <-> is_slash (List.hd dot (list_ascii_of_string s)) = true.
Proof.
  destruct s as [|c s]; cbn.
  - split; [discriminate|]. intros Hd. vm_compute in Hd. discriminate.
  - rewrite is_slash_true. split; [now intros [= ->]|now intros ->].
Qed.

Lemma last_byte_slash (l : bytes) :
  List.last (List.map Some l) None = Some slash -> is_slash (List.last l dot) = true.
Proof.
  destruct l as [|a l] using rev_ind; [discriminate|].
  rewrite List.map_app. cbn. rewrite !List.last_last. intros [= ->]. reflexivity.
Qed.

(** [cleanPath] never returns the empty string (the empty path becomes
    [.]); it returns a path that starts with a separator exactly when its
    argument does; and what it returns ends with a separator only when it is
    the root [/] itself. *)
Theorem cleanPath_shape p :
  cleanPath p <> ""
  /\ (first_byte (cleanPath p) = Some slash <-> first_byte p = Some slash)
  /\ (last_byte (cleanPath p) = Some slash -> cleanPath p = "/").
Proof.
  unfold cleanPath, Clean. rewrite string_bytes_inv.
  set (collapsed := ReplaceAll (list_ascii_of_string p) [slash; slash] [slash]).
  destruct (Clean_bytes_shape collapsed) as (Hne & Hhd & Hlast).
  split; [|split].
  - intros E. apply Hne. apply (f_equal list_ascii_of_string) in E.
    now rewrite string_bytes_inv in E.
  - rewrite !first_byte_slash, string_bytes_inv, Hhd. subst collapsed.
    now rewrite ReplaceAll_slashes_hd.
  - unfold last_byte. rewrite string_bytes_inv. intros E.
    apply last_byte_slash in E. now rewrite (Hlast E).
Qed.

(** ** A call of [Crawl], to its end *)

Lemma ghost_eq g s c p d :
  stage g = s -> crawl_units g = c -> post_units g = p -> pending g = d ->
  mkGhost s c p d = g.
Proof. destruct g; cbn; intros; subst; reflexivity. Qed.

Section DrainCode.
Context `{GoLib}.
Variable sc : SiteCrawler.

Lemma drain_AddURLToCrawlQueue ctx url g :
  may_seed g ->
  wp (drain sc) (AddURLToCrawlQueue sc ctx url) g (fun _ g' => g' = g).
Proof.
  intros Hg. unfold AddURLToCrawlQueue.
  destruct (IsAllowed _ _ _); cbn [negb]; [|reflexivity].
  destruct (String.eqb _ _); cbn [negb]; [|reflexivity].
  cbn. split; [exact I|]. intros [] _; [reflexivity|]. cbn.
  split; [left; split; [reflexivity|exact Hg]|]. intros _ _.
  split.
  { split; [exact I|]. destruct Hg as [[Hg Hn]|[Hg Hn]]; split; auto; lia. }
  intros _ _. apply ghost_eq; auto; lia.
Qed.

Lemma drain_AddURLToPostProcessQueue ctx pageURL page g :
  stage g = Working -> 1 <= crawl_units g -> pending g <= post_units g ->
  wp (drain sc) (AddURLToPostProcessQueue sc ctx pageURL page) g
    (fun _ g' => g' = g).
Proof.
  intros Hs Hc Hp. unfold AddURLToPostProcessQueue. apply wp_forRange. intros p.
  cbn. split; [left; auto|]. intros _ _.
  split; [repeat split; auto; lia|]. intros _ _. apply ghost_eq; auto; lia.
Qed.

Lemma drain_FetchPage {A} ctx url (k : result string -> Prog A) g Q :
  (forall r, wp (drain sc) (k r) g Q) ->
  wp (drain sc) (bind (FetchPage ctx url) k) g Q.
Proof.
  intros Hk. unfold FetchPage. destruct (url_Parse (url_String url)); cbn; [|apply Hk].
  split; [exact I|]. intros r _. destruct r as [resp|e]; cbn; [|apply Hk].
  destruct (_ || _); cbn; [apply Hk|]. destruct (Body resp); cbn; apply Hk.
Qed.

Lemma drain_links ctx (f : URL -> URL) links g :
  may_seed g ->
  wp (drain sc)
    (forRange links (fun link =>
       match ResolveAndCleanURL (BaseURL sc) link with
       | Err _ => Ret tt
       | Ok parsed => AddURLToCrawlQueue sc ctx (f parsed)
       end)) g (fun _ g' => g' = g).
Proof.
  intros Hg. apply wp_forRange. intros link.
  destruct (ResolveAndCleanURL (BaseURL sc) link); [|reflexivity].
  now apply drain_AddURLToCrawlQueue.
Qed.

Lemma drain_CrawlPage ctx url :
  wp (drain sc) (CrawlPage sc ctx url) (mkGhost Working 1 0 0)
    (fun _ g' => g' = mkGhost Working 1 0 0).
Proof.
  assert (Hg : may_seed (mkGhost Working 1 0 0)) by (right; cbn; split; [reflexivity|lia]).
  unfold CrawlPage. cbn. split; [exact I|]. intros done _.
  destruct done; [reflexivity|]. apply drain_FetchPage.
  intros [page|e]; [|reflexivity].
  destruct (ExtractLinks page) as [links|e]; [|reflexivity].
  apply wp_bind. eapply wp_mono; [|now apply (drain_links ctx (fun u => u))].
  intros _ g' ->. apply drain_AddURLToPostProcessQueue; cbn; auto; lia.
Qed.

Lemma drain_CrawlFromSiteMap ctx g :
  may_seed g ->
  wp (drain sc) (CrawlFromSiteMap sc ctx) g
    (fun err g' =>
       g' = g
       /\ (err <> None -> is_ok (URL_Parse (BaseURL sc) "/sitemap.xml") = false)).
Proof.
  intros Hg. unfold CrawlFromSiteMap.
  destruct (URL_Parse _ _); [|split; reflexivity].
  apply drain_FetchPage. intros [siteMap|e]; [|split; [reflexivity|congruence]].
  destruct (ParseSitemapForUrls siteMap); [|split; [reflexivity|congruence]].
  apply wp_bind.
  eapply wp_mono;
    [|now apply (drain_links ctx (url_ResolveReference (BaseURL sc)))].
  intros _ g' ->. split; [reflexivity|congruence].
Qed.

Lemma drain_Crawl ctx :
  wp (drain sc) (Crawl sc ctx) (mkGhost Seeding_ 0 0 0)
    (fun _ g' => drain_done sc g').
Proof.
  assert (Hseed : may_seed (mkGhost Seeding_ 0 0 0))
    by (left; cbn; split; [reflexivity|lia]).
  unfold Crawl, startCrawlWorkers, startPostProcessingWorkers.
  apply wp_bind. eapply wp_mono; [|apply wp_forCount; wp_split].
  intros _ g ->. apply wp_bind. eapply wp_mono; [|apply wp_forCount; wp_split].
  intros _ g ->. apply wp_bind.
  eapply wp_mono; [|now apply drain_CrawlFromSiteMap].
  intros [e|] g [-> Herr].
  { right. split; [reflexivity|]. apply Herr. discriminate. }
  apply wp_bind. eapply wp_mono; [|now apply drain_AddURLToCrawlQueue].
  intros _ g ->. cbn. repeat (split; [reflexivity|]; intros _ _).
  left. reflexivity.
Qed.

Lemma drain_runTask q t :
  belongs q t ->
  wp (drain sc) (runTask sc t)
    (match q with
     | CrawlQueue => mkGhost Working 1 0 0
     | PostProcessQueue => mkGhost Working 0 1 1
     end)
    (fun _ g' => g' = idle).
Proof.
  destruct q, t as [ctx url|ctx p pageURL page]; cbn [belongs runTask];
    try contradiction; intros _.
  - apply wp_bind. eapply wp_mono; [|apply drain_CrawlPage].
    intros _ g ->. cbn. split; [right; repeat split; lia|]. intros _ _. reflexivity.
  - cbn. split; [lia|]. intros _ _. split; [right; split; [reflexivity|lia]|].
    intros _ _. reflexivity.
Qed.

Lemma drain_worker g :
  wp (drain sc) (goroutineTurn sc g) idle (fun _ g' => g' = idle).
Proof.
  destruct g as [ctx|ctx]; cbn; (split; [reflexivity|]);
    intros [|[t|]] Hfit; cbn; try reflexivity.
  - apply wp_bind. eapply wp_mono; [|apply (drain_runTask CrawlQueue t Hfit)].
    intros _ g ->. reflexivity.
  - apply wp_bind.
    eapply wp_mono; [|apply (drain_runTask PostProcessQueue t Hfit)].
    intros _ g ->. reflexivity.
Qed.
End DrainCode.

(** *** Sums over the ghosts *)

Section Totals.
Variable f : Ghost -> Z.

Lemma total_app gs gs' : total f (gs ++ gs') = total f gs + total f gs'.
Proof.
  unfold total. induction gs as [|x gs IH]; cbn; [reflexivity|]. rewrite IH. lia.
Qed.

Lemma total_replicate n : f idle = 0 -> total f (replicate n idle) = 0.
Proof.
  intros Hidle. unfold total. induction n as [|n IH]; cbn; [reflexivity|].
  rewrite IH, Hidle. reflexivity.
Qed.

Lemma total_insert gs : forall tid g g',
  gs !! tid = Some g -> total f (<[tid := g']> gs) = total f gs - f g + f g'.
Proof.
  induction gs as [|x gs IH]; intros [|tid] g g' Hg; cbn in Hg; try discriminate.
  - injection Hg as ->. unfold total. cbn. lia.
  - change (f x + total f (<[tid := g']> gs) = f x + total f gs - f g + f g').
    rewrite (IH tid g g' Hg). lia.
Qed.

Lemma total_bounds gs :
  (forall i x, gs !! i = Some x -> 0 <= f x) ->
  0 <= total f gs /\ forall tid g, gs !! tid = Some g -> f g <= total f gs.
Proof.
  unfold total. induction gs as [|x gs IH]; intros Hpos; cbn.
  - split; [lia|]. intros tid g Hg. destruct tid; discriminate.
  - destruct IH as [IH0 IH1].
    { intros i y Hy. apply (Hpos (S i) y Hy). }
    pose proof (Hpos 0%nat x eq_refl) as Hx.
    split; [lia|]. intros [|tid] g Hg; cbn in Hg.
    + injection Hg as ->. lia.
    + specialize (IH1 tid g Hg). lia.
Qed.
End Totals.

Lemma handed_cons e tr :
  handed (e :: tr) = (if is_handed e then 1 else 0) + handed tr.
Proof. unfold handed. cbn. destruct (is_handed e); cbn [List.length]; lia. Qed.

Lemma processed_cons e tr :
  processed (e :: tr) = (if is_processed e then 1 else 0) + processed tr.
Proof. unfold processed. cbn. destruct (is_processed e); cbn [List.length]; lia. Qed.

(** *** Steps that keep the invariant of the drain monitor *)

Lemma ghosts_lookup (gs : list Ghost) tid g g' n j x :
  gs !! tid = Some g ->
  (<[tid := g']> gs ++ replicate n idle)%list !! j = Some x ->
  (j = tid /\ x = g') \/ (j <> tid /\ gs !! j = Some x) \/ (j <> tid /\ x = idle).
Proof.
  intros Hg Hj.
  assert (Hlt : (tid < List.length gs)%nat) by (eapply lookup_lt_Some; eauto).
  apply lookup_app_Some in Hj as [Hj|[Hlen Hj]].
  - destruct (decide (j = tid)) as [->|Hne].
    + rewrite list_lookup_insert_eq in Hj by exact Hlt. injection Hj as <-. now left.
    + rewrite list_lookup_insert_ne in Hj by congruence. right. now left.
  - apply lookup_replicate in Hj as [-> _]. rewrite length_insert in Hlen.
    right. right. split; [lia|reflexivity].
Qed.

Lemma ghosts_lookup_moved (gs : list Ghost) tid g g' n :
  gs !! tid = Some g ->
  (<[tid := g']> gs ++ replicate n idle)%list !! tid = Some g'.
Proof.
  intros Hg.
  assert (Hlt : (tid < List.length gs)%nat) by (eapply lookup_lt_Some; eauto).
  apply lookup_app_Some. left. now rewrite list_lookup_insert_eq.
Qed.

Lemma ghosts_lookup_kept (gs : list Ghost) tid g' n j x :
  j <> tid -> gs !! j = Some x ->
  (<[tid := g']> gs ++ replicate n idle)%list !! j = Some x.
Proof.
  intros Hne Hj. apply lookup_app_Some. left.
  now rewrite list_lookup_insert_ne by congruence.
Qed.

(** Goroutine [tid] moves its ghost from [g] to [g'], and [n] workers are
    started. *)
Lemma drain_step gs tid g g' n st st' :
  drain_inv gs st -> gs !! tid = Some g ->
  (0 <= crawl_units g' /\ 0 <= pending g' <= post_units g') ->
  crawlWgCount st' - Z.of_nat (List.length (buf (crawlQueue st'))) - crawl_units g'
  = crawlWgCount st - Z.of_nat (List.length (buf (crawlQueue st))) - crawl_units g ->
  postProcessWgCount st' - Z.of_nat (List.length (buf (postProcessQueue st')))
    - post_units g'
  = postProcessWgCount st - Z.of_nat (List.length (buf (postProcessQueue st)))
    - post_units g ->
  handed (trace st') - processed (trace st')
    - Z.of_nat (List.length (buf (postProcessQueue st'))) - pending g'
  = handed (trace st) - processed (trace st)
    - Z.of_nat (List.length (buf (postProcessQueue st))) - pending g ->
  (stage g = Working ->
   stage g' = Working
   /\ forall s, s <> Working -> stage_ok s st -> stage_ok s st') ->
  (stage g <> Working ->
   stage g' <> Working /\ (stage_ok (stage g) st -> stage_ok (stage g') st')) ->
  (forall q, Forall (belongs q) (buf (chan st' q))) ->
  drain_inv (<[tid := g']> gs ++ replicate n idle)%list st'.
Proof.
  intros [H1 H2 H3 H4 H5 H6] Hg Hb Hc Hp Hh Hworker Hcaller Hbel.
  split.
  - rewrite total_app, total_replicate, (total_insert _ gs tid g g' Hg) by reflexivity.
    lia.
  - rewrite total_app, total_replicate, (total_insert _ gs tid g g' Hg) by reflexivity.
    lia.
  - rewrite total_app, total_replicate, (total_insert _ gs tid g g' Hg) by reflexivity.
    lia.
  - intros j x Hj.
    apply (ghosts_lookup gs tid g g' n j x Hg) in Hj as [[_ ->]|[[_ Hj]|[_ ->]]];
      [exact Hb|eauto|cbn; lia].
  - destruct H5 as (i & gi & Hi & Hne & Hok & Hothers).
    destruct (decide (tid = i)) as [->|Hti].
    + assert (gi = g) by congruence. subst gi.
      destruct (Hcaller Hne) as [Hne' Hok'].
      exists i, g'. split; [now apply (ghosts_lookup_moved gs i g)|].
      split; [exact Hne'|]. split; [auto|].
      intros j x Hj Hji.
      apply (ghosts_lookup gs i g g' n j x Hg) in Hj as [[-> _]|[[_ Hj]|[_ ->]]];
        [congruence|eauto|reflexivity].
    + assert (Hw : stage g = Working) by (apply (Hothers tid g Hg Hti)).
      destruct (Hworker Hw) as [Hw' Hkeep].
      exists i, gi. split; [apply ghosts_lookup_kept; auto|].
      split; [exact Hne|]. split; [auto|].
      intros j x Hj Hji.
      apply (ghosts_lookup gs tid g g' n j x Hg) in Hj as [[_ ->]|[[_ Hj]|[_ ->]]];
        [exact Hw'|eauto|reflexivity].
  - exact Hbel.
Qed.

(** The goroutine that steps is the caller, at a stage that fits the shared
    objects, or it is a worker and the caller is at such a stage. *)
Lemma drain_caller gs st tid g :
  drain_inv gs st -> gs !! tid = Some g ->
  (stage g <> Working /\ stage_ok (stage g) st)
  \/ (stage g = Working /\ exists s, s <> Working /\ stage_ok s st).
Proof.
  intros [_ _ _ _ (i & gi & Hi & Hne & Hok & Hothers) _] Hg.
  destruct (decide (tid = i)) as [->|Hti].
  - left. assert (gi = g) by congruence. now subst gi.
  - right. split; [now apply (Hothers tid g Hg Hti)|]. eauto.
Qed.

Lemma drain_cancel_sound gs st id :
  drain_inv gs st -> drain_inv gs (set_cancelled st ({[id]} ∪ cancelled st)).
Proof.
  intros [H1 H2 H3 H4 (i & gi & Hi & Hne & Hok & Hothers) H6].
  split; try assumption. exists i, gi. repeat split; auto.
Qed.

Lemma drain_inv_initial : drain_inv [mkGhost Seeding_ 0 0 0] initialState.
Proof.
  split; try reflexivity.
  - intros [|i] x Hi; cbn in Hi; [injection Hi as <-; cbn; lia|destruct i; discriminate].
  - exists 0%nat, (mkGhost Seeding_ 0 0 0). repeat split; try discriminate.
    intros [|j] x Hj Hne; [congruence|destruct j; discriminate].
  - intros [|]; constructor.
Qed.

Arguments handed : simpl never.
Arguments processed : simpl never.
Arguments total : simpl never.

Ltac drain_facts :=
  repeat match goal with
         | E : (_ =? _)%Z = true |- _ => apply Z.eqb_eq in E
         | E : (_ =? _)%Z = false |- _ => apply Z.eqb_neq in E
         | E : (_ <? _)%Z = true |- _ => apply Z.ltb_lt in E
         | E : (_ <? _)%Z = false |- _ => apply Z.ltb_ge in E
         end.

Ltac drain_arith :=
  unfold may_seed in *; cbn in *;
  repeat match goal with
         | E : buf _ = _ :: _ |- _ => rewrite E in *
         end;
  rewrite ?handed_cons, ?processed_cons, ?length_app in *; cbn in *;
  intuition (try lia; try congruence).

Section DrainSound.
Context `{GoLib}.
Variable sc : SiteCrawler.

Lemma drain_exec_sound gs tid g X (o : op X) c st x st' :
  drain_inv gs st -> gs !! tid = Some g -> mon_ok (drain sc) g o ->
  exec o c st = Stepped x st' ->
  mon_poss (drain sc) g o x
  /\ drain_inv (<[tid := mon_next (drain sc) g o x]> gs
                ++ replicate (List.length (spawned o)) (mon_idle (drain sc)))%list st'.
Proof.
  intros HI Hg Hok Hexec.
  pose proof (ghost_bounds _ _ HI tid g Hg) as Hb.
  pose proof (crawl_accounted _ _ HI) as Hc1.
  pose proof (post_accounted _ _ HI) as Hc2.
  destruct (total_bounds crawl_units gs) as [Tc0 Tc].
  { intros i y Hy. apply (ghost_bounds _ _ HI i y Hy). }
  destruct (total_bounds post_units gs) as [Tp0 Tp].
  { intros i y Hy. pose proof (ghost_bounds _ _ HI i y Hy). lia. }
  specialize (Tc tid g Hg). specialize (Tp tid g Hg).
  pose proof (drain_belong _ _ HI CrawlQueue) as Hbc.
  pose proof (drain_belong _ _ HI PostProcessQueue) as Hbp.
  destruct o as [key|wg delta|wg|q t|q|ctx q|ctx|ctx rawurl|p ctx u page|w];
    try destruct wg; try destruct q; cbn in Hok; exec_cases Hexec; drain_facts.
  all: cbn in Hbc, Hbp;
    try match goal with
        | E : buf _ = _ :: _ |- _ =>
            cbn in E; first [rewrite E in Hbc|rewrite E in Hbp]
        end.
  all: split;
    [ first [exact I | now inversion Hbc | now inversion Hbp]
    | eapply (drain_step gs tid g _ _ st); [exact HI|exact Hg|..] ].
  all: try solve [drain_arith].
  all: try solve
    [ intros ?; split;
      [ cbn in *; congruence
      | let s := fresh "s" in intros s ? ?; destruct s; drain_arith ] ].
  all: try solve
    [ intros ?; split;
      [ cbn in *; intuition congruence
      | unfold may_seed in *; cbn in *; destruct (stage g) eqn:?; drain_arith ] ].
  all: try solve
    [ intros [|]; cbn;
      first [ assumption
            | apply (drain_belong _ _ HI CrawlQueue)
            | apply (drain_belong _ _ HI PostProcessQueue)
            | now inversion Hbc
            | now inversion Hbp
            | apply Forall_app; split; [assumption|repeat constructor; tauto] ] ].
Qed.
End DrainSound.

Lemma total_le (f f' : Ghost -> Z) gs :
  (forall i x, gs !! i = Some x -> f x <= f' x) -> total f gs <= total f' gs.
Proof.
  unfold total. induction gs as [|x gs IH]; intros Hle; cbn; [lia|].
  pose proof (Hle 0%nat x eq_refl).
  assert (total f gs <= total f' gs); [|unfold total in *; lia].
  apply IH. intros i y Hy. apply (Hle (S i) y Hy).
Qed.

Section DrainSafe.
Context `{GoLib}.
Variable sc : SiteCrawler.

(** An operation that the drain monitor permits does not panic: the
    counters do not go below zero, nothing is sent on a closed channel, and
    no channel is closed twice. *)
Lemma drain_exec_safe gs tid g X (o : op X) c st :
  drain_inv gs st -> gs !! tid = Some g -> mon_ok (drain sc) g o ->
  exec o c st <> Panics.
Proof.
  intros HI Hg Hok Hexec.
  pose proof (ghost_bounds _ _ HI tid g Hg) as Hb.
  pose proof (crawl_accounted _ _ HI) as Hc1.
  pose proof (post_accounted _ _ HI) as Hc2.
  destruct (total_bounds crawl_units gs) as [Tc0 Tc].
  { intros i y Hy. apply (ghost_bounds _ _ HI i y Hy). }
  destruct (total_bounds post_units gs) as [Tp0 Tp].
  { intros i y Hy. pose proof (ghost_bounds _ _ HI i y Hy). lia. }
  specialize (Tc tid g Hg). specialize (Tp tid g Hg).
  pose proof (drain_caller gs st tid g HI Hg) as Hcaller.
  destruct o as [key|wg delta|wg|q t|q|ctx q|ctx|ctx rawurl|p ctx u page|w];
    try destruct wg; try destruct q; cbn in Hok; cbn in Hexec;
    repeat match type of Hexec with
           | context [if ?b then _ else _] => destruct b eqn:?
           | context [match ?l with [] => _ | _ :: _ => _ end] => destruct l eqn:?
           end;
    try discriminate; drain_facts.
  all: destruct Hcaller as [[Hne Hst]|[Hw (s & Hs & Hst)]];
    [ destruct (stage g) eqn:?; drain_arith | destruct s; drain_arith ].
Qed.
End DrainSafe.

(** ** Monitors that exclude panics *)

Section Safety.
Context `{GoLib} (sc : SiteCrawler).
Context {G : Type} (M : Monitor G) (Inv : list G -> State -> Prop).

Hypothesis worker_accepted :
  forall g, wp M (goroutineTurn sc g) (mon_idle M) (fun _ g' => g' = mon_idle M).
Hypothesis exec_sound :
  forall gs tid g X (o : op X) c st x st',
    Inv gs st -> gs !! tid = Some g -> mon_ok M g o ->
    exec o c st = Stepped x st' ->
    mon_poss M g o x
    /\ Inv (<[tid := mon_next M g o x]> gs
            ++ replicate (List.length (spawned o)) (mon_idle M))%list st'.
Hypothesis cancel_sound :
  forall gs st id,
    Inv gs st -> Inv gs (set_cancelled st ({[id]} ∪ cancelled st)).
Hypothesis exec_safe :
  forall gs tid g X (o : op X) c st,
    Inv gs st -> gs !! tid = Some g -> mon_ok M g o -> exec o c st <> Panics.

Lemma step_prog_safe {A} (p : Prog A) (Q : A -> G -> Prop) gs tid g c st :
  Inv gs st -> gs !! tid = Some g -> wp M p g Q -> step_prog p c st <> Crash.
Proof.
  intros HI Hg Hwp. destruct p as [a|X o k]; cbn; [discriminate|].
  destruct Hwp as [Hok _]. pose proof (exec_safe gs tid g X o c st HI Hg Hok).
  destruct (exec o c st); congruence.
Qed.

Lemma step_safe a cfg cfg' :
  Monitored M Inv cfg -> step sc a cfg = Some cfg' -> crashed cfg' = false.
Proof.
  intros (gs & Hacc & HI). unfold step.
  destruct (crashed cfg); [discriminate|].
  destruct a as [tid c|id]; [|now intros [= <-]].
  destruct (threads cfg !! tid) as [t|] eqn:Ht; [|discriminate].
  destruct (Forall2_lookup_l _ _ _ _ _ Hacc Ht) as (g & Hg & Hat).
  destruct (step_thread sc t c (shared cfg)) as [[[[t' st'] ws]|]|] eqn:Hst;
    [now intros [= <-]| |discriminate].
  exfalso. destruct t as [p|w cur]; cbn in Hst, Hat.
  - pose proof (step_prog_safe p _ gs tid g c (shared cfg) HI Hg Hat).
    destruct (step_prog p c (shared cfg)); congruence.
  - pose proof (step_prog_safe cur _ gs tid g c (shared cfg) HI Hg Hat).
    destruct cur as [[|]|X o k]; try discriminate;
      destruct (step_prog _ c (shared cfg)); congruence.
Qed.

(** A schedule played from a monitored configuration does not lead to a
    panic. *)
Theorem run_safe sched : forall cfg cfg',
  Monitored M Inv cfg -> crashed cfg = false ->
  run sc sched cfg = Some cfg' -> crashed cfg' = false.
Proof.
  induction sched as [|a sched IH]; intros cfg cfg' Hm Hc; cbn.
  - now intros [= <-].
  - destruct (step sc a cfg) as [cfg1|] eqn:Hs; [|discriminate].
    apply IH.
    + eapply step_monitored; eauto.
    + eapply step_safe; eauto.
Qed.
End Safety.

Section CrawlToTheEnd.
Context `{GoLib}.
Variable sc : SiteCrawler.

Lemma drain_monitored ctx sched cfg :
  run sc sched (mkConfig [Run (Crawl sc ctx)] initialState false) = Some cfg ->
  Monitored (drain sc) drain_inv cfg.
Proof.
  intros Hrun.
  eapply (run_monitored sc (drain sc) drain_inv); [| | |..|exact Hrun].
  - apply drain_worker.
  - intros. eapply drain_exec_sound; eauto.
  - apply drain_cancel_sound.
  - exists [mkGhost Seeding_ 0 0 0]. cbn. split.
    + repeat constructor. apply drain_Crawl.
    + apply drain_inv_initial.
Qed.

(** A call of [Crawl] on a fresh crawler never panics, under any
    schedule and whatever the server answers: no [WaitGroup] counter goes
    below zero, nothing is sent on a closed channel and no channel is closed
    twice.  At every moment each counter is at least the number of tasks
    waiting in its queue. *)
Theorem Crawl_never_panics ctx sched cfg :
  run sc sched (mkConfig [Run (Crawl sc ctx)] initialState false) = Some cfg ->
  crashed cfg = false
  /\ Z.of_nat (List.length (buf (crawlQueue (shared cfg))))
     <= crawlWgCount (shared cfg)
  /\ Z.of_nat (List.length (buf (postProcessQueue (shared cfg))))
     <= postProcessWgCount (shared cfg).
Proof.
  intros Hrun. split.
  - eapply (run_safe sc (drain sc) drain_inv); [| | | |..|exact Hrun].
    + apply drain_worker.
    + intros. eapply drain_exec_sound; eauto.
    + apply drain_cancel_sound.
    + intros. eapply drain_exec_safe; eauto.
    + exists [mkGhost Seeding_ 0 0 0]. cbn. split.
      * repeat constructor. apply drain_Crawl.
      * apply drain_inv_initial.
    + reflexivity.
  - destruct (drain_monitored ctx sched cfg Hrun) as (gs & _ & HI).
    destruct (total_bounds crawl_units gs) as [Tc0 _].
    { intros i y Hy. apply (ghost_bounds _ _ HI i y Hy). }
    destruct (total_bounds post_units gs) as [Tp0 _].
    { intros i y Hy. pose proof (ghost_bounds _ _ HI i y Hy). lia. }
    rewrite (crawl_accounted _ _ HI), (post_accounted _ _ HI). lia.
Qed.

(** When the call of [Crawl] has returned, and [BaseURL.Parse] did not
    fail on the sitemap reference: both queues are closed and empty, both
    counters are at zero, and every post-processing task that was handed
    over has run its processor. *)
Theorem Crawl_returns_after_all_work ctx sched cfg r :
  run sc sched (mkConfig [Run (Crawl sc ctx)] initialState false) = Some cfg ->
  threads cfg !! 0%nat = Some (Run (Ret r)) ->
  is_ok (URL_Parse (BaseURL sc) "/sitemap.xml") = true ->
  buf (crawlQueue (shared cfg)) = []
  /\ buf (postProcessQueue (shared cfg)) = []
  /\ closed (crawlQueue (shared cfg)) = true
  /\ closed (postProcessQueue (shared cfg)) = true
  /\ crawlWgCount (shared cfg) = 0
  /\ postProcessWgCount (shared cfg) = 0
  /\ processed (trace (shared cfg)) = handed (trace (shared cfg)).
Proof.
  intros Hrun Hret Hparse.
  destruct (drain_monitored ctx sched cfg Hrun) as (gs & Hacc & HI).
  destruct (Forall2_lookup_l _ _ _ _ _ Hacc Hret) as (g & Hg & Hdone).
  cbn in Hdone. destruct Hdone as [Hfin|[_ Hfail]]; [|congruence].
  assert (Hst : stage_ok Finished (shared cfg)).
  { destruct (drain_caller gs (shared cfg) 0%nat g HI Hg) as [[_ Hst]|[Hw _]];
      [now rewrite Hfin in Hst|congruence]. }
  destruct Hst as (Hc & Hcq & Hpq & Hp).
  destruct (total_bounds crawl_units gs) as [Tc0 _].
  { intros i y Hy. apply (ghost_bounds _ _ HI i y Hy). }
  destruct (total_bounds post_units gs) as [Tp0 _].
  { intros i y Hy. pose proof (ghost_bounds _ _ HI i y Hy). lia. }
  destruct (total_bounds pending gs) as [Td0 _].
  { intros i y Hy. pose proof (ghost_bounds _ _ HI i y Hy). lia. }
  assert (Tle : total pending gs <= total post_units gs).
  { apply total_le. intros i y Hy. pose proof (ghost_bounds _ _ HI i y Hy). lia. }
  pose proof (crawl_accounted _ _ HI) as H1.
  pose proof (post_accounted _ _ HI) as H2.
  pose proof (handed_accounted _ _ HI) as H3.
  assert (Hcb : buf (crawlQueue (shared cfg)) = [])
    by (apply List.length_zero_iff_nil; lia).
  assert (Hpb : buf (postProcessQueue (shared cfg)) = [])
    by (apply List.length_zero_iff_nil; lia).
  repeat split; auto. rewrite Hpb in H2, H3. cbn in H2, H3. lia.
Qed.
End CrawlToTheEnd.

(** The crawl of the one-page site, for [Crawl_never_panics]. *)
Lemma Crawl_never_panics_witness :
  crashed OnePage.at_end = false
  /\ Z.of_nat (List.length (buf (postProcessQueue (shared OnePage.at_close))))
     <= postProcessWgCount (shared OnePage.at_close).
Proof.
  split.
  - apply (@Crawl_never_panics Example.exampleLib OnePage.sc Example.ctx
             (OnePage.until_closed ++ OnePage.to_the_end) OnePage.at_end).
    apply (run_ends (H := Example.exampleLib)). vm_compute. reflexivity.
  - apply (@Crawl_never_panics Example.exampleLib OnePage.sc Example.ctx
             OnePage.until_closed OnePage.at_close).
    apply (run_ends (H := Example.exampleLib)). vm_compute. reflexivity.
Defined.

(** The crawl of the one-page site to its end, for
    [Crawl_returns_after_all_work]: the one task handed over has run. *)
Lemma Crawl_returns_after_all_work_witness :
  handed (trace (shared OnePage.at_end)) = 1
  /\ processed (trace (shared OnePage.at_end)) = handed (trace (shared OnePage.at_end)).
Proof.
  split; [vm_compute; reflexivity|].
  apply (@Crawl_returns_after_all_work Example.exampleLib OnePage.sc Example.ctx
           (OnePage.until_closed ++ OnePage.to_the_end) OnePage.at_end None).
  - apply (run_ends (H := Example.exampleLib)). vm_compute. reflexivity.
  - vm_compute. reflexivity.
  - vm_compute. reflexivity.
Defined.

(** ** A crawler is for one crawl *)

Section SealedCode.
Context `{GoLib}.
Variable sc : SiteCrawler.

Lemma sealed_any {A} (p : Prog A) g :
  wp (sealed sc) p g (fun _ _ => True).
Proof.
  revert g. induction p as [a|X o k IH]; intros g; cbn; [exact I|].
  split; [exact I|]. intros x _. apply IH.
Qed.

Lemma sealed_tt {A} (p : Prog A) g :
  wp (sealed sc) p g (fun _ g' => g' = tt).
Proof. eapply wp_mono; [|apply sealed_any]. now intros a []. Qed.

Lemma sealed_FetchPage {A} ctx url (k : result string -> Prog A) Q :
  (forall r, wp (sealed sc) (k r) tt Q) ->
  wp (sealed sc) (bind (FetchPage ctx url) k) tt Q.
Proof.
  intros Hk. unfold FetchPage. destruct (url_Parse (url_String url)); cbn; [|apply Hk].
  split; [exact I|]. intros r _. destruct r as [resp|e]; cbn; [|apply Hk].
  destruct (_ || _); cbn; [apply Hk|]. destruct (Body resp); cbn; apply Hk.
Qed.

Lemma sealed_CrawlFromSiteMap ctx :
  wp (sealed sc) (CrawlFromSiteMap sc ctx) tt
    (fun err _ =>
       err <> None -> is_ok (URL_Parse (BaseURL sc) "/sitemap.xml") = false).
Proof.
  unfold CrawlFromSiteMap. destruct (URL_Parse _ _); [|cbn; intros _; reflexivity].
  apply sealed_FetchPage. intros [siteMap|e]; [|cbn; congruence].
  destruct (ParseSitemapForUrls siteMap); [|cbn; congruence].
  apply wp_bind. eapply wp_mono; [|apply sealed_any].
  intros _ g _. cbn. congruence.
Qed.

(** Where the crawl queue is closed, every way through [Crawl] ends at
    [close(sc.CrawlQueue)], except the return of the error of
    [BaseURL.Parse]. *)
Lemma sealed_Crawl ctx :
  wp (sealed sc) (Crawl sc ctx) tt (fun _ g' => mon_done (sealed sc) g').
Proof.
  unfold Crawl.
  apply wp_bind. eapply wp_mono; [|apply sealed_tt].
  intros _ g ->. apply wp_bind. eapply wp_mono; [|apply sealed_tt].
  intros _ g ->. apply wp_bind. eapply wp_mono; [|apply sealed_CrawlFromSiteMap].
  intros [e|] [] Herr; [apply Herr; discriminate|].
  apply wp_bind. eapply wp_mono; [|apply sealed_tt].
  intros _ g ->. cbn. split; [exact I|]. intros _ _. split; [exact I|].
  intros _ [].
Qed.

Lemma sealed_exec_sound gs tid g X (o : op X) c st x st' :
  sealed_inv gs st -> gs !! tid = Some g -> mon_ok (sealed sc) g o ->
  exec o c st = Stepped x st' ->
  mon_poss (sealed sc) g o x
  /\ sealed_inv (<[tid := mon_next (sealed sc) g o x]> gs
                 ++ replicate (List.length (spawned o)) (mon_idle (sealed sc)))%list st'.
Proof.
  unfold sealed_inv. intros HI _ _ Hexec.
  destruct o as [key|wg delta|wg|q t|q|ctx q|ctx|ctx rawurl|p ctx u page|w];
    try destruct wg; try destruct q; exec_cases Hexec; cbn in *;
    try congruence; split; auto.
Qed.

(** Once the crawl queue of a crawler is closed, no call of [Crawl] on it
    returns, except with the error of [BaseURL.Parse]: under every
    schedule the call stays before its [close(sc.CrawlQueue)], which
    panics.  [Crawl] closes the queue before it returns, so a crawler
    serves one crawl. *)
Theorem Crawl_on_closed_queue_never_returns st0 ts sched cfg :
  closed (crawlQueue st0) = true ->
  is_ok (URL_Parse (BaseURL sc) "/sitemap.xml") = true ->
  Forall (CrawlCall sc) ts ->
  run sc sched (mkConfig ts st0 false) = Some cfg ->
  forall i r, threads cfg !! i <> Some (Run (Ret r)).
Proof.
  intros Hclosed Hparse Hts Hrun i r Hret.
  assert (Hm : Monitored (sealed sc) sealed_inv cfg).
  { eapply (run_monitored sc (sealed sc) sealed_inv); [| | |..|exact Hrun].
    - intros g. apply sealed_tt.
    - intros. eapply sealed_exec_sound; eauto.
    - intros gs st id HI. exact HI.
    - exists (replicate (List.length ts) tt). cbn. split; [|exact Hclosed].
      clear Hrun. induction Hts as [|t ts Ht _ IH]; cbn; constructor; [|exact IH].
      destruct Ht as [ctx|g]; cbn [accepts start]; [apply sealed_Crawl|apply sealed_tt]. }
  destruct Hm as (gs & Hacc & _).
  destruct (Forall2_lookup_l _ _ _ _ _ Hacc Hret) as (g & _ & Hdone).
  cbn in Hdone. congruence.
Qed.
End SealedCode.

(** A second call of [Crawl] after the crawl of the one-page site, for
    [Crawl_on_closed_queue_never_returns]: the base URL is in the ledger,
    [crawlWg.Wait] returns at once, and [close(sc.CrawlQueue)] panics. *)
Lemma Crawl_on_closed_queue_never_returns_witness :
  let st0 := shared OnePage.at_end in
  let ts := [Run (Crawl (H := Example.exampleLib) OnePage.sc Example.ctx)] in
  let sched := [Step 0 Example.quiet; Step 0 Example.quiet; Step 0 Example.notFound;
                Step 0 Example.quiet; Step 0 Example.quiet; Step 0 Example.quiet] in
  let cfg := ends (H := Example.exampleLib) OnePage.sc sched (mkConfig ts st0 false) in
  crashed cfg = true /\ threads cfg !! 0%nat <> Some (Run (Ret None)).
Proof.
  intros st0 ts sched cfg. split; [vm_compute; reflexivity|].
  apply (@Crawl_on_closed_queue_never_returns Example.exampleLib OnePage.sc st0 ts
           sched cfg).
  - vm_compute. reflexivity.
  - vm_compute. reflexivity.
  - repeat constructor.
  - apply (run_ends (H := Example.exampleLib)). vm_compute. reflexivity.
Defined.

(** ** Processors run on fetched pages *)

(** A loop whose turns keep the ghost, each turn knowing its element. *)
Lemma wp_forRange_In {G A} (M : Monitor G) (xs : list A) (body : A -> Prog unit) g :
  (forall x, List.In x xs -> wp M (body x) g (fun _ g' => g' = g)) ->
  wp M (forRange xs body) g (fun _ g' => g' = g).
Proof.
  induction xs as [|x xs IH]; intros Hbody; cbn; [reflexivity|].
  apply wp_bind. eapply wp_mono; [|apply Hbody; now left].
  intros _ g' ->. apply IH. intros y Hy. apply Hbody. now right.
Qed.

Section ProvenanceCode.
Context `{GoLib}.
Variable sc : SiteCrawler.

Lemma prov_AddURLToCrawlQueue ctx url g :
  wp (prov sc) (AddURLToCrawlQueue sc ctx url) g (fun _ g' => g' = g).
Proof. unfold AddURLToCrawlQueue. wp_split. Qed.

Lemma prov_AddURLToPostProcessQueue ctx pageURL page g :
  List.In (url_String pageURL) g ->
  wp (prov sc) (AddURLToPostProcessQueue sc ctx pageURL page) g
    (fun _ g' => g' = g).
Proof.
  intros Hin. unfold AddURLToPostProcessQueue. apply wp_forRange_In.
  intros p Hp. cbn. split; [exact I|]. intros _ _.
  split; [split; assumption|]. intros _ _. reflexivity.
Qed.

Lemma prov_links ctx (f : URL -> URL) links g :
  wp (prov sc)
    (forRange links (fun link =>
       match ResolveAndCleanURL (BaseURL sc) link with
       | Err _ => Ret tt
       | Ok parsed => AddURLToCrawlQueue sc ctx (f parsed)
       end)) g (fun _ g' => g' = g).
Proof.
  apply wp_forRange. intros link.
  destruct (ResolveAndCleanURL (BaseURL sc) link); [|reflexivity].
  apply prov_AddURLToCrawlQueue.
Qed.

(** [CrawlPage] hands a page over only after [client.Do] has answered the
    request of its URL. *)
Lemma prov_CrawlPage ctx url g :
  wp (prov sc) (CrawlPage sc ctx url) g (fun _ _ => True).
Proof.
  unfold CrawlPage. cbn. split; [exact I|]. intros done _.
  destruct done; [exact I|]. unfold FetchPage.
  destruct (url_Parse (url_String url)); cbn; [|exact I].
  split; [exact I|]. intros r _. destruct r as [resp|e]; cbn; [|exact I].
  destruct (_ || _); cbn; [exact I|]. destruct (Body resp) as [page|e]; cbn; [|exact I].
  destruct (ExtractLinks page) as [links|e]; [|exact I].
  apply wp_bind. eapply wp_mono; [|apply (prov_links ctx (fun u => u))].
  intros _ g' ->. eapply wp_mono; [|apply prov_AddURLToPostProcessQueue; now left].
  auto.
Qed.

Lemma prov_CrawlFromSiteMap ctx g :
  wp (prov sc) (CrawlFromSiteMap sc ctx) g (fun _ _ => True).
Proof.
  unfold CrawlFromSiteMap. destruct (URL_Parse _ _) as [siteMapUrl|e]; [|exact I].
  unfold FetchPage.
  destruct (url_Parse (url_String siteMapUrl)); cbn; [|exact I].
  split; [exact I|]. intros r _. destruct r as [resp|e]; cbn; [|exact I].
  destruct (_ || _); cbn; [exact I|].
  destruct (Body resp) as [siteMap|e]; cbn; [|exact I].
  destruct (ParseSitemapForUrls siteMap); [|exact I].
  apply wp_bind.
  eapply wp_mono; [|apply (prov_links ctx (url_ResolveReference (BaseURL sc)))].
  intros _ g' _. exact I.
Qed.

Lemma prov_Crawl ctx g :
  wp (prov sc) (Crawl sc ctx) g (fun _ _ => True).
Proof.
  unfold Crawl, startCrawlWorkers, startPostProcessingWorkers.
  apply wp_bind. eapply wp_mono; [|apply wp_forCount; wp_split].
  intros _ g1 ->. apply wp_bind. eapply wp_mono; [|apply wp_forCount; wp_split].
  intros _ g1 ->. apply wp_bind. eapply wp_mono; [|apply prov_CrawlFromSiteMap].
  intros [e|] g1 _; [exact I|].
  apply wp_bind. eapply wp_mono; [|apply prov_AddURLToCrawlQueue].
  intros _ g2 ->. wp_split.
Qed.

Lemma prov_runTask q t g :
  vouched sc (fun _ => True) q t ->
  wp (prov sc) (runTask sc t)
    (match t with
     | ProcessTask _ _ u _ => [url_String u]
     | CrawlTask _ _ => g
     end)
    (fun _ g' => g' = []).
Proof.
  destruct q, t as [ctx url|ctx p pageURL page]; cbn [vouched runTask];
    try contradiction; intros Hv.
  - apply wp_bind. eapply wp_mono; [|apply prov_CrawlPage].
    intros _ g' _. cbn. split; [exact I|]. intros _ _. reflexivity.
  - cbn. split; [split; [apply Hv|now left]|]. intros _ _.
    split; [exact I|]. intros _ _. reflexivity.
Qed.

Lemma prov_worker g :
  wp (prov sc) (goroutineTurn sc g) [] (fun _ g' => g' = []).
Proof.
  destruct g as [ctx|ctx]; cbn; (split; [exact I|]); intros [|[t|]] Hv; cbn;
    try reflexivity.
  - apply wp_bind. eapply wp_mono.
    2:{ apply (prov_runTask CrawlQueue t [] Hv). }
    intros _ g ->. reflexivity.
  - apply wp_bind. eapply wp_mono.
    2:{ apply (prov_runTask PostProcessQueue t [] Hv). }
    intros _ g ->. reflexivity.
Qed.

Lemma prov_accepts t : CrawlerThread sc t -> accepts (prov sc) t [].
Proof.
  destruct 1 as [ctx|ctx url|ctx url|g]; cbn [accepts start].
  - apply prov_Crawl.
  - apply wp_bind. eapply wp_mono; [|apply prov_AddURLToCrawlQueue].
    intros _ g ->. exact I.
  - apply wp_bind. eapply wp_mono; [|apply prov_CrawlPage].
    intros _ g _. exact I.
  - apply prov_worker.
Qed.
End ProvenanceCode.

Lemma lookup_moved {G} (gs : list G) tid g' n d j x :
  (<[tid := g']> gs ++ replicate n d)%list !! j = Some x ->
  x = g' \/ gs !! j = Some x \/ x = d.
Proof.
  intros Hj. apply lookup_app_Some in Hj as [Hj|[_ Hj]].
  - apply list_lookup_insert_Some in Hj as [(_ & -> & _)|[_ Hj]]; auto.
  - apply lookup_replicate in Hj as [-> _]. auto.
Qed.

Section ProvenanceSound.
Context `{GoLib}.
Variable sc : SiteCrawler.

Lemma vouched_mono (known known' : string -> Prop) q t :
  (forall s, known s -> known' s) ->
  vouched sc known q t -> vouched sc known' q t.
Proof.
  intros Hk. destruct q, t; cbn; auto. intros [Hp Hu]. split; auto.
Qed.

(** A step of goroutine [tid] that records at most one event. *)
Lemma prov_step gs tid g g' n st st' :
  prov_inv sc gs st -> gs !! tid = Some g ->
  (trace st' = trace st
   \/ exists e,
       trace st' = e :: trace st
       /\ forall p u c,
           e = EvProcess p u c ->
           List.In p (postProcessors sc)
           /\ requested_in (trace st) (url_String u)) ->
  (forall s, List.In s g' -> requested_in (trace st') s) ->
  (forall q, Forall (vouched sc (requested_in (trace st')) q) (buf (chan st' q))) ->
  prov_inv sc (<[tid := g']> gs ++ replicate n [])%list st'.
Proof.
  intros [H1 H2 H3] Hg Htr Hg' Hq.
  assert (Hgrow : forall s, requested_in (trace st) s -> requested_in (trace st') s).
  { intros s Hs. destruct Htr as [->|(e & -> & _)]; [exact Hs|now right]. }
  split.
  - intros j x s Hj Hs.
    apply lookup_moved in Hj as [->|[Hj| ->]]; [auto|eauto|destruct Hs].
  - exact Hq.
  - intros tr1 p u c tr2 Hsplit.
    destruct Htr as [Hsame|(e & Hcons & He)]; [rewrite Hsame in Hsplit; eauto|].
    rewrite Hcons in Hsplit. destruct tr1 as [|e1 tr1]; cbn in Hsplit.
    + injection Hsplit as -> <-. eauto.
    + injection Hsplit as _ Hrest. eauto.
Qed.

Lemma prov_exec_sound gs tid g X (o : op X) c st x st' :
  prov_inv sc gs st -> gs !! tid = Some g -> mon_ok (prov sc) g o ->
  exec o c st = Stepped x st' ->
  mon_poss (prov sc) g o x
  /\ prov_inv sc (<[tid := mon_next (prov sc) g o x]> gs
                  ++ replicate (List.length (spawned o)) (mon_idle (prov sc)))%list st'.
Proof.
  intros HI Hg Hok Hexec.
  pose proof (held_requested _ _ _ HI tid g) as Hheld. specialize (Hheld).
  pose proof (queued_requested _ _ _ HI CrawlQueue) as Hqc.
  pose proof (queued_requested _ _ _ HI PostProcessQueue) as Hqp.
  assert (Hhead : True) by exact I. assert (Htail : True) by exact I.
  destruct o as [key|wg delta|wg|q t|q|ctx q|ctx|ctx rawurl|p ctx u page|w];
    try destruct wg; try destruct q; cbn in Hok; exec_cases Hexec.
  all: cbn in Hqc, Hqp;
    try match goal with
        | E : buf _ = _ :: _ |- _ =>
            cbn in E; clear Hhead Htail;
            first [ rewrite E in Hqc; apply Forall_cons in Hqc as [Hhead Htail]
                  | rewrite E in Hqp; apply Forall_cons in Hqp as [Hhead Htail] ]
        end.
  all: split;
    [ first [ exact I | eapply vouched_mono; [|exact Hhead]; auto ]
    | eapply (prov_step gs tid g _ _ st); [exact HI|exact Hg|..] ].
  all: try solve [left; reflexivity].
  all: try solve [right; eexists; split; [reflexivity|]; intros; discriminate].
  all: try solve
    [ right; eexists; split; [reflexivity|];
      intros p0 u0 c0 [= -> -> ->]; split; [apply Hok|apply Hheld; tauto] ].
  all: try solve
    [ intros s Hs; try match goal with t0 : Task |- _ => destruct t0 end;
      cbn in Hs;
      repeat match type of Hs with
             | context [if ?b then _ else _] => destruct b
             | context [match ?r with Ok _ => _ | Err _ => _ end] => destruct r
             end;
      unfold requested_in in *; cbn in *; intuition (subst; eauto) ].
  all: intros [|]; cbn;
    try assumption;
    try apply (queued_requested _ _ _ HI CrawlQueue);
    try apply (queued_requested _ _ _ HI PostProcessQueue);
    try (eapply List.Forall_impl; [|eassumption]; intros ? ?;
         eapply vouched_mono; [|eassumption]; intros ? ?;
         unfold requested_in in *; cbn; tauto).
  all: apply Forall_app; split;
    [ eapply List.Forall_impl; [|eassumption]; intros ? ?;
      eapply vouched_mono; [|eassumption]; intros ? ?;
      unfold requested_in in *; cbn; tauto
    | constructor; [|constructor]; destruct t; cbn in Hok |- *;
      first [ exact I | contradiction
            | split; [apply Hok|right; apply Hheld; [exact Hg|apply Hok]] ] ].
Qed.
End ProvenanceSound.

Section ProvenanceRuns.
Context `{GoLib}.
Variable sc : SiteCrawler.

Lemma prov_cancel_sound gs st id :
  prov_inv sc gs st -> prov_inv sc gs (set_cancelled st ({[id]} ∪ cancelled st)).
Proof. intros [H1 H2 H3]. split; assumption. Qed.

Lemma prov_inv_initial n : prov_inv sc (replicate n []) initialState.
Proof.
  split.
  - intros i g s Hi Hs. apply lookup_replicate in Hi as [-> _]. destruct Hs.
  - intros [|]; constructor.
  - intros [|e tr1] p u c tr2 Htr; discriminate.
Qed.

Lemma prov_accepts_pool ts :
  Forall (CrawlerThread sc) ts ->
  Forall2 (accepts (prov sc)) ts (replicate (List.length ts) []).
Proof.
  induction 1 as [|t ts Ht _ IH]; cbn; constructor; [|exact IH].
  now apply prov_accepts.
Qed.

(** In a program that uses a fresh crawler through [Crawl],
    [AddURLToCrawlQueue], [CrawlPage] and the workers, under every
    schedule and whatever the server answers: each call of a processor is a
    call of a registered processor, on a page whose URL string was
    requested from the client before the call. *)
Theorem processors_run_on_fetched_pages ts sched cfg tr1 p u c tr2 :
  Forall (CrawlerThread sc) ts ->
  run sc sched (mkConfig ts initialState false) = Some cfg ->
  trace (shared cfg) = (tr1 ++ EvProcess p u c :: tr2)%list ->
  List.In p (postProcessors sc) /\ List.In (EvRequest (url_String u)) tr2.
Proof.
  intros Hts Hrun Htr.
  assert (Hm : Monitored (prov sc) (prov_inv sc) cfg).
  { eapply (run_monitored sc (prov sc) (prov_inv sc)); [| | |..|exact Hrun].
    - apply prov_worker.
    - intros. eapply prov_exec_sound; eauto.
    - apply prov_cancel_sound.
    - exists (replicate (List.length ts) []). cbn. split.
      + now apply prov_accepts_pool.
      + apply prov_inv_initial. }
  destruct Hm as (gs & _ & HI).
  exact (processed_requested _ _ _ HI tr1 p u c tr2 Htr).
Qed.
End ProvenanceRuns.

(** The crawl of the one-page site, for [processors_run_on_fetched_pages]:
    its one call of a processor comes after the request of the base page. *)
Lemma processors_run_on_fetched_pages_witness :
  let tr2 := List.tl (trace (shared OnePage.at_end)) in
  trace (shared OnePage.at_end) = EvProcess 0%nat Example.base "hello" :: tr2
  /\ List.In 0%nat (postProcessors OnePage.sc)
  /\ List.In (EvRequest (url_String (GoLib := Example.exampleLib) Example.base)) tr2.
Proof.
  intros tr2. split; [vm_compute; reflexivity|].
  apply (@processors_run_on_fetched_pages Example.exampleLib OnePage.sc
           [Run (Crawl (H := Example.exampleLib) OnePage.sc Example.ctx)]
           (OnePage.until_closed ++ OnePage.to_the_end) OnePage.at_end
           [] 0%nat Example.base "hello" tr2).
  - repeat constructor.
  - apply (run_ends (H := Example.exampleLib)). vm_compute. reflexivity.
  - vm_compute. reflexivity.
Defined.

(** ** No page is fetched twice *)

Section FetchCode.
Context `{GoLib}.
Variable sc : SiteCrawler.

Lemma fetch_AddURLToCrawlQueue ctx url g :
  wp fetch (AddURLToCrawlQueue sc ctx url) g (fun _ g' => g' = g).
Proof. unfold AddURLToCrawlQueue. wp_split. Qed.

Lemma fetch_AddURLToPostProcessQueue ctx pageURL page g :
  wp fetch (AddURLToPostProcessQueue sc ctx pageURL page) g
    (fun _ g' => g' = g).
Proof. unfold AddURLToPostProcessQueue. apply wp_forRange. intros p. wp_split. Qed.

Lemma fetch_links ctx (f : URL -> URL) links g :
  wp fetch
    (forRange links (fun link =>
       match ResolveAndCleanURL (BaseURL sc) link with
       | Err _ => Ret tt
       | Ok parsed => AddURLToCrawlQueue sc ctx (f parsed)
       end)) g (fun _ g' => g' = g).
Proof.
  apply wp_forRange. intros link.
  destruct (ResolveAndCleanURL (BaseURL sc) link); [|reflexivity].
  apply fetch_AddURLToCrawlQueue.
Qed.

(** [CrawlPage] asks the server for the URL of its page, at most once. *)
Lemma fetch_CrawlPage ctx url :
  wp fetch (CrawlPage sc ctx url) (Some (url_String url)) (fun _ _ => True).
Proof.
  unfold CrawlPage. cbn. split; [exact I|]. intros done _.
  destruct done; [exact I|]. unfold FetchPage.
  destruct (url_Parse (url_String url)); cbn; [|exact I].
  split; [reflexivity|]. intros r _. destruct r as [resp|e]; cbn; [|exact I].
  destruct (_ || _); cbn; [exact I|]. destruct (Body resp) as [page|e]; cbn; [|exact I].
  destruct (ExtractLinks page) as [links|e]; [|exact I].
  apply wp_bind. eapply wp_mono; [|apply (fetch_links ctx (fun u => u))].
  intros _ g' ->. eapply wp_mono; [|apply fetch_AddURLToPostProcessQueue].
  auto.
Qed.

Lemma fetch_CrawlFromSiteMap ctx :
  wp fetch (CrawlFromSiteMap sc ctx) (sitemap_request sc) (fun _ _ => True).
Proof.
  unfold CrawlFromSiteMap, sitemap_request.
  destruct (URL_Parse _ _) as [siteMapUrl|e]; [|exact I].
  unfold FetchPage.
  destruct (url_Parse (url_String siteMapUrl)); cbn; [|exact I].
  split; [reflexivity|]. intros r _. destruct r as [resp|e]; cbn; [|exact I].
  destruct (_ || _); cbn; [exact I|].
  destruct (Body resp) as [siteMap|e]; cbn; [|exact I].
  destruct (ParseSitemapForUrls siteMap); [|exact I].
  apply wp_bind.
  eapply wp_mono; [|apply (fetch_links ctx (url_ResolveReference (BaseURL sc)))].
  intros _ g' _. exact I.
Qed.

Lemma fetch_Crawl ctx :
  wp fetch (Crawl sc ctx) (sitemap_request sc) (fun _ _ => True).
Proof.
  unfold Crawl, startCrawlWorkers, startPostProcessingWorkers.
  apply wp_bind. eapply wp_mono; [|apply wp_forCount; wp_split].
  intros _ g1 ->. apply wp_bind. eapply wp_mono; [|apply wp_forCount; wp_split].
  intros _ g1 ->. apply wp_bind. eapply wp_mono; [|apply fetch_CrawlFromSiteMap].
  intros [e|] g1 _; [exact I|].
  apply wp_bind. eapply wp_mono; [|apply fetch_AddURLToCrawlQueue].
  intros _ g2 ->. wp_split.
Qed.

Lemma fetch_runTask q t :
  shaped q t ->
  wp fetch (runTask sc t)
    (match t with
     | CrawlTask _ u => Some (url_String u)
     | ProcessTask _ _ _ _ => None
     end)
    (fun _ g' => g' = None).
Proof.
  intros _. destruct t as [ctx url|ctx p pageURL page]; cbn [runTask].
  - apply wp_bind. eapply wp_mono; [|apply fetch_CrawlPage].
    intros _ g' _. cbn. split; [exact I|]. intros _ _. reflexivity.
  - cbn. split; [exact I|]. intros _ _.
    split; [exact I|]. intros _ _. reflexivity.
Qed.

Lemma fetch_worker g :
  wp fetch (goroutineTurn sc g) None (fun _ g' => g' = None).
Proof.
  destruct g as [ctx|ctx]; cbn; (split; [exact I|]); intros [|[t|]] Hv; cbn;
    try reflexivity.
  - apply wp_bind. eapply wp_mono; [|apply (fetch_runTask CrawlQueue t Hv)].
    intros _ g ->. reflexivity.
  - apply wp_bind. destruct t; [destruct Hv|].
    eapply wp_mono; [|apply (fetch_runTask PostProcessQueue (ProcessTask _ _ _ _) I)].
    intros _ g ->. reflexivity.
Qed.
End FetchCode.

(** *** Counting *)

Section FetchCounts.
Context `{GoLib}.

Lemma times_requested_cons s e tr :
  times_requested s (e :: tr) = (Nat.b2n (asks s e) + times_requested s tr)%nat.
Proof. unfold times_requested. cbn. destruct (asks s e); reflexivity. Qed.

Lemma waiting_cons s t ts :
  waiting s (t :: ts) = (Nat.b2n (carries s t) + waiting s ts)%nat.
Proof. unfold waiting. cbn. destruct (carries s t); reflexivity. Qed.

Lemma waiting_snoc s t ts :
  waiting s (ts ++ [t]) = (waiting s ts + Nat.b2n (carries s t))%nat.
Proof.
  unfold waiting. rewrite List.filter_app, List.length_app. cbn.
  destruct (carries s t); reflexivity.
Qed.

Lemma holders_step s (gs : list (option string)) : forall tid g g' n,
  gs !! tid = Some g ->
  (holders s (<[tid := g']> gs ++ replicate n None) + Nat.b2n (may_ask s g)
   = holders s gs + Nat.b2n (may_ask s g'))%nat.
Proof.
  unfold holders. intros tid g g' n Hg.
  rewrite List.filter_app, List.length_app.
  assert (Hn : List.filter (may_ask s) (replicate n None) = []).
  { induction n as [|n IH]; cbn; [reflexivity|exact IH]. }
  rewrite Hn. cbn [List.length]. rewrite Nat.add_0_r.
  revert tid Hg. induction gs as [|x gs IH]; intros [|tid] Hg; cbn in Hg;
    try discriminate.
  - injection Hg as ->. cbn. destruct (may_ask s g), (may_ask s g'); cbn; lia.
  - cbn. specialize (IH tid Hg). destruct (may_ask s x); cbn; [f_equal|]; exact IH.
Qed.
End FetchCounts.

Arguments holders : simpl never.
Arguments waiting : simpl never.
Arguments times_requested : simpl never.
Arguments enqueued : simpl never.

Ltac fetch_count :=
  rewrite ?times_requested_cons, ?enqueued_cons, ?waiting_cons, ?waiting_snoc in *;
  repeat (cbn [asks enqueues_key carries may_ask Nat.b2n] in *;
          match goal with
          | |- context [String.eqb ?a ?b] => destruct (String.eqb a b)
          | _ : context [String.eqb ?a ?b] |- _ => destruct (String.eqb a b)
          | |- context [if (?a <? ?b)%Z then _ else _] => destruct (a <? b)%Z
          | _ : context [if (?a <? ?b)%Z then _ else _] |- _ => destruct (a <? b)%Z
          | |- context [may_ask ?s ?g] => destruct (may_ask s g)
          | _ : context [may_ask ?s ?g] |- _ => destruct (may_ask s g)
          end);
  cbn [asks enqueues_key carries may_ask Nat.b2n] in *; try lia.

Section FetchSound.
Context `{GoLib}.
Variable sc : SiteCrawler.

Lemma fetch_exec_sound gs tid g X (o : op X) c st x st' :
  fetch_inv sc gs st -> gs !! tid = Some g -> mon_ok fetch g o ->
  exec o c st = Stepped x st' ->
  mon_poss fetch g o x
  /\ fetch_inv sc (<[tid := mon_next fetch g o x]> gs
                   ++ replicate (List.length (spawned o)) (mon_idle fetch))%list st'.
Proof.
  intros HI Hg Hok Hexec.
  pose proof (fetch_shaped _ _ _ HI CrawlQueue) as Hqc.
  pose proof (fetch_shaped _ _ _ HI PostProcessQueue) as Hqp.
  assert (Hhead : True) by exact I. assert (Htail : True) by exact I.
  destruct o as [key|wg delta|wg|q t|q|ctx q|ctx|ctx rawurl|p ctx u page|w];
    try destruct wg; try destruct q; cbn in Hok; exec_cases Hexec.
  all: cbn in Hqc, Hqp;
    try match goal with
        | E : buf _ = _ :: _ |- _ =>
            cbn in E; clear Hhead Htail;
            first [ rewrite E in Hqc; apply Forall_cons in Hqc as [Hhead Htail]
                  | rewrite E in Hqp; apply Forall_cons in Hqp as [Hhead Htail] ]
        end.
  all: split; [first [exact I|exact Hhead]|split].
  all: try solve
    [ intros [|]; cbn;
      first [ assumption
            | apply (fetch_shaped _ _ _ HI CrawlQueue)
            | apply (fetch_shaped _ _ _ HI PostProcessQueue)
            | apply Forall_app; split; [assumption|repeat constructor; assumption] ] ].
  all: intros s; pose proof (fetch_budget _ _ _ HI s) as Hb; cbn in Hb |- *;
    match goal with
    | |- context [holders s (<[_ := ?g']> _ ++ ?r)%list] =>
        pose proof (holders_step s gs tid g g' (List.length r) Hg) as Hh;
        cbn in Hh
    end;
    repeat match goal with
           | E : buf _ = _ :: _ |- _ =>
               progress (try rewrite E in Hb; try rewrite E)
           | t0 : Task |- _ => destruct t0; try contradiction
           end;
    try subst g; fetch_count.
Qed.
End FetchSound.

Section FetchRuns.
Context `{GoLib}.
Variable sc : SiteCrawler.

Lemma fetch_cancel_sound gs st id :
  fetch_inv sc gs st -> fetch_inv sc gs (set_cancelled st ({[id]} ∪ cancelled st)).
Proof. intros [H1 H2]. split; assumption. Qed.

Lemma fetch_inv_initial : fetch_inv sc [sitemap_request sc] initialState.
Proof.
  split.
  - intros s. unfold holders, times_requested, waiting, enqueued. cbn.
    destruct (may_ask s (sitemap_request sc)); cbn; lia.
  - intros [|]; constructor.
Qed.

Lemma fetch_monitored ctx sched cfg :
  run sc sched (mkConfig [Run (Crawl sc ctx)] initialState false) = Some cfg ->
  Monitored fetch (fetch_inv sc) cfg.
Proof.
  intros Hrun.
  eapply (run_monitored sc fetch (fetch_inv sc)); [| | |..|exact Hrun].
  - apply fetch_worker.
  - intros. eapply fetch_exec_sound; eauto.
  - apply fetch_cancel_sound.
  - exists [sitemap_request sc]. cbn. split.
    + repeat constructor. apply fetch_Crawl.
    + apply fetch_inv_initial.
Qed.

(** In a call of [Crawl] on a fresh crawler, under every schedule and
    whatever the server answers, no page is fetched twice: the requests
    for a URL string are at most the crawl tasks enqueued for it, plus the
    one request of [CrawlFromSiteMap] if it is the string of the sitemap
    URL; so a URL string is requested at most once, and that of the
    sitemap at most twice. *)
Theorem no_page_fetched_twice ctx sched cfg s :
  run sc sched (mkConfig [Run (Crawl sc ctx)] initialState false) = Some cfg ->
  (times_requested s (trace (shared cfg))
   <= enqueued s (trace (shared cfg)) + Nat.b2n (may_ask s (sitemap_request sc)))%nat
  /\ (times_requested s (trace (shared cfg))
      <= if may_ask s (sitemap_request sc) then 2 else 1)%nat.
Proof.
  intros Hrun.
  destruct (fetch_monitored ctx sched cfg Hrun) as (gs & _ & HI).
  assert (Hts : Forall (CrawlerThread sc) [Run (Crawl sc ctx)])
    by (repeat constructor).
  destruct (ledger_monitored sc _ sched cfg Hts Hrun) as (gs' & _ & HI').
  pose proof (fetch_budget _ _ _ HI s) as Hb.
  pose proof (sent_once _ _ HI' s) as Hone.
  split; [lia|]. destruct (may_ask s (sitemap_request sc)); cbn in Hb; lia.
Qed.
End FetchRuns.

(** The crawl of the one-page site, for [no_page_fetched_twice]: the base
    page was requested once. *)
Lemma no_page_fetched_twice_witness :
  let tr := trace (shared OnePage.at_end) in
  times_requested "https://example.com" tr = 1%nat
  /\ (times_requested "https://example.com" tr
      <= enqueued (H := Example.exampleLib) "https://example.com" tr
         + Nat.b2n (may_ask "https://example.com"
                      (sitemap_request (H := Example.exampleLib) OnePage.sc)))%nat.
Proof.
  intros tr. split; [vm_compute; reflexivity|].
  apply (@no_page_fetched_twice Example.exampleLib OnePage.sc Example.ctx
           (OnePage.until_closed ++ OnePage.to_the_end) OnePage.at_end
           "https://example.com").
  apply (run_ends (H := Example.exampleLib)). vm_compute. reflexivity.
Defined.

(** ** The processor of [main] *)

Lemma int64_add a b :
  URLLogging.int64 (URLLogging.int64 a + b) = URLLogging.int64 (a + b).
Proof.
  unfold URLLogging.int64.
  replace ((a + 2 ^ 63) mod 2 ^ 64 - 2 ^ 63 + b + 2 ^ 63)
    with ((a + 2 ^ 63) mod 2 ^ 64 + b) by lia.
  rewrite Zplus_mod_idemp_l. do 2 f_equal. lia.
Qed.

Lemma run_counters ops : forall s p l,
  URLLogging.PagesProcessed s = URLLogging.int64 p ->
  URLLogging.LinksFound s = URLLogging.int64 l ->
  URLLogging.PagesProcessed (URLLogging.run ops s)
  = URLLogging.int64 (p + URLLogging.pages_added ops)
  /\ URLLogging.LinksFound (URLLogging.run ops s)
     = URLLogging.int64 (l + URLLogging.links_added ops).
Proof.
  induction ops as [|o ops IH]; intros s p l Hp Hl.
  - cbn. rewrite !Z.add_0_r. split; assumption.
  - change (URLLogging.run (o :: ops) s)
      with (URLLogging.run ops (URLLogging.atomically s o)).
    destruct o as [key value|d|d].
    + apply (IH _ p l); assumption.
    + change (URLLogging.pages_added (URLLogging.PagesProcessed_Add d :: ops))
        with (d + URLLogging.pages_added ops).
      rewrite Z.add_assoc.
      apply (IH _ (p + d) l); cbn; [|assumption]. rewrite Hp. apply int64_add.
    + change (URLLogging.links_added (URLLogging.LinksFound_Add d :: ops))
        with (d + URLLogging.links_added ops).
      rewrite Z.add_assoc.
      apply (IH _ p (l + d)); cbn; [assumption|]. rewrite Hl. apply int64_add.
Qed.

Lemma concat_take_one (pending : list (list URLLogging.Atomic)) : forall i o rest,
  pending !! i = Some (o :: rest) ->
  List.concat pending ≡ₚ o :: List.concat (<[i := rest]> pending).
Proof.
  induction pending as [|x pending IH]; intros [|i] o rest Hi; cbn in Hi;
    try discriminate.
  - injection Hi as ->. reflexivity.
  - cbn. rewrite (IH i o rest Hi). symmetry. apply Permutation_middle.
Qed.

(** The operations that run are those of the calls, in some order. *)
Lemma interleaves_Permutation pending ops :
  URLLogging.interleaves pending ops -> ops ≡ₚ List.concat pending.
Proof.
  induction 1 as [pending Hall|pending i o rest ops Hi _ IH].
  - induction Hall as [|x pending -> _ IH]; [reflexivity|exact IH].
  - rewrite (concat_take_one pending i o rest Hi). now constructor.
Qed.

Lemma pages_added_Permutation ops ops' :
  ops ≡ₚ ops' -> URLLogging.pages_added ops = URLLogging.pages_added ops'.
Proof.
  unfold URLLogging.pages_added.
  induction 1 as [|o ops ops' _ IH|o o' ops|ops ops1 ops2 _ IH1 _ IH2]; cbn.
  - reflexivity.
  - destruct o; cbn; rewrite ?IH; reflexivity.
  - destruct o, o'; cbn; lia.
  - congruence.
Qed.

Lemma links_added_Permutation ops ops' :
  ops ≡ₚ ops' -> URLLogging.links_added ops = URLLogging.links_added ops'.
Proof.
  unfold URLLogging.links_added.
  induction 1 as [|o ops ops' _ IH|o o' ops|ops ops1 ops2 _ IH1 _ IH2]; cbn.
  - reflexivity.
  - destruct o; cbn; rewrite ?IH; reflexivity.
  - destruct o, o'; cbn; lia.
  - congruence.
Qed.

Lemma run_lookup ops k : forall s,
  match URLLogging.URLsCrawled (URLLogging.run ops s) !! k with
  | Some v =>
      URLLogging.URLsCrawled s !! k = Some v
      \/ List.In (URLLogging.URLsCrawled_Store k v) ops
  | None =>
      URLLogging.URLsCrawled s !! k = None
      /\ forall v, ~ List.In (URLLogging.URLsCrawled_Store k v) ops
  end.
Proof.
  induction ops as [|o ops IH]; intros s.
  - cbn. destruct (URLLogging.URLsCrawled s !! k); [now left|].
    split; [reflexivity|tauto].
  - change (URLLogging.run (o :: ops) s)
      with (URLLogging.run ops (URLLogging.atomically s o)).
    specialize (IH (URLLogging.atomically s o)).
    destruct (URLLogging.URLsCrawled (URLLogging.run ops (URLLogging.atomically s o)) !! k)
      as [v|].
    + destruct IH as [Hs|Hin]; [|right; now right].
      destruct o as [key value|d|d]; cbn in Hs; try (left; exact Hs).
      destruct (decide (key = k)) as [->|Hne].
      * rewrite lookup_insert_eq in Hs. injection Hs as ->. right. now left.
      * rewrite lookup_insert_ne in Hs by exact Hne. left. exact Hs.
    + destruct IH as [Hs Hnone].
      destruct o as [key value|d|d]; cbn in Hs.
      * destruct (decide (key = k)) as [->|Hne].
        -- rewrite lookup_insert_eq in Hs. discriminate.
        -- rewrite lookup_insert_ne in Hs by exact Hne. split; [exact Hs|].
           intros v [[= Hk _]|Hin]; [congruence|]. now apply (Hnone v).
      * split; [exact Hs|]. intros v [Hd|Hin]; [discriminate|]. now apply (Hnone v).
      * split; [exact Hs|]. intros v [Hd|Hin]; [discriminate|]. now apply (Hnone v).
Qed.

Lemma pages_added_app ops ops' :
  URLLogging.pages_added (ops ++ ops')
  = URLLogging.pages_added ops + URLLogging.pages_added ops'.
Proof.
  unfold URLLogging.pages_added. induction ops as [|o ops IH]; cbn; [reflexivity|].
  rewrite IH. destruct o; lia.
Qed.

Lemma links_added_app ops ops' :
  URLLogging.links_added (ops ++ ops')
  = URLLogging.links_added ops + URLLogging.links_added ops'.
Proof.
  unfold URLLogging.links_added. induction ops as [|o ops IH]; cbn; [reflexivity|].
  rewrite IH. destruct o; lia.
Qed.

Section ProcessorCalls.
Context `{GoLib}.

Lemma calls_ops_cons call calls :
  List.concat (URLLogging.calls_ops (call :: calls))
  = (fst (URLLogging.Process (fst call) (snd call))
     ++ List.concat (URLLogging.calls_ops calls))%list.
Proof. reflexivity. Qed.

Lemma pages_added_calls calls :
  URLLogging.pages_added (List.concat (URLLogging.calls_ops calls))
  = Z.of_nat (List.length (List.filter URLLogging.parses calls)).
Proof.
  induction calls as [|[u c] calls IH]; [reflexivity|].
  rewrite calls_ops_cons, pages_added_app, IH.
  unfold URLLogging.Process. cbn [List.filter fst snd]. unfold URLLogging.parses at 2.
  cbn [snd]. destruct (ExtractLinks c) as [urls|e]; cbn; lia.
Qed.

Lemma links_added_calls calls :
  URLLogging.links_added (List.concat (URLLogging.calls_ops calls))
  = Z.of_nat (List.length (List.concat (List.map URLLogging.links_of calls))).
Proof.
  induction calls as [|[u c] calls IH]; [reflexivity|].
  rewrite calls_ops_cons, links_added_app, IH.
  unfold URLLogging.Process. cbn [List.map List.concat fst snd].
  rewrite List.length_app. unfold URLLogging.links_of at 2. cbn [snd].
  destruct (ExtractLinks c) as [urls|e]; cbn; lia.
Qed.

Lemma stored_by_call calls k v :
  List.In (URLLogging.URLsCrawled_Store k v) (List.concat (URLLogging.calls_ops calls))
  <-> exists call,
       List.In call calls /\ url_String (fst call) = k
       /\ ExtractLinks (snd call) = Ok v.
Proof.
  unfold URLLogging.calls_ops. rewrite List.in_concat. split.
  - intros (ops & Hops & Hin). apply List.in_map_iff in Hops as (call & <- & Hcall).
    exists call. split; [exact Hcall|]. unfold URLLogging.Process in Hin.
    destruct (ExtractLinks (snd call)) as [urls|e]; cbn in Hin; [|destruct Hin].
    destruct Hin as [[= <- <-]|[Hd|[Hd|[]]]]; try discriminate. split; reflexivity.
  - intros (call & Hcall & Hk & Hv).
    exists (fst (URLLogging.Process (fst call) (snd call))). split.
    + apply List.in_map_iff. exists call. split; [reflexivity|exact Hcall].
    + unfold URLLogging.Process. rewrite Hv, Hk. now left.
Qed.

(** However the goroutines interleave the operations of their calls of
    [Process], the counters of the processor of [main] end at the number
    of pages whose HTML parsed and at the number of links found on them, as
    [int64] values. *)
Theorem Process_counts calls ops :
  URLLogging.interleaves (URLLogging.calls_ops calls) ops ->
  URLLogging.PagesProcessed (URLLogging.run ops URLLogging.zero)
  = URLLogging.int64 (Z.of_nat (List.length (List.filter URLLogging.parses calls)))
  /\ URLLogging.LinksFound (URLLogging.run ops URLLogging.zero)
     = URLLogging.int64
         (Z.of_nat (List.length (List.concat (List.map URLLogging.links_of calls)))).
Proof.
  intros Hil. apply interleaves_Permutation in Hil.
  destruct (run_counters ops URLLogging.zero 0 0 eq_refl eq_refl) as [Hp Hl].
  rewrite Hp, Hl, (pages_added_Permutation _ _ Hil), (links_added_Permutation _ _ Hil).
  rewrite pages_added_calls, links_added_calls. split; reflexivity.
Qed.

(** However the calls interleave, what [URLsCrawled] holds for a URL string
    is the list of links of one of the calls for a page of that URL string
    whose HTML parsed; it holds nothing for it only if there was no such
    call. *)
Theorem Process_stores calls ops k :
  URLLogging.interleaves (URLLogging.calls_ops calls) ops ->
  match URLLogging.URLsCrawled (URLLogging.run ops URLLogging.zero) !! k with
  | Some v =>
      exists call,
        List.In call calls /\ url_String (fst call) = k
        /\ ExtractLinks (snd call) = Ok v
  | None =>
      forall call,
        List.In call calls -> url_String (fst call) = k ->
        URLLogging.parses call = false
  end.
Proof.
  intros Hil. apply interleaves_Permutation in Hil.
  pose proof (run_lookup ops k URLLogging.zero) as Hrun.
  destruct (URLLogging.URLsCrawled (URLLogging.run ops URLLogging.zero) !! k) as [v|].
  - destruct Hrun as [Hz|Hin]; [cbn in Hz; rewrite lookup_empty in Hz; discriminate|].
    apply stored_by_call. now rewrite <- Hil.
  - destruct Hrun as [_ Hnone]. intros call Hcall Hk.
    unfold URLLogging.parses. destruct (ExtractLinks (snd call)) as [v|e] eqn:Hv;
      [|reflexivity].
    exfalso. apply (Hnone v). rewrite Hil.
    apply stored_by_call. exists call. auto.
Qed.
End ProcessorCalls.

(** Two calls of [Process], on the base page with its link and on a page of
    text, whose operations alternate. *)
Lemma two_calls_interleaved :
  URLLogging.interleaves
    (URLLogging.calls_ops (H := Example.exampleLib)
       [(Example.base, Example.html_link); (Example.at_path "/about", "hello")])
    [ URLLogging.URLsCrawled_Store "https://example.com" ["/about"];
      URLLogging.URLsCrawled_Store "https://example.com/about" [];
      URLLogging.PagesProcessed_Add 1;
      URLLogging.PagesProcessed_Add 1;
      URLLogging.LinksFound_Add 0;
      URLLogging.LinksFound_Add 1 ].
Proof.
  eapply (URLLogging.interleaves_next _ 0%nat); [reflexivity|].
  eapply (URLLogging.interleaves_next _ 1%nat); [reflexivity|].
  eapply (URLLogging.interleaves_next _ 0%nat); [reflexivity|].
  eapply (URLLogging.interleaves_next _ 1%nat); [reflexivity|].
  eapply (URLLogging.interleaves_next _ 1%nat); [reflexivity|].
  eapply (URLLogging.interleaves_next _ 0%nat); [reflexivity|].
  apply URLLogging.interleaves_done. repeat constructor.
Defined.

(** Two interleaved calls, for [Process_counts]: two pages, one link. *)
Lemma Process_counts_witness :
  let ops :=
    [ URLLogging.URLsCrawled_Store "https://example.com" ["/about"];
      URLLogging.URLsCrawled_Store "https://example.com/about" [];
      URLLogging.PagesProcessed_Add 1;
      URLLogging.PagesProcessed_Add 1;
      URLLogging.LinksFound_Add 0;
      URLLogging.LinksFound_Add 1 ] in
  URLLogging.PagesProcessed (URLLogging.run ops URLLogging.zero) = 2
  /\ URLLogging.LinksFound (URLLogging.run ops URLLogging.zero) = 1.
Proof.
  intros ops.
  destruct (@Process_counts Example.exampleLib
              [(Example.base, Example.html_link); (Example.at_path "/about", "hello")]
              ops two_calls_interleaved) as [Hp Hl].
  split; [rewrite Hp|rewrite Hl]; vm_compute; reflexivity.
Defined.

(** The same two calls, for [Process_stores]: the entry of the base page is
    its one link. *)
Lemma Process_stores_witness :
  let calls := [(Example.base, Example.html_link); (Example.at_path "/about", "hello")] in
  exists call,
    List.In call calls
    /\ url_String (GoLib := Example.exampleLib) (fst call) = "https://example.com"
    /\ ExtractLinks (H := Example.exampleLib) (snd call) = Ok ["/about"].
Proof.
  intros calls.
  pose proof (@Process_stores Example.exampleLib calls _ "https://example.com"
                two_calls_interleaved) as Hst.
  assert (Hlk : URLLogging.URLsCrawled
                  (URLLogging.run
                     [ URLLogging.URLsCrawled_Store "https://example.com" ["/about"];
                       URLLogging.URLsCrawled_Store "https://example.com/about" [];
                       URLLogging.PagesProcessed_Add 1;
                       URLLogging.PagesProcessed_Add 1;
                       URLLogging.LinksFound_Add 0;
                       URLLogging.LinksFound_Add 1 ] URLLogging.zero)
                !! "https://example.com" = Some ["/about"])
    by (vm_compute; reflexivity).
  rewrite Hlk in Hst. exact Hst.
Defined.

(** ** A crawl without workers *)

(** A loop whose turns keep [P] of the ghost keeps it. *)
Lemma wp_forRange_keeps {G A} (M : Monitor G) (P : G -> Prop) (xs : list A)
  (body : A -> Prog unit) :
  (forall x g, P g -> wp M (body x) g (fun _ g' => P g')) ->
  forall g, P g -> wp M (forRange xs body) g (fun _ g' => P g').
Proof.
  intros Hbody. induction xs as [|x xs IH]; intros g Hg; cbn; [exact Hg|].
  apply wp_bind. eapply wp_mono; [|apply Hbody, Hg]. intros ? g'. apply IH.
Qed.

Section StarvedCode.
Context `{GoLib}.
Variable sc : SiteCrawler.

Lemma starved_spawned {A} (p : Prog A) :
  wp (starved sc) p Spawned (fun _ g' => g' = Spawned).
Proof.
  induction p as [a|X o k IH]; cbn; [reflexivity|]. split.
  - destruct o; cbn; auto. destruct wg; auto.
  - intros x _. replace (starved_next Spawned o x) with Spawned; [apply IH|].
    destruct o; try reflexivity. destruct wg; reflexivity.
Qed.

(** An admission leaves the caller calm, and seeded if the URL passed the
    robots and host checks. *)
Lemma starved_AddURLToCrawlQueue ctx url g :
  calm g ->
  wp (starved sc) (AddURLToCrawlQueue sc ctx url) g
    (fun _ g' =>
       calm g'
       /\ (IsAllowed (RobotsChecker_ sc) (url_String url) (UserAgent sc) = true ->
           Host url = Host (BaseURL sc) -> g' = Seeded)).
Proof.
  intros Hg. unfold AddURLToCrawlQueue.
  destruct (IsAllowed _ _ _); cbn; [|split; [exact Hg|discriminate]].
  destruct (String.eqb (Host url) (Host (BaseURL sc))) eqn:Hhost; cbn.
  2:{ split; [exact Hg|]. intros _ Heq. apply String.eqb_neq in Hhost. contradiction. }
  split; [exact I|]. intros loaded Hfresh. destruct loaded.
  - destruct Hg as [->| ->]; [specialize (Hfresh eq_refl); discriminate|].
    cbn. split; [now right|reflexivity].
  - assert (Hnext : match g with Spawned => Spawned | _ => Storing end = Storing)
      by (destruct Hg as [->| ->]; reflexivity).
    rewrite Hnext. cbn. split; [right; lia|]. intros _ _.
    split; [exact I|]. intros _ _. split; [now right|reflexivity].
Qed.

Lemma starved_links ctx (f : URL -> URL) links g :
  calm g ->
  wp (starved sc)
    (forRange links (fun link =>
       match ResolveAndCleanURL (BaseURL sc) link with
       | Err _ => Ret tt
       | Ok parsed => AddURLToCrawlQueue sc ctx (f parsed)
       end)) g (fun _ g' => calm g').
Proof.
  apply (wp_forRange_keeps (starved sc) calm). intros link g0 Hg0.
  destruct (ResolveAndCleanURL (BaseURL sc) link); [|exact Hg0].
  eapply wp_mono; [|apply starved_AddURLToCrawlQueue, Hg0]. now intros ? g' [Hc _].
Qed.

Lemma starved_CrawlFromSiteMap ctx g :
  calm g ->
  wp (starved sc) (CrawlFromSiteMap sc ctx) g
    (fun err g' =>
       calm g'
       /\ (err <> None -> is_ok (URL_Parse (BaseURL sc) "/sitemap.xml") = false)).
Proof.
  intros Hg. unfold CrawlFromSiteMap.
  destruct (URL_Parse _ _) as [siteMapUrl|e]; [|cbn; split; [exact Hg|reflexivity]].
  unfold FetchPage.
  destruct (url_Parse (url_String siteMapUrl)); cbn;
    [|split; [exact Hg|congruence]].
  split; [exact I|]. intros r _.
  destruct r as [resp|e]; cbn; [|split; [exact Hg|congruence]].
  destruct (_ || _); cbn; [split; [exact Hg|congruence]|].
  destruct (Body resp) as [siteMap|e]; cbn; [|split; [exact Hg|congruence]].
  destruct (ParseSitemapForUrls siteMap); [|cbn; split; [exact Hg|congruence]].
  apply wp_bind.
  eapply wp_mono;
    [|apply (starved_links ctx (url_ResolveReference (BaseURL sc))), Hg].
  intros ? g' Hg'. cbn. split; [exact Hg'|congruence].
Qed.

(** Without workers, and with the base URL allowed, every way through
    [Crawl] ends at [crawlWg.Wait()] with the counter above zero, except
    the return of the error of [BaseURL.Parse]. *)
Lemma starved_Crawl ctx :
  WorkerPoolSize sc <= 0 ->
  IsAllowed (RobotsChecker_ sc) (url_String (BaseURL sc)) (UserAgent sc) = true ->
  wp (starved sc) (Crawl sc ctx) Unseeded (fun _ g' => mon_done (starved sc) g').
Proof.
  intros Hpool Hallowed.
  unfold Crawl, startCrawlWorkers, startPostProcessingWorkers.
  rewrite (Z2Nat.nonpos (WorkerPoolSize sc)) by exact Hpool. cbn [forCount bind].
  apply wp_bind.
  eapply wp_mono; [|apply starved_CrawlFromSiteMap; now left].
  intros [e|] g1 [Hg1 Herr]; [apply Herr; discriminate|].
  apply wp_bind. eapply wp_mono; [|apply starved_AddURLToCrawlQueue, Hg1].
  intros ? g2 [_ Hseeded]. rewrite (Hseeded Hallowed eq_refl).
  cbn. split; [exact I|]. intros _ Hwait. now destruct Hwait.
Qed.

Lemma starved_exec_sound gs tid g X (o : op X) c st x st' :
  starved_inv gs st -> gs !! tid = Some g -> mon_ok (starved sc) g o ->
  exec o c st = Stepped x st' ->
  mon_poss (starved sc) g o x
  /\ starved_inv (<[tid := mon_next (starved sc) g o x]> gs
                  ++ replicate (List.length (spawned o)) (mon_idle (starved sc)))%list st'.
Proof.
  intros (g0 & -> & Hns & Hpos & Hun & Hse) Hg Hok Hexec.
  destruct tid as [|tid]; [|destruct tid; discriminate].
  injection Hg as ->.
  destruct o as [key|wg delta|wg|q t|q|ctx q|ctx|ctx rawurl|p ctx u page|w];
    try destruct wg; try destruct q; cbn in Hok; exec_cases Hexec; drain_facts.
  all: try (destruct Hok as [Hok|Hok]; [contradiction|]).
  all: try contradiction.
  all: split;
    [ cbn; try exact I
    | eexists; cbn; split; [reflexivity|];
      destruct g; try contradiction; cbn; repeat split;
      try discriminate; try lia; try assumption; auto ].
  - intros ->. apply bool_decide_eq_true in Heqb.
    rewrite (Hun eq_refl) in Heqb. set_solver.
  - reflexivity.
  - intros ->. specialize (Hse eq_refl). lia.
Qed.

(** With [WorkerPoolSize <= 0], a call of [Crawl] on a fresh crawler whose
    base URL passes the robots check never returns, except with the error
    of [BaseURL.Parse]: no goroutine was started that would take the task of
    the base URL and call [Done], so under every schedule the caller stays
    before or at [crawlWg.Wait()]. *)
Theorem Crawl_without_workers_never_returns ctx sched cfg :
  WorkerPoolSize sc <= 0 ->
  IsAllowed (RobotsChecker_ sc) (url_String (BaseURL sc)) (UserAgent sc) = true ->
  is_ok (URL_Parse (BaseURL sc) "/sitemap.xml") = true ->
  run sc sched (mkConfig [Run (Crawl sc ctx)] initialState false) = Some cfg ->
  forall r, threads cfg !! 0%nat <> Some (Run (Ret r)).
Proof.
  intros Hpool Hallowed Hparse Hrun r Hret.
  assert (Hm : Monitored (starved sc) starved_inv cfg).
  { eapply (run_monitored sc (starved sc) starved_inv); [| | |..|exact Hrun].
    - intros g. apply starved_spawned.
    - intros. eapply starved_exec_sound; eauto.
    - intros gs st id HI. exact HI.
    - exists [Unseeded]. cbn. split.
      + repeat constructor. now apply starved_Crawl.
      + exists Unseeded. repeat split; try discriminate; try reflexivity. }
  destruct Hm as (gs & Hacc & _).
  destruct (Forall2_lookup_l _ _ _ _ _ Hacc Hret) as (g & _ & Hdone).
  cbn in Hdone. congruence.
Qed.
End StarvedCode.

(** The example crawler built with [workerPoolSize = 0], for
    [Crawl_without_workers_never_returns]: after the sitemap request and the
    admission of the base URL the counter is at one and the caller is at
    [crawlWg.Wait()]. *)
Lemma Crawl_without_workers_never_returns_witness :
  let sc :=
    mkSiteCrawler (mkRobotsChecker Example.policy_private) Example.base 1000
      "Crawler" 0 [0%nat] in
  let sched := [Step 0 Example.notFound; Step 0 Example.quiet; Step 0 Example.quiet;
                Step 0 Example.quiet] in
  let cfg :=
    ends (H := Example.exampleLib) sc sched
      (mkConfig [Run (Crawl (H := Example.exampleLib) sc Example.ctx)]
         initialState false) in
  crawlWgCount (shared cfg) = 1
  /\ List.length (threads cfg) = 1%nat
  /\ threads cfg !! 0%nat <> Some (Run (Ret None)).
Proof.
  intros sc sched cfg. split; [vm_compute; reflexivity|].
  split; [vm_compute; reflexivity|].
  apply (@Crawl_without_workers_never_returns Example.exampleLib sc Example.ctx
           sched cfg).
  - vm_compute. discriminate.
  - vm_compute. reflexivity.
  - vm_compute. reflexivity.
  - apply (run_ends (H := Example.exampleLib)). vm_compute. reflexivity.
Defined.

(** ** The paths [path.Clean] returns *)

Lemma Join_cons e es :
  Join_bytes (e :: es)
  = (e ++ match es with [] => [] | _ => slash :: Join_bytes es end)%list.
Proof. destruct es; cbn [Join_bytes]; [now rewrite app_nil_r|reflexivity]. Qed.

Lemma named_nonempty es : Forall named es -> Forall (fun e : bytes => e <> []) es.
Proof. apply List.Forall_impl. now intros e [He _]. Qed.

Lemma dotdots_nonempty k :
  Forall (fun e : bytes => e <> []) (replicate k [dot; dot]).
Proof. induction k; cbn; constructor; [discriminate|assumption]. Qed.

Lemma Join_nonempty es :
  Forall (fun e : bytes => e <> []) es -> es <> [] -> Join_bytes es <> [].
Proof.
  intros Hall Hne. destruct es as [|e es]; [congruence|]. rewrite Join_cons.
  inversion Hall; subst. destruct e; [congruence|discriminate].
Qed.

Lemma Join_grows e es :
  e <> [] -> (List.length (Join_bytes es) < List.length (Join_bytes (e :: es)))%nat.
Proof.
  intros He. rewrite Join_cons, List.length_app. destruct e; [congruence|].
  destruct es as [|b es]; cbn [List.length]; [cbn; lia|lia].
Qed.

Lemma Join_app_grows es base :
  Forall (fun e : bytes => e <> []) es ->
  (List.length (Join_bytes base) <= List.length (Join_bytes (es ++ base)))%nat
  /\ (es <> [] ->
      (List.length (Join_bytes base) < List.length (Join_bytes (es ++ base)))%nat).
Proof.
  induction 1 as [|e es He _ IH]; cbn [app].
  - split; [lia|congruence].
  - pose proof (Join_grows e (es ++ base) He) as Hlt. destruct IH as [Hle _].
    split; [apply Nat.lt_le_incl|intros _];
      (eapply Nat.le_lt_trans; [exact Hle|exact Hlt]).
Qed.

(** The [..] case on a buffer that ends with an element [last :: e'] after
    [T]: the element goes, and the separator before it unless the buffer
    is down to [dotdot]. *)
Lemma Clean_backtrack_element dotdot T :
  (dotdot <= List.length T)%nat ->
  ((dotdot < List.length T)%nat -> exists T', T = slash :: T') ->
  forall e' last,
    Forall (fun c => is_slash c = false) (last :: e') ->
    Clean_backtrack (e' ++ T)%list last dotdot
    = if (dotdot <? List.length T)%nat then List.tl T else T.
Proof.
  intros Hle Hhd. induction e' as [|c e' IH]; intros last Hall.
  - cbn [app]. inversion Hall as [|? ? Hlast _]; subst.
    destruct T as [|c T']; [reflexivity|]. cbn [Clean_backtrack].
    rewrite Hlast. cbn [negb]. rewrite andb_true_r.
    destruct (dotdot <? List.length (c :: T'))%nat eqn:Hlt; [|reflexivity].
    apply Nat.ltb_lt in Hlt. destruct (Hhd Hlt) as [T'' [= -> ->]]. cbn [List.tl].
    destruct T'' as [|c2 T3]; [reflexivity|]. cbn [Clean_backtrack].
    replace (is_slash slash) with true by reflexivity.
    cbn [negb]. rewrite andb_false_r. reflexivity.
  - inversion Hall as [|? ? Hlast Hrest]; subst. cbn [app Clean_backtrack].
    rewrite Hlast. cbn [negb]. rewrite andb_true_r.
    replace (dotdot <? List.length (c :: e' ++ T)%list)%nat with true.
    2:{ symmetry. apply Nat.ltb_lt. cbn [List.length]. rewrite List.length_app. lia. }
    apply IH. exact Hrest.
Qed.

Lemma Clean_copy_stops p : forall rout p' rout',
  Clean_copy p rout = (p', rout') -> ends_element p' = true.
Proof.
  induction p as [|c p IH]; intros rout p' rout' Hc; cbn in Hc.
  - injection Hc as <- _. reflexivity.
  - destruct (is_slash c) eqn:E.
    + injection Hc as <- _. exact E.
    + eapply IH; eauto.
Qed.

(** What the loop copies as a real path element is a named element, up to
    the next separator. *)
Lemma Clean_copy_element c p1 rout p' rout' :
  is_slash c = false ->
  is_dot c && ends_element p1 = false ->
  is_dot c && match p1 with
              | d :: p2 => is_dot d && ends_element p2
              | [] => false
              end = false ->
  Clean_copy (c :: p1) rout = (p', rout') ->
  exists elem,
    named elem /\ rout' = (rev elem ++ rout)%list
    /\ (c :: p1 = elem ++ p')%list /\ ends_element p' = true.
Proof.
  intros Hc Hdot Hdd Hcopy. pose proof (Clean_copy_stops _ _ _ _ Hcopy) as Hstop.
  cbn in Hcopy. rewrite Hc in Hcopy.
  apply Clean_copy_spec in Hcopy as (elem & -> & -> & Hall & _).
  exists (c :: elem). split; [|split; [|split]].
  - split; [discriminate|]. split; [now constructor|]. split.
    + intros [= -> ->]. cbn [app] in Hdot. rewrite Hstop in Hdot. discriminate.
    + intros [= -> ->]. cbn [app] in Hdd. rewrite Hstop in Hdd. discriminate.
  - cbn [rev]. rewrite <- app_assoc. reflexivity.
  - reflexivity.
  - exact Hstop.
Qed.

Lemma named_rev e : named e -> named (rev e).
Proof.
  intros (Hne & Hfree & Hdot & Hdd). split; [|split; [|split]].
  - intros E. apply Hne. apply (f_equal (@rev _)) in E. now rewrite rev_involutive in E.
  - now apply List.Forall_rev.
  - intros E. apply Hdot. apply (f_equal (@rev _)) in E. now rewrite rev_involutive in E.
  - intros E. apply Hdd. apply (f_equal (@rev _)) in E. now rewrite rev_involutive in E.
Qed.

Lemma Clean_form_length rooted es k :
  Forall named es ->
  forall rout dotdot,
    rout = (Join_bytes (es ++ replicate k [dot; dot])
            ++ if rooted : bool then [slash] else [])%list ->
    dotdot = List.length (Join_bytes (replicate k [dot; dot])
                          ++ if rooted : bool then [slash] else [])%list ->
    (dotdot <= List.length rout)%nat
    /\ (es <> [] -> (dotdot < List.length rout)%nat).
Proof.
  intros Hes rout dotdot -> ->. rewrite !List.length_app.
  destruct (Join_app_grows es (replicate k [dot; dot]) (named_nonempty es Hes))
    as [Hle Hlt].
  split; [|intros Hne; specialize (Hlt Hne)];
    [apply Nat.add_le_mono_r; exact Hle|apply Nat.add_lt_mono_r; exact Hlt].
Qed.

(** The loop of [path.Clean] keeps its buffer a sequence of named elements
    after the [..] elements it could not resolve. *)
Lemma Clean_loop_form fuel rooted : forall p rout dotdot,
  Clean_form rooted rout dotdot ->
  exists dotdot', Clean_form rooted (Clean_loop fuel rooted p rout dotdot) dotdot'.
Proof.
  induction fuel as [|fuel IH]; intros p rout dotdot Hform; [cbn; eauto|].
  destruct p as [|c p1]; [cbn; eauto|].
  cbn [Clean_loop].
  destruct (is_slash c) eqn:Hslash; [now apply IH|].
  destruct (is_dot c && ends_element p1) eqn:Hdot; [now apply IH|].
  destruct (is_dot c && match p1 with
                        | d :: p2 => is_dot d && ends_element p2
                        | [] => false
                        end) eqn:Hdd.
  - (* .. element *)
    destruct Hform as (es & k & Hes & Hrout & Hdotdot & Hk).
    destruct (Clean_form_length rooted es k Hes rout dotdot Hrout Hdotdot) as [Hle Hlt].
    destruct (dotdot <? List.length rout)%nat eqn:Hcmp.
    + apply Nat.ltb_lt in Hcmp.
      destruct es as [|e es'].
      { exfalso. cbn [app] in Hrout. rewrite Hrout, Hdotdot in Hcmp. lia. }
      inversion Hes as [|? ? He Hes']; subst.
      destruct He as (Hne & Hfree & _ & _).
      destruct e as [|last e']; [congruence|].
      cbn [app]. rewrite Join_cons. cbn [app]. rewrite <- app_assoc.
      apply IH.
      destruct (es' ++ replicate k [dot; dot])%list as [|x l] eqn:HesB.
      * apply app_eq_nil in HesB as [-> HB]. rewrite HB. cbn [app Join_bytes].
        rewrite Clean_backtrack_element; [|lia|intros; lia|exact Hfree].
        rewrite Nat.ltb_irrefl. exists [], 0%nat. repeat split; auto.
      * rewrite <- HesB.
        destruct (Clean_form_length rooted es' k Hes' _ _ eq_refl eq_refl) as [Hle' _].
        rewrite Clean_backtrack_element; [| | |exact Hfree].
        -- replace (_ <? _)%nat with true
             by (symmetry; apply Nat.ltb_lt; cbn [app List.length]; lia).
           cbn [app List.tl]. exists es', k. repeat split; auto.
        -- cbn [app List.length]. lia.
        -- intros _. cbn [app]. eauto.
    + apply Nat.ltb_ge in Hcmp.
      destruct es as [|e es'];
        [|exfalso; assert (Hne : e :: es' <> []) by discriminate;
          specialize (Hlt Hne); lia].
      cbn [app] in Hrout.
      destruct rooted; cbn [negb].
      { apply IH. exists [], k. repeat split; auto. }
      apply IH. rewrite app_nil_r in Hrout.
      assert (Hpush : dot :: dot :: match rout with [] => rout | _ :: _ => slash :: rout end
                      = (Join_bytes ([] ++ replicate (S k) [dot; dot]) ++ [])%list).
      { rewrite app_nil_r. cbn [app replicate]. rewrite Join_cons, Hrout.
        destruct k as [|k']; [reflexivity|]. cbn [replicate]. rewrite Join_cons.
        reflexivity. }
      exists [], (S k). split; [constructor|]. split; [exact Hpush|].
      split; [|discriminate]. exact (f_equal (@List.length _) Hpush).
  - (* real path element *)
    destruct Hform as (es & k & Hes & Hrout & Hdotdot & Hk).
    set (rout1 := if (rooted && negb (List.length rout =? 1)%nat)
                     || (negb rooted && negb (List.length rout =? 0)%nat)
                  then slash :: rout else rout).
    destruct (Clean_copy (c :: p1) rout1) as [p' rout2] eqn:Hcopy.
    apply Clean_copy_element in Hcopy as (elem & Hnamed & -> & _ & _);
      [|assumption..].
    apply IH. exists (rev elem :: es), k.
    split; [constructor; [now apply named_rev|exact Hes]|].
    split; [|split; [exact Hdotdot|exact Hk]].
    cbn [app]. rewrite Join_cons, <- app_assoc. f_equal. subst rout1.
    assert (Hall : Forall (fun e : bytes => e <> []) (es ++ replicate k [dot; dot])%list).
    { apply Forall_app. split; [now apply named_nonempty|apply dotdots_nonempty]. }
    destruct (es ++ replicate k [dot; dot])%list as [|x l] eqn:HesB.
    + rewrite Hrout. cbn [Join_bytes app]. destruct rooted; reflexivity.
    + assert (Hjoin : Join_bytes (x :: l) <> []) by (apply Join_nonempty; auto; discriminate).
      rewrite Hrout. destruct (Join_bytes (x :: l)) as [|a r]; [congruence|].
      destruct rooted; cbn [app List.length]; [|reflexivity].
      rewrite List.length_app. cbn [List.length].
      replace (S (List.length r + 1) =? 1)%nat with false
        by (symmetry; apply Nat.eqb_neq; lia).
      reflexivity.
Qed.

Lemma Join_snoc es e :
  Join_bytes (es ++ [e])
  = match es with
    | [] => e
    | _ => (Join_bytes es ++ slash :: e)%list
    end.
Proof.
  induction es as [|a es IH]; [reflexivity|].
  cbn [app]. rewrite Join_cons, IH, Join_cons.
  destruct es as [|b es]; cbn [app].
  - now rewrite app_nil_r.
  - now rewrite <- app_assoc.
Qed.

Lemma rev_Join es : rev (Join_bytes es) = Join_bytes (rev (List.map (@rev ascii) es)).
Proof.
  induction es as [|e es IH]; [reflexivity|].
  rewrite Join_cons. cbn [List.map rev]. rewrite Join_snoc.
  destruct es as [|b es]; [cbn; now rewrite app_nil_r|].
  rewrite rev_app_distr. cbn [rev]. rewrite IH, <- app_assoc.
  destruct (rev (List.map (@rev ascii) (b :: es))) eqn:E; [|reflexivity].
  apply (f_equal (@List.length _)) in E. rewrite length_rev, List.length_map in E.
  discriminate.
Qed.

Lemma rev_dotdots k :
  rev (List.map (@rev ascii) (replicate k [dot; dot])) = replicate k [dot; dot].
Proof.
  induction k as [|k IH]; [reflexivity|].
  cbn [replicate List.map rev]. rewrite IH. symmetry. apply replicate_cons_app.
Qed.

Lemma named_elements_rev es :
  Forall named es -> Forall named (rev (List.map (@rev ascii) es)).
Proof.
  intros Hes. apply List.Forall_rev, List.Forall_map.
  eapply List.Forall_impl; [|exact Hes]. apply named_rev.
Qed.

Lemma Clean_bytes_cleaned p : cleaned (Clean_bytes p).
Proof.
  unfold Clean_bytes. destruct p as [|c p1]; [now left|].
  destruct (is_slash c).
  - destruct (Clean_loop_form (List.length (c :: p1)) true p1 [slash] 1)
      as (d & es & k & Hes & Hrout & _ & Hk).
    { exists [], 0%nat. repeat split; auto. }
    rewrite (Hk eq_refl), app_nil_r in Hrout. rewrite Hrout.
    destruct (Join_bytes es ++ [slash])%list eqn:E; [now destruct (Join_bytes es)|].
    rewrite <- E, rev_app_distr, rev_Join. cbn [rev app].
    right; left. exists (rev (List.map (@rev ascii) es)).
    split; [now apply named_elements_rev|reflexivity].
  - destruct (Clean_loop_form (List.length (c :: p1)) false (c :: p1) [] 0)
      as (d & es & k & Hes & Hrout & _ & _).
    { exists [], 0%nat. repeat split; auto. }
    rewrite app_nil_r in Hrout. rewrite Hrout.
    destruct (Join_bytes (es ++ replicate k [dot; dot])) eqn:E; [now left|].
    rewrite <- E, rev_Join, List.map_app, rev_app_distr, rev_dotdots.
    right; right. exists k, (rev (List.map (@rev ascii) es)).
    split; [now apply named_elements_rev|]. split; [|reflexivity].
    rewrite length_rev, List.length_map.
    destruct es, k; cbn [List.length]; try lia. discriminate.
Qed.

(** What [cleanPath] returns is a cleaned path: [.], or the separator
    followed by named elements, or [..] elements followed by named elements,
    the elements joined by single separators.  No element of it is empty or
    [.], and [..] elements stand only at the start of a path that is not
    rooted. *)
Theorem cleanPath_cleaned p : cleaned (list_ascii_of_string (cleanPath p)).
Proof. unfold cleanPath, Clean. rewrite string_bytes_inv. apply Clean_bytes_cleaned. Qed.

(** *** Cleaning a cleaned path *)

Lemma is_dot_dot : is_dot dot = true.
Proof. reflexivity. Qed.

Lemma is_dot_true c : is_dot c = true -> c = dot.
Proof. unfold is_dot. apply Ascii.eqb_eq. Qed.

Lemma Clean_loop_done fuel rooted rout dotdot :
  Clean_loop fuel rooted [] rout dotdot = rout.
Proof. destruct fuel; reflexivity. Qed.

Lemma Clean_copy_whole e : forall X rout,
  Forall (fun c => is_slash c = false) e -> ends_element X = true ->
  Clean_copy (e ++ X)%list rout = (X, (rev e ++ rout)%list).
Proof.
  induction e as [|c e IH]; intros X rout Hfree HX.
  - cbn [app rev]. destruct X as [|x X]; [reflexivity|].
    cbn in HX |- *. rewrite HX. reflexivity.
  - inversion Hfree as [|? ? Hc Hrest]; subst. cbn [app Clean_copy]. rewrite Hc.
    rewrite IH by assumption. cbn [rev]. now rewrite <- app_assoc.
Qed.

(** Writing one more element: the separator goes before it unless the
    buffer holds the root alone or nothing. *)
Lemma push_element (rooted : bool) done e :
  Forall (fun e : bytes => e <> []) done ->
  forall rout,
    rout = rev ((if rooted then [slash] else []) ++ Join_bytes done)%list ->
    (rev e ++ (if (rooted && negb (List.length rout =? 1)%nat)
                  || (negb rooted && negb (List.length rout =? 0)%nat)
               then slash :: rout else rout))%list
    = rev ((if rooted then [slash] else []) ++ Join_bytes (done ++ [e]))%list.
Proof.
  intros Hdone rout ->. rewrite Join_snoc. destruct done as [|d done'].
  - cbn [Join_bytes]. rewrite app_nil_r.
    destruct rooted; cbn; rewrite ?app_nil_r; reflexivity.
  - assert (Hj : Join_bytes (d :: done') <> []) by (apply Join_nonempty; auto; discriminate).
    destruct (Join_bytes (d :: done')) as [|a J] eqn:E; [congruence|].
    rewrite (app_assoc _ (a :: J) (slash :: e)), (rev_app_distr _ (slash :: e)).
    cbn [rev]. rewrite <- !app_assoc. cbn [app].
    replace ((rooted && negb (List.length (rev ((if rooted then [slash] else []) ++ a :: J)) =? 1)%nat)
             || (negb rooted
                 && negb (List.length (rev ((if rooted then [slash] else []) ++ a :: J)) =? 0)%nat))
      with true; [reflexivity|].
    rewrite length_rev, List.length_app. destruct rooted; cbn; [|reflexivity].
    destruct J; reflexivity.
Qed.

(** A named element at the head of the unread part takes the last branch of
    the loop. *)
Lemma named_branches c e1 X :
  named (c :: e1) -> ends_element X = true ->
  is_slash c = false
  /\ is_dot c && ends_element (e1 ++ X)%list = false
  /\ is_dot c && match (e1 ++ X)%list with
                 | d :: p2 => is_dot d && ends_element p2
                 | [] => false
                 end = false.
Proof.
  intros (_ & Hfree & Hdot & Hdd) HX.
  inversion Hfree as [|? ? Hc Hrest]; subst. split; [exact Hc|].
  destruct (is_dot c) eqn:Edot; [|split; reflexivity].
  apply is_dot_true in Edot. subst c. cbn [andb].
  destruct e1 as [|d e2]; [congruence|]. cbn [app ends_element].
  inversion Hrest as [|? ? Hd Hrest2]; subst. split; [exact Hd|].
  destruct (is_dot d) eqn:Ed; [|reflexivity].
  apply is_dot_true in Ed. subst d. cbn [andb].
  destruct e2 as [|f e3]; [congruence|]. cbn [app ends_element].
  now inversion Hrest2.
Qed.

Lemma Clean_loop_named rooted dotdot : forall es fuel done,
  Forall named es -> Forall (fun e : bytes => e <> []) done ->
  (List.length (Join_bytes es) <= fuel)%nat ->
  Clean_loop fuel rooted (Join_bytes es)
    (rev ((if rooted then [slash] else []) ++ Join_bytes done)%list) dotdot
  = rev ((if rooted then [slash] else []) ++ Join_bytes (done ++ es))%list.
Proof.
  induction es as [|e es IH]; intros fuel done Hes Hdone Hfuel.
  - cbn [Join_bytes]. rewrite Clean_loop_done, app_nil_r. reflexivity.
  - inversion Hes as [|? ? He Hes']; subst.
    rewrite Join_cons in Hfuel |- *.
    set (X := match es with [] => [] | _ :: _ => slash :: Join_bytes es end) in *.
    assert (HX : ends_element X = true) by (subst X; destruct es; reflexivity).
    destruct e as [|c e1]; [destruct He as [Hne _]; congruence|].
    destruct (named_branches c e1 X He HX) as (Hc & Hdot & Hdd).
    destruct fuel as [|fuel]; [cbn in Hfuel; lia|].
    cbn [app Clean_loop]. rewrite Hc, Hdot, Hdd.
    change (c :: (e1 ++ X))%list with ((c :: e1) ++ X)%list.
    rewrite Clean_copy_whole by (destruct He as (_ & Hfree & _); assumption).
    rewrite (push_element rooted done (c :: e1) Hdone _ eq_refl).
    subst X. destruct es as [|e' es'].
    + rewrite Clean_loop_done. reflexivity.
    + destruct fuel as [|fuel];
        [cbn [app List.length] in Hfuel; rewrite List.length_app in Hfuel;
         cbn [List.length] in Hfuel; lia|].
      cbn [Clean_loop]. replace (is_slash slash) with true by reflexivity.
      rewrite (IH fuel (done ++ [c :: e1])%list).
      * now rewrite <- app_assoc.
      * exact Hes'.
      * apply Forall_app. split; [exact Hdone|]. constructor; [discriminate|constructor].
      * cbn [app List.length] in Hfuel. rewrite List.length_app in Hfuel.
        cbn [List.length] in Hfuel. lia.
Qed.

Lemma push_dotdot j :
  dot :: dot :: match rev (Join_bytes (replicate j [dot; dot])) with
                | [] => rev (Join_bytes (replicate j [dot; dot]))
                | _ :: _ => slash :: rev (Join_bytes (replicate j [dot; dot]))
                end
  = rev (Join_bytes (replicate (S j) [dot; dot])).
Proof.
  cbn [replicate]. rewrite replicate_cons_app, Join_snoc.
  destruct j as [|j]; [reflexivity|].
  assert (Hj : Join_bytes (replicate (S j) [dot; dot]) <> [])
    by (apply Join_nonempty; [apply dotdots_nonempty|discriminate]).
  destruct (replicate (S j) [dot; dot]) as [|d l] eqn:E; [discriminate|].
  rewrite rev_app_distr. cbn [rev app].
  destruct (rev (Join_bytes (d :: l))) as [|a r] eqn:Er; [|reflexivity].
  apply (f_equal (@List.length _)) in Er. rewrite length_rev in Er.
  destruct (Join_bytes (d :: l)); [congruence|discriminate].
Qed.

Lemma Clean_loop_dotdots es :
  Forall named es ->
  forall k fuel j,
    (List.length (Join_bytes (replicate k [dot; dot] ++ es)%list) <= fuel)%nat ->
    Clean_loop fuel false (Join_bytes (replicate k [dot; dot] ++ es)%list)
      (rev (Join_bytes (replicate j [dot; dot])))
      (List.length (Join_bytes (replicate j [dot; dot])))
    = rev (Join_bytes (replicate (j + k) [dot; dot] ++ es)%list).
Proof.
  intros Hes. induction k as [|k IH]; intros fuel j Hfuel.
  - cbn [replicate app] in Hfuel |- *. rewrite Nat.add_0_r.
    exact (Clean_loop_named false _ es fuel (replicate j [dot; dot]) Hes
             (dotdots_nonempty j) Hfuel).
  - cbn [replicate app] in Hfuel |- *. rewrite Join_cons in Hfuel |- *.
    remember (replicate k [dot; dot] ++ es)%list as rest eqn:Erest.
    match goal with
    | |- context [([dot; dot] ++ ?Y)%list] => remember Y as X eqn:EX
    end.
    assert (HX : ends_element X = true) by (subst X; destruct rest; reflexivity).
    destruct fuel as [|fuel]; [cbn in Hfuel; lia|].
    cbn [app Clean_loop]. rewrite is_slash_dot, is_dot_dot. cbn [ends_element andb].
    rewrite is_slash_dot, HX. rewrite length_rev, Nat.ltb_irrefl. cbn [negb List.tl].
    rewrite push_dotdot. rewrite length_rev.
    replace (j + S k)%nat with (S j + k)%nat by lia.
    subst X. destruct rest as [|x rest'].
    + rewrite Clean_loop_done. symmetry in Erest.
      apply app_eq_nil in Erest as [Hk ->].
      destruct k; [|discriminate]. rewrite Nat.add_0_r, app_nil_r. reflexivity.
    + destruct fuel as [|fuel]; [cbn [app List.length] in Hfuel; lia|].
      cbn [Clean_loop]. replace (is_slash slash) with true by reflexivity.
      apply IH. cbn [app List.length] in Hfuel. lia.
Qed.

(** [path.Clean] returns a cleaned path as it is. *)
Lemma Clean_bytes_fixed out : cleaned out -> Clean_bytes out = out.
Proof.
  intros [->|[(es & Hes & ->)|(k & es & Hes & Hpos & ->)]]; [reflexivity| |].
  - unfold Clean_bytes. replace (is_slash slash) with true by reflexivity.
    pose proof (Clean_loop_named true 1 es (List.length (slash :: Join_bytes es)) []
                  Hes (List.Forall_nil _)) as Hloop.
    cbn [Join_bytes app rev] in Hloop. rewrite Hloop by (cbn [List.length]; lia).
    rewrite rev_app_distr.
    destruct (rev (Join_bytes es) ++ [slash])%list eqn:E;
      [now destruct (rev (Join_bytes es))|].
    rewrite rev_involutive. reflexivity.
  - assert (Hne : Join_bytes (replicate k [dot; dot] ++ es)%list <> []).
    { apply Join_nonempty.
      - apply Forall_app. split; [apply dotdots_nonempty|now apply named_nonempty].
      - destruct k, es; cbn in Hpos |- *; try discriminate. lia. }
    assert (Hhd : is_slash (List.hd dot (Join_bytes (replicate k [dot; dot] ++ es)%list))
                  = false).
    { destruct k as [|k]; [|cbn [replicate app]; rewrite Join_cons; reflexivity].
      cbn [replicate app].
      destruct es as [|e es']; [reflexivity|]. rewrite Join_cons.
      inversion Hes as [|? ? (He & Hfree & _) _]; subst.
      destruct e as [|c e1]; [congruence|]. cbn. now inversion Hfree. }
    pose proof (Clean_loop_dotdots es Hes k
                  (List.length (Join_bytes (replicate k [dot; dot] ++ es)%list)) 0
                  (Nat.le_refl _)) as Hloop.
    cbn [replicate Join_bytes rev List.length Nat.add] in Hloop.
    unfold Clean_bytes.
    destruct (Join_bytes (replicate k [dot; dot] ++ es)%list) as [|c p1] eqn:E;
      [congruence|].
    cbn [List.hd] in Hhd. rewrite Hhd, Hloop.
    destruct (rev (c :: p1)) eqn:Er.
    + apply (f_equal (@List.length _)) in Er. rewrite length_rev in Er. discriminate.
    + rewrite <- Er. apply rev_involutive.
Qed.

Lemma ReplaceAll_no_ds l : no_ds l -> ReplaceAll l [slash; slash] [slash] = l.
Proof.
  unfold ReplaceAll. induction l as [|c l IH]; intros Hl; [reflexivity|].
  apply no_ds_cons in Hl as [Hc Hl]. cbn [ReplaceAll_from].
  replace (HasPrefix_bytes (c :: l) [slash; slash]) with false.
  - now rewrite IH.
  - cbn [HasPrefix_bytes]. change (Ascii.eqb c slash) with (is_slash c).
    destruct (is_slash c) eqn:E; [|reflexivity]. specialize (Hc eq_refl).
    destruct l as [|d l']; [reflexivity|]. cbn [HasPrefix_bytes andb].
    change (Ascii.eqb d slash) with (is_slash d). now rewrite Hc.
Qed.

(** [cleanPath] is idempotent: a path it returned, it returns as it is.  So
    the path of a URL that [ResolveAndCleanURL] normalized is not changed by
    normalizing it again. *)
Theorem cleanPath_idempotent p : cleanPath (cleanPath p) = cleanPath p.
Proof.
  unfold cleanPath at 1.
  rewrite ReplaceAll_no_ds by apply cleanPath_no_double_slash.
  unfold Clean at 1. rewrite string_bytes_inv, Clean_bytes_fixed.
  - apply string_of_list_ascii_of_string.
  - unfold cleanPath, Clean. rewrite string_bytes_inv. apply Clean_bytes_cleaned.
Qed.

(** ** What a crawl enqueues *)

Section DiscoveryCode.
Context `{GoLib}.
Variable sc : SiteCrawler.
Variable ctx0 : Context.

Lemma ResolveAndCleanURL_normalized href u :
  ResolveAndCleanURL (BaseURL sc) href = Ok u -> normalized sc u.
Proof.
  intros Hu. split; [now exists href|]. unfold ResolveAndCleanURL in Hu.
  destruct (url_Parse href) as [parsed|e]; [|discriminate].
  injection Hu as <-. cbn. split; [reflexivity|].
  unfold cleanPath, Clean. rewrite string_bytes_inv. apply Clean_bytes_cleaned.
Qed.

Lemma found_AddURLToCrawlQueue url :
  discovered sc url ->
  wp (found sc ctx0) (AddURLToCrawlQueue sc ctx0 url) tt (fun _ _ => True).
Proof. intros Hu. unfold AddURLToCrawlQueue. wp_split; assumption. Qed.

Lemma found_AddURLToPostProcessQueue pageURL page :
  wp (found sc ctx0) (AddURLToPostProcessQueue sc ctx0 pageURL page) tt
    (fun _ g' => g' = tt).
Proof. unfold AddURLToPostProcessQueue. apply wp_forRange. intros p. wp_split. Qed.

Lemma found_links (f : URL -> URL) links :
  (forall parsed, normalized sc parsed -> discovered sc (f parsed)) ->
  wp (found sc ctx0)
    (forRange links (fun link =>
       match ResolveAndCleanURL (BaseURL sc) link with
       | Err _ => Ret tt
       | Ok parsed => AddURLToCrawlQueue sc ctx0 (f parsed)
       end)) tt (fun _ g' => g' = tt).
Proof.
  intros Hf. apply wp_forRange. intros link.
  destruct (ResolveAndCleanURL (BaseURL sc) link) as [parsed|e] eqn:Hlink;
    [|reflexivity].
  eapply wp_mono; [|apply found_AddURLToCrawlQueue].
  - now intros _ [] _.
  - apply Hf. eapply ResolveAndCleanURL_normalized, Hlink.
Qed.

Lemma found_CrawlPage url :
  wp (found sc ctx0) (CrawlPage sc ctx0 url) tt (fun _ _ => True).
Proof.
  unfold CrawlPage. cbn. split; [exact I|]. intros done _.
  destruct done; [exact I|]. unfold FetchPage.
  destruct (url_Parse (url_String url)); cbn; [|exact I].
  split; [exact I|]. intros r _. destruct r as [resp|e]; cbn; [|exact I].
  destruct (_ || _); cbn; [exact I|]. destruct (Body resp) as [page|e]; cbn; [|exact I].
  destruct (ExtractLinks page) as [links|e]; [|exact I].
  apply wp_bind. eapply wp_mono; [|apply (found_links (fun u => u))].
  - intros _ g' ->. eapply wp_mono; [|apply found_AddURLToPostProcessQueue]. auto.
  - intros parsed Hn. right. now left.
Qed.

Lemma found_CrawlFromSiteMap :
  wp (found sc ctx0) (CrawlFromSiteMap sc ctx0) tt (fun _ _ => True).
Proof.
  unfold CrawlFromSiteMap. destruct (URL_Parse _ _) as [siteMapUrl|e]; [|exact I].
  unfold FetchPage.
  destruct (url_Parse (url_String siteMapUrl)); cbn; [|exact I].
  split; [exact I|]. intros r _. destruct r as [resp|e]; cbn; [|exact I].
  destruct (_ || _); cbn; [exact I|].
  destruct (Body resp) as [siteMap|e]; cbn; [|exact I].
  destruct (ParseSitemapForUrls siteMap); [|exact I].
  apply wp_bind.
  eapply wp_mono; [|apply (found_links (url_ResolveReference (BaseURL sc)))].
  - intros _ g' _. exact I.
  - intros parsed Hn. right. right. now exists parsed.
Qed.

Lemma found_Crawl :
  wp (found sc ctx0) (Crawl sc ctx0) tt (fun _ _ => True).
Proof.
  unfold Crawl, startCrawlWorkers, startPostProcessingWorkers.
  apply wp_bind. eapply wp_mono; [|apply wp_forCount; wp_split].
  intros _ g1 ->. apply wp_bind. eapply wp_mono; [|apply wp_forCount; wp_split].
  intros _ g1 ->. apply wp_bind. eapply wp_mono; [|apply found_CrawlFromSiteMap].
  intros [e|] [] _; [exact I|].
  apply wp_bind. eapply wp_mono; [|apply found_AddURLToCrawlQueue; now left].
  intros _ [] _. wp_split.
Qed.

Lemma found_worker g :
  wp (found sc ctx0) (goroutineTurn sc g) tt (fun _ g' => g' = tt).
Proof.
  destruct g as [ctx|ctx]; cbn; (split; [exact I|]); intros [|[t|]] Hv; cbn;
    try reflexivity; destruct t as [c u|c p u page]; cbn in Hv; try contradiction.
  - destruct Hv as [-> Hu]. apply wp_bind. apply wp_bind.
    eapply wp_mono; [|apply found_CrawlPage].
    intros _ [] _. cbn. split; [exact I|]. intros _ _. reflexivity.
  - subst c. cbn. split; [exact I|]. intros _ _. split; [exact I|].
    intros _ _. reflexivity.
Qed.

Lemma found_exec_sound gs tid g X (o : op X) c st x st' :
  found_inv sc ctx0 gs st -> gs !! tid = Some g -> mon_ok (found sc ctx0) g o ->
  exec o c st = Stepped x st' ->
  mon_poss (found sc ctx0) g o x
  /\ found_inv sc ctx0
       (<[tid := mon_next (found sc ctx0) g o x]> gs
        ++ replicate (List.length (spawned o)) (mon_idle (found sc ctx0)))%list st'.
Proof.
  intros [Hbuf Htr] _ Hok Hexec.
  pose proof (Hbuf CrawlQueue) as Hqc. pose proof (Hbuf PostProcessQueue) as Hqp.
  assert (Hhead : True) by exact I. assert (Htail : True) by exact I.
  destruct o as [key|wg delta|wg|q t|q|ctx q|ctx|ctx rawurl|p ctx u page|w];
    try destruct wg; try destruct q; cbn in Hok; exec_cases Hexec.
  all: cbn in Hqc, Hqp;
    try match goal with
        | E : buf _ = _ :: _ |- _ =>
            cbn in E; clear Hhead Htail;
            first [ rewrite E in Hqc; apply Forall_cons in Hqc as [Hhead Htail]
                  | rewrite E in Hqp; apply Forall_cons in Hqp as [Hhead Htail] ]
        end.
  all: split; [first [exact I|exact Hhead]|split].
  all: try solve
    [ intros [|]; cbn;
      first [ assumption
            | apply (Hbuf CrawlQueue)
            | apply (Hbuf PostProcessQueue)
            | apply Forall_app; split; [assumption|repeat constructor; assumption] ] ].
  all: cbn; intros q0 t0 Hin;
    repeat match type of Hin with
           | _ \/ _ => destruct Hin as [Hin|Hin]
           end;
    try discriminate; try (injection Hin as <- <-; exact Hok);
    now apply Htr.
Qed.

(** In a call of [Crawl(ctx0)] on a fresh crawler, under every schedule and
    whatever the server answers: every task ever sent on a queue carries
    the context [ctx0], and every crawl task is for the base URL, for a URL
    that [ResolveAndCleanURL] returned (without fragment, its path
    cleaned), or for such a URL resolved against the base URL once more,
    as [CrawlFromSiteMap] does for the entries of the sitemap. *)
Theorem Crawl_enqueues_discovered sched cfg q t :
  run sc sched (mkConfig [Run (Crawl sc ctx0)] initialState false) = Some cfg ->
  List.In (EvEnqueue q t) (trace (shared cfg)) ->
  match q, t with
  | CrawlQueue, CrawlTask ctx url => ctx = ctx0 /\ discovered sc url
  | PostProcessQueue, ProcessTask ctx _ _ _ => ctx = ctx0
  | _, _ => False
  end.
Proof.
  intros Hrun Hin.
  assert (Hm : Monitored (found sc ctx0) (found_inv sc ctx0) cfg).
  { eapply (run_monitored sc (found sc ctx0) (found_inv sc ctx0)); [| | |..|exact Hrun].
    - apply found_worker.
    - intros. eapply found_exec_sound; eauto.
    - intros gs st id HI. exact HI.
    - exists [tt]. cbn. split.
      + repeat constructor. eapply wp_mono; [|apply found_Crawl]. auto.
      + split; [intros [|]; constructor|intros q0 t0 []]. }
  destruct Hm as (gs & _ & _ & Htr). exact (Htr q t Hin).
Qed.
End DiscoveryCode.

(** The crawl of the one-page site, for [Crawl_enqueues_discovered]: the one
    crawl task is for the base URL. *)
Lemma Crawl_enqueues_discovered_witness :
  Example.ctx = Example.ctx
  /\ discovered (H := Example.exampleLib) OnePage.sc Example.base.
Proof.
  apply (@Crawl_enqueues_discovered Example.exampleLib OnePage.sc Example.ctx
           (OnePage.until_closed ++ OnePage.to_the_end) OnePage.at_end
           CrawlQueue (CrawlTask Example.ctx Example.base)).
  - apply (run_ends (H := Example.exampleLib)). vm_compute. reflexivity.
  - vm_compute. tauto.
Defined.

(** ** A cancelled crawl can hang *)

Lemma wp_both {G1 G2 A} (M1 : Monitor G1) (M2 : Monitor G2) (p : Prog A) :
  forall g1 g2 (Q1 : A -> G1 -> Prop) (Q2 : A -> G2 -> Prop),
    wp M1 p g1 Q1 -> wp M2 p g2 Q2 ->
    wp (both M1 M2) p (g1, g2) (fun a g => Q1 a (fst g) /\ Q2 a (snd g)).
Proof.
  induction p as [a|X o k IH]; intros g1 g2 Q1 Q2 H1 H2; cbn in *; [tauto|].
  destruct H1 as [Hok1 Hk1], H2 as [Hok2 Hk2]. split; [tauto|].
  intros x [Hx1 Hx2]. apply IH; auto.
Qed.

Lemma exec_counts X (o : op X) c st x st' :
  exec o c st = Stepped x st' ->
  crawlWgCount st'
  = match o with
    | WgAdd crawlWg delta => crawlWgCount st + delta
    | _ => crawlWgCount st
    end.
Proof.
  intros Hexec.
  destruct o as [key|wg delta|wg|q t|q|ctx q|ctx|ctx rawurl|p ctx u page|w];
    try destruct wg; try destruct q; exec_cases Hexec; reflexivity.
Qed.

Lemma drain_units_counted gs tid g st :
  drain_inv gs st -> gs !! tid = Some g -> crawl_units g <= crawlWgCount st.
Proof.
  intros HI Hg. destruct (total_bounds crawl_units gs) as [_ Tc].
  { intros i y Hy. apply (ghost_bounds _ _ HI i y Hy). }
  specialize (Tc tid g Hg). rewrite (crawl_accounted _ _ HI). lia.
Qed.

Lemma drain_stage_kept g X (o : op X) x :
  drain_ok g o -> stage g <> Working -> stage (drain_next g o x) <> Working.
Proof.
  intros Hok Hne.
  destruct o as [key|wg delta|wg|q t|q|ctx q|ctx|ctx rawurl|p ctx u page|w];
    try destruct wg; try destruct q; cbn in *; try assumption; try discriminate.
  all: destruct x as [|[?|]]; cbn; assumption.
Qed.

Section PhaseCode.
Context `{GoLib}.
Variable sc : SiteCrawler.

Lemma phase_hired {A} (p : Prog A) :
  wp (phase sc) p Hired (fun _ g' => g' = Hired).
Proof.
  induction p as [a|X o k IH]; cbn; [reflexivity|]. split.
  - destruct o; cbn; auto; discriminate.
  - intros x _. replace (phase_next Hired o x) with Hired; [apply IH|].
    destruct o; try reflexivity. destruct wg; reflexivity.
Qed.

Lemma phase_AddURLToCrawlQueue ctx url g :
  wp (phase sc) (AddURLToCrawlQueue sc ctx url) g (fun _ _ => True).
Proof. unfold AddURLToCrawlQueue. wp_split. Qed.

Lemma phase_links ctx (f : URL -> URL) links g :
  wp (phase sc)
    (forRange links (fun link =>
       match ResolveAndCleanURL (BaseURL sc) link with
       | Err _ => Ret tt
       | Ok parsed => AddURLToCrawlQueue sc ctx (f parsed)
       end)) g (fun _ _ => True).
Proof.
  apply (wp_forRange_keeps (phase sc) (fun _ => True)); [|exact I].
  intros link g0 _.
  destruct (ResolveAndCleanURL (BaseURL sc) link); [|exact I].
  apply phase_AddURLToCrawlQueue.
Qed.

Lemma phase_CrawlFromSiteMap ctx g :
  wp (phase sc) (CrawlFromSiteMap sc ctx) g
    (fun err g' =>
       match err with
       | Some _ => g' = g
       | None => is_ok (URL_Parse (BaseURL sc) "/sitemap.xml") = true
       end).
Proof.
  unfold CrawlFromSiteMap. destruct (URL_Parse _ _) as [siteMapUrl|e]; [|reflexivity].
  unfold FetchPage.
  destruct (url_Parse (url_String siteMapUrl)); cbn; [|reflexivity].
  split; [exact I|]. intros r _. destruct r as [resp|e]; cbn; [|reflexivity].
  destruct (_ || _); cbn; [reflexivity|].
  destruct (Body resp) as [siteMap|e]; cbn; [|reflexivity].
  destruct (ParseSitemapForUrls siteMap); [|reflexivity].
  apply wp_bind.
  eapply wp_mono; [|apply (phase_links ctx (url_ResolveReference (BaseURL sc)))].
  intros ? g' _. reflexivity.
Qed.

(** [Crawl] starts its workers before it admits anything. *)
Lemma phase_Crawl ctx :
  wp (phase sc) (Crawl sc ctx) Starting (fun _ g' => mon_done (phase sc) g').
Proof.
  unfold Crawl, startCrawlWorkers, startPostProcessingWorkers.
  apply wp_bind.
  eapply wp_mono;
    [|apply wp_forCount; cbn; split; [discriminate|]; intros; reflexivity].
  intros _ g1 ->. apply wp_bind.
  eapply wp_mono;
    [|apply wp_forCount; cbn; split; [discriminate|]; intros; reflexivity].
  intros _ g1 ->. apply wp_bind. eapply wp_mono; [|apply phase_CrawlFromSiteMap].
  intros [e|] g1 Hpost.
  - subst g1. cbn. intros _. reflexivity.
  - apply wp_bind. eapply wp_mono; [|apply phase_AddURLToCrawlQueue].
    intros ? g2 _. cbn. repeat (split; [exact I|]; intros ? ?).
    intros Hfail. rewrite Hpost in Hfail. discriminate.
Qed.

Lemma stranded_exec_sound gs tid g X (o : op X) c st x st' :
  stranded_inv gs st -> gs !! tid = Some g ->
  mon_ok (both (drain sc) (phase sc)) g o ->
  exec o c st = Stepped x st' ->
  mon_poss (both (drain sc) (phase sc)) g o x
  /\ stranded_inv
       (<[tid := mon_next (both (drain sc) (phase sc)) g o x]> gs
        ++ replicate (List.length (spawned o))
             (mon_idle (both (drain sc) (phase sc))))%list st'.
Proof.
  intros [HD (g0 & H0 & Hst & Hph & Hcount)] Hg [Hok1 Hok2] Hexec.
  assert (Hg1 : (fst <$> gs) !! tid = Some (fst g))
    by (rewrite list_lookup_fmap, Hg; reflexivity).
  destruct (drain_exec_sound sc (fst <$> gs) tid (fst g) X o c st x st'
              HD Hg1 Hok1 Hexec) as [Hposs HD'].
  split; [split; [exact Hposs|exact I]|]. split.
  - rewrite fmap_app, list_fmap_insert, fmap_replicate. exact HD'.
  - pose proof (exec_counts X o c st x st' Hexec) as Hc.
    assert (Hlen : (0 < List.length gs)%nat) by (eapply lookup_lt_Some; eauto).
    destruct tid as [|tid].
    + assert (g = g0) by congruence. subst g0.
      eexists. split.
      { rewrite lookup_app_l by (rewrite length_insert; exact Hlen).
        apply list_lookup_insert_eq. exact Hlen. }
      cbn [mon_next both fst snd]. split; [now apply drain_stage_kept|]. split.
      * destruct o; try destruct wg; cbn; try assumption.
        destruct (snd g); [contradiction|discriminate|discriminate].
      * intros Hs.
        destruct o; try destruct wg; cbn in Hs; rewrite Hc;
          try (apply Hcount; exact Hs).
        destruct (snd g); discriminate.
    + exists g0. split.
      { rewrite lookup_app_l by (rewrite length_insert; exact Hlen).
        rewrite list_lookup_insert_ne by discriminate. exact H0. }
      split; [exact Hst|]. split; [exact Hph|].
      intros Hs. specialize (Hcount Hs).
      assert (Hw : stage (fst g) = Working).
      { destruct (the_caller _ _ HD) as (i & gi & Hi & Hne & _ & Hothers).
        destruct (decide (i = 0%nat)) as [->|Hi0].
        - apply (Hothers (S tid) (fst g) Hg1). discriminate.
        - exfalso. apply Hst. apply (Hothers 0%nat (fst g0)); [|congruence].
          rewrite list_lookup_fmap, H0. reflexivity. }
      pose proof (drain_units_counted _ _ _ _ HD Hg1) as Hu.
      rewrite Hc. destruct o; try destruct wg; try assumption.
      exfalso. cbn in Hok1. unfold may_seed in Hok1.
      intuition (try congruence; lia).
Qed.
End PhaseCode.

Section Stranded.
Context `{GoLib}.
Variable sc : SiteCrawler.

Lemma stranded_worker g :
  wp (both (drain sc) (phase sc)) (goroutineTurn sc g)
    (mon_idle (both (drain sc) (phase sc)))
    (fun _ g' => g' = mon_idle (both (drain sc) (phase sc))).
Proof.
  eapply wp_mono;
    [|apply (wp_both (drain sc) (phase sc) _ _ _ _ _
               (drain_worker sc g) (phase_hired sc _))].
  intros a [g1 g2] [H1 H2]. cbn in *. now subst.
Qed.

Lemma stranded_cancel_sound gs st id :
  stranded_inv gs st -> stranded_inv gs (set_cancelled st ({[id]} ∪ cancelled st)).
Proof.
  intros [HD (g0 & H0 & Hst & Hph & Hcount)].
  split; [now apply drain_cancel_sound|]. exists g0. repeat split; auto.
Qed.

Lemma stranded_monitored ctx sched cfg :
  run sc sched (mkConfig [Run (Crawl sc ctx)] initialState false) = Some cfg ->
  Monitored (both (drain sc) (phase sc)) stranded_inv cfg.
Proof.
  intros Hrun.
  eapply (run_monitored sc (both (drain sc) (phase sc)) stranded_inv);
    [| | |..|exact Hrun].
  - apply stranded_worker.
  - intros. eapply stranded_exec_sound; eauto.
  - apply stranded_cancel_sound.
  - exists [(mkGhost Seeding_ 0 0 0, Starting)]. cbn. split.
    + repeat constructor.
      eapply wp_mono;
        [|apply (wp_both (drain sc) (phase sc) _ _ _ _ _
                   (drain_Crawl sc ctx) (phase_Crawl sc ctx))].
      intros a g [H1 H2]. split; assumption.
    + split; [apply drain_inv_initial|].
      exists (mkGhost Seeding_ 0 0 0, Starting). cbn.
      repeat split; try discriminate.
Qed.

(** Goroutine 0 stays the caller. *)
Lemma caller_runs sched : forall cfg cfg',
  run sc sched cfg = Some cfg' ->
  (exists p, threads cfg !! 0%nat = Some (Run p)) ->
  exists p', threads cfg' !! 0%nat = Some (Run p').
Proof.
  induction sched as [|a sched IH]; intros cfg cfg' Hrun Hp; cbn in Hrun.
  - injection Hrun as <-. exact Hp.
  - destruct (step sc a cfg) as [cfg1|] eqn:Hs; [|discriminate].
    apply (IH cfg1 cfg' Hrun). clear IH Hrun.
    unfold step in Hs. destruct (crashed cfg); [discriminate|].
    destruct a as [tid c|id]; [|injection Hs as <-; exact Hp].
    destruct (threads cfg !! tid) as [t|] eqn:Ht; [|discriminate].
    destruct Hp as [p Hp].
    assert (Hlen : (0 < List.length (threads cfg))%nat)
      by (eapply lookup_lt_Some; eauto).
    destruct (step_thread sc t c (shared cfg)) as [[[[t' st'] ws]|]|] eqn:Hst;
      [| |discriminate]; injection Hs as <-; cbn [threads]; [|eauto].
    rewrite lookup_app_l by (rewrite length_insert; exact Hlen).
    destruct tid as [|tid].
    + assert (t = Run p) by congruence. subst t. cbn in Hst.
      destruct (step_prog p c (shared cfg)) as [p' st1 ws1| |]; try discriminate.
      injection Hst as <- _ _. exists p'. apply list_lookup_insert_eq. exact Hlen.
    + exists p. rewrite list_lookup_insert_ne by discriminate. exact Hp.
Qed.

(** Once the workers are gone and the crawl counter is above zero, a step
    leaves things so: only the caller moves, it starts nobody, and it only
    adds to the counter. *)
Lemma stranded_step a cfg cfg' :
  Monitored (both (drain sc) (phase sc)) stranded_inv cfg ->
  (exists p, threads cfg !! 0%nat = Some (Run p)) ->
  workers_gone cfg -> 0 < crawlWgCount (shared cfg) ->
  step sc a cfg = Some cfg' ->
  workers_gone cfg' /\ 0 < crawlWgCount (shared cfg').
Proof.
  intros (gs & Hacc & HD & g0 & H0 & Hst & Hph & Hcount) [p Hp] Hgone Hpos Hs.
  unfold step in Hs. destruct (crashed cfg); [discriminate|].
  destruct a as [tid c|id]; [|injection Hs as <-; split; assumption].
  destruct (threads cfg !! tid) as [t|] eqn:Ht; [|discriminate].
  destruct tid as [|tid].
  2:{ destruct (Hgone tid t Ht) as [g ->]. cbn in Hs. discriminate. }
  assert (t = Run p) by congruence. subst t.
  destruct p as [r|X o k]; [cbn in Hs; discriminate|].
  cbn [step_thread step_prog] in Hs.
  destruct (exec o c (shared cfg)) as [x st'| |] eqn:Hexec;
    [|discriminate|injection Hs as <-; split; assumption].
  injection Hs as <-. cbn [threads shared].
  destruct (Forall2_lookup_l _ _ _ _ _ Hacc Hp) as (g & Hg & Hat).
  assert (g = g0) by congruence. subst g0.
  cbn [accepts wp] in Hat. destruct Hat as [[Hok1 Hok2] _].
  assert (Hafter : snd g = AfterAdd).
  { destruct (snd g) eqn:E; [contradiction| |reflexivity].
    specialize (Hcount eq_refl). lia. }
  assert (Hnobody : spawned o = []).
  { destruct o; try reflexivity. cbn in Hok2. congruence. }
  split.
  - intros i t Hi. rewrite Hnobody in Hi. cbn in Hi. rewrite app_nil_r in Hi.
    rewrite list_lookup_insert_ne in Hi by discriminate. eauto.
  - rewrite (exec_counts X o c _ x st' Hexec).
    destruct o; try destruct wg; try assumption.
    cbn in Hok1. destruct Hok1 as [[-> _]|[_ [Hw _]]]; [lia|contradiction].
Qed.

(** A crawl whose workers have all returned while [crawlWg] counts a task
    hangs: whatever happens next, the call of [Crawl] does not return.  The
    workers return on [ctx.Done()] even when the queue holds a task, so a
    cancelled crawl can be left in this state, its caller blocked in
    [crawlWg.Wait()] for good. *)
Theorem Crawl_hangs_once_workers_are_gone ctx sched1 cfg1 sched2 cfg2 :
  run sc sched1 (mkConfig [Run (Crawl sc ctx)] initialState false) = Some cfg1 ->
  workers_gone cfg1 ->
  0 < crawlWgCount (shared cfg1) ->
  run sc sched2 cfg1 = Some cfg2 ->
  forall r, threads cfg2 !! 0%nat <> Some (Run (Ret r)).
Proof.
  intros Hrun1 Hgone Hpos Hrun2 r Hret.
  pose proof (stranded_monitored ctx sched1 cfg1 Hrun1) as Hm1.
  assert (Hp1 : exists p, threads cfg1 !! 0%nat = Some (Run p)).
  { eapply caller_runs; [exact Hrun1|]. cbn. eauto. }
  assert (HK : Monitored (both (drain sc) (phase sc)) stranded_inv cfg2
               /\ 0 < crawlWgCount (shared cfg2)).
  { clear Hrun1. revert cfg1 Hm1 Hp1 Hgone Hpos Hrun2.
    induction sched2 as [|a sched2 IH]; intros cfg1 Hm1 Hp1 Hgone Hpos Hrun2;
      cbn in Hrun2.
    - injection Hrun2 as <-. auto.
    - destruct (step sc a cfg1) as [cfg|] eqn:Hs; [|discriminate].
      destruct (stranded_step a cfg1 cfg Hm1 Hp1 Hgone Hpos Hs) as [Hgone' Hpos'].
      apply (IH cfg); auto.
      + eapply (step_monitored sc (both (drain sc) (phase sc)) stranded_inv);
          [| | |exact Hm1|exact Hs].
        * apply stranded_worker.
        * intros. eapply stranded_exec_sound; eauto.
        * apply stranded_cancel_sound.
      + apply (caller_runs [a] cfg1 cfg); [cbn; now rewrite Hs|exact Hp1]. }
  destruct HK as ((gs & Hacc & HD & g0 & H0 & Hst & _ & Hcount) & Hpos2).
  destruct (Forall2_lookup_l _ _ _ _ _ Hacc Hret) as (g & Hg & Hdone).
  assert (g = g0) by congruence. subst g0.
  cbn in Hdone. destruct Hdone as [[Hfin|[_ Hfail]] Hd2].
  - assert (Hg1 : (fst <$> gs) !! 0%nat = Some (fst g))
      by (rewrite list_lookup_fmap, Hg; reflexivity).
    destruct (drain_caller _ _ 0%nat (fst g) HD Hg1) as [[_ Hok]|[Hw _]];
      [|contradiction].
    rewrite Hfin in Hok. destruct Hok as (Hc & _). lia.
  - specialize (Hcount (Hd2 Hfail)). lia.
Qed.
End Stranded.

(** The crawl of the one-page site, cancelled when the task of the base URL is
    in the queue, for [Crawl_hangs_once_workers_are_gone]: both workers take
    [ctx.Done()] and return, the counter stays at one. *)
Lemma Crawl_hangs_once_workers_are_gone_witness :
  let done_first := mkChoice true (Err "unused") None in
  let sched1 :=
    [ Step 0 Example.quiet; Step 0 Example.quiet; Step 0 Example.notFound;
      Step 0 Example.quiet; Step 0 Example.quiet; Step 0 Example.quiet;
      Cancel 0; Step 1 done_first; Step 2 done_first ] in
  let cfg1 := ends (H := Example.exampleLib) OnePage.sc sched1 OnePage.cfg0 in
  let cfg2 := ends (H := Example.exampleLib) OnePage.sc [Cancel 0] cfg1 in
  List.length (buf (crawlQueue (shared cfg1))) = 1%nat
  /\ crawlWgCount (shared cfg1) = 1
  /\ threads cfg2 !! 0%nat <> Some (Run (Ret None)).
Proof.
  intros done_first sched1 cfg1 cfg2.
  split; [vm_compute; reflexivity|]. split; [vm_compute; reflexivity|].
  apply (@Crawl_hangs_once_workers_are_gone Example.exampleLib OnePage.sc Example.ctx
           sched1 cfg1 [Cancel 0] cfg2).
  - apply (run_ends (H := Example.exampleLib)). vm_compute. reflexivity.
  - intros i t Hi. destruct i as [|[|i]]; vm_compute in Hi.
    + injection Hi as <-. eexists. reflexivity.
    + injection Hi as <-. eexists. reflexivity.
    + discriminate.
  - vm_compute. reflexivity.
  - apply (run_ends (H := Example.exampleLib)). vm_compute. reflexivity.
Defined.

(** ** No page is processed twice *)

Section QuotaCode.
Context `{GoLib}.
Variable sc : SiteCrawler.

Lemma quota_AddURLToCrawlQueue ctx url g :
  wp (quota sc) (AddURLToCrawlQueue sc ctx url) g (fun _ g' => g' = g).
Proof. unfold AddURLToCrawlQueue. wp_split. Qed.

(** One hand-over per processor uses up one unit of the quota each. *)
Lemma quota_handovers ctx pageURL page : forall ps m,
  wp (quota sc)
    (forRange ps (fun processor =>
       call (WgAdd postProcessWg 1) ;;
       call (ChanSend PostProcessQueue (ProcessTask ctx processor pageURL page))))
    (url_String pageURL, (List.length ps + m)%nat)
    (fun _ g' => g' = (url_String pageURL, m)).
Proof.
  induction ps as [|p ps IH]; intros m; cbn; [reflexivity|].
  split; [exact I|]. intros _ _. split; [split; [reflexivity|lia]|].
  intros _ _. cbn. apply IH.
Qed.

Lemma quota_links ctx (f : URL -> URL) links g :
  wp (quota sc)
    (forRange links (fun link =>
       match ResolveAndCleanURL (BaseURL sc) link with
       | Err _ => Ret tt
       | Ok parsed => AddURLToCrawlQueue sc ctx (f parsed)
       end)) g (fun _ g' => g' = g).
Proof.
  apply wp_forRange. intros link.
  destruct (ResolveAndCleanURL (BaseURL sc) link); [|reflexivity].
  apply quota_AddURLToCrawlQueue.
Qed.

(** [CrawlPage] hands its page over at most once per processor. *)
Lemma quota_CrawlPage ctx url :
  wp (quota sc) (CrawlPage sc ctx url) (url_String url, fanout sc) (fun _ _ => True).
Proof.
  unfold CrawlPage. cbn. split; [exact I|]. intros done _.
  destruct done; [exact I|]. unfold FetchPage.
  destruct (url_Parse (url_String url)); cbn; [|exact I].
  split; [exact I|]. intros r _. destruct r as [resp|e]; cbn; [|exact I].
  destruct (_ || _); cbn; [exact I|]. destruct (Body resp) as [page|e]; cbn; [|exact I].
  destruct (ExtractLinks page) as [links|e]; [|exact I].
  apply wp_bind. eapply wp_mono; [|apply (quota_links ctx (fun u => u))].
  intros _ g' ->. unfold AddURLToPostProcessQueue, fanout.
  rewrite <- (Nat.add_0_r (List.length (postProcessors sc))).
  eapply wp_mono; [|apply quota_handovers]. auto.
Qed.

Lemma quota_CrawlFromSiteMap ctx g :
  wp (quota sc) (CrawlFromSiteMap sc ctx) g (fun _ g' => g' = g).
Proof.
  unfold CrawlFromSiteMap. destruct (URL_Parse _ _) as [siteMapUrl|e]; [|reflexivity].
  unfold FetchPage.
  destruct (url_Parse (url_String siteMapUrl)); cbn; [|reflexivity].
  split; [exact I|]. intros r _. destruct r as [resp|e]; cbn; [|reflexivity].
  destruct (_ || _); cbn; [reflexivity|].
  destruct (Body resp) as [siteMap|e]; cbn; [|reflexivity].
  destruct (ParseSitemapForUrls siteMap); [|reflexivity].
  apply wp_bind.
  eapply wp_mono; [|apply (quota_links ctx (url_ResolveReference (BaseURL sc)))].
  intros _ g' ->. reflexivity.
Qed.

Lemma quota_Crawl ctx g :
  wp (quota sc) (Crawl sc ctx) g (fun _ _ => True).
Proof.
  unfold Crawl, startCrawlWorkers, startPostProcessingWorkers.
  apply wp_bind. eapply wp_mono; [|apply wp_forCount; wp_split].
  intros _ g1 ->. apply wp_bind. eapply wp_mono; [|apply wp_forCount; wp_split].
  intros _ g1 ->. apply wp_bind. eapply wp_mono; [|apply quota_CrawlFromSiteMap].
  intros [e|] g1 ->; [exact I|].
  apply wp_bind. eapply wp_mono; [|apply quota_AddURLToCrawlQueue].
  intros _ g2 ->. wp_split.
Qed.

Lemma quota_worker g :
  wp (quota sc) (goroutineTurn sc g) ("", 0%nat) (fun _ g' => g' = ("", 0%nat)).
Proof.
  destruct g as [ctx|ctx]; cbn; (split; [exact I|]); intros [|[t|]] Hv; cbn;
    try reflexivity; destruct t as [c u|c p u page]; cbn in Hv; try contradiction.
  - apply wp_bind. apply wp_bind. eapply wp_mono; [|apply quota_CrawlPage].
    intros _ g _. cbn. split; [exact I|]. intros _ _. reflexivity.
  - cbn. split; [split; [reflexivity|lia]|]. intros _ _. split; [exact I|].
    intros _ _. reflexivity.
Qed.
End QuotaCode.

(** *** Counting *)

Section QuotaCounts.
Context `{GoLib}.

Lemma times_processed_cons s e tr :
  times_processed s (e :: tr) = (Nat.b2n (processes s e) + times_processed s tr)%nat.
Proof. unfold times_processed. cbn. destruct (processes s e); reflexivity. Qed.

Lemma handed_over_cons s t ts :
  handed_over s (t :: ts) = (Nat.b2n (hands s t) + handed_over s ts)%nat.
Proof. unfold handed_over. cbn. destruct (hands s t); reflexivity. Qed.

Lemma handed_over_snoc s t ts :
  handed_over s (ts ++ [t]) = (handed_over s ts + Nat.b2n (hands s t))%nat.
Proof.
  unfold handed_over. rewrite List.filter_app, List.length_app. cbn.
  destruct (hands s t); reflexivity.
Qed.

Lemma shares_step s (gs : list (string * nat)) : forall tid g g' n,
  gs !! tid = Some g ->
  (shares s (<[tid := g']> gs ++ replicate n ("", 0%nat)) + share s g
   = shares s gs + share s g')%nat.
Proof.
  intros tid g g' n Hg.
  assert (Happ : forall l, shares s (l ++ replicate n ("", 0%nat)) = shares s l).
  { unfold shares. induction l as [|x l IHl]; cbn.
    - induction n as [|n IHn]; cbn; [reflexivity|].
      rewrite IHn. unfold share. cbn [fst snd]. now destruct (String.eqb "" s).
    - now rewrite IHl. }
  rewrite Happ. unfold shares. revert tid Hg.
  induction gs as [|x gs IH]; intros [|tid] Hg; cbn in Hg; try discriminate.
  - injection Hg as ->. cbn. lia.
  - specialize (IH tid Hg). cbn [List.fold_right insert list_insert] in IH |- *.
    rewrite <- !Nat.add_assoc. f_equal. exact IH.
Qed.
End QuotaCounts.

Arguments times_processed : simpl never.
Arguments handed_over : simpl never.
Arguments shares : simpl never.
Arguments fanout : simpl never.

Ltac quota_count :=
  rewrite ?times_processed_cons, ?handed_over_cons, ?handed_over_snoc,
    ?enqueued_cons, ?waiting_cons, ?waiting_snoc in *;
  unfold share in *;
  repeat (cbn [processes hands enqueues_key carries Nat.b2n fst snd] in *;
          match goal with
          | |- context [if (?a <? ?b)%Z then _ else _] => destruct (a <? b)%Z
          | _ : context [if (?a <? ?b)%Z then _ else _] |- _ => destruct (a <? b)%Z
          | |- context [String.eqb ?a ?b] => destruct (String.eqb a b)
          | _ : context [String.eqb ?a ?b] |- _ => destruct (String.eqb a b)
          end);
  cbn [processes hands enqueues_key carries Nat.b2n fst snd] in *;
  rewrite ?Nat.mul_add_distr_l, ?Nat.mul_1_r, ?Nat.mul_0_r in *; try lia.

Section QuotaSound.
Context `{GoLib}.
Variable sc : SiteCrawler.

Lemma quota_exec_sound gs tid g X (o : op X) c st x st' :
  quota_inv sc gs st -> gs !! tid = Some g -> mon_ok (quota sc) g o ->
  exec o c st = Stepped x st' ->
  mon_poss (quota sc) g o x
  /\ quota_inv sc (<[tid := mon_next (quota sc) g o x]> gs
                   ++ replicate (List.length (spawned o)) (mon_idle (quota sc)))%list
       st'.
Proof.
  intros HI Hg Hok Hexec.
  pose proof (quota_shaped _ _ _ HI CrawlQueue) as Hqc.
  pose proof (quota_shaped _ _ _ HI PostProcessQueue) as Hqp.
  assert (Hhead : True) by exact I. assert (Htail : True) by exact I.
  destruct g as [gu gn].
  destruct o as [key|wg delta|wg|q t|q|ctx q|ctx|ctx rawurl|p ctx u page|w];
    try destruct wg; try destruct q; cbn in Hok; exec_cases Hexec.
  all: cbn in Hqc, Hqp;
    try match goal with
        | E : buf _ = _ :: _ |- _ =>
            cbn in E; clear Hhead Htail;
            first [ rewrite E in Hqc; apply Forall_cons in Hqc as [Hhead Htail]
                  | rewrite E in Hqp; apply Forall_cons in Hqp as [Hhead Htail] ]
        end.
  all: split; [first [exact I|exact Hhead]|split].
  all: try solve
    [ intros [|]; cbn;
      first [ assumption
            | apply (quota_shaped _ _ _ HI CrawlQueue)
            | apply (quota_shaped _ _ _ HI PostProcessQueue)
            | apply Forall_app; split; [assumption|repeat constructor];
              match goal with t0 : Task |- _ => now destruct t0 end ] ].
  all: intros s; pose proof (quota_budget _ _ _ HI s) as Hb; cbn in Hb |- *;
    match goal with
    | |- context [shares s (<[_ := ?g']> _ ++ ?r)%list] =>
        pose proof (shares_step s gs tid (gu, gn) g' (List.length r) Hg) as Hh;
        cbn in Hh
    end;
    repeat match goal with
           | E : buf _ = _ :: _ |- _ =>
               progress (try rewrite E in Hb; try rewrite E)
           | t0 : Task |- _ => destruct t0; try contradiction
           end;
    try (destruct Hok as [Hu Hn]; cbn in Hu, Hn; subst gu);
    quota_count.
Qed.
End QuotaSound.

Section QuotaRuns.
Context `{GoLib}.
Variable sc : SiteCrawler.

Lemma quota_cancel_sound gs st id :
  quota_inv sc gs st -> quota_inv sc gs (set_cancelled st ({[id]} ∪ cancelled st)).
Proof. intros [H1 H2]. split; assumption. Qed.

Lemma quota_inv_initial : quota_inv sc [("", 0%nat)] initialState.
Proof.
  split.
  - intros s. unfold times_processed, handed_over, shares, share, waiting, enqueued.
    cbn. destruct s; lia.
  - intros [|]; constructor.
Qed.

Lemma quota_monitored ctx sched cfg :
  run sc sched (mkConfig [Run (Crawl sc ctx)] initialState false) = Some cfg ->
  Monitored (quota sc) (quota_inv sc) cfg.
Proof.
  intros Hrun.
  eapply (run_monitored sc (quota sc) (quota_inv sc)); [| | |..|exact Hrun].
  - apply quota_worker.
  - intros. eapply quota_exec_sound; eauto.
  - apply quota_cancel_sound.
  - exists [("", 0%nat)]. cbn. split.
    + repeat constructor. apply quota_Crawl.
    + apply quota_inv_initial.
Qed.

(** In a call of [Crawl] on a fresh crawler, under every schedule and
    whatever the server and the processors answer, a page is handed to the
    processors at most once: the calls of [Process] on pages of one URL
    string are at most as many as the crawler has processors. *)
Theorem no_page_processed_twice ctx sched cfg s :
  run sc sched (mkConfig [Run (Crawl sc ctx)] initialState false) = Some cfg ->
  (times_processed s (trace (shared cfg)) <= List.length (postProcessors sc))%nat.
Proof.
  intros Hrun.
  destruct (quota_monitored ctx sched cfg Hrun) as (gs & _ & HI).
  assert (Hts : Forall (CrawlerThread sc) [Run (Crawl sc ctx)])
    by (repeat constructor).
  destruct (ledger_monitored sc _ sched cfg Hts Hrun) as (gs' & _ & HI').
  pose proof (quota_budget _ _ _ HI s) as Hb.
  pose proof (sent_once _ _ HI' s) as Hone.
  change (List.length (postProcessors sc)) with (fanout sc).
  assert (fanout sc * enqueued s (trace (shared cfg)) <= fanout sc * 1)%nat
    by (apply Nat.mul_le_mono_l; exact Hone).
  lia.
Qed.
End QuotaRuns.

(** The crawl of the one-page site, for [no_page_processed_twice]: its one
    processor was called once on the base page. *)
Lemma no_page_processed_twice_witness :
  let tr := trace (shared OnePage.at_end) in
  times_processed (H := Example.exampleLib) "https://example.com" tr = 1%nat
  /\ (times_processed (H := Example.exampleLib) "https://example.com" tr
      <= List.length (postProcessors OnePage.sc))%nat.
Proof.
  intros tr. split; [vm_compute; reflexivity|].
  apply (@no_page_processed_twice Example.exampleLib OnePage.sc Example.ctx
           (OnePage.until_closed ++ OnePage.to_the_end) OnePage.at_end
           "https://example.com").
  apply (run_ends (H := Example.exampleLib)). vm_compute. reflexivity.
Defined.

(** ** C9: URL normalization *)

(** What [cleanPath] returns, whatever it is given: a cleaned path, hence
    not empty; rooted exactly when its argument is; without a trailing
    separator unless it is the root. *)
Lemma cleanPath_normal p :
  cleaned (list_ascii_of_string (cleanPath p))
  /\ cleanPath p <> ""
  /\ (first_byte (cleanPath p) = Some slash <-> first_byte p = Some slash)
  /\ (last_byte (cleanPath p) = Some slash -> cleanPath p = "/").
Proof.
  unfold cleanPath, Clean. rewrite !string_bytes_inv.
  set (collapsed := ReplaceAll (list_ascii_of_string p) [slash; slash] [slash]).
  destruct (Clean_bytes_shape collapsed) as (Hne & Hhd & Hlast).
  split; [apply Clean_bytes_cleaned|]. split; [|split].
  - intros E. apply Hne. apply (f_equal list_ascii_of_string) in E.
    now rewrite string_bytes_inv in E.
  - rewrite !first_byte_slash, string_bytes_inv, Hhd. subst collapsed.
    now rewrite ReplaceAll_slashes_hd.
  - unfold last_byte. rewrite string_bytes_inv. intros E.
    apply last_byte_slash in E. now rewrite (Hlast E).
Qed.

Section URLNormalization.
Context `{GoLib}.

(** C9, as the code has it.  For every href that [ResolveAndCleanURL]
    accepts: the href parsed; the result has no fragment; its path is
    [cleanPath] of the path of the resolved URL, which is the parsed href
    itself when that is absolute and its resolution against [base]
    otherwise.  That path is a cleaned path: it is [.], or the root followed
    by named elements joined by single separators, or [..] elements followed
    by named elements, so that no [.] element, no empty element and no [..]
    after a named element is left.  It has no repeated separator, is not
    empty (an empty path becomes [.]), is rooted exactly when the resolved
    path is, and ends with a separator only when it is the root.  Every
    other component is the resolved URL's.  So an absolute href keeps its
    scheme, host and query, but its path goes through [path.Clean] like any
    other (dot segments resolved, trailing separator dropped). *)
Theorem ResolveAndCleanURL_normalizes (base : URL) (href : string) (r : URL) :
  ResolveAndCleanURL base href = Ok r ->
  exists parsedHref,
    url_Parse href = Ok parsedHref /\
    let resolved :=
      if IsAbs parsedHref then parsedHref
      else url_ResolveReference base parsedHref in
    Fragment r = "" /\
    Path r = cleanPath (Path resolved) /\
    cleaned (list_ascii_of_string (Path r)) /\
    has_double_slash (list_ascii_of_string (Path r)) = false /\
    Path r <> "" /\
    (Path resolved = "" -> Path r = ".") /\
    (first_byte (Path r) = Some slash <-> first_byte (Path resolved) = Some slash) /\
    (last_byte (Path r) = Some slash -> Path r = "/") /\
    Scheme r = Scheme resolved /\ Opaque r = Opaque resolved /\
    Host r = Host resolved /\ RawQuery r = RawQuery resolved.
Proof.
  unfold ResolveAndCleanURL. destruct (url_Parse href) as [parsed|e]; [|discriminate].
  intros [= <-]. exists parsed. split; [reflexivity|]. cbn.
  set (resolved := if IsAbs parsed then parsed else url_ResolveReference base parsed).
  destruct (cleanPath_normal (Path resolved)) as (Hc & Hne & Hfirst & Hlast).
  repeat split; try reflexivity; try assumption; try apply Hfirst.
  - apply cleanPath_no_double_slash.
  - intros ->. reflexivity.
Qed.

(** [ResolveAndCleanURL] fails exactly when [url.Parse] does. *)
Lemma ResolveAndCleanURL_error (base : URL) (href : string) (e : error) :
  ResolveAndCleanURL base href = Err e <-> url_Parse href = Err e.
Proof.
  unfold ResolveAndCleanURL. destruct (url_Parse href); split; congruence.
Qed.
End URLNormalization.

(** An accepted href with a dot segment, for
    [ResolveAndCleanURL_normalizes]. *)
Lemma ResolveAndCleanURL_normalizes_witness :
  exists parsedHref,
    Example.parse "https://example.com/a/../b" = Ok parsedHref /\
    Path parsedHref = "/a/../b" /\
    Fragment (Example.at_path "/b") = "" /\
    Path (Example.at_path "/b") = cleanPath (Path parsedHref) /\
    cleaned (list_ascii_of_string (Path (Example.at_path "/b"))).
Proof.
  destruct (@ResolveAndCleanURL_normalizes Example.exampleLib Example.base
              "https://example.com/a/../b" (Example.at_path "/b") eq_refl)
    as (parsed & Hp & Hf & Hpath & Hc & _).
  exists parsed. split; [exact Hp|].
  cbn in Hp. injection Hp as <-. split; [reflexivity|].
  split; [exact Hf|]. split; [reflexivity|exact Hc].
Defined.

(** C9 as the spec words it fails: an absolute href whose path ends with a
    separator does not keep its path up to slash-collapsing. *)
Lemma ResolveAndCleanURL_absolute_path_not_kept :
  exists parsedHref r,
    Example.parse "https://example.com/a/" = Ok parsedHref /\
    IsAbs parsedHref = true /\
    @ResolveAndCleanURL Example.exampleLib Example.base "https://example.com/a/" = Ok r /\
    collapse_slashes (Path parsedHref) = "/a/" /\
    Path r = "/a" /\
    Path r <> collapse_slashes (Path parsedHref).
Proof.
  exists (Example.at_path "/a/"), (Example.at_path "/a").
  repeat split; try reflexivity. discriminate.
Qed.

(** ** C8: the host boundary *)

Section HostBoundary.
Context `{GoLib}.
Variable sc : SiteCrawler.

Lemma host_AddURLToCrawlQueue ctx url g :
  wp (host sc) (AddURLToCrawlQueue sc ctx url) g (fun _ g' => g' = g).
Proof.
  unfold AddURLToCrawlQueue.
  destruct (IsAllowed _ _ _); cbn [negb]; [|reflexivity].
  destruct (String.eqb (Host url) (Host (BaseURL sc))) eqn:Hhost; cbn [negb];
    [|reflexivity].
  apply String.eqb_eq in Hhost. wp_split. exact Hhost.
Qed.

Lemma host_AddURLToPostProcessQueue ctx pageURL page g :
  wp (host sc) (AddURLToPostProcessQueue sc ctx pageURL page) g
    (fun _ g' => g' = g).
Proof. unfold AddURLToPostProcessQueue. apply wp_forRange. intros p. wp_split. Qed.

Lemma host_FetchPage {A} ctx url (k : result string -> Prog A) Q g :
  sitemap_string sc (url_String url) \/ g = Some url ->
  (forall r, wp (host sc) (k r) g Q) ->
  wp (host sc) (bind (FetchPage ctx url) k) g Q.
Proof.
  intros Hsite Hk. unfold FetchPage.
  destruct (url_Parse (url_String url)); cbn; [|apply Hk].
  split; [destruct Hsite as [?| ->]; [now left|right; eauto]|].
  intros r _. destruct r as [resp|e]; cbn; [|apply Hk].
  destruct (_ || _); cbn; [apply Hk|]. destruct (Body resp); cbn; apply Hk.
Qed.

Lemma host_links ctx (f : URL -> URL) links g :
  wp (host sc)
    (forRange links (fun link =>
       match ResolveAndCleanURL (BaseURL sc) link with
       | Err _ => Ret tt
       | Ok parsed => AddURLToCrawlQueue sc ctx (f parsed)
       end)) g (fun _ g' => g' = g).
Proof.
  apply wp_forRange. intros link.
  destruct (ResolveAndCleanURL (BaseURL sc) link); [|reflexivity].
  apply host_AddURLToCrawlQueue.
Qed.

(** [CrawlPage] does not look at the host: the one request it makes is
    the request of the URL it was called with. *)
Lemma host_CrawlPage ctx url :
  wp (host sc) (CrawlPage sc ctx url) (Some url) (fun _ g => g = Some url).
Proof.
  unfold CrawlPage. cbn. split; [exact I|]. intros done _.
  destruct done; [reflexivity|]. apply host_FetchPage; [now right|].
  intros [page|e]; [|reflexivity].
  destruct (ExtractLinks page) as [links|e]; [|reflexivity].
  apply wp_bind. eapply wp_mono; [|apply (host_links ctx (fun u => u))].
  intros _ g ->. apply host_AddURLToPostProcessQueue.
Qed.

Lemma host_CrawlFromSiteMap ctx g :
  wp (host sc) (CrawlFromSiteMap sc ctx) g (fun _ g' => g' = g).
Proof.
  unfold CrawlFromSiteMap.
  destruct (URL_Parse (BaseURL sc) "/sitemap.xml") as [siteMapUrl|e] eqn:Hparse;
    [|reflexivity].
  apply host_FetchPage.
  { left. exists siteMapUrl. split; [exact Hparse|reflexivity]. }
  intros [siteMap|e]; [|reflexivity].
  destruct (ParseSitemapForUrls siteMap); [|reflexivity].
  apply wp_bind.
  eapply wp_mono; [|apply (host_links ctx (url_ResolveReference (BaseURL sc)))].
  intros _ g' ->. reflexivity.
Qed.

Lemma host_Crawl ctx g : wp (host sc) (Crawl sc ctx) g (fun _ _ => True).
Proof.
  unfold Crawl, startCrawlWorkers, startPostProcessingWorkers.
  apply wp_bind. eapply wp_mono; [|apply wp_forCount; wp_split].
  intros _ g1 ->. apply wp_bind. eapply wp_mono; [|apply wp_forCount; wp_split].
  intros _ g1 ->. apply wp_bind. eapply wp_mono; [|apply host_CrawlFromSiteMap].
  intros [e|] g1 ->; [exact I|].
  apply wp_bind. eapply wp_mono; [|apply host_AddURLToCrawlQueue].
  intros _ g1 ->. wp_split.
Qed.

Lemma host_runTask q t g :
  fits sc q t ->
  wp (host sc) (runTask sc t)
    (match t with
     | CrawlTask _ url => Some url
     | ProcessTask _ _ _ _ => g
     end)
    (fun _ g' => g' = None).
Proof.
  destruct q, t as [ctx url|ctx p pageURL page]; cbn [fits runTask];
    try contradiction; intros Hfit.
  - apply wp_bind. eapply wp_mono; [|apply host_CrawlPage].
    intros _ g' ->. wp_split.
  - wp_split.
Qed.

Lemma host_worker g :
  wp (host sc) (goroutineTurn sc g) None (fun _ g' => g' = None).
Proof.
  destruct g as [ctx|ctx]; cbn; (split; [exact I|]); intros [|[t|]] Hfit; cbn;
    try reflexivity.
  - apply wp_bind. eapply wp_mono.
    2:{ destruct t; [apply (host_runTask CrawlQueue (CrawlTask _ _) None Hfit)|destruct Hfit]. }
    intros _ g ->. reflexivity.
  - apply wp_bind. eapply wp_mono.
    2:{ destruct t; [destruct Hfit|apply (host_runTask PostProcessQueue (ProcessTask _ _ _ _) None Hfit)]. }
    intros _ g ->. reflexivity.
Qed.

Lemma host_accepts t : AdmittingThread sc t -> accepts (host sc) t None.
Proof.
  destruct 1 as [ctx|ctx url|g]; cbn [accepts start].
  - apply host_Crawl.
  - apply wp_bind. eapply wp_mono; [|apply host_AddURLToCrawlQueue].
    intros _ g ->. exact I.
  - apply host_worker.
Qed.

Lemma host_accepts_pool ts :
  Forall (AdmittingThread sc) ts ->
  Forall2 (accepts (host sc)) ts (replicate (List.length ts) None).
Proof.
  induction 1 as [|t ts Ht _ IH]; cbn; constructor; [now apply host_accepts|exact IH].
Qed.
End HostBoundary.

Section HostSound.
Context `{GoLib}.
Variable sc : SiteCrawler.

Lemma sent_fit_mono (tr tr' : list Event) q t :
  (forall e, List.In e tr -> List.In e tr') ->
  sent_fit sc tr q t -> sent_fit sc tr' q t.
Proof. intros Hgrow [Hfit Hin]. split; auto. Qed.

(** A step of goroutine [tid] that records at most one event. *)
Lemma host_step gs tid g g' n st st' :
  host_inv sc gs st -> gs !! tid = Some g ->
  (trace st' = trace st
   \/ exists e,
       trace st' = e :: trace st
       /\ (forall q t, e = EvEnqueue q t -> fits sc q t)
       /\ (forall rawurl,
             e = EvRequest rawurl ->
             sitemap_string sc rawurl
             \/ exists url, g = Some url /\ rawurl = url_String url)) ->
  (forall url,
      g' = Some url ->
      exists ctx, List.In (EvEnqueue CrawlQueue (CrawlTask ctx url)) (trace st')) ->
  (forall q, Forall (sent_fit sc (trace st') q) (buf (chan st' q))) ->
  host_inv sc (<[tid := g']> gs ++ replicate n None)%list st'.
Proof.
  intros [H1 H2 H3 H4] Hg Htr Hg' Hq.
  assert (Hgrow : forall e, List.In e (trace st) -> List.In e (trace st')).
  { intros e He. destruct Htr as [->|(e' & -> & _)]; [exact He|now right]. }
  split.
  - exact Hq.
  - intros q t Hin. destruct Htr as [Hsame|(e & Hcons & He & _)].
    + rewrite Hsame in Hin. eauto.
    + rewrite Hcons in Hin. destruct Hin as [->|Hin]; eauto.
  - intros j url Hj.
    apply lookup_moved in Hj as [Hj|[Hj|Hj]]; [eauto| |discriminate].
    destruct (H3 j url Hj) as [ctx Hin]. eauto.
  - intros tr1 rawurl tr2 Hsplit.
    destruct Htr as [Hsame|(e & Hcons & _ & He)]; [rewrite Hsame in Hsplit; eauto|].
    rewrite Hcons in Hsplit. destruct tr1 as [|e1 tr1]; cbn in Hsplit.
    + injection Hsplit as -> <-.
      destruct (He rawurl eq_refl) as [Hmap|(url & -> & ->)]; [now left|right].
      destruct (H3 tid url Hg) as [ctx Hin]. exists ctx, url.
      split; [exact Hin|]. split; [exact (H2 _ _ Hin)|reflexivity].
    + injection Hsplit as _ Hrest. eauto.
Qed.

Lemma host_exec_sound gs tid g X (o : op X) c st x st' :
  host_inv sc gs st -> gs !! tid = Some g -> mon_ok (host sc) g o ->
  exec o c st = Stepped x st' ->
  mon_poss (host sc) g o x
  /\ host_inv sc (<[tid := mon_next (host sc) g o x]> gs
                  ++ replicate (List.length (spawned o)) (mon_idle (host sc)))%list st'.
Proof.
  intros HI Hg Hok Hexec.
  pose proof (held_enqueued _ _ _ HI tid) as Hheld.
  pose proof (queued_fit _ _ _ HI CrawlQueue) as Hqc.
  pose proof (queued_fit _ _ _ HI PostProcessQueue) as Hqp.
  assert (Hhead : True) by exact I. assert (Htail : True) by exact I.
  destruct o as [key|wg delta|wg|q t|q|ctx q|ctx|ctx rawurl|p ctx u page|w];
    try destruct wg; try destruct q; cbn in Hok; exec_cases Hexec.
  all: cbn in Hqc, Hqp;
    try match goal with
        | E : buf _ = _ :: _ |- _ =>
            cbn in E; clear Hhead Htail;
            first [ rewrite E in Hqc; apply Forall_cons in Hqc as [Hhead Htail]
                  | rewrite E in Hqp; apply Forall_cons in Hqp as [Hhead Htail] ]
        end.
  all: split;
    [ first [ exact I | apply Hhead ]
    | eapply (host_step gs tid g _ _ st); [exact HI|exact Hg|..] ].
  all: try solve [left; reflexivity].
  all: try solve
    [ right; eexists; split; [reflexivity|]; split;
      [ intros q0 t0 E; first [discriminate|injection E as <- <-; exact Hok]
      | intros r0 E; first [discriminate|injection E as <-; exact Hok] ] ].
  all: try solve
    [ intros url Hurl; try match goal with t0 : Task |- _ => destruct t0 end;
      cbn in Hurl;
      repeat match type of Hurl with
             | context [if ?b then _ else _] => destruct b
             end;
      try discriminate;
      first [ contradiction (proj1 Hhead)
            | injection Hurl as <-; destruct Hhead as [_ Hin]; cbn; eauto
            | subst g; destruct (Hheld url Hg) as [? ?]; cbn; eauto ] ].
  all: intros [|]; cbn;
    try assumption;
    try apply (queued_fit _ _ _ HI CrawlQueue);
    try apply (queued_fit _ _ _ HI PostProcessQueue);
    try (eapply List.Forall_impl; [|eassumption]; intros ? ?;
         eapply sent_fit_mono; [|eassumption]; intros ? ?; cbn; tauto).
  all: apply Forall_app; split;
    [ eapply List.Forall_impl; [|eassumption]; intros ? ?;
      eapply sent_fit_mono; [|eassumption]; intros ? ?; cbn; tauto
    | constructor; [|constructor]; split; [exact Hok|now left] ].
Qed.

Lemma host_cancel_sound gs st id :
  host_inv sc gs st -> host_inv sc gs (set_cancelled st ({[id]} ∪ cancelled st)).
Proof. intros [H1 H2 H3 H4]. split; assumption. Qed.

Lemma host_inv_initial n : host_inv sc (replicate n None) initialState.
Proof.
  split; cbn.
  - intros []; constructor.
  - intros q t [].
  - intros i url Hi. apply lookup_replicate in Hi as [Hi _]. discriminate.
  - intros [|e tr1] rawurl tr2 Htr; discriminate.
Qed.

(** C8.  On a fresh crawler used by calls of [Crawl], calls of
    [AddURLToCrawlQueue] on any URLs and workers, under any schedule and
    whatever the server answers: no crawl task is ever enqueued for a URL
    whose host differs from the base host; and every request that the
    crawler hands to the client is the sitemap request of [CrawlFromSiteMap]
    or the request of a crawl task that was enqueued before it, for a URL of
    the base host, the request string being the string of the URL of that
    task.  So no URL of another host is ever the URL a worker fetches.  A
    call of [AddURLToCrawlQueue] for a URL of another host does nothing at
    all.

    A request is a call of [client.Do] by [FetchPage].  The requests that
    the [http.Client] sends on its own while it follows a redirect are made
    inside that call: they are no operation of the crawler and the statement
    does not count them. *)
Theorem host_boundary ts sched cfg :
  Forall (AdmittingThread sc) ts ->
  run sc sched (mkConfig ts initialState false) = Some cfg ->
  (forall ctx url,
      Host url <> Host (BaseURL sc) ->
      ~ List.In (EvEnqueue CrawlQueue (CrawlTask ctx url)) (trace (shared cfg)))
  /\ (forall tr1 rawurl tr2,
        trace (shared cfg) = (tr1 ++ EvRequest rawurl :: tr2)%list ->
        sitemap_string sc rawurl
        \/ exists ctx url,
             List.In (EvEnqueue CrawlQueue (CrawlTask ctx url)) tr2
             /\ Host url = Host (BaseURL sc)
             /\ rawurl = url_String url)
  /\ (forall ctx url obs,
        Host url <> Host (BaseURL sc) ->
        runs (AddURLToCrawlQueue sc ctx url) obs tt -> obs = []).
Proof.
  intros Hts Hrun.
  assert (Hm : Monitored (host sc) (host_inv sc) cfg).
  { eapply (run_monitored sc (host sc) (host_inv sc)); [| | |..|exact Hrun].
    - apply host_worker.
    - intros. eapply host_exec_sound; eauto.
    - apply host_cancel_sound.
    - exists (replicate (List.length ts) None). cbn. split.
      + now apply host_accepts_pool.
      + apply host_inv_initial. }
  destruct Hm as (gs & _ & [H1 H2 H3 H4]). split; [|split].
  - intros ctx url Hne Hin. apply H2 in Hin. cbn in Hin. contradiction.
  - exact H4.
  - intros ctx url obs Hne. unfold AddURLToCrawlQueue.
    destruct (IsAllowed _ _ _); cbn [negb]; [|intros Hr; now runs_steps].
    destruct (String.eqb (Host url) (Host (BaseURL sc))) eqn:E; cbn [negb];
      [|intros Hr; now runs_steps].
    apply String.eqb_eq in E. contradiction.
Qed.
End HostSound.

(** The crawl of the one-page site up to the two [close] calls, for
    [host_boundary]: no task was enqueued for a page of another site, and the
    request of the base page follows the send of its crawl task. *)
Lemma host_boundary_witness :
  let other := mkURL "https" "" "other.org" "/page" "" "" in
  let sent := EvEnqueue CrawlQueue (CrawlTask Example.ctx Example.base) in
  let tr2 := [sent; EvRequest "https://example.com/sitemap.xml"] in
  ~ List.In (EvEnqueue CrawlQueue (CrawlTask Example.ctx other))
      (trace (shared OnePage.at_close))
  /\ (sitemap_string (H := Example.exampleLib) OnePage.sc "https://example.com"
      \/ exists ctx url,
           List.In (EvEnqueue CrawlQueue (CrawlTask ctx url)) tr2
           /\ Host url = Host (BaseURL OnePage.sc)
           /\ "https://example.com" = url_String (GoLib := Example.exampleLib) url).
Proof.
  intros other sent tr2.
  destruct (@host_boundary Example.exampleLib OnePage.sc
              [Run (Crawl (H := Example.exampleLib) OnePage.sc Example.ctx)]
              OnePage.until_closed OnePage.at_close) as (Hnone & Hreq & _).
  - repeat constructor.
  - apply (run_ends (H := Example.exampleLib)). vm_compute. reflexivity.
  - split; [apply Hnone; vm_compute; discriminate|].
    apply (Hreq [EvClose PostProcessQueue; EvClose CrawlQueue;
                 EvEnqueue PostProcessQueue
                   (ProcessTask Example.ctx 0%nat Example.base "hello")]).
    vm_compute. reflexivity.
Defined.

(** ** C4: dispatch to the processors, in a run *)

Section OwedCode.
Context `{GoLib}.
Variable sc : SiteCrawler.

Lemma owed_AddURLToCrawlQueue ctx url :
  wp owed (AddURLToCrawlQueue sc ctx url) None (fun _ g' => g' = None).
Proof. unfold AddURLToCrawlQueue. wp_split. Qed.

Lemma owed_AddURLToPostProcessQueue ctx pageURL page :
  wp owed (AddURLToPostProcessQueue sc ctx pageURL page) None
    (fun _ g' => g' = None).
Proof. unfold AddURLToPostProcessQueue. apply wp_forRange. intros p. wp_split. Qed.

Lemma owed_links ctx (f : URL -> URL) links :
  wp owed
    (forRange links (fun link =>
       match ResolveAndCleanURL (BaseURL sc) link with
       | Err _ => Ret tt
       | Ok parsed => AddURLToCrawlQueue sc ctx (f parsed)
       end)) None (fun _ g' => g' = None).
Proof.
  apply wp_forRange. intros link.
  destruct (ResolveAndCleanURL (BaseURL sc) link); [|reflexivity].
  apply owed_AddURLToCrawlQueue.
Qed.

Lemma owed_FetchPage {A} ctx url (k : result string -> Prog A) Q :
  (forall r, wp owed (k r) None Q) ->
  wp owed (bind (FetchPage ctx url) k) None Q.
Proof.
  intros Hk. unfold FetchPage. destruct (url_Parse (url_String url)); cbn; [|apply Hk].
  split; [exact I|]. intros r _. destruct r as [resp|e]; cbn; [|apply Hk].
  destruct (_ || _); cbn; [apply Hk|]. destruct (Body resp); cbn; apply Hk.
Qed.

(** [CrawlPage] calls no processor and receives nothing. *)
Lemma owed_CrawlPage ctx url :
  wp owed (CrawlPage sc ctx url) None (fun _ g => g = None).
Proof.
  unfold CrawlPage. cbn. split; [exact I|]. intros done _.
  destruct done; [reflexivity|]. apply owed_FetchPage.
  intros [page|e]; [|reflexivity].
  destruct (ExtractLinks page) as [links|e]; [|reflexivity].
  apply wp_bind. eapply wp_mono; [|apply (owed_links ctx (fun u => u))].
  intros _ g ->. apply owed_AddURLToPostProcessQueue.
Qed.

Lemma owed_CrawlFromSiteMap ctx :
  wp owed (CrawlFromSiteMap sc ctx) None (fun _ g => g = None).
Proof.
  unfold CrawlFromSiteMap. destruct (URL_Parse _ _); [|reflexivity].
  apply owed_FetchPage. intros [siteMap|e]; [|reflexivity].
  destruct (ParseSitemapForUrls siteMap); [|reflexivity].
  apply wp_bind.
  eapply wp_mono; [|apply (owed_links ctx (url_ResolveReference (BaseURL sc)))].
  intros _ g ->. reflexivity.
Qed.

Lemma owed_Crawl ctx :
  wp owed (Crawl sc ctx) None (fun _ g => g = None).
Proof.
  unfold Crawl, startCrawlWorkers, startPostProcessingWorkers.
  apply wp_bind. eapply wp_mono; [|apply wp_forCount; wp_split].
  intros _ g ->. apply wp_bind. eapply wp_mono; [|apply wp_forCount; wp_split].
  intros _ g ->. apply wp_bind. eapply wp_mono; [|apply owed_CrawlFromSiteMap].
  intros [e|] g ->; [reflexivity|].
  apply wp_bind. eapply wp_mono; [|apply owed_AddURLToCrawlQueue].
  intros _ g ->. wp_split.
Qed.

(** A worker calls the processor of the closure it received, with the
    page the closure captured, before anything else. *)
Lemma owed_worker g :
  wp owed (goroutineTurn sc g) None (fun _ g' => g' = None).
Proof.
  destruct g as [ctx|ctx]; cbn; (split; [exact I|]); intros [|[t|]] Hv; cbn;
    try reflexivity; destruct t as [c u|c p u page]; cbn in Hv; try contradiction.
  - apply wp_bind. apply wp_bind. eapply wp_mono; [|apply owed_CrawlPage].
    intros _ g ->. cbn. split; [exact I|]. intros _ _. reflexivity.
  - cbn. split; [reflexivity|]. intros _ _. split; [exact I|].
    intros _ _. reflexivity.
Qed.
End OwedCode.

(** *** Counting *)

Lemma calls_of_cons kind e tr :
  calls_of kind (e :: tr) = (Nat.b2n (is_call kind e) + calls_of kind tr)%nat.
Proof. unfold calls_of. cbn. destruct (is_call kind e); reflexivity. Qed.

Lemma handovers_of_cons kind e tr :
  handovers_of kind (e :: tr)
  = (Nat.b2n (is_handover kind e) + handovers_of kind tr)%nat.
Proof. unfold handovers_of. cbn. destruct (is_handover kind e); reflexivity. Qed.

Lemma queued_of_cons kind t ts :
  queued_of kind (t :: ts) = (Nat.b2n (is_queued kind t) + queued_of kind ts)%nat.
Proof. unfold queued_of. cbn. destruct (is_queued kind t); reflexivity. Qed.

Lemma queued_of_snoc kind t ts :
  queued_of kind (ts ++ [t]) = (queued_of kind ts + Nat.b2n (is_queued kind t))%nat.
Proof.
  unfold queued_of. rewrite List.filter_app, List.length_app. cbn.
  destruct (is_queued kind t); reflexivity.
Qed.

Lemma owing_step kind (gs : list (option Due)) : forall tid g g' n,
  gs !! tid = Some g ->
  (owing kind (<[tid := g']> gs ++ replicate n None) + Nat.b2n (owes kind g)
   = owing kind gs + Nat.b2n (owes kind g'))%nat.
Proof.
  unfold owing. intros tid g g' n Hg.
  rewrite List.filter_app, List.length_app.
  assert (Hn : List.filter (owes kind) (replicate n None) = []).
  { induction n as [|n IH]; cbn; [reflexivity|exact IH]. }
  rewrite Hn. cbn [List.length]. rewrite Nat.add_0_r.
  revert tid Hg. induction gs as [|x gs IH]; intros [|tid] Hg; cbn in Hg;
    try discriminate.
  - injection Hg as ->. cbn. destruct (owes kind g), (owes kind g'); cbn; lia.
  - cbn. specialize (IH tid Hg). destruct (owes kind x); cbn; [f_equal|]; exact IH.
Qed.

(** The kinds are nested: what is owed of one kind is owed of any kind. *)
Lemma owing_any kind gs : (owing kind gs <= owing any_kind gs)%nat.
Proof.
  unfold owing. induction gs as [|[[[p u] page]|] gs IH]; cbn; [lia| |exact IH].
  destruct (kind p u page); cbn; lia.
Qed.

Lemma owing_found gs :
  (0 < owing any_kind gs)%nat -> exists i d, gs !! i = Some (Some d).
Proof.
  unfold owing. induction gs as [|[d|] gs IH]; cbn; [lia| |].
  - intros _. exists 0%nat, d. reflexivity.
  - intros Hpos. destruct (IH Hpos) as (i & d & Hi). exists (S i), d. exact Hi.
Qed.

Lemma owing_held gs i d : gs !! i = Some (Some d) -> (0 < owing any_kind gs)%nat.
Proof.
  unfold owing. revert i. induction gs as [|x gs IH]; intros [|i] Hi; cbn in Hi;
    try discriminate.
  - injection Hi as ->. destruct d as [[p u] page]. cbn. lia.
  - specialize (IH i Hi). cbn. destruct (owes any_kind x); cbn; lia.
Qed.

Arguments calls_of : simpl never.
Arguments handovers_of : simpl never.
Arguments queued_of : simpl never.
Arguments owing : simpl never.

Ltac owed_count :=
  rewrite ?calls_of_cons, ?handovers_of_cons, ?queued_of_cons, ?queued_of_snoc in *;
  cbn [is_call is_handover is_queued owes Nat.b2n] in *;
  repeat match goal with
         | |- context [Nat.b2n ?b] =>
             let E := fresh "E" in
             destruct b eqn:E; rewrite ?E in *; cbn [Nat.b2n] in *
         | _ : context [Nat.b2n ?b] |- _ =>
             let E := fresh "E" in
             destruct b eqn:E; rewrite ?E in *; cbn [Nat.b2n] in *
         end;
  try lia.

Section OwedSound.
Context `{GoLib}.
Variable sc : SiteCrawler.

Lemma owed_exec_sound gs tid g X (o : op X) c st x st' :
  owed_inv gs st -> gs !! tid = Some g -> mon_ok owed g o ->
  exec o c st = Stepped x st' ->
  mon_poss owed g o x
  /\ owed_inv (<[tid := mon_next owed g o x]> gs
               ++ replicate (List.length (spawned o)) (mon_idle owed))%list st'.
Proof.
  intros HI Hg Hok Hexec.
  pose proof (owed_shaped _ _ HI CrawlQueue) as Hqc.
  pose proof (owed_shaped _ _ HI PostProcessQueue) as Hqp.
  assert (Hhead : True) by exact I. assert (Htail : True) by exact I.
  destruct g as [[[gp gu] gpage]|];
    destruct o as [key|wg delta|wg|q t|q|ctx q|ctx|ctx rawurl|p ctx u page|w];
    try destruct wg; try destruct q; cbn in Hok; try contradiction;
    exec_cases Hexec.
  all: cbn in Hqc, Hqp;
    try match goal with
        | E : buf _ = _ :: _ |- _ =>
            cbn in E; clear Hhead Htail;
            first [ rewrite E in Hqc; apply Forall_cons in Hqc as [Hhead Htail]
                  | rewrite E in Hqp; apply Forall_cons in Hqp as [Hhead Htail] ]
        end.
  all: split; [first [exact I|exact Hhead]|split].
  all: try solve
    [ intros [|]; cbn;
      first [ assumption
            | apply (owed_shaped _ _ HI CrawlQueue)
            | apply (owed_shaped _ _ HI PostProcessQueue)
            | apply Forall_app; split; [assumption|repeat constructor; assumption] ] ].
  all: intros kind; pose proof (owed_balance _ _ HI kind) as Hb; cbn in Hb |- *;
    match goal with
    | |- context [owing kind (<[_ := ?g']> _ ++ ?r)%list] =>
        pose proof (owing_step kind gs tid _ g' (List.length r) Hg) as Hh;
        cbn in Hh
    end;
    repeat match goal with
           | E : buf _ = _ :: _ |- _ =>
               progress (try rewrite E in Hb; try rewrite E)
           | t0 : Task |- _ => destruct t0; try contradiction
           end;
    try (injection Hok as -> -> ->); owed_count.
Qed.

Lemma owed_cancel_sound gs st id :
  owed_inv gs st -> owed_inv gs (set_cancelled st ({[id]} ∪ cancelled st)).
Proof. intros [H1 H2]. split; assumption. Qed.

Lemma owed_inv_initial : owed_inv [None] initialState.
Proof.
  split.
  - intros kind. reflexivity.
  - intros [|]; constructor.
Qed.

Lemma owed_monitored ctx sched cfg :
  run sc sched (mkConfig [Run (Crawl sc ctx)] initialState false) = Some cfg ->
  Monitored owed owed_inv cfg.
Proof.
  intros Hrun.
  eapply (run_monitored sc owed owed_inv); [| | |..|exact Hrun].
  - apply owed_worker.
  - intros. eapply owed_exec_sound; eauto.
  - apply owed_cancel_sound.
  - exists [None]. cbn. split.
    + repeat constructor. apply owed_Crawl.
    + apply owed_inv_initial.
Qed.
End OwedSound.

(** *** Steps of a schedule *)

Lemma lookup_stepped {A} (ts : list A) tid t' new j t :
  (<[tid := t']> ts ++ new)%list !! j = Some t ->
  (j = tid /\ t = t') \/ (j <> tid /\ ts !! j = Some t) \/ List.In t new.
Proof.
  intros Hj. apply lookup_app_Some in Hj as [Hj|[_ Hj]].
  - apply list_lookup_insert_Some in Hj as [(-> & -> & _)|[Hne Hj]]; auto.
  - right; right. eapply list_elem_of_In, list_elem_of_lookup_2, Hj.
Qed.

Lemma lookup_stepped_at {A} (ts : list A) tid t0 t' new :
  ts !! tid = Some t0 -> (<[tid := t']> ts ++ new)%list !! tid = Some t'.
Proof.
  intros Ht. apply lookup_lt_Some in Ht.
  rewrite lookup_app_l by (now rewrite length_insert).
  now apply list_lookup_insert_eq.
Qed.

Lemma lookup_stepped_other {A} (ts : list A) tid t' new j t :
  j <> tid -> ts !! j = Some t -> (<[tid := t']> ts ++ new)%list !! j = Some t.
Proof.
  intros Hne Hj.
  rewrite lookup_app_l by (rewrite length_insert; eapply lookup_lt_Some; eauto).
  now rewrite list_lookup_insert_ne by congruence.
Qed.

Lemma exec_cancelled {X} (o : op X) c st x st' :
  exec o c st = Stepped x st' -> cancelled st' = cancelled st.
Proof.
  intros Hexec.
  destruct o as [key|wg delta|wg|q t|q|ctx q|ctx|ctx rawurl|p ctx u page|w];
    try destruct wg; try destruct q; exec_cases Hexec; reflexivity.
Qed.

Lemma ctx_done_same st st' ctx :
  cancelled st' = cancelled st -> ctx_done st' ctx = ctx_done st ctx.
Proof. intros E. now rewrite !ctx_done_stopped, E. Qed.

Lemma ctx_done_cancel st id ctx :
  ctx_done st ctx = true ->
  ctx_done (set_cancelled st ({[id]} ∪ cancelled st)) ctx = true.
Proof.
  rewrite ctx_done_stopped. apply stopped_done. cbn. set_solver.
Qed.

Section Steps.
Context `{GoLib}.
Variable sc : SiteCrawler.

Lemma step_restart cfg i g ch :
  crashed cfg = false -> threads cfg !! i = Some (Loop g (Ret true)) ->
  step sc (Step i ch) cfg
  = Some (mkConfig (<[i := start sc g]> (threads cfg) ++ []) (shared cfg) false).
Proof. intros Hc Hi. unfold step. rewrite Hc, Hi. reflexivity. Qed.

Lemma step_loop_op cfg i g X (o : op X) k ch x st' :
  crashed cfg = false -> threads cfg !! i = Some (Loop g (Op o k)) ->
  exec o ch (shared cfg) = Stepped x st' ->
  step sc (Step i ch) cfg
  = Some (mkConfig (<[i := Loop g (k x)]> (threads cfg)
                    ++ List.map (start sc) (spawned o)) st' false).
Proof. intros Hc Hi He. unfold step. rewrite Hc, Hi. cbn. now rewrite He. Qed.

Lemma step_run_op cfg i X (o : op X) k ch x st' :
  crashed cfg = false -> threads cfg !! i = Some (Run (Op o k)) ->
  exec o ch (shared cfg) = Stepped x st' ->
  step sc (Step i ch) cfg
  = Some (mkConfig (<[i := Run (k x)]> (threads cfg)
                    ++ List.map (start sc) (spawned o)) st' false).
Proof. intros Hc Hi He. unfold step. rewrite Hc, Hi. cbn. now rewrite He. Qed.

(** A step keeps the kind of the goroutine; it is the restart of a
    worker's loop, which leaves the shared objects alone, or one
    operation. *)
Lemma step_thread_state t ch st t' st' ws :
  step_thread sc t ch st = Some (Some (t', st', ws)) ->
  match t, t' with
  | Run _, Run _ => True
  | Loop g _, Loop g' _ => g = g'
  | _, _ => False
  end
  /\ ((st' = st /\ ws = [])
      \/ exists X (o : op X) x, exec o ch st = Stepped x st' /\ ws = spawned o).
Proof.
  destruct t as [p|g cur]; cbn.
  - destruct p as [r|X o k]; cbn; [discriminate|].
    destruct (exec o ch st) eqn:E; try discriminate.
    intros [= <- <- <-]. split; [exact I|right; eauto].
  - destruct cur as [[|]|X o k]; cbn; [| discriminate |].
    + intros [= <- <- <-]. split; [reflexivity|left; auto].
    + destruct (exec o ch st) eqn:E; try discriminate.
      intros [= <- <- <-]. split; [reflexivity|right; eauto].
Qed.

Lemma may_leave_exec c X (o : op X) ch st x st' :
  exec o ch st = Stepped x st' -> may_leave c st -> may_leave c st'.
Proof.
  intros Hexec [Hd|[Hcl Hb]].
  - left. rewrite (ctx_done_same st st') by (eapply exec_cancelled; eauto).
    exact Hd.
  - right.
    destruct o as [key|wg delta|wg|q t|q|ctx q|ctx|ctx rawurl|p ctx u page|w];
      try destruct wg; try destruct q; exec_cases Hexec; cbn in *;
      first [split; assumption | congruence].
Qed.

Lemma may_leave_cancel c st id :
  may_leave c st -> may_leave c (set_cancelled st ({[id]} ∪ cancelled st)).
Proof. intros [Hd|Hq]; [left; now apply ctx_done_cancel|right; exact Hq]. Qed.

(** What a step of a post-processing worker leads to. *)
Lemma post_worker_moves c cur ch st t' st' ws :
  PostShape sc c cur ->
  Forall (shaped PostProcessQueue) (buf (postProcessQueue st)) ->
  step_thread sc (Loop (PostProcessWorker c) cur) ch st = Some (Some (t', st', ws)) ->
  exists cur',
    t' = Loop (PostProcessWorker c) cur' /\ PostShape sc c cur'
    /\ (cur' = Ret false -> may_leave c st').
Proof.
  intros Hsh Hq Hst. destruct Hsh; unfold workerTurn in Hst; cbn in Hst.
  - repeat match type of Hst with
           | context [if ?b then _ else _] => destruct b eqn:?
           | context [match ?l with [] => _ | _ :: _ => _ end] => destruct l eqn:?
           end; try discriminate; injection Hst as <- <- <-.
    all: try (eexists; split; [reflexivity|]; split; [apply at_exit|]; intros _).
    all: try solve
      [ left; assumption
      | left; match goal with E : _ && _ = true |- _ =>
                apply andb_true_iff in E as [E _]; exact E end
      | right; split; assumption ].
    all: apply Forall_cons in Hq as [Ht _];
      match goal with E : buf _ = ?t :: _ |- _ => destruct t; [destruct Ht|] end.
    all: eexists; (split; [reflexivity|]); (split; [apply at_call|]); discriminate.
  - injection Hst as <- <- <-. eexists. split; [reflexivity|].
    split; [apply at_select|]. discriminate.
  - discriminate.
  - injection Hst as <- <- <-. eexists. split; [reflexivity|].
    split; [apply at_done|]. discriminate.
  - destruct (_ <? _)%Z; [discriminate|]. injection Hst as <- <- <-.
    eexists. split; [reflexivity|]. split; [apply at_turn|]. discriminate.
Qed.
End Steps.

(** *** The post-processing workers of a call of [Crawl] *)

Section Placement.
Context `{GoLib}.
Variable sc : SiteCrawler.

Lemma post_workers_placed_step tid ch cfg t t' st' ws :
  Monitored owed owed_inv cfg ->
  post_workers_placed sc cfg ->
  threads cfg !! tid = Some t ->
  step_thread sc t ch (shared cfg) = Some (Some (t', st', ws)) ->
  post_workers_placed sc
    (mkConfig (<[tid := t']> (threads cfg) ++ List.map (start sc) ws) st' false).
Proof.
  intros (gs & _ & HI) Hpw Ht Hst j c cur Hj. cbn in Hj |- *.
  destruct (step_thread_state sc _ _ _ _ _ _ Hst) as [Htag Hstate].
  assert (Hkeep : forall c0, may_leave c0 (shared cfg) -> may_leave c0 st').
  { intros c0 Hl. destruct Hstate as [[-> _]|(X & o & x & He & _)]; [exact Hl|].
    eapply may_leave_exec; eauto. }
  apply lookup_stepped in Hj as [[-> <-]|[[Hne Hj]|Hin]].
  - destruct t as [p|g cur0]; [destruct Htag|]. cbn in Htag. subst g.
    destruct (Hpw tid c cur0 Ht) as [Hsh _].
    destruct (post_worker_moves sc c cur0 ch (shared cfg) _ _ _ Hsh
                (owed_shaped _ _ HI PostProcessQueue) Hst)
      as (cur' & E & Hsh' & Hl').
    injection E as ->. split; assumption.
  - destruct (Hpw j c cur Hj) as [Hsh Hl]. split; [exact Hsh|].
    intros E. apply Hkeep, Hl, E.
  - apply List.in_map_iff in Hin as (g & Hg & _). unfold start in Hg.
    injection Hg as -> <-. split; [apply at_select|]. cbn. discriminate.
Qed.

Variable ctx : Context.
Hypothesis pool : 1 <= WorkerPoolSize sc.

Lemma hiring_worker_step cfg i cur' :
  hiring sc ctx cfg ->
  (exists t, threads cfg !! S i = Some t) ->
  cur' = workerTurn sc ctx CrawlQueue \/ cur' = Ret true \/ cur' = Ret false ->
  hiring sc ctx
    (mkConfig (<[S i := Loop (CrawlWorker ctx) cur']> (threads cfg) ++ [])
       (shared cfg) false).
Proof.
  intros (Hu & (n & K & H0) & Hw) [t Ht] Hcur'. split; [exact Hu|]. split.
  - exists n, K. cbn. apply lookup_stepped_other; [discriminate|exact H0].
  - intros j t1 Hj. cbn in Hj.
    apply lookup_stepped in Hj as [[E ->]|[[_ Hj]|[]]]; eauto.
Qed.

Lemma phase_step tid ch cfg t t' st' ws :
  hiring sc ctx cfg \/ staffed ctx cfg ->
  threads cfg !! tid = Some t ->
  step_thread sc t ch (shared cfg) = Some (Some (t', st', ws)) ->
  hiring sc ctx
    (mkConfig (<[tid := t']> (threads cfg) ++ List.map (start sc) ws) st' false)
  \/ staffed ctx
       (mkConfig (<[tid := t']> (threads cfg) ++ List.map (start sc) ws) st' false).
Proof.
  intros [Hh|(i0 & cur0 & Hi0)] Ht Hst.
  2:{ right. destruct (decide (i0 = tid)) as [->|Hne].
      - destruct (step_thread_state sc _ _ _ _ _ _ Hst) as [Htag _].
        rewrite Hi0 in Ht. injection Ht as <-.
        destruct t' as [|g' cur']; [destruct Htag|]. cbn in Htag. subst g'.
        exists tid, cur'. cbn. eapply lookup_stepped_at; eauto.
      - exists i0, cur0. cbn. apply lookup_stepped_other; auto. }
  pose proof Hh as ((Hbc & Hbp & Hcc & Hcp) & (n & K & H0) & Hw).
  destruct tid as [|i].
  - rewrite H0 in Ht. injection Ht as <-. destruct n as [|n].
    + right. unfold startPostProcessingWorkers in Hst.
      destruct (Z.to_nat (WorkerPoolSize sc)) as [|m] eqn:Hm; [lia|].
      cbn in Hst. injection Hst as <- <- <-.
      exists (List.length (threads cfg)). eexists. cbn.
      rewrite lookup_app_r by (rewrite length_insert; lia).
      rewrite length_insert, Nat.sub_diag. reflexivity.
    + left. cbn in Hst. injection Hst as <- <- <-.
      split; [repeat split; assumption|]. split.
      * exists n, K. cbn. erewrite lookup_stepped_at by eauto. reflexivity.
      * intros j t1 Hj. cbn in Hj.
        apply lookup_stepped in Hj as [[E _]|[[_ Hj]|Hin]];
          [discriminate|eauto|].
        destruct Hin as [<-|[]]. eexists. split; [reflexivity|]. now left.
  - destruct (Hw i t Ht) as (cur & -> & Hcur). left.
    destruct Hcur as [->|[->| ->]].
    + unfold workerTurn in Hst. cbn in Hst. rewrite Hbc, Hcc in Hst.
      destruct (ctx_done (shared cfg) ctx); [|discriminate].
      injection Hst as <- <- <-. apply hiring_worker_step; eauto.
    + cbn in Hst. injection Hst as <- <- <-.
      apply hiring_worker_step; eauto.
    + cbn in Hst. discriminate.
Qed.

Lemma placed_step a cfg cfg' :
  Monitored owed owed_inv cfg -> placed sc ctx cfg ->
  step sc a cfg = Some cfg' -> placed sc ctx cfg'.
Proof.
  intros Hm [Hpw Hphase] Hs. unfold step in Hs.
  destruct (crashed cfg); [discriminate|].
  destruct a as [tid ch|id].
  2:{ injection Hs as <-. split.
      - intros i c cur Hi. cbn in Hi |- *. destruct (Hpw i c cur Hi) as [Hsh Hl].
        split; [exact Hsh|]. intros E. apply may_leave_cancel, Hl, E.
      - destruct Hphase as [(Hu & H0 & Hw)|Hst]; [left|right; exact Hst].
        split; [exact Hu|]. split; assumption. }
  destruct (threads cfg !! tid) as [t|] eqn:Ht; [|discriminate].
  destruct (step_thread sc t ch (shared cfg)) as [[[[t' st'] ws]|]|] eqn:Hst;
    [| |discriminate]; injection Hs as <-.
  - split.
    + eapply post_workers_placed_step; eauto.
    + eapply phase_step; eauto.
  - split; assumption.
Qed.

Lemma placed_initial :
  placed sc ctx (mkConfig [Run (Crawl sc ctx)] initialState false).
Proof.
  split.
  - intros [|i] c cur Hi; cbn in Hi; discriminate.
  - left. split; [repeat split; reflexivity|]. split.
    + unfold Crawl, startCrawlWorkers. eexists _, _. reflexivity.
    + intros i t Hi. cbn in Hi. discriminate.
Qed.

Lemma placed_run sched : forall cfg cfg',
  Monitored owed owed_inv cfg -> placed sc ctx cfg ->
  run sc sched cfg = Some cfg' -> placed sc ctx cfg'.
Proof.
  induction sched as [|a sched IH]; intros cfg cfg' Hm Hp Hrun; cbn in Hrun.
  - injection Hrun as <-. exact Hp.
  - destruct (step sc a cfg) as [cfg1|] eqn:Hs; [|discriminate].
    apply (IH cfg1 cfg'); [|eapply placed_step; eauto|exact Hrun].
    eapply (step_monitored sc owed owed_inv); [| | |exact Hm|exact Hs].
    + apply owed_worker.
    + intros. eapply owed_exec_sound; eauto.
    + apply owed_cancel_sound.
Qed.
End Placement.

(** *** The tasks handed over can always be run *)

Lemma only_calls_refl st : only_calls st st.
Proof. split; reflexivity. Qed.

Lemma only_calls_trans st1 st2 st3 :
  only_calls st1 st2 -> only_calls st2 st3 -> only_calls st1 st3.
Proof.
  intros [C1 H1] [C2 H2]. split; [congruence|]. intros kind. now rewrite H2, H1.
Qed.

(** A goroutine that holds a task is about to call its processor. *)
Lemma owes_next t d :
  accepts owed t (Some d) ->
  exists p c u page,
    d = (p, u, page)
    /\ ((exists k, t = Run (Op (Process p c u page) k))
        \/ (exists g k, t = Loop g (Op (Process p c u page) k))).
Proof.
  destruct t as [[r|X o k]|g [b|X o k]]; cbn; try discriminate.
  - intros [Hok _]. destruct o; try contradiction. cbn in Hok. subst d.
    eexists _, _, _, _. split; [reflexivity|]. left. eauto.
  - intros [Hok _]. destruct o; try contradiction. cbn in Hok. subst d.
    eexists _, _, _, _. split; [reflexivity|]. right. eauto.
Qed.

Section CanFinish.
Context `{GoLib}.
Variable sc : SiteCrawler.
Variable ctx : Context.
Hypothesis pool : 1 <= WorkerPoolSize sc.

Lemma reached_step a cfg cfg' :
  reached sc ctx cfg -> step sc a cfg = Some cfg' -> reached sc ctx cfg'.
Proof.
  intros [sched Hrun] Hs. exists (sched ++ [a])%list.
  rewrite run_app, Hrun. cbn. now rewrite Hs.
Qed.

Lemma reached_facts cfg :
  reached sc ctx cfg ->
  crashed cfg = false
  /\ Monitored owed owed_inv cfg
  /\ Monitored (drain sc) drain_inv cfg
  /\ placed sc ctx cfg.
Proof.
  intros [sched Hrun].
  assert (Hd0 : Monitored (drain sc) drain_inv
                  (mkConfig [Run (Crawl sc ctx)] initialState false)).
  { exists [mkGhost Seeding_ 0 0 0]. cbn. split.
    - repeat constructor. apply drain_Crawl.
    - apply drain_inv_initial. }
  split; [|split; [|split]].
  - eapply (run_safe sc (drain sc) drain_inv); [| | | |exact Hd0| |exact Hrun].
    + apply drain_worker.
    + intros. eapply drain_exec_sound; eauto.
    + apply drain_cancel_sound.
    + intros. eapply drain_exec_safe; eauto.
    + reflexivity.
  - eapply owed_monitored; eauto.
  - eapply drain_monitored; eauto.
  - eapply (placed_run sc ctx pool); [| |exact Hrun].
    + exists [None]. cbn. split; [repeat constructor; apply owed_Crawl|].
      apply owed_inv_initial.
    + apply placed_initial.
Qed.

Lemma proceeds_refl cfg : reached sc ctx cfg -> proceeds sc ctx cfg cfg.
Proof.
  intros Hr. split; [now exists []|]. split; [exact Hr|apply only_calls_refl].
Qed.

Lemma proceeds_trans cfg1 cfg2 cfg3 :
  proceeds sc ctx cfg1 cfg2 -> proceeds sc ctx cfg2 cfg3 ->
  proceeds sc ctx cfg1 cfg3.
Proof.
  intros ([s1 R1] & _ & C1) ([s2 R2] & Hr & C2). split; [|split].
  - exists (s1 ++ s2)%list. now rewrite run_app, R1.
  - exact Hr.
  - eapply only_calls_trans; eauto.
Qed.

Lemma proceeds_step a cfg cfg' :
  reached sc ctx cfg -> step sc a cfg = Some cfg' ->
  only_calls (shared cfg) (shared cfg') ->
  proceeds sc ctx cfg cfg'.
Proof.
  intros Hr Hs Hc. split; [|split].
  - exists [a]. cbn. now rewrite Hs.
  - eapply reached_step; eauto.
  - exact Hc.
Qed.

(** A step does not crash. *)
Lemma reached_safe a cfg cfg' :
  reached sc ctx cfg -> step sc a cfg = Some cfg' -> crashed cfg' = false.
Proof.
  intros Hr Hs. apply (reached_facts cfg') , (reached_step a cfg cfg' Hr Hs).
Qed.

(** The goroutines that hold a task call their processors. *)
Lemma flush n : forall cfg,
  reached sc ctx cfg ->
  (handovers_of any_kind (trace (shared cfg))
   = calls_of any_kind (trace (shared cfg))
     + queued_of any_kind (buf (postProcessQueue (shared cfg))) + n)%nat ->
  exists cfg',
    proceeds sc ctx cfg cfg' /\ settled (shared cfg')
    /\ buf (postProcessQueue (shared cfg')) = buf (postProcessQueue (shared cfg)).
Proof.
  induction n as [|n IH]; intros cfg Hr Hn.
  - exists cfg. split; [now apply proceeds_refl|]. split; [|reflexivity].
    unfold settled. lia.
  - destruct (reached_facts cfg Hr) as (Hc & (gs & Hacc & HI) & _ & _).
    pose proof (owed_balance _ _ HI any_kind) as Hb.
    destruct (owing_found gs) as (i & d & Hi); [lia|].
    destruct (Forall2_lookup_r _ _ _ _ _ Hacc Hi) as (t & Ht & Hat).
    destruct (owes_next t d Hat) as (p & c & u & page & _ & Ht').
    assert (Hstep : exists ts',
               step sc (Step i take_task) cfg
               = Some (mkConfig ts' (record (shared cfg) (EvProcess p u page)) false)).
    { destruct Ht' as [[k ->]|(g & k & ->)]; eexists.
      - eapply step_run_op; eauto.
      - eapply step_loop_op; eauto. }
    destruct Hstep as [ts' Hstep].
    set (cfg1 := mkConfig ts' (record (shared cfg) (EvProcess p u page)) false) in *.
    assert (Hp1 : proceeds sc ctx cfg cfg1).
    { apply (proceeds_step (Step i take_task)); [exact Hr|exact Hstep|].
      split; [reflexivity|]. intros kind. cbn. now rewrite handovers_of_cons. }
    destruct (IH cfg1) as (cfg' & Hp' & Hs' & Hb').
    + apply Hp1.
    + cbn. rewrite handovers_of_cons, calls_of_cons. cbn. lia.
    + exists cfg'. split; [eapply proceeds_trans; eauto|]. split; [exact Hs'|].
      rewrite Hb'. reflexivity.
Qed.
End CanFinish.

Section Drain.
Context `{GoLib}.
Variable sc : SiteCrawler.
Variable ctx : Context.
Hypothesis pool : 1 <= WorkerPoolSize sc.

Lemma exec_take st t rest :
  buf (postProcessQueue st) = t :: rest -> ctx_done st ctx = false ->
  exec (Select ctx PostProcessQueue) take_task st
  = Stepped (SelRecv (Some t))
      (set_chan st PostProcessQueue (mkChan rest (closed (postProcessQueue st)))).
Proof. intros Hb Hd. cbn. now rewrite Hb, Hd. Qed.

Lemma proceeds_live cfg cfg' :
  proceeds sc ctx cfg cfg' ->
  ctx_done (shared cfg) ctx = false -> ctx_done (shared cfg') ctx = false.
Proof.
  intros (_ & _ & [Hc _]) Hd. now rewrite (ctx_done_same _ _ ctx Hc).
Qed.

(** A worker about to start a turn gets to its [select]. *)
Lemma from_turn cfg i :
  reached sc ctx cfg ->
  threads cfg !! i = Some (Loop (PostProcessWorker ctx) (Ret true)) ->
  exists cfg1,
    proceeds sc ctx cfg cfg1 /\ shared cfg1 = shared cfg
    /\ threads cfg1 !! i
       = Some (Loop (PostProcessWorker ctx) (workerTurn sc ctx PostProcessQueue)).
Proof.
  intros Hr Hi. destruct (reached_facts sc ctx pool cfg Hr) as (Hc & _).
  pose proof (step_restart sc cfg i _ take_task Hc Hi) as Hstep.
  eexists. split.
  - exact (proceeds_step sc ctx _ _ _ Hr Hstep (only_calls_refl _)).
  - split; [reflexivity|]. cbn. eapply lookup_stepped_at; eauto.
Qed.

(** A post-processing worker that holds no task gets to its [select], as
    long as its context is not done and the queue is not empty. *)
Lemma to_select cfg i cur :
  reached sc ctx cfg -> settled (shared cfg) ->
  threads cfg !! i = Some (Loop (PostProcessWorker ctx) cur) ->
  buf (postProcessQueue (shared cfg)) <> [] ->
  ctx_done (shared cfg) ctx = false ->
  exists cfg1,
    proceeds sc ctx cfg cfg1 /\ settled (shared cfg1)
    /\ buf (postProcessQueue (shared cfg1)) = buf (postProcessQueue (shared cfg))
    /\ threads cfg1 !! i
       = Some (Loop (PostProcessWorker ctx) (workerTurn sc ctx PostProcessQueue)).
Proof.
  intros Hr Hs Hi Hbuf Hlive.
  destruct (reached_facts sc ctx pool cfg Hr) as (Hc & (gs & Hacc & HI) & _ & (Hpw & _)).
  destruct (Hpw i ctx cur Hi) as [Hsh Hl]. destruct Hsh.
  - exists cfg. split; [now apply proceeds_refl|]. auto.
  - destruct (from_turn cfg i Hr Hi) as (cfg1 & Hp & E & Hi1).
    exists cfg1. rewrite E. auto.
  - destruct (Hl eq_refl) as [Hd|[_ Hb]]; congruence.
  - exfalso. destruct (Forall2_lookup_l _ _ _ _ _ Hacc Hi) as (gh & Hg & Hat).
    cbn in Hat. destruct Hat as [Hok _]. destruct gh as [d|]; [|exact Hok].
    pose proof (owing_held gs i d Hg).
    pose proof (owed_balance _ _ HI any_kind). unfold settled in Hs. lia.
  - cbn in Hi.
    destruct (exec (WgAdd postProcessWg (-1)) take_task (shared cfg))
      as [x st'| |] eqn:E.
    + pose proof (step_loop_op sc cfg i _ _ _ _ take_task x st' Hc Hi E) as Hstep.
      cbn in Hstep. cbn in E. destruct (_ <? _)%Z; [discriminate|].
      injection E as <- <-.
      match type of Hstep with _ = Some ?c => set (cfg1 := c) in * end.
      assert (Hp1 : proceeds sc ctx cfg cfg1).
      { eapply proceeds_step; [exact Hr|exact Hstep|]. split; reflexivity. }
      destruct (from_turn cfg1 i) as (cfg2 & Hp2 & E2 & Hi2).
      { apply Hp1. }
      { cbn. eapply lookup_stepped_at; eauto. }
      exists cfg2. split; [eapply proceeds_trans; eauto|]. rewrite E2. auto.
    + cbn in E. destruct (_ <? _)%Z; discriminate.
    + exfalso.
      assert (Hstep : step sc (Step i take_task) cfg
                      = Some (mkConfig (threads cfg) (shared cfg) true)).
      { unfold step. rewrite Hc, Hi. cbn [step_thread step_prog]. now rewrite E. }
      pose proof (reached_safe sc ctx pool _ _ _ Hr Hstep). discriminate.
Qed.

(** A post-processing worker empties the queue. *)
Lemma drain_queue n : forall cfg,
  reached sc ctx cfg -> settled (shared cfg) ->
  List.length (buf (postProcessQueue (shared cfg))) = n ->
  ctx_done (shared cfg) ctx = false ->
  exists cfg',
    proceeds sc ctx cfg cfg' /\ settled (shared cfg')
    /\ buf (postProcessQueue (shared cfg')) = [].
Proof.
  induction n as [|n IH]; intros cfg Hr Hs Hlen Hlive.
  - exists cfg. split; [now apply proceeds_refl|]. split; [exact Hs|].
    now apply List.length_zero_iff_nil.
  - destruct (buf (postProcessQueue (shared cfg))) as [|t rest] eqn:Hbuf;
      [discriminate|].
    destruct (reached_facts sc ctx pool cfg Hr) as (_ & _ & _ & (_ & Hphase)).
    destruct Hphase as [((_ & Hbp & _) & _)|(i & cur & Hi)]; [congruence|].
    destruct (to_select cfg i cur Hr Hs Hi) as (cfg1 & Hp1 & Hs1 & Hb1 & Hi1);
      [congruence|exact Hlive|].
    rewrite Hbuf in Hb1.
    pose proof (proceeds_live _ _ Hp1 Hlive) as Hlive1.
    assert (Hr1 : reached sc ctx cfg1) by apply Hp1.
    destruct (reached_facts sc ctx pool cfg1 Hr1) as (Hc1 & (gs1 & _ & HI1) & _ & _).
    pose proof (owed_shaped _ _ HI1 PostProcessQueue) as Hq. cbn in Hq.
    rewrite Hb1 in Hq. apply Forall_cons in Hq as [Ht _].
    destruct t as [|c p u page]; [destruct Ht|].
    (* the worker takes the task *)
    pose proof (step_loop_op sc cfg1 i _ _ _ _ take_task _ _ Hc1 Hi1
                  (exec_take _ _ _ Hb1 Hlive1)) as Hstep2.
    cbn in Hstep2.
    match type of Hstep2 with _ = Some ?c => set (cfg2 := c) in * end.
    assert (Hp2 : proceeds sc ctx cfg1 cfg2).
    { eapply proceeds_step; [exact Hr1|exact Hstep2|]. split; reflexivity. }
    (* and calls the processor *)
    assert (Hi2 : threads cfg2 !! i
                  = Some (Loop (PostProcessWorker ctx)
                            (runTask sc (ProcessTask c p u page) ;; Ret true))).
    { cbn. eapply lookup_stepped_at; eauto. }
    cbn in Hi2.
    pose proof (step_loop_op sc cfg2 i _ _ _ _ take_task _ _ eq_refl Hi2 eq_refl)
      as Hstep3.
    match type of Hstep3 with _ = Some ?c => set (cfg3 := c) in * end.
    assert (Hp3 : proceeds sc ctx cfg2 cfg3).
    { eapply proceeds_step; [apply Hp2|exact Hstep3|]. split; [reflexivity|].
      intros kind. cbn. now rewrite handovers_of_cons. }
    destruct (IH cfg3) as (cfg' & Hp' & Hs' & Hb').
    + apply Hp3.
    + unfold settled in Hs1 |- *. cbn. rewrite Hb1 in Hs1.
      rewrite handovers_of_cons, calls_of_cons. rewrite queued_of_cons in Hs1.
      cbn in Hs1 |- *. lia.
    + cbn in Hlen |- *. lia.
    + cbn. rewrite <- Hlive1. apply ctx_done_same. reflexivity.
    + exists cfg'. split; [|auto].
      eapply proceeds_trans; [exact Hp1|].
      eapply proceeds_trans; [exact Hp2|].
      eapply proceeds_trans; [exact Hp3|exact Hp'].
Qed.

(** From every configuration of a call of [Crawl] whose context is not
    done, the workers can run every task that was handed over. *)
Lemma can_finish cfg :
  reached sc ctx cfg -> ctx_done (shared cfg) ctx = false ->
  exists sched cfg',
    run sc sched cfg = Some cfg'
    /\ (forall kind,
          calls_of kind (trace (shared cfg'))
          = handovers_of kind (trace (shared cfg')))
    /\ (forall kind,
          handovers_of kind (trace (shared cfg'))
          = handovers_of kind (trace (shared cfg))).
Proof.
  intros Hr Hlive.
  destruct (reached_facts sc ctx pool cfg Hr) as (_ & (gs & _ & HI) & _ & _).
  destruct (flush sc ctx pool (owing any_kind gs) cfg Hr)
    as (cfg1 & Hp1 & Hs1 & Hb1).
  { pose proof (owed_balance _ _ HI any_kind). lia. }
  destruct (drain_queue _ cfg1 (proj1 (proj2 Hp1)) Hs1 eq_refl
              (proceeds_live _ _ Hp1 Hlive)) as (cfg2 & Hp2 & Hs2 & Hb2).
  pose proof (proceeds_trans sc ctx _ _ _ Hp1 Hp2) as ([sched Hrun] & Hr2 & [_ Hh]).
  exists sched, cfg2. split; [exact Hrun|]. split; [|exact Hh].
  intros kind.
  destruct (reached_facts sc ctx pool cfg2 Hr2) as (_ & (gs2 & _ & HI2) & _ & _).
  pose proof (owed_balance _ _ HI2 any_kind) as Ba.
  pose proof (owed_balance _ _ HI2 kind) as Bk.
  pose proof (owing_any kind gs2).
  unfold settled in Hs2. rewrite Hb2 in Hs2, Ba, Bk.
  unfold queued_of in *. cbn in *. lia.
Qed.
End Drain.

(** *** When [Crawl] has returned *)

Section Tallied.
Context `{GoLib}.
Variable sc : SiteCrawler.

Lemma tallied_worker g :
  wp (both (drain sc) owed) (goroutineTurn sc g) (mon_idle (both (drain sc) owed))
    (fun _ g' => g' = mon_idle (both (drain sc) owed)).
Proof.
  eapply wp_mono;
    [|apply (wp_both (drain sc) owed _ _ _ _ _
               (drain_worker sc g) (owed_worker sc g))].
  intros a [g1 g2] [H1 H2]. cbn in *. now subst.
Qed.

Lemma tallied_cancel_sound gs st id :
  tallied_inv gs st -> tallied_inv gs (set_cancelled st ({[id]} ∪ cancelled st)).
Proof.
  intros (HD & HO & Hlink).
  split; [now apply drain_cancel_sound|]. split; [now apply owed_cancel_sound|].
  exact Hlink.
Qed.

Lemma tallied_exec_sound gs tid g X (o : op X) c st x st' :
  tallied_inv gs st -> gs !! tid = Some g ->
  mon_ok (both (drain sc) owed) g o ->
  exec o c st = Stepped x st' ->
  mon_poss (both (drain sc) owed) g o x
  /\ tallied_inv
       (<[tid := mon_next (both (drain sc) owed) g o x]> gs
        ++ replicate (List.length (spawned o)) (mon_idle (both (drain sc) owed)))%list
       st'.
Proof.
  intros (HD & HO & Hlink) Hg [Hok1 Hok2] Hexec.
  assert (Hg1 : (fst <$> gs) !! tid = Some (fst g))
    by (rewrite list_lookup_fmap, Hg; reflexivity).
  assert (Hg2 : (snd <$> gs) !! tid = Some (snd g))
    by (rewrite list_lookup_fmap, Hg; reflexivity).
  destruct (drain_exec_sound sc (fst <$> gs) tid (fst g) X o c st x st'
              HD Hg1 Hok1 Hexec) as [Hp1 HD'].
  destruct (owed_exec_sound (snd <$> gs) tid (snd g) X o c st x st'
              HO Hg2 Hok2 Hexec) as [Hp2 HO'].
  split; [split; assumption|]. split; [|split].
  - rewrite fmap_app, list_fmap_insert, fmap_replicate. exact HD'.
  - rewrite fmap_app, list_fmap_insert, fmap_replicate. exact HO'.
  - intros j y Hj Hne. apply lookup_moved in Hj as [->|[Hj| ->]].
    + cbn [mon_next both fst snd] in *.
      pose proof (ghost_bounds _ _ HD tid (fst g) Hg1) as Hb.
      pose proof (Hlink tid g Hg) as Hheld.
      destruct (snd g) as [d|];
        destruct o as [key|wg delta|wg|q t|q|ctx q|ctx|ctx rawurl|p ctx u page|w];
        cbn in Hok2; try contradiction; cbn in Hne; try congruence.
      destruct x as [|[[c0 u0|c0 p0 u0 page0]|]]; try congruence;
        destruct q; cbn in Hp2 |- *; [contradiction|lia].
    + exact (Hlink j y Hj Hne).
    + cbn in Hne. congruence.
Qed.

Lemma tallied_monitored ctx sched cfg :
  run sc sched (mkConfig [Run (Crawl sc ctx)] initialState false) = Some cfg ->
  Monitored (both (drain sc) owed) tallied_inv cfg.
Proof.
  intros Hrun.
  eapply (run_monitored sc (both (drain sc) owed) tallied_inv);
    [| | |..|exact Hrun].
  - apply tallied_worker.
  - intros. eapply tallied_exec_sound; eauto.
  - apply tallied_cancel_sound.
  - exists [(mkGhost Seeding_ 0 0 0, None)]. cbn. split.
    + repeat constructor.
      eapply wp_mono;
        [|apply (wp_both (drain sc) owed _ _ _ _ _
                   (drain_Crawl sc ctx) (owed_Crawl sc ctx))].
      intros a g [H1 H2]. split; assumption.
    + split; [apply drain_inv_initial|]. split; [apply owed_inv_initial|].
      intros [|i] g Hi Hne; cbn in Hi; [|destruct i; discriminate].
      injection Hi as <-. now destruct Hne.
Qed.

(** When [Crawl] has returned after the whole shutdown, every task that
    was handed over has been run. *)
Lemma calls_at_return ctx sched cfg r :
  run sc sched (mkConfig [Run (Crawl sc ctx)] initialState false) = Some cfg ->
  threads cfg !! 0%nat = Some (Run (Ret r)) ->
  is_ok (URL_Parse (BaseURL sc) "/sitemap.xml") = true ->
  forall kind,
    calls_of kind (trace (shared cfg)) = handovers_of kind (trace (shared cfg)).
Proof.
  intros Hrun Hret Hparse kind.
  destruct (tallied_monitored ctx sched cfg Hrun) as (gs & Hacc & HD & HO & Hlink).
  destruct (Forall2_lookup_l _ _ _ _ _ Hacc Hret) as (g & Hg & Hdone).
  cbn in Hdone. destruct Hdone as [[Hfin|[_ Hfail]] _]; [|congruence].
  assert (Hg1 : (fst <$> gs) !! 0%nat = Some (fst g))
    by (rewrite list_lookup_fmap, Hg; reflexivity).
  assert (Hst : stage_ok Finished (shared cfg)).
  { destruct (drain_caller _ _ 0%nat (fst g) HD Hg1) as [[_ Hst]|[Hw _]];
      [now rewrite Hfin in Hst|congruence]. }
  destruct Hst as (_ & _ & _ & Hp).
  destruct (total_bounds post_units (fst <$> gs)) as [Tp0 _].
  { intros i y Hy. pose proof (ghost_bounds _ _ HD i y Hy). lia. }
  destruct (total_bounds pending (fst <$> gs)) as [_ Td].
  { intros i y Hy. pose proof (ghost_bounds _ _ HD i y Hy). lia. }
  assert (Tle : total pending (fst <$> gs) <= total post_units (fst <$> gs)).
  { apply total_le. intros i y Hy. pose proof (ghost_bounds _ _ HD i y Hy). lia. }
  pose proof (post_accounted _ _ HD) as H2.
  assert (Hpb : buf (postProcessQueue (shared cfg)) = [])
    by (apply List.length_zero_iff_nil; lia).
  assert (Hnone : owing any_kind (snd <$> gs) = 0%nat).
  { destruct (owing any_kind (snd <$> gs)) as [|n] eqn:E; [reflexivity|].
    destruct (owing_found (snd <$> gs)) as (i & d & Hi); [lia|].
    rewrite list_lookup_fmap in Hi.
    destruct (gs !! i) as [y|] eqn:Hy; [|discriminate]. cbn in Hi.
    assert (Hne : snd y <> None) by congruence.
    pose proof (Hlink i y Hy Hne).
    assert (Hy1 : (fst <$> gs) !! i = Some (fst y))
      by (rewrite list_lookup_fmap, Hy; reflexivity).
    pose proof (Td i (fst y) Hy1). lia. }
  pose proof (owed_balance _ _ HO kind) as Bk.
  pose proof (owing_any kind (snd <$> gs)).
  rewrite Hpb in Bk. unfold queued_of in Bk. cbn in Bk. lia.
Qed.
End Tallied.

(** A caller blocked in [postProcessWg.Wait()] beside workers that have
    returned: whatever is scheduled, nothing happens any more. *)
Lemma waits_for_ever `{GoLib} sc k g1 g2 sched : forall cfg cfg',
  threads cfg = [Run (Op (WgWait postProcessWg) k); Loop g1 (Ret false);
                 Loop g2 (Ret false)] ->
  postProcessWgCount (shared cfg) <> 0 ->
  run sc sched cfg = Some cfg' ->
  trace (shared cfg') = trace (shared cfg).
Proof.
  induction sched as [|a sched IH]; intros cfg cfg' Hth Hcount Hrun; cbn in Hrun.
  - injection Hrun as <-. reflexivity.
  - destruct (step sc a cfg) as [cfg1|] eqn:Hs; [|discriminate].
    assert (Hkeep : threads cfg1 = threads cfg
                    /\ postProcessWgCount (shared cfg1) = postProcessWgCount (shared cfg)
                    /\ trace (shared cfg1) = trace (shared cfg)).
    { unfold step in Hs. destruct (crashed cfg); [discriminate|].
      destruct a as [tid ch|id].
      - rewrite Hth in Hs. destruct tid as [|[|[|tid]]]; cbn in Hs; try discriminate.
        destruct (Z.eqb_spec (postProcessWgCount (shared cfg)) 0);
          [contradiction|discriminate].
      - injection Hs as <-. cbn. auto. }
    destruct Hkeep as (E1 & E2 & E3). rewrite <- E3.
    apply (IH cfg1 cfg'); congruence.
Qed.

(** ** C4: dispatch to the processors *)

Section DispatchInRuns.
Context `{GoLib}.
Variable sc : SiteCrawler.

(** C4, as the code has it.  [html.Parse] does not fail on a string held
    in memory.

    A call of [CrawlPage] invokes no processor itself.  When it fetched no
    page (the context was done, the request failed, the status was not 2XX
    or the body could not be read) it sends nothing on either queue and
    does not touch the ledger: no link is extracted and nothing is handed
    over.  When it fetched the page it sends on the post-processing queue
    exactly one task per registered processor, in order, each with the
    page's URL and content.

    In a call of [Crawl] on a fresh crawler, under every schedule and
    whatever the server and the processors answer, for every kind of
    processor call (a processor, a page URL, a content): the calls made are
    at most the tasks of that kind handed over, so a processor is called
    only with the URL and content of a task, and at most once per task;
    the calls on the pages of one URL string are at most as many as there
    are registered processors; once [Crawl] has returned after its
    shutdown, the calls are exactly the tasks handed over; and as long as
    the context of the crawl is not done and the pools have a worker, the
    workers can run every task handed over: some schedule leads on to a
    state where the calls are exactly the tasks handed over, with nothing
    new handed over on the way.

    The calls are made by the post-processing workers, and these return on
    [ctx.Done()] whatever the queue holds: after a cancellation the tasks
    left in the queue are never run. *)
Theorem CrawlPage_dispatch ctx pageURL obs crawlCtx sched cfg :
  (forall s, is_ok (html_Parse s) = true) ->
  runs (CrawlPage sc ctx pageURL) obs tt ->
  run sc sched (mkConfig [Run (Crawl sc crawlCtx)] initialState false) = Some cfg ->
  (invocations obs = []
   /\ match fetched pageURL obs with
      | None =>
          sends PostProcessQueue obs = [] /\ sends CrawlQueue obs = []
          /\ ledger_calls obs = []
      | Some page =>
          sends PostProcessQueue obs
          = List.map (fun p => ProcessTask ctx p pageURL page) (postProcessors sc)
      end)
  /\ (forall kind,
        (calls_of kind (trace (shared cfg))
         <= handovers_of kind (trace (shared cfg)))%nat)
  /\ (forall s,
        (calls_of (fun _ u _ => String.eqb (url_String u) s) (trace (shared cfg))
         <= List.length (postProcessors sc))%nat)
  /\ (forall r,
        threads cfg !! 0%nat = Some (Run (Ret r)) ->
        is_ok (URL_Parse (BaseURL sc) "/sitemap.xml") = true ->
        forall kind,
          calls_of kind (trace (shared cfg))
          = handovers_of kind (trace (shared cfg)))
  /\ (1 <= WorkerPoolSize sc ->
      ctx_done (shared cfg) crawlCtx = false ->
      exists sched' cfg',
        run sc sched' cfg = Some cfg'
        /\ (forall kind,
              calls_of kind (trace (shared cfg'))
              = handovers_of kind (trace (shared cfg')))
        /\ (forall kind,
              handovers_of kind (trace (shared cfg'))
              = handovers_of kind (trace (shared cfg)))).
Proof.
  intros Hhtml Hcall Hrun. split; [|split; [|split; [|split]]].
  - now apply CrawlPage_hands_over.
  - intros kind. destruct (owed_monitored sc crawlCtx sched cfg Hrun) as (gs & _ & HI).
    pose proof (owed_balance _ _ HI kind). lia.
  - intros s.
    change (calls_of (fun _ u _ => String.eqb (url_String u) s) (trace (shared cfg)))
      with (times_processed s (trace (shared cfg))).
    destruct (quota_monitored sc crawlCtx sched cfg Hrun) as (gs & _ & HI).
    assert (Hts : Forall (CrawlerThread sc) [Run (Crawl sc crawlCtx)])
      by (repeat constructor).
    destruct (ledger_monitored sc _ sched cfg Hts Hrun) as (gs' & _ & HI').
    pose proof (quota_budget _ _ _ HI s) as Hb.
    pose proof (sent_once _ _ HI' s) as Hone.
    change (List.length (postProcessors sc)) with (fanout sc).
    assert (fanout sc * enqueued s (trace (shared cfg)) <= fanout sc * 1)%nat
      by (apply Nat.mul_le_mono_l; exact Hone).
    lia.
  - intros r Hret Hparse. eapply calls_at_return; eauto.
  - intros Hpool Hlive. apply (can_finish sc crawlCtx Hpool); [|exact Hlive].
    now exists sched.
Qed.
End DispatchInRuns.

(** The crawl of the one-page site up to the two [close] calls, for
    [CrawlPage_dispatch]: the call of [CrawlPage] on the base page, answered
    200, hands over one task for the one processor; the task is in the queue,
    not run yet, and a schedule leads on to a state where it has been run. *)
Lemma CrawlPage_dispatch_witness :
  let task := ProcessTask Example.ctx 0%nat Example.base "hello" in
  let obs := [Obs (CtxDone Example.ctx) false;
              Obs (ClientDo (WithTimeout Example.ctx 1000) "https://example.com")
                (Ok (mkResponse 200 (Ok "hello")));
              Obs (WgAdd postProcessWg 1) tt;
              Obs (ChanSend PostProcessQueue task) tt] in
  sends PostProcessQueue obs = [task]
  /\ calls_of any_kind (trace (shared OnePage.at_close)) = 0%nat
  /\ exists sched' cfg',
       run (H := Example.exampleLib) OnePage.sc sched' OnePage.at_close = Some cfg'
       /\ calls_of any_kind (trace (shared cfg')) = 1%nat.
Proof.
  intros task obs.
  destruct (@CrawlPage_dispatch Example.exampleLib OnePage.sc Example.ctx Example.base
              obs Example.ctx OnePage.until_closed OnePage.at_close)
    as ((_ & Hs) & _ & _ & _ & Hfinish).
  - exact Example_parse_html_total.
  - subst obs task. unfold CrawlPage. runs_build.
  - apply (run_ends (H := Example.exampleLib)). vm_compute. reflexivity.
  - split; [exact Hs|]. split; [vm_compute; reflexivity|].
    destruct Hfinish as (sched' & cfg' & Hrun & Hall & Hsame).
    + vm_compute. discriminate.
    + vm_compute. reflexivity.
    + exists sched', cfg'. split; [exact Hrun|].
      rewrite (Hall any_kind), (Hsame any_kind). vm_compute. reflexivity.
Defined.

(** C4 as the spec words it fails: a page was fetched with one processor
    registered and its task was handed over, but the context was cancelled
    and the post-processing worker returned; the processor is never called,
    whatever is scheduled afterwards. *)
Lemma processor_never_called_after_cancel :
  let task := ProcessTask Example.ctx 0%nat Example.base "hello" in
  run (H := Example.exampleLib) OnePage.sc Cancelled.sched OnePage.cfg0
  = Some Cancelled.at_rest
  /\ postProcessors OnePage.sc = [0%nat]
  /\ trace (shared Cancelled.at_rest)
     = [EvClose PostProcessQueue; EvClose CrawlQueue;
        EvEnqueue PostProcessQueue task;
        EvRequest "https://example.com";
        EvEnqueue CrawlQueue (CrawlTask Example.ctx Example.base);
        EvRequest "https://example.com/sitemap.xml"]
  /\ buf (postProcessQueue (shared Cancelled.at_rest)) = [task]
  /\ forall sched' cfg',
       run (H := Example.exampleLib) OnePage.sc sched' Cancelled.at_rest = Some cfg' ->
       calls_of any_kind (trace (shared cfg')) = 0%nat.
Proof.
  intros task.
  split; [apply (run_ends (H := Example.exampleLib)); vm_compute; reflexivity|].
  split; [reflexivity|]. split; [vm_compute; reflexivity|].
  split; [vm_compute; reflexivity|].
  intros sched' cfg' Hrun.
  rewrite (waits_for_ever (H := Example.exampleLib) OnePage.sc (fun _ => Ret None)
             (CrawlWorker Example.ctx) (PostProcessWorker Example.ctx)
             sched' Cancelled.at_rest cfg').
  - vm_compute. reflexivity.
  - vm_compute. reflexivity.
  - vm_compute. discriminate.
  - exact Hrun.
Qed.
